(** * A shallow embedding of the limit order book engine

    The development models [include/order.hpp], [include/order_book.hpp],
    [src/order_book.cpp], [include/matching_engine.hpp] and
    [src/matching_engine.cpp].

    Pointers are modelled as optional slot indices into explicit stores:
    an [Order*] is an index into the store of order records, a
    [PriceLevel*] is an index into the owning book's [price_level_pool_].
    Every method threads the stores explicitly and returns [None] where the
    C++ would dereference a null or dangling pointer, index a pool out of
    range, or (for a loop) where the supplied fuel is exhausted.
    Fixed-width unsigned integers are [Z] with the wrap-around written out.
    Console output ([std::cout] / [std::cerr]) is not modelled; debug
    [assert]s are compiled out, as in a release build. *)

From Stdlib Require Import Strings.Byte.
From Stdlib Require Import Floats.PrimFloat Floats.FloatOps Floats.SpecFloat.
From Stdlib Require Import Numbers.Cyclic.Int63.Uint63.
From stdpp Require Import gmap strings list fin_maps sorting pretty.

Local Open Scope Z_scope.

(** ** Scalars *)

Definition u32 (z : Z) : Z := z mod 2 ^ 32.
Definition u64 (z : Z) : Z := z mod 2 ^ 64.

Abbreviation addr := nat.
Abbreviation ptr := (option addr).
Abbreviation nullptr := (@None addr).

Inductive Side := BUY | SELL.
Inductive OrderType := LIMIT | MARKET | CANCEL.

#[global] Instance Side_eq_dec : EqDecision Side.
Proof. solve_decision. Defined.
#[global] Instance OrderType_eq_dec : EqDecision OrderType.
Proof. solve_decision. Defined.

(** ** [struct Order] *)

Module Order.
Record t := mk {
  order_id : Z;
  timestamp : Z;
  price : Z;
  quantity : Z;
  remaining_quantity : Z;
  side : Side;
  type : OrderType;
  next : ptr;
  prev : ptr;
  parent_level : ptr
}.

(** [Order()] *)
Definition default : t :=
  mk 0 0 0 0 0 BUY LIMIT nullptr nullptr nullptr.

(** [Order(id, ts, p, qty, s, t)] *)
Definition make (id ts p qty : Z) (s : Side) (ty : OrderType) : t :=
  mk id ts p qty qty s ty nullptr nullptr nullptr.

Definition set_remaining_quantity (v : Z) (o : t) : t :=
  mk (order_id o) (timestamp o) (price o) (quantity o) v
     (side o) (type o) (next o) (prev o) (parent_level o).
Definition set_next (v : ptr) (o : t) : t :=
  mk (order_id o) (timestamp o) (price o) (quantity o) (remaining_quantity o)
     (side o) (type o) v (prev o) (parent_level o).
Definition set_prev (v : ptr) (o : t) : t :=
  mk (order_id o) (timestamp o) (price o) (quantity o) (remaining_quantity o)
     (side o) (type o) (next o) v (parent_level o).
Definition set_parent_level (v : ptr) (o : t) : t :=
  mk (order_id o) (timestamp o) (price o) (quantity o) (remaining_quantity o)
     (side o) (type o) (next o) (prev o) v.
End Order.

(** The store of order records, indexed by address. *)
Abbreviation heap := (gmap addr Order.t).

(** ** [struct ExecutionReport] *)

Module ExecutionReport.
Record t := mk {
  order_id : Z;
  match_id : Z;
  timestamp : Z;
  price : Z;
  executed_quantity : Z;
  side : Side;
  is_full_fill : bool
}.

Definition default : t := mk 0 0 0 0 0 BUY false.
End ExecutionReport.

(** ** [class SPSCQueue<T, Capacity>]

    [Capacity] is [2 ^ k]; the [static_assert] of the template is built into
    that shape.  [head_] and [tail_] are [size_t] values. *)

Module SPSCQueue.
Section Queue.
Context {T : Type}.
Variable k : Z.

Definition Capacity : Z := 2 ^ k.

Record t := mk {
  head_ : Z;
  tail_ : Z;
  buffer_ : list T
}.

(** [SPSCQueue()]: both indices zero; [dflt] fills the array. *)
Definition init (dflt : T) : t :=
  mk 0 0 (replicate (Z.to_nat Capacity) dflt).

Definition push (item : T) (q : t) : bool * t :=
  let head := head_ q in
  let next_head := Z.land (u64 (head + 1)) (Capacity - 1) in
  if decide (next_head = tail_ q) then (false, q)
  else (true, mk next_head (tail_ q) (<[Z.to_nat head := item]> (buffer_ q))).

Definition pop (q : t) : option T * t :=
  let tail := tail_ q in
  if decide (tail = head_ q) then (None, q)
  else match buffer_ q !! Z.to_nat tail with
       | Some item =>
           (Some item, mk (head_ q) (Z.land (u64 (tail + 1)) (Capacity - 1)) (buffer_ q))
       | None => (None, q)
       end.

Definition empty (q : t) : bool := bool_decide (tail_ q = head_ q).

Definition size (q : t) : Z :=
  if decide (tail_ q <= head_ q) then head_ q - tail_ q
  else u64 (u64 (Capacity - tail_ q) + head_ q).
End Queue.
Arguments t : clear implicits.
Arguments mk {T}.
End SPSCQueue.

(** ** [class PriceLevel] *)

Module PriceLevel.
Record t := mk {
  price : Z;
  total_volume : Z;
  order_count : Z;
  head_order : ptr;
  tail_order : ptr;
  parent : ptr;
  left : ptr;
  right : ptr
}.

(** [PriceLevel(p)] *)
Definition make (p : Z) : t := mk p 0 0 nullptr nullptr nullptr nullptr nullptr.

Definition set_total_volume (v : Z) (l : t) : t :=
  mk (price l) v (order_count l) (head_order l) (tail_order l)
     (parent l) (left l) (right l).
Definition set_order_count (v : Z) (l : t) : t :=
  mk (price l) (total_volume l) v (head_order l) (tail_order l)
     (parent l) (left l) (right l).
Definition set_head_order (v : ptr) (l : t) : t :=
  mk (price l) (total_volume l) (order_count l) v (tail_order l)
     (parent l) (left l) (right l).
Definition set_tail_order (v : ptr) (l : t) : t :=
  mk (price l) (total_volume l) (order_count l) (head_order l) v
     (parent l) (left l) (right l).
Definition set_parent (v : ptr) (l : t) : t :=
  mk (price l) (total_volume l) (order_count l) (head_order l) (tail_order l)
     v (left l) (right l).
Definition set_left (v : ptr) (l : t) : t :=
  mk (price l) (total_volume l) (order_count l) (head_order l) (tail_order l)
     (parent l) v (right l).
Definition set_right (v : ptr) (l : t) : t :=
  mk (price l) (total_volume l) (order_count l) (head_order l) (tail_order l)
     (parent l) (left l) v.

(** The store of price levels of one book, indexed by address. *)
Abbreviation pool := (gmap addr t).

(** [void PriceLevel::add_order(Order* order)], on the level at [this]. *)
Definition add_order (this order : addr) (h : heap) (L : pool)
  : option (heap * pool) :=
  lv ← L !! this;
  o ← h !! order;
  let h := <[order :=
               Order.set_prev (tail_order lv)
                 (Order.set_next nullptr
                    (Order.set_parent_level (Some this) o))]> h in
  '(h, lv1) ← match tail_order lv with
              | Some tl =>
                  t ← h !! tl;
                  Some (<[tl := Order.set_next (Some order) t]> h, lv)
              | None => Some (h, set_head_order (Some order) lv)
              end;
  o ← h !! order;
  let lv2 := set_tail_order (Some order) lv1 in
  let lv3 := set_total_volume
               (u32 (total_volume lv2 + Order.remaining_quantity o)) lv2 in
  let lv4 := set_order_count (u32 (order_count lv3 + 1)) lv3 in
  Some (h, <[this := lv4]> L).

(** [void PriceLevel::remove_order(Order* order)], on the level at [this]. *)
Definition remove_order (this order : addr) (h : heap) (L : pool)
  : option (heap * pool) :=
  lv ← L !! this;
  o ← h !! order;
  '(h, lv) ← match Order.prev o with
             | Some p =>
                 po ← h !! p;
                 Some (<[p := Order.set_next (Order.next o) po]> h, lv)
             | None => Some (h, set_head_order (Order.next o) lv)
             end;
  o ← h !! order;
  '(h, lv) ← match Order.next o with
             | Some n =>
                 no ← h !! n;
                 Some (<[n := Order.set_prev (Order.prev o) no]> h, lv)
             | None => Some (h, set_tail_order (Order.prev o) lv)
             end;
  o' ← h !! order;
  let lv := set_total_volume
              (u32 (total_volume lv - Order.remaining_quantity o')) lv in
  let lv := set_order_count (u32 (order_count lv - 1)) lv in
  o' ← h !! order;
  let h := <[order :=
               Order.set_prev nullptr
                 (Order.set_next nullptr
                    (Order.set_parent_level nullptr o'))]> h in
  Some (h, <[this := lv]> L).
End PriceLevel.

(** ** [class OrderBook] *)

Module OrderBook.
Import PriceLevel.

Record t := mk {
  bid_tree_root_ : ptr;
  ask_tree_root_ : ptr;
  best_bid_ : ptr;
  best_ask_ : ptr;
  orders_ : gmap Z addr;
  price_level_pool_ : pool;
  pool_index_ : nat;
  order_count_ : Z;
  match_count_ : Z
}.

(** Number of levels the constructor pre-allocates. *)
Definition POOL_SIZE : nat := Z.to_nat 10000.

(** [OrderBook()].  The 10000 pre-allocated [PriceLevel(0)] slots are
    represented lazily: a slot enters the store when [insert_level]
    hands it out and overwrites every field. *)
Definition init : t := mk nullptr nullptr nullptr nullptr ∅ ∅ 0 0 0.

Definition set_pool (L : pool) (b : t) : t :=
  mk (bid_tree_root_ b) (ask_tree_root_ b) (best_bid_ b) (best_ask_ b)
     (orders_ b) L (pool_index_ b) (order_count_ b) (match_count_ b).
Definition set_orders_ (m : gmap Z addr) (b : t) : t :=
  mk (bid_tree_root_ b) (ask_tree_root_ b) (best_bid_ b) (best_ask_ b)
     m (price_level_pool_ b) (pool_index_ b) (order_count_ b) (match_count_ b).
Definition set_pool_index_ (n : nat) (b : t) : t :=
  mk (bid_tree_root_ b) (ask_tree_root_ b) (best_bid_ b) (best_ask_ b)
     (orders_ b) (price_level_pool_ b) n (order_count_ b) (match_count_ b).
Definition set_order_count_ (n : Z) (b : t) : t :=
  mk (bid_tree_root_ b) (ask_tree_root_ b) (best_bid_ b) (best_ask_ b)
     (orders_ b) (price_level_pool_ b) (pool_index_ b) n (match_count_ b).
Definition set_match_count_ (n : Z) (b : t) : t :=
  mk (bid_tree_root_ b) (ask_tree_root_ b) (best_bid_ b) (best_ask_ b)
     (orders_ b) (price_level_pool_ b) (pool_index_ b) (order_count_ b) n.

(** The two trees and the two best pointers are selected by side:
    [BUY] is the bid tree, [SELL] the ask tree. *)
Definition root (s : Side) (b : t) : ptr :=
  match s with BUY => bid_tree_root_ b | SELL => ask_tree_root_ b end.
Definition set_root (s : Side) (r : ptr) (b : t) : t :=
  match s with
  | BUY => mk r (ask_tree_root_ b) (best_bid_ b) (best_ask_ b)
             (orders_ b) (price_level_pool_ b) (pool_index_ b)
             (order_count_ b) (match_count_ b)
  | SELL => mk (bid_tree_root_ b) r (best_bid_ b) (best_ask_ b)
              (orders_ b) (price_level_pool_ b) (pool_index_ b)
              (order_count_ b) (match_count_ b)
  end.
Definition best (s : Side) (b : t) : ptr :=
  match s with BUY => best_bid_ b | SELL => best_ask_ b end.
Definition set_best (s : Side) (r : ptr) (b : t) : t :=
  match s with
  | BUY => mk (bid_tree_root_ b) (ask_tree_root_ b) r (best_ask_ b)
             (orders_ b) (price_level_pool_ b) (pool_index_ b)
             (order_count_ b) (match_count_ b)
  | SELL => mk (bid_tree_root_ b) (ask_tree_root_ b) (best_bid_ b) r
              (orders_ b) (price_level_pool_ b) (pool_index_ b)
              (order_count_ b) (match_count_ b)
  end.

Definition get_best_bid (b : t) : ptr := best_bid_ b.
Definition get_best_ask (b : t) : ptr := best_ask_ b.
Definition get_order_count (b : t) : Z := order_count_ b.
Definition get_match_count (b : t) : Z := match_count_ b.

(** [PriceLevel* find_level(uint32_t price, PriceLevel* root)] *)
Fixpoint find_level (fuel : nat) (L : pool) (p : Z) (rt : ptr) : option ptr :=
  match rt with
  | None => Some nullptr
  | Some r =>
      match fuel with
      | O => None
      | S fuel =>
          lv ← L !! r;
          if decide (p = price lv) then Some (Some r)
          else find_level fuel L p
                 (if decide (p < price lv) then left lv else right lv)
      end
  end.

(** The descent of [insert_level] from [current]. *)
Fixpoint insert_below (fuel : nat) (L : pool) (p : Z) (new_level current : addr)
  : option pool :=
  match fuel with
  | O => None
  | S fuel =>
      c ← L !! current;
      if decide (p < price c) then
        match left c with
        | None =>
            let L := <[current := set_left (Some new_level) c]> L in
            n ← L !! new_level;
            Some (<[new_level := set_parent (Some current) n]> L)
        | Some l => insert_below fuel L p new_level l
        end
      else
        match right c with
        | None =>
            let L := <[current := set_right (Some new_level) c]> L in
            n ← L !! new_level;
            Some (<[new_level := set_parent (Some current) n]> L)
        | Some r => insert_below fuel L p new_level r
        end
  end.

(** [PriceLevel* insert_level(uint32_t price, PriceLevel*& root)];
    the reference [root] is given by the side [s]. *)
Definition insert_level (fuel : nat) (p : Z) (s : Side) (b : t)
  : option (addr * t) :=
  if decide (pool_index_ b < POOL_SIZE)%nat then
    let new_level := pool_index_ b in
    let b := set_pool_index_ (S (pool_index_ b)) b in
    let b := set_pool (<[new_level := PriceLevel.make p]> (price_level_pool_ b)) b in
    match root s b with
    | None => Some (new_level, set_root s (Some new_level) b)
    | Some r =>
        L ← insert_below fuel (price_level_pool_ b) p new_level r;
        Some (new_level, set_pool L b)
    end
  else None.

(** [PriceLevel* find_or_create_level(uint32_t price, Side side)] *)
Definition find_or_create_level (fuel : nat) (p : Z) (s : Side) (b : t)
  : option (addr * t) :=
  level ← find_level fuel (price_level_pool_ b) p (root s b);
  match level with
  | Some l => Some (l, b)
  | None => insert_level fuel p s b
  end.

(** The parent-side relinking that each of the first three branches of
    [remove_level] performs: the slot through which [level] is reached
    ([parent->left], [parent->right] or [root]) is set to [child]. *)
Definition relink_parent (level : addr) (child : ptr) (L : pool) (rt : ptr)
  : option (pool * ptr) :=
  lv ← L !! level;
  match parent lv with
  | Some p =>
      pl ← L !! p;
      if decide (left pl = Some level)
      then Some (<[p := set_left child pl]> L, rt)
      else Some (<[p := set_right child pl]> L, rt)
  | None => Some (L, child)
  end.

(** [while (successor->left) successor = successor->left;] *)
Fixpoint leftmost (fuel : nat) (L : pool) (a : addr) : option addr :=
  lv ← L !! a;
  match left lv with
  | None => Some a
  | Some l => match fuel with O => None | S fuel => leftmost fuel L l end
  end.

(** [while (best->right) best = best->right;] *)
Fixpoint rightmost (fuel : nat) (L : pool) (a : addr) : option addr :=
  lv ← L !! a;
  match right lv with
  | None => Some a
  | Some r => match fuel with O => None | S fuel => rightmost fuel L r end
  end.

(** [void remove_level(PriceLevel* level, PriceLevel*& root)]; the
    reference [root] is passed in and returned. *)
Fixpoint remove_level (fuel : nat) (level : addr) (L : pool) (rt : ptr)
  : option (pool * ptr) :=
  lv ← L !! level;
  match left lv, right lv with
  | None, None => relink_parent level nullptr L rt
  | None, Some _ =>
      '(L, rt) ← relink_parent level (right lv) L rt;
      lv ← L !! level;
      match right lv with
      | Some r =>
          rl ← L !! r;
          Some (<[r := set_parent (parent lv) rl]> L, rt)
      | None => Some (L, rt)
      end
  | Some _, None =>
      '(L, rt) ← relink_parent level (left lv) L rt;
      lv ← L !! level;
      match left lv with
      | Some l =>
          ll ← L !! l;
          Some (<[l := set_parent (parent lv) ll]> L, rt)
      | None => Some (L, rt)
      end
  | Some _, Some r =>
      match fuel with
      | O => None
      | S fuel =>
          successor ← leftmost fuel L r;
          sv ← L !! successor;
          let lv := PriceLevel.mk (price sv) (total_volume sv) (order_count sv)
                      (head_order sv) (tail_order sv)
                      (parent lv) (left lv) (right lv) in
          remove_level fuel successor (<[level := lv]> L) rt
      end
  end.

(** [void update_best_bid()] *)
Definition update_best_bid (fuel : nat) (b : t) : option t :=
  match bid_tree_root_ b with
  | None => Some (set_best BUY nullptr b)
  | Some r =>
      m ← rightmost fuel (price_level_pool_ b) r;
      Some (set_best BUY (Some m) b)
  end.

(** [void update_best_ask()] *)
Definition update_best_ask (fuel : nat) (b : t) : option t :=
  match ask_tree_root_ b with
  | None => Some (set_best SELL nullptr b)
  | Some r =>
      m ← leftmost fuel (price_level_pool_ b) r;
      Some (set_best SELL (Some m) b)
  end.

(** [void OrderBook::add_order(Order* order)] *)
Definition add_order (fuel : nat) (order : addr) (h : heap) (b : t)
  : option (heap * t) :=
  o ← h !! order;
  '(level, b) ← find_or_create_level fuel (Order.price o) (Order.side o) b;
  '(h, L) ← PriceLevel.add_order level order h (price_level_pool_ b);
  let b := set_pool L b in
  o ← h !! order;
  let b := set_orders_ (<[Order.order_id o := order]> (orders_ b)) b in
  lv ← price_level_pool_ b !! level;
  b ← match best (Order.side o) b with
      | None => Some (set_best (Order.side o) (Some level) b)
      | Some bst =>
          bl ← price_level_pool_ b !! bst;
          if match Order.side o with
             | BUY => bool_decide (price lv > price bl)
             | SELL => bool_decide (price lv < price bl)
             end
          then Some (set_best (Order.side o) (Some level) b)
          else Some b
      end;
  Some (h, set_order_count_ (u64 (order_count_ b + 1)) b).

(** [void OrderBook::cancel_order(uint64_t order_id)] *)
Definition cancel_order (fuel : nat) (id : Z) (h : heap) (b : t)
  : option (heap * t) :=
  match orders_ b !! id with
  | None => Some (h, b)
  | Some order =>
      o ← h !! order;
      level ← Order.parent_level o;
      '(h, L) ← PriceLevel.remove_order level order h (price_level_pool_ b);
      let b := set_pool L b in
      lv ← price_level_pool_ b !! level;
      b ← (if decide (order_count lv = 0) then
             o ← h !! order;
             let s := Order.side o in
             '(L, rt) ← remove_level fuel level (price_level_pool_ b) (root s b);
             let b := set_root s rt (set_pool L b) in
             if decide (Some level = best s b) then
               match s with
               | BUY => update_best_bid fuel b
               | SELL => update_best_ask fuel b
               end
             else Some b
           else Some b);
      Some (h, set_order_count_ (u64 (order_count_ b - 1))
                 (set_orders_ (delete id (orders_ b)) b))
  end.

(** [void OrderBook::modify_order(uint64_t order_id, uint32_t new_quantity)] *)
Definition modify_order (id : Z) (new_quantity : Z) (h : heap) (b : t)
  : option (heap * t) :=
  match orders_ b !! id with
  | None => Some (h, b)
  | Some order =>
      o ← h !! order;
      level ← Order.parent_level o;
      lv ← price_level_pool_ b !! level;
      let lv := set_total_volume
                  (u32 (total_volume lv - Order.remaining_quantity o)) lv in
      let h := <[order := Order.set_remaining_quantity new_quantity o]> h in
      let lv := set_total_volume (u32 (total_volume lv + new_quantity)) lv in
      Some (h, set_pool (<[level := lv]> (price_level_pool_ b)) b)
  end.

(** [ExecutionReport execute_trade(Order* aggressive, Order* passive,
    uint32_t quantity, uint64_t match_id)] *)
Definition execute_trade (aggressive passive : addr) (qty match_id : Z)
  (h : heap) : option ExecutionReport.t :=
  a ← h !! aggressive;
  p ← h !! passive;
  Some (ExecutionReport.mk
          (Order.order_id a)
          match_id
          (Order.timestamp a)
          (Order.price p)
          qty
          (Order.side a)
          (bool_decide (Order.remaining_quantity a = qty))).

(** The side whose tree an aggressor of side [s] trades against. *)
Definition contra_side (s : Side) : Side :=
  match s with BUY => SELL | SELL => BUY end.

(** The inner loop of [match_order]:
    [while (passive && order->remaining_quantity > 0) { ... }]. *)
Fixpoint match_fifo (fuel : nat) (order contra_level : addr) (passive : ptr)
  (h : heap) (b : t) (reports : list ExecutionReport.t)
  : option (heap * t * list ExecutionReport.t) :=
  match passive with
  | None => Some (h, b, reports)
  | Some pa =>
      o ← h !! order;
      if decide (Order.remaining_quantity o > 0) then
        match fuel with
        | O => None
        | S fuel =>
            p ← h !! pa;
            let match_qty :=
              Z.min (Order.remaining_quantity o) (Order.remaining_quantity p) in
            let match_id := u64 (match_count_ b + 1) in
            let b := set_match_count_ match_id b in
            r ← execute_trade order pa match_qty match_id h;
            let reports := reports ++ [r] in
            let h := <[order := Order.set_remaining_quantity
                                  (u32 (Order.remaining_quantity o - match_qty)) o]> h in
            p ← h !! pa;
            let h := <[pa := Order.set_remaining_quantity
                               (u32 (Order.remaining_quantity p - match_qty)) p]> h in
            cl ← price_level_pool_ b !! contra_level;
            let b := set_pool (<[contra_level :=
                                   set_total_volume (u32 (total_volume cl - match_qty)) cl]>
                                 (price_level_pool_ b)) b in
            p ← h !! pa;
            let next_passive := Order.next p in
            '(h, b) ← (if decide (Order.remaining_quantity p = 0) then
                         '(h, L) ← PriceLevel.remove_order contra_level pa h
                                     (price_level_pool_ b);
                         p ← h !! pa;
                         Some (h, set_order_count_ (u64 (order_count_ b - 1))
                                    (set_orders_ (delete (Order.order_id p) (orders_ b))
                                       (set_pool L b)))
                       else Some (h, b));
            match_fifo fuel order contra_level next_passive h b reports
        end
      else Some (h, b, reports)
  end.

(** The outer loop of [match_order]:
    [while (order->remaining_quantity > 0 && contra_level) { ... }].
    [fuel0] is the fuel handed to the loops run inside one iteration. *)
Fixpoint match_levels (fuel0 fuel : nat) (order : addr) (contra_level : ptr)
  (h : heap) (b : t) (reports : list ExecutionReport.t)
  : option (heap * t * list ExecutionReport.t) :=
  o ← h !! order;
  if decide (Order.remaining_quantity o > 0) then
    match contra_level with
    | None => Some (h, b, reports)
    | Some contra =>
        match fuel with
        | O => None
        | S fuel =>
            cl ← price_level_pool_ b !! contra;
            if bool_decide (Order.type o = LIMIT) &&
               (bool_decide (Order.side o = BUY) &&
                  bool_decide (Order.price o < price cl)
                || bool_decide (Order.side o = SELL) &&
                     bool_decide (Order.price o > price cl))
            then Some (h, b, reports)
            else
              '(h, b, reports) ← match_fifo fuel0 order contra (head_order cl)
                                   h b reports;
              cl ← price_level_pool_ b !! contra;
              if decide (order_count cl = 0) then
                o ← h !! order;
                let next_level :=
                  match Order.side o with
                  | BUY => right cl
                  | SELL => left cl
                  end in
                let s := contra_side (Order.side o) in
                '(L, rt) ← remove_level fuel0 contra (price_level_pool_ b) (root s b);
                let b := set_best s next_level (set_root s rt (set_pool L b)) in
                match_levels fuel0 fuel order next_level h b reports
              else Some (h, b, reports)
        end
    end
  else Some (h, b, reports).

(** [std::vector<ExecutionReport> match_order(Order* order)] *)
Definition match_order (fuel : nat) (order : addr) (h : heap) (b : t)
  : option (heap * t * list ExecutionReport.t) :=
  o ← h !! order;
  if bool_decide (Order.type o ≠ LIMIT) && bool_decide (Order.type o ≠ MARKET)
  then Some (h, b, [])
  else
    let contra_level :=
      match Order.side o with
      | BUY => best_ask_ b
      | SELL => best_bid_ b
      end in
    match_levels fuel fuel order contra_level h b [].

(** [uint32_t get_spread() const] *)
Definition get_spread (b : t) : option Z :=
  match best_bid_ b, best_ask_ b with
  | Some bb, Some ba =>
      lb ← price_level_pool_ b !! bb;
      la ← price_level_pool_ b !! ba;
      Some (u32 (price la - price lb))
  | _, _ => Some 0
  end.

(** The loop shared by the two volume queries: [next] is the child
    pointer the loop follows. *)
Fixpoint sum_spine (fuel : nat) (next : PriceLevel.t → ptr) (L : pool)
  (level : ptr) (volume : Z) : option Z :=
  match level with
  | None => Some volume
  | Some l =>
      match fuel with
      | O => None
      | S fuel =>
          lv ← L !! l;
          sum_spine fuel next L (next lv) (u64 (volume + total_volume lv))
      end
  end.

(** [uint64_t get_total_bid_volume() const] *)
Definition get_total_bid_volume (fuel : nat) (b : t) : option Z :=
  sum_spine fuel right (price_level_pool_ b) (bid_tree_root_ b) 0.

(** [uint64_t get_total_ask_volume() const] *)
Definition get_total_ask_volume (fuel : nat) (b : t) : option Z :=
  sum_spine fuel left (price_level_pool_ b) (ask_tree_root_ b) 0.
End OrderBook.

(** ** [class MatchingEngine] *)

Module MatchingEngine.
Record EngineConfig := mkConfig {
  num_symbols : Z;
  order_pool_size : Z;
  enable_logging : bool;
  cpu_affinity : Z;
  numa_node : Z
}.

(** The defaults of [struct EngineConfig]. *)
Definition default_config : EngineConfig := mkConfig 100 1000000 false (-1) (-1).

(** The execution queue is [SPSCQueue<ExecutionReport, 65536>]. *)
Definition QUEUE_LOG2 : Z := 16.

(** [order_pool_] holds one [Order] per index below [order_pool_size];
    the slot of index [i] lives at address [i] of the order store, and a
    slot that was never written holds [Order()].

    [error_count] is not a member of the class: it is the function-local
    [static std::atomic<size_t> error_count{0}] of [submit_order], one
    counter for the whole process, shared by every engine and reset by no
    constructor.  It is carried in this record because [submit_order]
    reads and writes it; the record is the state a call works on, the
    engine object together with that static. *)
Record t := mk {
  config_ : EngineConfig;
  books_ : gmap string OrderBook.t;
  order_pool_ : heap;
  pool_index_ : Z;
  execution_queue_ : SPSCQueue.t ExecutionReport.t;
  total_orders_ : Z;
  total_matches_ : Z;
  running_ : bool;
  error_count : Z
}.

(** [MatchingEngine(config)], run in a process whose static counter
    stands at [errors]: the constructor initialises the members and leaves
    the static as earlier engines of the process left it. *)
Definition init_at (config : EngineConfig) (errors : Z) : t :=
  mk config ∅ ∅ 0 (SPSCQueue.init QUEUE_LOG2 ExecutionReport.default) 0 0 false
     errors.

(** [MatchingEngine(config)] in a process where no submission was refused
    so far (the first engine of a process, for one): the static still has
    its initial value 0. *)
Definition init (config : EngineConfig) : t := init_at config 0.

Definition set_books_ (v : gmap string OrderBook.t) (e : t) : t :=
  mk (config_ e) v (order_pool_ e) (pool_index_ e) (execution_queue_ e)
     (total_orders_ e) (total_matches_ e) (running_ e) (error_count e).
Definition set_order_pool_ (v : heap) (e : t) : t :=
  mk (config_ e) (books_ e) v (pool_index_ e) (execution_queue_ e)
     (total_orders_ e) (total_matches_ e) (running_ e) (error_count e).
Definition set_pool_index_ (v : Z) (e : t) : t :=
  mk (config_ e) (books_ e) (order_pool_ e) v (execution_queue_ e)
     (total_orders_ e) (total_matches_ e) (running_ e) (error_count e).
Definition set_execution_queue_ (v : SPSCQueue.t ExecutionReport.t) (e : t) : t :=
  mk (config_ e) (books_ e) (order_pool_ e) (pool_index_ e) v
     (total_orders_ e) (total_matches_ e) (running_ e) (error_count e).
Definition set_total_orders_ (v : Z) (e : t) : t :=
  mk (config_ e) (books_ e) (order_pool_ e) (pool_index_ e) (execution_queue_ e)
     v (total_matches_ e) (running_ e) (error_count e).
Definition set_total_matches_ (v : Z) (e : t) : t :=
  mk (config_ e) (books_ e) (order_pool_ e) (pool_index_ e) (execution_queue_ e)
     (total_orders_ e) v (running_ e) (error_count e).
Definition set_running_ (v : bool) (e : t) : t :=
  mk (config_ e) (books_ e) (order_pool_ e) (pool_index_ e) (execution_queue_ e)
     (total_orders_ e) (total_matches_ e) v (error_count e).
Definition set_error_count (v : Z) (e : t) : t :=
  mk (config_ e) (books_ e) (order_pool_ e) (pool_index_ e) (execution_queue_ e)
     (total_orders_ e) (total_matches_ e) (running_ e) v.

(** [OrderBook* get_book(const char* symbol)] *)
Definition get_book (symbol : string) (e : t) : option OrderBook.t :=
  books_ e !! symbol.

Definition get_total_orders (e : t) : Z := total_orders_ e.
Definition get_total_matches (e : t) : Z := total_matches_ e.
Definition is_running (e : t) : bool := running_ e.
Definition start (e : t) : t := set_running_ true e.
Definition stop (e : t) : t := set_running_ false e.

(** [Order* allocate_order()] *)
Definition allocate_order (e : t) : ptr * t :=
  let idx := pool_index_ e in
  let e := set_pool_index_ (u64 (idx + 1)) e in
  if decide (idx >= order_pool_size (config_ e)) then (nullptr, e)
  else (Some (Z.to_nat idx), e).

(** [void deallocate_order(Order* order)]: the body is [(void)order;]. *)
Definition deallocate_order (order : addr) (e : t) : t := e.

(** The loop of [submit_order] that pushes the reports of one match. *)
Fixpoint push_reports (reports : list ExecutionReport.t) (e : t) : t :=
  match reports with
  | [] => e
  | report :: reports =>
      let '(ok, q) := SPSCQueue.push QUEUE_LOG2 report (execution_queue_ e) in
      if ok then
        push_reports reports
          (set_total_matches_ (u64 (total_matches_ e + 1))
             (set_execution_queue_ q e))
      else e
  end.

(** The test that sends an incoming order to [match_order]. *)
Definition is_aggressive (p : Z) (s : Side) (ty : OrderType) (book : OrderBook.t)
  : option bool :=
  match ty with
  | MARKET => Some true
  | LIMIT =>
      match s with
      | BUY =>
          match OrderBook.get_best_ask book with
          | Some ba =>
              l ← OrderBook.price_level_pool_ book !! ba;
              Some (bool_decide (p >= PriceLevel.price l))
          | None => Some false
          end
      | SELL =>
          match OrderBook.get_best_bid book with
          | Some bb =>
              l ← OrderBook.price_level_pool_ book !! bb;
              Some (bool_decide (p <= PriceLevel.price l))
          | None => Some false
          end
      end
  | CANCEL => Some false
  end.

(** [void submit_order(symbol, order_id, timestamp, price, quantity, side, type)] *)
Definition submit_order (fuel : nat) (symbol : string) (order_id timestamp : Z)
  (p qty : Z) (s : Side) (ty : OrderType) (e : t) : option t :=
  let '(book, e) :=
    match get_book symbol e with
    | Some book => (book, e)
    | None => (OrderBook.init,
               set_books_ (<[symbol := OrderBook.init]> (books_ e)) e)
    end in
  let '(order, e) := allocate_order e in
  match order with
  | None => Some (set_error_count (u64 (error_count e + 1)) e)
  | Some order =>
      let o := default Order.default (order_pool_ e !! order) in
      let h := <[order := Order.mk order_id timestamp p qty qty s ty
                            (Order.next o) (Order.prev o) (Order.parent_level o)]>
                 (order_pool_ e) in
      aggressive ← is_aggressive p s ty book;
      '(h, book, e) ← (if aggressive : bool then
                         '(h, book, reports) ← OrderBook.match_order fuel order h book;
                         Some (h, book, push_reports reports e)
                       else Some (h, book, e));
      o ← h !! order;
      '(h, book, e) ← (if bool_decide (Order.remaining_quantity o > 0) &&
                          bool_decide (ty = LIMIT)
                       then
                         '(h, book) ← OrderBook.add_order fuel order h book;
                         Some (h, book, e)
                       else Some (h, book, deallocate_order order e));
      Some (set_total_orders_ (u64 (total_orders_ e + 1))
              (set_order_pool_ h (set_books_ (<[symbol := book]> (books_ e)) e)))
  end.

(** [void cancel_order(const char* symbol, uint64_t order_id)] *)
Definition cancel_order (fuel : nat) (symbol : string) (order_id : Z) (e : t)
  : option t :=
  match get_book symbol e with
  | Some book =>
      '(h, book) ← OrderBook.cancel_order fuel order_id (order_pool_ e) book;
      Some (set_order_pool_ h (set_books_ (<[symbol := book]> (books_ e)) e))
  | None => Some e
  end.

(** [void modify_order(const char* symbol, uint64_t order_id, uint32_t new_quantity)] *)
Definition modify_order (symbol : string) (order_id new_quantity : Z) (e : t)
  : option t :=
  match get_book symbol e with
  | Some book =>
      '(h, book) ← OrderBook.modify_order order_id new_quantity (order_pool_ e) book;
      Some (set_order_pool_ h (set_books_ (<[symbol := book]> (books_ e)) e))
  | None => Some e
  end.
End MatchingEngine.

(** ** Event streams *)

Inductive Event :=
| Submit (symbol : string) (order_id timestamp price quantity : Z)
    (side : Side) (type : OrderType)
| Cancel (symbol : string) (order_id : Z)
| Modify (symbol : string) (order_id new_quantity : Z).

Definition is_submit (ev : Event) : bool :=
  match ev with Submit _ _ _ _ _ _ _ => true | _ => false end.

(** One externally visible operation of the engine. *)
Definition step (fuel : nat) (ev : Event) (e : MatchingEngine.t)
  : option MatchingEngine.t :=
  match ev with
  | Submit sym id ts p q s ty => MatchingEngine.submit_order fuel sym id ts p q s ty e
  | Cancel sym id => MatchingEngine.cancel_order fuel sym id e
  | Modify sym id q => MatchingEngine.modify_order sym id q e
  end.

Fixpoint run (fuel : nat) (evs : list Event) (e : MatchingEngine.t)
  : option MatchingEngine.t :=
  match evs with
  | [] => Some e
  | ev :: evs => e ← step fuel ev e; run fuel evs e
  end.

(** ** Observations used to state the properties *)

(** The levels present in a side's index: the nodes reachable from the
    root through [left] and [right], listed in order. *)
Fixpoint index_levels (fuel : nat) (L : PriceLevel.pool) (rt : ptr)
  : option (list addr) :=
  match rt with
  | None => Some []
  | Some r =>
      match fuel with
      | O => None
      | S fuel =>
          lv ← L !! r;
          ls ← index_levels fuel L (PriceLevel.left lv);
          rs ← index_levels fuel L (PriceLevel.right lv);
          Some (ls ++ r :: rs)
      end
  end.

Definition level_prices (L : PriceLevel.pool) (ls : list addr) : option (list Z) :=
  mapM (λ a, PriceLevel.price <$> L !! a) ls.

Definition level_volumes (L : PriceLevel.pool) (ls : list addr) : option (list Z) :=
  mapM (λ a, PriceLevel.total_volume <$> L !! a) ls.

(** Prices of the levels present in the index of side [s]. *)
Definition index_prices (fuel : nat) (s : Side) (b : OrderBook.t) : option (list Z) :=
  ls ← index_levels fuel (OrderBook.price_level_pool_ b) (OrderBook.root s b);
  level_prices (OrderBook.price_level_pool_ b) ls.

(** Sum of [total_volume] over the levels present in the index of side [s]. *)
Definition index_volume (fuel : nat) (s : Side) (b : OrderBook.t) : option Z :=
  ls ← index_levels fuel (OrderBook.price_level_pool_ b) (OrderBook.root s b);
  vs ← level_volumes (OrderBook.price_level_pool_ b) ls;
  Some (foldr Z.add 0 vs).

(** Price of the level a best pointer designates. *)
Definition best_price (s : Side) (b : OrderBook.t) : option Z :=
  a ← OrderBook.best s b;
  PriceLevel.price <$> OrderBook.price_level_pool_ b !! a.

(** The FIFO of a level: the orders met from [p] following [next]. *)
Fixpoint fifo_from (fuel : nat) (h : heap) (p : ptr) : option (list addr) :=
  match p with
  | None => Some []
  | Some a =>
      match fuel with
      | O => None
      | S fuel =>
          o ← h !! a;
          l ← fifo_from fuel h (Order.next o);
          Some (a :: l)
      end
  end.

Definition level_fifo (fuel : nat) (h : heap) (L : PriceLevel.pool) (level : addr)
  : option (list addr) :=
  lv ← L !! level;
  fifo_from fuel h (PriceLevel.head_order lv).

(** Number of orders resting in the book of [symbol]. *)
Definition resting_count (symbol : string) (e : MatchingEngine.t) : nat :=
  match MatchingEngine.get_book symbol e with
  | Some b => size (OrderBook.orders_ b)
  | None => O
  end.

(** Largest number of resting orders seen after any event of the stream. *)
Fixpoint max_resting (fuel : nat) (symbol : string) (evs : list Event)
  (e : MatchingEngine.t) : option nat :=
  match evs with
  | [] => Some (resting_count symbol e)
  | ev :: evs =>
      e' ← step fuel ev e;
      m ← max_resting fuel symbol evs e';
      Some (Nat.max (resting_count symbol e) m)
  end.

(** The next [allocate_order] returns [nullptr]. *)
Definition pool_exhausted (e : MatchingEngine.t) : Prop :=
  MatchingEngine.pool_index_ e
  >= MatchingEngine.order_pool_size (MatchingEngine.config_ e).

(** The quantity bounds of a resting order. *)
Definition quantity_ok (o : Order.t) : Prop :=
  0 < Order.remaining_quantity o
  ∧ Order.remaining_quantity o <= Order.quantity o.

(** The fields of an order that no list operation touches. *)
Definition core (o : Order.t) : Z * Z * Z :=
  (Order.order_id o, Order.quantity o, Order.remaining_quantity o).

(** Every [remaining_quantity] of the store is a [uint32_t] value. *)
Definition heap_typed (h : heap) : Prop :=
  ∀ a o, h !! a = Some o → 0 <= Order.remaining_quantity o < 2 ^ 32.

(** Every id of the id→order map designates an order record carrying
    that id and satisfying the quantity bounds. *)
Definition resting_ok (h : heap) (b : OrderBook.t) : Prop :=
  ∀ id a, OrderBook.orders_ b !! id = Some a →
          ∃ o, h !! a = Some o ∧ Order.order_id o = id ∧ quantity_ok o.

(** ** Concrete scenarios *)

Definition test_config (pool_size : Z) : MatchingEngine.EngineConfig :=
  MatchingEngine.mkConfig 100 pool_size false (-1) (-1).

(** Three asks entered at 100, 120, 110, then a buy that takes the whole
    level at 100. *)
Definition asks_then_buy_100 : list Event :=
  [ Submit "A" 1 1 100 10 SELL LIMIT;
    Submit "A" 2 2 120 10 SELL LIMIT;
    Submit "A" 3 3 110 10 SELL LIMIT;
    Submit "A" 4 4 100 10 BUY LIMIT ].

(** The same three asks, then a buy at 120 for 25. *)
Definition asks_then_buy_120 : list Event :=
  [ Submit "A" 1 1 100 10 SELL LIMIT;
    Submit "A" 2 2 120 10 SELL LIMIT;
    Submit "A" 3 3 110 10 SELL LIMIT;
    Submit "A" 4 4 120 25 BUY LIMIT ].

(** Three bids entered at 100, 90, 110, then the bid at 100 is cancelled. *)
Definition bids_then_cancel_root : list Event :=
  [ Submit "A" 1 1 100 10 BUY LIMIT;
    Submit "A" 2 2 90 10 BUY LIMIT;
    Submit "A" 3 3 110 10 BUY LIMIT;
    Cancel "A" 1 ].

(** The orders of the test [OrderBookTest.MultiplePriceLevels]. *)
Definition multiple_price_levels : list Event :=
  [ Submit "A" 1 1 100000 100 BUY LIMIT;
    Submit "A" 2 2 99900 100 BUY LIMIT;
    Submit "A" 3 3 99800 100 BUY LIMIT ].

(** The reports the consumer can pop, oldest first (for a queue whose
    indices have not wrapped). *)
Definition pending_reports (e : MatchingEngine.t) : list ExecutionReport.t :=
  let q := MatchingEngine.execution_queue_ e in
  drop (Z.to_nat (SPSCQueue.tail_ q))
    (take (Z.to_nat (SPSCQueue.head_ q)) (SPSCQueue.buffer_ q)).

(** ** Decomposition of [submit_order] *)

Section SubmitParts.
Import MatchingEngine.

(** The engine with the book of [symbol] created if it was absent, as
    the first step of [submit_order] leaves it. *)
Definition with_book (symbol : string) (e : t) : OrderBook.t * t :=
  match get_book symbol e with
  | Some book => (book, e)
  | None => (OrderBook.init, set_books_ (<[symbol := OrderBook.init]> (books_ e)) e)
  end.

(** The record [submit_order] writes into the slot it was handed. *)
Definition fill_slot (order : addr) (id ts p q : Z) (s : Side) (ty : OrderType)
  (h : heap) : heap :=
  let o := default Order.default (h !! order) in
  <[order := Order.mk id ts p q q s ty
               (Order.next o) (Order.prev o) (Order.parent_level o)]> h.

(** What [submit_order] does to the order store and to the target book
    once the slot [order] is filled in: match if aggressive, then rest
    the remainder of a LIMIT order. *)
Definition settle_order (fuel : nat) (order : addr) (p : Z) (s : Side)
  (ty : OrderType) (h : heap) (book : OrderBook.t)
  : option (heap * OrderBook.t * list ExecutionReport.t) :=
  aggressive ← is_aggressive p s ty book;
  '(h, book, reports) ← (if aggressive : bool
                         then OrderBook.match_order fuel order h book
                         else Some (h, book, []));
  o ← h !! order;
  if bool_decide (Order.remaining_quantity o > 0) && bool_decide (ty = LIMIT)
  then '(h, book) ← OrderBook.add_order fuel order h book; Some (h, book, reports)
  else Some (h, book, reports).
End SubmitParts.

(** Number of [Submit] events of a stream. *)
Fixpoint count_submits (evs : list Event) : nat :=
  match evs with
  | [] => O
  | ev :: evs => ((if is_submit ev then 1 else 0) + count_submits evs)%nat
  end.

(** A single resting bid, and the stream that fills a one-slot pool. *)
Definition one_bid : list Event := [ Submit "A" 1 1 100000 100 BUY LIMIT ].

Definition submit_cancel_submit : list Event :=
  [ Submit "A" 1 1 100 10 BUY LIMIT;
    Cancel "A" 1;
    Submit "A" 2 2 100 10 BUY LIMIT ].

(** What a book shows about the order [id] and about its bid side. *)
Definition book_summary (fuel : nat) (id : Z) (r : option MatchingEngine.t)
  : option (option addr * ptr * option (list Z) * Z) :=
  e ← r;
  b ← MatchingEngine.get_book "A" e;
  Some (OrderBook.orders_ b !! id, OrderBook.best_bid_ b, index_prices fuel BUY b,
        OrderBook.order_count_ b).

(** Remaining and original quantity of the resting order [id]. *)
Definition resting_quantities (id : Z) (r : option MatchingEngine.t) : option (Z * Z) :=
  e ← r;
  b ← MatchingEngine.get_book "A" e;
  a ← OrderBook.orders_ b !! id;
  o ← MatchingEngine.order_pool_ e !! a;
  Some (Order.remaining_quantity o, Order.quantity o).

(** The engine, order store and book after [one_bid]. *)
Definition engine_one_bid : MatchingEngine.t :=
  default (MatchingEngine.init (test_config 100))
    (run 16 one_bid (MatchingEngine.init (test_config 100))).
Definition heap_one_bid : heap := MatchingEngine.order_pool_ engine_one_bid.
Definition book_one_bid : OrderBook.t :=
  default OrderBook.init (MatchingEngine.get_book "A" engine_one_bid).

(** ** The execution queue as a bounded FIFO *)

Section QueueSpec.
Context {T : Type}.

Inductive QueueOp := Push (item : T) | Pop.
Inductive QueueOut := Pushed (ok : bool) | Popped (item : option T).

(** A sequence of producer and consumer calls on the ring, with the value
    each call returns. *)
Fixpoint run_queue (k : Z) (ops : list QueueOp) (q : SPSCQueue.t T)
  : list QueueOut * SPSCQueue.t T :=
  match ops with
  | [] => ([], q)
  | Push item :: ops =>
      let '(ok, q) := SPSCQueue.push k item q in
      let '(outs, q) := run_queue k ops q in
      (Pushed ok :: outs, q)
  | Pop :: ops =>
      let '(item, q) := SPSCQueue.pop k q in
      let '(outs, q) := run_queue k ops q in
      (Popped item :: outs, q)
  end.

(** The bounded FIFO the claim describes: a list, oldest element first;
    [push] is refused exactly when [bound] elements are stored, [pop] is
    refused exactly when the list is empty. *)
Definition fifo_push (bound : nat) (item : T) (l : list T) : bool * list T :=
  if decide (length l = bound) then (false, l) else (true, l ++ [item]).

Definition fifo_pop (l : list T) : option T * list T :=
  match l with
  | [] => (None, [])
  | item :: l => (Some item, l)
  end.

Fixpoint run_fifo (bound : nat) (ops : list QueueOp) (l : list T)
  : list QueueOut * list T :=
  match ops with
  | [] => ([], l)
  | Push item :: ops =>
      let '(ok, l) := fifo_push bound item l in
      let '(outs, l) := run_fifo bound ops l in
      (Pushed ok :: outs, l)
  | Pop :: ops =>
      let '(item, l) := fifo_pop l in
      let '(outs, l) := run_fifo bound ops l in
      (Popped item :: outs, l)
  end.

(** The elements a ring stores, oldest first: the slots from [tail_]
    up to [head_], wrapping at the end of the buffer. *)
Definition contents (q : SPSCQueue.t T) : list T :=
  let hd := Z.to_nat (SPSCQueue.head_ q) in
  let tl := Z.to_nat (SPSCQueue.tail_ q) in
  if decide (tl ≤ hd)%nat
  then take (hd - tl) (drop tl (SPSCQueue.buffer_ q))
  else drop tl (SPSCQueue.buffer_ q) ++ take hd (SPSCQueue.buffer_ q).

(** Indices in range and a buffer of [Capacity] slots. *)
Definition queue_wf (k : Z) (q : SPSCQueue.t T) : Prop :=
  0 <= SPSCQueue.head_ q < SPSCQueue.Capacity k
  ∧ 0 <= SPSCQueue.tail_ q < SPSCQueue.Capacity k
  ∧ length (SPSCQueue.buffer_ q) = Z.to_nat (SPSCQueue.Capacity k).
End QueueSpec.
Arguments QueueOp : clear implicits.
Arguments QueueOut : clear implicits.

(** ** Invariants of one book and the order store *)

(** No [next] pointer of the store designates a slot of index [n] or
    above. *)
Definition next_below (n : nat) (h : heap) : Prop :=
  ∀ a o x, h !! a = Some o → Order.next o = Some x → (x < n)%nat.

(** No [head_order] of the level store designates a slot of index [n] or
    above. *)
Definition head_below (n : nat) (L : PriceLevel.pool) : Prop :=
  ∀ l lv x, L !! l = Some lv → PriceLevel.head_order lv = Some x → (x < n)%nat.

(** The id map designates slots below [n] only. *)
Definition orders_below (n : nat) (m : gmap Z addr) : Prop :=
  ∀ id a, m !! id = Some a → (a < n)%nat.

(** The invariant of a book together with the order store, relative to
    the number [n] of slots handed out so far. *)
Definition book_inv (n : nat) (h : heap) (b : OrderBook.t) : Prop :=
  heap_typed h
  ∧ resting_ok h b
  ∧ next_below n h
  ∧ head_below n (OrderBook.price_level_pool_ b)
  ∧ orders_below n (OrderBook.orders_ b).

(** What a match may do to the aggressor: keep the original quantity and
    lower the remaining one. *)
Definition spent (o o' : Order.t) : Prop :=
  Order.quantity o' = Order.quantity o
  ∧ 0 <= Order.remaining_quantity o' <= Order.remaining_quantity o.

(** The book an event on [sym] works on: the book of [sym], or the empty
    book [submit_order] would create. *)
Definition target_book (sym : string) (e : MatchingEngine.t) : OrderBook.t :=
  default OrderBook.init (MatchingEngine.get_book sym e).

(** The invariant of the book of [sym] inside the engine; the number of
    slots handed out is the pool cursor. *)
Definition engine_inv (sym : string) (e : MatchingEngine.t) : Prop :=
  0 <= MatchingEngine.pool_index_ e
  ∧ book_inv (Z.to_nat (MatchingEngine.pool_index_ e))
      (MatchingEngine.order_pool_ e) (target_book sym e).

Definition event_symbol (ev : Event) : string :=
  match ev with
  | Submit sym _ _ _ _ _ _ => sym
  | Cancel sym _ => sym
  | Modify sym _ _ => sym
  end.

(** The quantity argument of an event is a [uint32_t] value. *)
Definition event_typed (ev : Event) : Prop :=
  match ev with
  | Submit _ _ _ _ q _ _ => 0 <= q < 2 ^ 32
  | Cancel _ _ => True
  | Modify _ _ q => 0 <= q < 2 ^ 32
  end.

(** ** Well-formed FIFO of a level *)

(** [l] is the list of orders met from [p] following [next] up to the
    null pointer. *)
Fixpoint is_fifo (h : heap) (p : ptr) (l : list addr) : Prop :=
  match l with
  | [] => p = nullptr
  | a :: l => p = Some a ∧ ∃ o, h !! a = Some o ∧ is_fifo h (Order.next o) l
  end.

(** Sum of the remaining quantities of the orders of [l]. *)
Fixpoint fifo_volume (h : heap) (l : list addr) : Z :=
  match l with
  | [] => 0
  | a :: l =>
      match h !! a with
      | Some o => Order.remaining_quantity o
      | None => 0
      end + fifo_volume h l
  end.

(** The level at [level] holds exactly the orders of [l], oldest first:
    [l] is its FIFO from [head_order], [tail_order] is the last order of
    [l], every order of [l] points back to [level], [total_volume] is the
    sum of their remaining quantities and [order_count] their number. *)
Definition level_wf (h : heap) (level : addr) (lv : PriceLevel.t) (l : list addr)
  : Prop :=
  is_fifo h (PriceLevel.head_order lv) l
  ∧ PriceLevel.tail_order lv = last l
  ∧ Forall (λ a, ∃ o, h !! a = Some o ∧ Order.parent_level o = Some level) l
  ∧ PriceLevel.total_volume lv = u32 (fifo_volume h l)
  ∧ PriceLevel.order_count lv = Z.of_nat (length l)
  ∧ Z.of_nat (length l) < 2 ^ 32.

(** The tail of every level is an order linked to that level, without
    successor, and is not the slot [new]. *)
Definition tails_ok (h : heap) (L : PriceLevel.pool) (new : addr) : Prop :=
  ∀ level lv t,
    L !! level = Some lv → PriceLevel.tail_order lv = Some t →
    t ≠ new
    ∧ ∃ o, h !! t = Some o
           ∧ Order.next o = nullptr
           ∧ Order.parent_level o = Some level.

(** The fields of a level that describe its FIFO. *)
Definition fifo_fields (lv : PriceLevel.t) : Z * Z * Z * ptr * ptr :=
  (PriceLevel.price lv, PriceLevel.total_volume lv, PriceLevel.order_count lv,
   PriceLevel.head_order lv, PriceLevel.tail_order lv).

(** [L'] still has every level of [L], with the same FIFO fields. *)
Definition pool_frame (L L' : PriceLevel.pool) : Prop :=
  ∀ l lv, L !! l = Some lv →
          ∃ lv', L' !! l = Some lv' ∧ fifo_fields lv' = fifo_fields lv.

(** What [PriceLevel::add_order] writes when the order [on], held in the
    slot [new], joins the level [lvn] at [level_new]: the record of the
    order once it is linked behind the tail, the level afterwards, and the
    store afterwards. *)
Definition linked_order (on : Order.t) (level_new : addr) (lvn : PriceLevel.t)
  : Order.t :=
  Order.set_prev (PriceLevel.tail_order lvn)
    (Order.set_next nullptr (Order.set_parent_level (Some level_new) on)).

Definition joined_level (new : addr) (on : Order.t) (lvn : PriceLevel.t)
  : PriceLevel.t :=
  PriceLevel.mk (PriceLevel.price lvn)
    (u32 (PriceLevel.total_volume lvn + Order.remaining_quantity on))
    (u32 (PriceLevel.order_count lvn + 1))
    (match PriceLevel.tail_order lvn with
     | Some _ => PriceLevel.head_order lvn
     | None => Some new
     end)
    (Some new)
    (PriceLevel.parent lvn) (PriceLevel.left lvn) (PriceLevel.right lvn).

Definition linked_heap (h : heap) (new : addr) (on : Order.t)
  (level_new : addr) (lvn : PriceLevel.t) : heap :=
  let h1 := <[new := linked_order on level_new lvn]> h in
  match PriceLevel.tail_order lvn with
  | Some t =>
      match h !! t with
      | Some to => <[t := Order.set_next (Some new) to]> h1
      | None => h1
      end
  | None => h1
  end.

(** A bid rests under id 1 and an ask under id 2 at a higher price; then
    a second buy order under id 1 crosses the ask and is filled. *)
Definition filled_duplicate : list Event :=
  [ Submit "A" 1 1 100 10 BUY LIMIT;
    Submit "A" 2 2 110 5 SELL LIMIT;
    Submit "A" 1 3 110 5 BUY LIMIT ].

(** The fields of an order that identify it; no operation of the book
    writes them. *)
Definition static (o : Order.t) : Z * Z * Z * Z * Side * OrderType :=
  (Order.order_id o, Order.timestamp o, Order.price o, Order.quantity o,
   Order.side o, Order.type o).

(** Total quantity executed by a list of reports. *)
Definition executed (rs : list ExecutionReport.t) : Z :=
  foldr (λ r acc, ExecutionReport.executed_quantity r + acc) 0 rs.

(** What a run of trades of one aggressor looks like: [o] is the record of
    the aggressor before, [o'] after, [mc] the match counter before, [news]
    the reports of the trades in the order they were made. *)
Definition fills (mc : Z) (o o' : Order.t) (news : list ExecutionReport.t) : Prop :=
  static o' = static o
  ∧ 0 <= Order.remaining_quantity o'
  ∧ executed news = Order.remaining_quantity o - Order.remaining_quantity o'
  ∧ Forall (λ r, ExecutionReport.order_id r = Order.order_id o
                 ∧ ExecutionReport.timestamp r = Order.timestamp o
                 ∧ ExecutionReport.side r = Order.side o
                 ∧ 0 <= ExecutionReport.executed_quantity r) news
  ∧ (∀ i r, news !! i = Some r →
            ExecutionReport.match_id r = u64 (mc + Z.of_nat (S i)))
  ∧ (∀ i r, news !! i = Some r →
            ExecutionReport.is_full_fill r = true
            ↔ S i = length news ∧ Order.remaining_quantity o' = 0)
  ∧ (news = [] → Order.remaining_quantity o' = Order.remaining_quantity o)
  ∧ (Order.remaining_quantity o <= 0 → news = []).

(** An ask of 10 at 100 rests; a buy of 25 at 100 is written into the next
    slot and handed to [match_order]. *)
Definition engine_one_ask : MatchingEngine.t :=
  default (MatchingEngine.init (test_config 100))
    (MatchingEngine.submit_order 16 "A" 1 1 100 10 SELL LIMIT
       (MatchingEngine.init (test_config 100))).
Definition crossing_buy_heap : heap :=
  fill_slot 1 2 2 100 25 BUY LIMIT (MatchingEngine.order_pool_ engine_one_ask).
Definition after_crossing_buy : heap * OrderBook.t * list ExecutionReport.t :=
  default (crossing_buy_heap, target_book "A" engine_one_ask, [])
    (OrderBook.match_order 16 1 crossing_buy_heap (target_book "A" engine_one_ask)).

(** ** The level index as a binary search tree *)

(** The tree a root pointer designates in the level store: the address and
    the price of every node, with its left and right subtrees. *)
Inductive tree := Leaf | Node (l : tree) (a : addr) (p : Z) (r : tree).

Fixpoint shape (L : PriceLevel.pool) (rt : ptr) (t : tree) : Prop :=
  match t with
  | Leaf => rt = nullptr
  | Node tl a p tr =>
      rt = Some a
      ∧ ∃ lv, L !! a = Some lv
              ∧ PriceLevel.price lv = p
              ∧ shape L (PriceLevel.left lv) tl
              ∧ shape L (PriceLevel.right lv) tr
  end.

(** Prices and addresses of a tree, in order. *)
Fixpoint keys (t : tree) : list Z :=
  match t with
  | Leaf => []
  | Node tl _ p tr => keys tl ++ p :: keys tr
  end.

Fixpoint addrs (t : tree) : list addr :=
  match t with
  | Leaf => []
  | Node tl a _ tr => addrs tl ++ a :: addrs tr
  end.

Fixpoint height (t : tree) : nat :=
  match t with
  | Leaf => O
  | Node tl _ _ tr => S (height tl `max` height tr)
  end.

(** A search tree on the prices, without repeated price. *)
Definition bst (t : tree) : Prop := StronglySorted Z.lt (keys t).

(** The tree after the descent of [insert_level]: the new node becomes a
    leaf, left of a node of greater price, right otherwise. *)
Fixpoint ins (new : addr) (p : Z) (t : tree) : tree :=
  match t with
  | Leaf => Node Leaf new p Leaf
  | Node tl a q tr =>
      if decide (p < q) then Node (ins new p tl) a q tr
      else Node tl a q (ins new p tr)
  end.

(** The search of [find_level], on the tree. *)
Fixpoint tree_find (p : Z) (t : tree) : ptr :=
  match t with
  | Leaf => nullptr
  | Node tl a q tr =>
      if decide (p = q) then Some a
      else if decide (p < q) then tree_find p tl else tree_find p tr
  end.

(** The fields of a level that place it in the index. *)
Definition tree_fields (lv : PriceLevel.t) : Z * ptr * ptr :=
  (PriceLevel.price lv, PriceLevel.left lv, PriceLevel.right lv).

(** The index of side [s] of book [b] is the search tree [t], made of
    distinct level slots that were all handed out already, and deep at
    most [fuel]. *)
Definition index_wf (fuel : nat) (s : Side) (b : OrderBook.t) (t : tree) : Prop :=
  shape (OrderBook.price_level_pool_ b) (OrderBook.root s b) t
  ∧ bst t
  ∧ NoDup (addrs t)
  ∧ Forall (λ a, (a < OrderBook.pool_index_ b)%nat) (addrs t)
  ∧ (height t ≤ fuel)%nat.

(** The best price of a side holding the prices [l] (in increasing
    order): the highest bid, the lowest ask. *)
Definition extreme (s : Side) (l : list Z) : option Z :=
  match s with BUY => last l | SELL => head l end.

(** The best pointer of side [s] is null on an empty index and otherwise
    designates a level of the index that has the best price. *)
Definition best_ok (s : Side) (b : OrderBook.t) (t : tree) : Prop :=
  match OrderBook.best s b with
  | None => t = Leaf
  | Some a => a ∈ addrs t ∧ best_price s b = extreme s (keys t)
  end.

(** A second bid, at a better price than the resting bid of [one_bid]. *)
Definition higher_bid : Order.t := Order.make 2 2 100100 40 BUY LIMIT.
Definition heap_higher_bid : heap := <[1%nat := higher_bid]> heap_one_bid.
Definition after_higher_bid : heap * OrderBook.t :=
  default (heap_higher_bid, book_one_bid)
    (OrderBook.add_order 16 1%nat heap_higher_bid book_one_bid).

(** ** The FIFO of a level as a doubly linked list *)

(** The element before index [i] of [l], if any. *)
Definition prev_index (l : list addr) (i : nat) : ptr :=
  match i with O => nullptr | S j => l !! j end.

(** The level at [level] holds exactly the orders of [l], oldest first, as
    a doubly linked list: [head_order] and [tail_order] are the two ends,
    every order of [l] has the following order as [next], the preceding one
    as [prev] and [level] as [parent_level], no order occurs twice, and
    [total_volume] and [order_count] are the [uint32_t] sum of the
    remaining quantities and the number of orders. *)
Definition dll (h : heap) (level : addr) (lv : PriceLevel.t) (l : list addr)
  : Prop :=
  NoDup l
  ∧ PriceLevel.head_order lv = head l
  ∧ PriceLevel.tail_order lv = last l
  ∧ (∀ i a, l !! i = Some a →
            ∃ o, h !! a = Some o
                 ∧ Order.next o = l !! S i
                 ∧ Order.prev o = prev_index l i
                 ∧ Order.parent_level o = Some level)
  ∧ PriceLevel.total_volume lv = u32 (fifo_volume h l)
  ∧ PriceLevel.order_count lv = Z.of_nat (length l)
  ∧ Z.of_nat (length l) < 2 ^ 32.

(** A second bid at the price of the resting bid of [one_bid], in the
    next slot of the store, and the store and book once it rests too. *)
Definition second_bid : Order.t := Order.make 3 3 100000 40 BUY LIMIT.
Definition heap_second_bid : heap := <[1%nat := second_bid]> heap_one_bid.
Definition level_one_bid : PriceLevel.t :=
  PriceLevel.mk 100000 100 1 (Some 0%nat) (Some 0%nat) nullptr nullptr nullptr.
Definition after_second_bid : heap * OrderBook.t :=
  default (heap_second_bid, book_one_bid)
    (OrderBook.add_order 16 1%nat heap_second_bid book_one_bid).
Definition level_two_bids : PriceLevel.t :=
  PriceLevel.mk 100000 140 2 (Some 0%nat) (Some 1%nat) nullptr nullptr nullptr.

(** ** Time priority inside a level *)

(** Remaining quantities and prices of the orders of [l], in order. *)
Definition rems (h : heap) (l : list addr) : list Z :=
  (λ a, default 0 (Order.remaining_quantity <$> h !! a)) <$> l.
Definition order_prices (h : heap) (l : list addr) : list Z :=
  (λ a, default 0 (Order.price <$> h !! a)) <$> l.

(** The quantities an incoming quantity [q] takes from resting quantities
    [rs] served strictly in order: each resting order gives what it has
    until [q] is used up. *)
Fixpoint greedy (q : Z) (rs : list Z) : list Z :=
  match rs with
  | [] => []
  | r :: rs =>
      if decide (q > 0) then Z.min q r :: greedy (q - Z.min q r) rs else []
  end.

(** Number of leading resting orders that [q] fills completely. *)
Fixpoint filled_prefix (q : Z) (rs : list Z) : nat :=
  match rs with
  | [] => O
  | r :: rs =>
      if decide (q > 0) then
        if decide (r <= q) then S (filled_prefix (q - r) rs) else O
      else O
  end.

(** A sell order for 120 at the price of the two resting bids of
    [after_second_bid] (100 and 40, in this order), written to the next
    slot of the store. *)
Definition crossing_sell : Order.t := Order.make 4 4 100000 120 SELL LIMIT.
Definition heap_crossing_sell : heap :=
  <[2%nat := crossing_sell]> after_second_bid.1.

(** A bid on "A" and an ask on "B" rest; then a buy on "B" trades with
    the ask, which is modified and cancelled afterwards. *)
Definition two_symbol_orders : list Event :=
  [ Submit "A" 1 1 100000 100 BUY LIMIT;
    Submit "B" 5 5 100000 100 SELL LIMIT ].
Definition second_symbol_events : list Event :=
  [ Submit "B" 6 6 100000 40 BUY LIMIT;
    Modify "B" 5 7;
    Cancel "B" 5 ].
Definition engine_two_symbols : MatchingEngine.t :=
  default (MatchingEngine.init (test_config 100))
    (run 16 two_symbol_orders (MatchingEngine.init (test_config 100))).
Definition after_second_symbol : MatchingEngine.t :=
  default engine_two_symbols (run 16 second_symbol_events engine_two_symbols).

(** ** The order records of a book

    The order store is shared by the books of an engine.  The records a
    book can reach in it are the values of its id map, the two ends of the
    FIFO of each of its level slots, and whatever those records designate
    as [next] or [prev]. *)
Inductive book_order (h : heap) (b : OrderBook.t) : addr → Prop :=
| order_by_id id a :
    OrderBook.orders_ b !! id = Some a → book_order h b a
| order_head l lv a :
    OrderBook.price_level_pool_ b !! l = Some lv →
    PriceLevel.head_order lv = Some a → book_order h b a
| order_tail l lv a :
    OrderBook.price_level_pool_ b !! l = Some lv →
    PriceLevel.tail_order lv = Some a → book_order h b a
| order_next a o x :
    book_order h b a → h !! a = Some o → Order.next o = Some x →
    book_order h b x
| order_prev a o x :
    book_order h b a → h !! a = Some o → Order.prev o = Some x →
    book_order h b x.

(** A set [S] of slots of the order store that the pointers of a book do
    not leave: the id map and the ends of the FIFOs designate slots of
    [S], and so do the links of the records held in slots of [S]. *)
Definition ids_in (S : addr → Prop) (m : gmap Z addr) : Prop :=
  ∀ id a, m !! id = Some a → S a.
Definition ends_in (S : addr → Prop) (L : PriceLevel.pool) : Prop :=
  ∀ l lv a, L !! l = Some lv →
            PriceLevel.head_order lv = Some a ∨ PriceLevel.tail_order lv = Some a →
            S a.
Definition links_in (S : addr → Prop) (h : heap) : Prop :=
  ∀ a o x, S a → h !! a = Some o →
           Order.next o = Some x ∨ Order.prev o = Some x → S x.
Definition closed (S : addr → Prop) (h : heap) (b : OrderBook.t) : Prop :=
  ids_in S (OrderBook.orders_ b)
  ∧ ends_in S (OrderBook.price_level_pool_ b)
  ∧ links_in S h.

(** The stores [h] and [h'] agree outside [S]. *)
Definition same_outside (S : addr → Prop) (h h' : heap) : Prop :=
  ∀ a, ¬ S a → h' !! a = h !! a.

(** The books of an engine do not share order records: every slot written
    so far and every slot a book can reach lies below the pool cursor, and
    no slot can be reached from the books of two symbols. *)
Definition books_apart (e : MatchingEngine.t) : Prop :=
  0 <= MatchingEngine.pool_index_ e
  ∧ (∀ a, is_Some (MatchingEngine.order_pool_ e !! a) →
          (a < Z.to_nat (MatchingEngine.pool_index_ e))%nat)
  ∧ (∀ sym b a, MatchingEngine.books_ e !! sym = Some b →
                book_order (MatchingEngine.order_pool_ e) b a →
                (a < Z.to_nat (MatchingEngine.pool_index_ e))%nat)
  ∧ (∀ s1 s2 b1 b2 a,
       s1 ≠ s2 →
       MatchingEngine.books_ e !! s1 = Some b1 →
       MatchingEngine.books_ e !! s2 = Some b2 →
       book_order (MatchingEngine.order_pool_ e) b1 a →
       ¬ book_order (MatchingEngine.order_pool_ e) b2 a).

(** The best pointers of a book designate slots of its level store. *)
Definition best_valid (b : OrderBook.t) : Prop :=
  ∀ s a, OrderBook.best s b = Some a →
         is_Some (OrderBook.price_level_pool_ b !! a).

(** ** The ITCH feed handler

    [FeedHandler] of [include/feed_handler.hpp] and [src/feed_handler.cpp].
    The message buffer is a list of bytes.  The packed message structs are
    read in place ([reinterpret_cast]) on the x86-64 host the sources
    target ([rdtsc], [mfence]): an integer field is the little-endian
    value of its bytes, which the handler then byte-swaps. *)

Module FeedHandler.

Definition byte_val (b : byte) : Z := Z.of_N (Byte.to_N b).

(** The value an unsigned integer field has when its bytes [bs] are read
    in place. *)
Fixpoint load_le (bs : list byte) : Z :=
  match bs with
  | [] => 0
  | b :: bs => byte_val b + 256 * load_le bs
  end.

(** Byte reversal of an [n]-byte value: [__builtin_bswap32],
    [__builtin_bswap64], and [ntohs], [ntohl] on this host. *)
Fixpoint bswap (n : nat) (x : Z) : Z :=
  match n with
  | O => 0
  | S n => Z.lor (Z.shiftl (Z.land x 255) (8 * Z.of_nat n))
                 (bswap n (Z.shiftr x 8))
  end.
Definition ntohs : Z → Z := bswap 2.
Definition ntohl : Z → Z := bswap 4.
Definition bswap32 : Z → Z := bswap 4.
Definition bswap64 : Z → Z := bswap 8.

(** The [len] bytes at offset [off] of a buffer. *)
Definition bytes_at (data : list byte) (off len : nat) : list byte :=
  take len (drop off data).

(** [struct ITCHAddOrder], packed: the fields as read in place. *)
Record ITCHAddOrder := mkITCHAddOrder {
  stock_locate : Z;          (* uint16_t, offset 0 *)
  tracking_number : Z;       (* uint16_t, offset 2 *)
  timestamp : Z;             (* uint64_t, offset 4 *)
  order_ref_num : Z;         (* uint64_t, offset 12 *)
  buy_sell_indicator : byte; (* char, offset 20 *)
  shares : Z;                (* uint32_t, offset 21 *)
  stock : list byte;         (* char[8], offset 25 *)
  price : Z                  (* uint32_t, offset 33 *)
}.

Definition sizeof_ITCHAddOrder : nat := 37.
Definition sizeof_ITCHOrderCancel : nat := 24.
Definition sizeof_ITCHOrderDelete : nat := 20.

(** [reinterpret_cast<const ITCHAddOrder*>(data)]; [None] when the buffer
    is shorter than the struct. *)
Definition as_ITCHAddOrder (data : list byte) : option ITCHAddOrder :=
  if decide (sizeof_ITCHAddOrder ≤ length data)%nat then
    ind ← data !! 20%nat;
    Some (mkITCHAddOrder
            (load_le (bytes_at data 0 2))
            (load_le (bytes_at data 2 2))
            (load_le (bytes_at data 4 8))
            (load_le (bytes_at data 12 8))
            ind
            (load_le (bytes_at data 21 4))
            (bytes_at data 25 8)
            (load_le (bytes_at data 33 4)))
  else None.

(** [static uint16_t parse_uint16(const uint8_t* data)] and its 32- and
    64-bit companions. *)
Definition parse_uint16 (data : list byte) : Z := ntohs (load_le (bytes_at data 0 2)).
Definition parse_uint32 (data : list byte) : Z := ntohl (load_le (bytes_at data 0 4)).
Definition parse_uint64 (data : list byte) : Z := bswap64 (load_le (bytes_at data 0 8)).

(** [std::string::find_last_not_of(char)]: the last position holding
    another character, [None] for [npos]. *)
Fixpoint find_last_not_of (c : byte) (s : list byte) : option nat :=
  match s with
  | [] => None
  | x :: s =>
      match find_last_not_of c s with
      | Some i => Some (S i)
      | None => if Byte.eqb x c then None else Some O
      end
  end.

(** [static std::string parse_stock_symbol(const char* data)] *)
Definition parse_stock_symbol (data : list byte) : list byte :=
  let symbol := take 8 data in
  match find_last_not_of " "%byte symbol with
  | Some e => take (e + 1) symbol
  | None => symbol
  end.

(** [std::string::c_str()] read back as a C string, as the engine does when
    it builds the key of [books_] from its [const char*] argument: the
    characters before the first NUL. *)
Fixpoint c_str (s : list byte) : list byte :=
  match s with
  | [] => []
  | b :: s => if Byte.eqb b Byte.x00 then [] else b :: c_str s
  end.

(** [void handle_add_order(const ITCHAddOrder& msg)] *)
Definition handle_add_order (fuel : nat) (msg : ITCHAddOrder)
  (e : MatchingEngine.t) : option MatchingEngine.t :=
  let symbol := parse_stock_symbol (stock msg) in
  let side := if Byte.eqb (buy_sell_indicator msg) "B"%byte then BUY else SELL in
  let timestamp := bswap64 (timestamp msg) in
  let order_id := bswap64 (order_ref_num msg) in
  let price := bswap32 (price msg) in
  let quantity := bswap32 (shares msg) in
  MatchingEngine.submit_order fuel (String.string_of_list_byte (c_str symbol))
    order_id timestamp price quantity side LIMIT e.

(** [void handle_order_cancel(const ITCHOrderCancel& msg)] and
    [void handle_order_delete(const ITCHOrderDelete& msg)]: the order
    reference is byte-swapped and discarded. *)
Definition handle_order_cancel (data : list byte) (e : MatchingEngine.t)
  : MatchingEngine.t :=
  let order_id := bswap64 (load_le (bytes_at data 12 8)) in e.
Definition handle_order_delete (data : list byte) (e : MatchingEngine.t)
  : MatchingEngine.t :=
  let order_id := bswap64 (load_le (bytes_at data 12 8)) in e.

(** [void process_message(uint8_t msg_type, const uint8_t* data, size_t length)] *)
Definition process_message (fuel : nat) (msg_type : byte) (data : list byte)
  (length : nat) (e : MatchingEngine.t) : option MatchingEngine.t :=
  match msg_type with
  | "A"%byte =>
      if decide (sizeof_ITCHAddOrder ≤ length)%nat then
        msg ← as_ITCHAddOrder data; handle_add_order fuel msg e
      else Some e
  | "X"%byte =>
      if decide (sizeof_ITCHOrderCancel ≤ length)%nat
      then Some (handle_order_cancel data e) else Some e
  | "D"%byte =>
      if decide (sizeof_ITCHOrderDelete ≤ length)%nat
      then Some (handle_order_delete data e) else Some e
  | _ => Some e
  end.

(** The handler: the engine it drives and its message counter. *)
Record t := mk {
  engine_ : MatchingEngine.t;
  running_ : bool;
  messages_processed_ : Z;   (* std::atomic<uint64_t> *)
  last_timestamp_ : Z
}.

Definition init (engine : MatchingEngine.t) : t := mk engine false 0 0.

(** How a replay ends: normally, or with the [std::length_error] that
    [std::vector<uint8_t> data(msg_length - 1)] throws when [msg_length]
    is 0 (the size requested is then [SIZE_MAX]); the exception leaves
    [replay_itch_file], the engine being as the messages before it have
    left it. *)
Inductive replay_result :=
| Replayed (h : t)
| LengthError (h : t).

(** The loop [while (file) { ... }] of [replay_itch_file] on the bytes
    [file] not yet read.  A read that finds fewer bytes than asked for sets
    the fail bit, which ends the loop. *)
Fixpoint replay_loop (n fuel : nat) (file : list byte) (message_count : Z)
  (h : t) : option replay_result :=
  match n with
  | O => None
  | S n =>
      if decide (length file < 2)%nat
      then Some (Replayed (mk (engine_ h) (running_ h) message_count
                              (last_timestamp_ h)))
      else
        let msg_length := ntohs (load_le (take 2 file)) in
        let file := drop 2 file in
        match file with
        | [] => Some (Replayed (mk (engine_ h) (running_ h) message_count
                                   (last_timestamp_ h)))
        | msg_type :: file =>
            if decide (msg_length = 0) then Some (LengthError h)
            else
              let len := Z.to_nat (msg_length - 1) in
              if decide (length file < len)%nat
              then Some (Replayed (mk (engine_ h) (running_ h) message_count
                                      (last_timestamp_ h)))
              else
                let data := take len file in
                e ← process_message fuel msg_type data len (engine_ h);
                replay_loop n fuel (drop len file) (u64 (message_count + 1))
                  (mk e (running_ h) (messages_processed_ h) (last_timestamp_ h))
        end
  end.

(** [void replay_itch_file(const std::string& filename)] on a file that
    could be opened and holds the bytes [file]; every pass of the loop
    reads at least three bytes. *)
Definition replay_itch_file (fuel : nat) (file : list byte) (h : t)
  : option replay_result :=
  replay_loop (S (length file)) fuel file 0 h.

End FeedHandler.

(** *** Stating the feed handler's properties *)

(** The big-endian (network order) value of a byte string. *)
Definition load_be (bs : list byte) : Z :=
  foldl (λ acc b, acc * 256 + FeedHandler.byte_val b) 0 bs.

(** The big-endian bytes of [x] on [n] bytes. *)
Fixpoint store_be (n : nat) (x : Z) : list byte :=
  match n with
  | O => []
  | S n => default Byte.x00 (Byte.of_N (Z.to_N ((x `div` 256 ^ Z.of_nat n) `mod` 256)))
           :: store_be n x
  end.

(** A message as it lies in an ITCH file: two bytes of length in network
    order, counting the type byte and the payload, then the type byte, then
    the payload. *)
Definition frame (m : byte * list byte) : list byte :=
  store_be 2 (Z.of_nat (S (length m.2))) ++ m.1 :: m.2.

(** The submission an add-order payload stands for. *)
Definition add_order_event (data : list byte) : Event :=
  Submit
    (String.string_of_list_byte
       (FeedHandler.c_str
          (FeedHandler.parse_stock_symbol (FeedHandler.bytes_at data 25 8))))
    (load_be (FeedHandler.bytes_at data 12 8))
    (load_be (FeedHandler.bytes_at data 4 8))
    (load_be (FeedHandler.bytes_at data 33 4))
    (load_be (FeedHandler.bytes_at data 21 4))
    (if Byte.eqb (default Byte.x00 (data !! 20%nat)) "B"%byte then BUY else SELL)
    LIMIT.

(** The engine events of a message: one submission for an add-order
    message that is long enough, nothing for any other message. *)
Definition message_events (m : byte * list byte) : list Event :=
  if Byte.eqb m.1 "A"%byte && bool_decide (37 ≤ length m.2)%nat
  then [add_order_event m.2] else [].

(** The payload of an add-order message: a buy of 100 shares of "A" at
    100000, order reference 1, timestamp 7. *)
Definition sample_add_order : list byte :=
  store_be 2 0 ++ store_be 2 0 ++ store_be 8 7 ++ store_be 8 1
  ++ ["B"%byte] ++ store_be 4 100 ++ String.list_byte_of_string "A       "
  ++ store_be 4 100000.

(** That message, an order-cancel message for the same order, and a
    system-event message. *)
Definition sample_messages : list (byte * list byte) :=
  [ ("A"%byte, sample_add_order);
    ("X"%byte, store_be 2 0 ++ store_be 2 0 ++ store_be 8 8 ++ store_be 8 1
               ++ store_be 4 100);
    ("S"%byte, store_be 2 0 ++ store_be 2 0 ++ store_be 8 9 ++ ["O"%byte]) ].

Definition sample_handler : FeedHandler.t :=
  FeedHandler.init (MatchingEngine.init (test_config 100)).

(** ** Removing a level from the index *)

(** [shape] with the parent pointers: every node of the tree has the node
    above it as [parent], the root has [par]. *)
Fixpoint pshape (L : PriceLevel.pool) (par rt : ptr) (t : tree) : Prop :=
  match t with
  | Leaf => rt = nullptr
  | Node tl a p tr =>
      rt = Some a
      ∧ ∃ lv, L !! a = Some lv
              ∧ PriceLevel.price lv = p
              ∧ PriceLevel.parent lv = par
              ∧ pshape L (Some a) (PriceLevel.left lv) tl
              ∧ pshape L (Some a) (PriceLevel.right lv) tr
  end.

(** The leftmost node of a tree. *)
Fixpoint tree_min (t : tree) : option (addr * Z) :=
  match t with
  | Leaf => None
  | Node tl a p _ =>
      match tree_min tl with
      | Some m => Some m
      | None => Some (a, p)
      end
  end.

(** The tree [remove_level] leaves when it is given the node [a]: a node
    with at most one child is replaced by that child; a node with two
    children stays where it is, takes the price of the leftmost node of
    its right subtree, and that node is removed instead. *)
Fixpoint tree_remove (a : addr) (t : tree) : tree :=
  match t with
  | Leaf => Leaf
  | Node tl x p tr =>
      if decide (x = a) then
        match tl, tr with
        | Leaf, _ => tr
        | _, Leaf => tl
        | _, _ =>
            match tree_min tr with
            | Some (s, ps) => Node tl x ps (tree_remove s tr)
            | None => Leaf
            end
        end
      else Node (tree_remove a tl) x p (tree_remove a tr)
  end.

(** The pointer through which a subtree is reached: the root pointer of
    the side when the subtree has no parent, else a child pointer of the
    parent [q] (the right one only if the left one is another pointer). *)
Definition slot_pre (L : PriceLevel.pool) (par c rt : ptr) (t : tree) : Prop :=
  match par with
  | None => rt = c
  | Some q =>
      (q ∉ addrs t)
      ∧ ∃ ql, L !! q = Some ql
              ∧ (PriceLevel.left ql = c
                 ∨ PriceLevel.right ql = c ∧ PriceLevel.left ql ≠ c)
  end.

(** That pointer now holds [c']. *)
Definition slot_post (L L' : PriceLevel.pool) (par c c' rt rt' : ptr) : Prop :=
  match par with
  | None => rt' = c'
  | Some q =>
      rt' = rt
      ∧ ∃ ql, L !! q = Some ql
              ∧ L' !! q = Some (if decide (PriceLevel.left ql = c)
                                then PriceLevel.set_left c' ql
                                else PriceLevel.set_right c' ql)
  end.

(** What the levels of a tree hold, in the order of the prices: for each
    node its price and the fields of its FIFO. *)
Definition level_data (L : PriceLevel.pool) (t : tree)
  : list (option (Z * Z * Z * ptr * ptr)) :=
  (λ a, fifo_fields <$> L !! a) <$> addrs t.

(** Three bids at 100, 90 and 110, and the book they leave: the level at
    100 is the root of the bid index, with a child on either side. *)
Definition three_bids : list Event :=
  [ Submit "A" 1 1 100 10 BUY LIMIT;
    Submit "A" 2 2 90 10 BUY LIMIT;
    Submit "A" 3 3 110 10 BUY LIMIT ].
Definition book_three_bids : OrderBook.t :=
  default OrderBook.init
    (e ← run 16 three_bids (MatchingEngine.init (test_config 100));
     MatchingEngine.get_book "A" e).
Definition tree_three_bids : tree :=
  Node (Node Leaf 1%nat 90 Leaf) 0%nat 100 (Node Leaf 2%nat 110 Leaf).

(** ** Draining the execution queue

    The loop of [run_synthetic_benchmark] in [src/main.cpp]:
    [while (engine->get_execution_queue().pop(report)) ++report_count;]
    with [size_t report_count = 0]. *)
Fixpoint drain_reports (fuel : nat) (q : SPSCQueue.t ExecutionReport.t)
  (report_count : Z) : option (Z * SPSCQueue.t ExecutionReport.t) :=
  match SPSCQueue.pop MatchingEngine.QUEUE_LOG2 q with
  | (Some _, q) =>
      match fuel with
      | O => None
      | S fuel => drain_reports fuel q (u64 (report_count + 1))
      end
  | (None, q) => Some (report_count, q)
  end.

(** The engine after the stream [asks_then_buy_120], which trades twice. *)
Definition engine_two_trades : MatchingEngine.t :=
  default (MatchingEngine.init (test_config 100))
    (run 16 asks_then_buy_120 (MatchingEngine.init (test_config 100))).

(** ** Latency statistics

    [calculate_latency_stats] of [src/utils.cpp]. *)

Module LatencyStats.
Record t := mk {
  min_ns : Z;
  max_ns : Z;
  mean_ns : Z;
  p50_ns : Z;
  p95_ns : Z;
  p99_ns : Z;
  p999_ns : Z;
  count : Z
}.
End LatencyStats.

(** [static_cast<size_t>(x)] for a [double] that is not negative and
    below [2 ^ 64]: the integer part. *)
Definition double_to_size_t (x : float) : Z :=
  match Prim2SF x with
  | S754_finite false m e =>
      if decide (0 <= e) then Z.pos m * 2 ^ e else Z.pos m `div` 2 ^ (- e)
  | _ => 0
  end.

(** The lambda [percentile]: [p * sorted.size()] is a product of
    doubles. *)
Definition percentile (sorted : list Z) (p : float) : Z :=
  let size := Z.of_nat (length sorted) in
  let idx := double_to_size_t (PrimFloat.mul p (PrimFloat.of_uint63 (Uint63.of_Z size))) in
  default 0 (sorted !! Z.to_nat (Z.min idx (size - 1))).

(** [std::accumulate(sorted.begin(), sorted.end(), 0ULL)] *)
Definition accumulate (l : list Z) : Z := foldl (λ acc x, u64 (acc + x)) 0 l.

(** [LatencyStats calculate_latency_stats(const std::vector<uint64_t>&)];
    [std::sort] is the sort into ascending order. *)
Definition calculate_latency_stats (latencies : list Z) : LatencyStats.t :=
  match latencies with
  | [] => LatencyStats.mk 0 0 0 0 0 0 0 0
  | _ =>
      let sorted := merge_sort Z.le latencies in
      let size := Z.of_nat (length sorted) in
      LatencyStats.mk
        (default 0 (head sorted))
        (default 0 (last sorted))
        (accumulate sorted `div` size)
        (percentile sorted 0x1p-1%float)
        (percentile sorted 0x1.e666666666666p-1%float)
        (percentile sorted 0x1.fae147ae147aep-1%float)
        (percentile sorted 0x1.ff7ced916872bp-1%float)
        size
  end.

(** The record of the second bid once it rests behind the first. *)
Definition second_bid_resting : Order.t :=
  default Order.default (after_second_bid.1 !! 1%nat).

(** The index of side [s] of a book is the tree [t] with consistent parent
    pointers, made of distinct level slots that were all handed out
    already, and deep at most [fuel]. *)
Definition linked_index (fuel : nat) (s : Side) (b : OrderBook.t) (t : tree)
  : Prop :=
  pshape (OrderBook.price_level_pool_ b) nullptr (OrderBook.root s b) t
  ∧ NoDup (addrs t)
  ∧ Forall (λ a, (a < OrderBook.pool_index_ b)%nat) (addrs t)
  ∧ (height t ≤ fuel)%nat.

(** The order store after [three_bids], the record of the third bid (at
    110, the best bid) and its level. *)
Definition heap_three_bids : heap :=
  default ∅
    (MatchingEngine.order_pool_
       <$> run 16 three_bids (MatchingEngine.init (test_config 100))).
Definition third_bid_resting : Order.t :=
  default Order.default (heap_three_bids !! 2%nat).
Definition level_third_bid : PriceLevel.t :=
  default (PriceLevel.make 0)
    (OrderBook.price_level_pool_ book_three_bids !! 2%nat).

(** ** The ring logger

    [RingLogger<Capacity>] of [include/utils.hpp] and [src/utils.cpp];
    [Capacity] is [2 ^ k] as the [static_assert] demands.  The time read by
    [get_timestamp_ns()] is an argument of [log]. *)

Module RingLogger.
(** [struct LogEntry { uint64_t timestamp; char message[120]; }] *)
Record LogEntry := mkEntry {
  timestamp : Z;
  message : list byte
}.

Definition message_size : nat := 120.

(** [std::strncpy(dest, src, n)] for the C string held in [src]: its
    characters up to [n] of them, then NULs until [n] bytes are written. *)
Definition strncpy (dest src : list byte) (n : nat) : list byte :=
  let s := take n (FeedHandler.c_str src) in
  s ++ replicate (n - length s) Byte.x00 ++ drop n dest.

Section Logger.
Variable k : Z.

Definition Capacity : Z := 2 ^ k.

Record t := mk {
  head_ : Z;                 (* std::atomic<size_t> *)
  buffer_ : list LogEntry    (* std::array<LogEntry, Capacity> *)
}.

(** [void log(const char* msg)] *)
Definition log (now : Z) (msg : list byte) (l : t) : option t :=
  let idx := Z.to_nat (Z.land (head_ l) (Capacity - 1)) in
  entry ← buffer_ l !! idx;
  let m := strncpy (message entry) msg (message_size - 1) in
  let m := <[(message_size - 1)%nat := Byte.x00]> m in
  Some (mk (u64 (head_ l + 1)) (<[idx := mkEntry now m]> (buffer_ l))).

(** What [file << entry.timestamp << ": " << entry.message << "\n"]
    writes. *)
Definition line (entry : LogEntry) : string :=
  pretty (timestamp entry) +:+ ": "
  +:+ String.string_of_list_byte (FeedHandler.c_str (message entry))
  +:+ String (Ascii.ascii_of_nat 10) EmptyString.

(** [void dump_to_file(const std::string& filename) const], the file
    having been opened: the text written to it. *)
Definition dump_to_file (l : t) : string :=
  let count := Z.min (head_ l) Capacity in
  foldr (λ entry out, line entry +:+ out) "" (take (Z.to_nat count) (buffer_ l)).
End Logger.
End RingLogger.

(** Logging the messages [es], each with the time it is logged at. *)
Fixpoint log_all (k : Z) (es : list (Z * list byte)) (l : RingLogger.t)
  : option RingLogger.t :=
  match es with
  | [] => Some l
  | e :: es => l ← RingLogger.log k e.1 e.2 l; log_all k es l
  end.

(** The entry a message leaves in the buffer: its time and its first 119
    characters. *)
Definition logged (e : Z * list byte) : RingLogger.LogEntry :=
  RingLogger.mkEntry e.1 (take 119 (FeedHandler.c_str e.2)).

(** Of [n] messages logged into [c] slots, the number of the one that slot
    [i] holds: the last one whose number is [i] modulo [c]. *)
Definition kept (c n i : Z) : Z := i + c * ((n - 1 - i) `div` c).

(** The entries a dump shows after the messages [es], in slot order. *)
Definition kept_entries (c : Z) (es : list (Z * list byte))
  : list RingLogger.LogEntry :=
  let n := Z.of_nat (length es) in
  (λ i, logged (default (0, []) (es !! Z.to_nat (kept c n i))))
    <$> seqZ 0 (Z.min n c).

(** Two entries that are printed alike. *)
Definition same_line (e e' : RingLogger.LogEntry) : Prop :=
  RingLogger.timestamp e = RingLogger.timestamp e'
  ∧ FeedHandler.c_str (RingLogger.message e)
    = FeedHandler.c_str (RingLogger.message e').

(** What the buffer holds after the messages [es]. *)
Definition holds (k : Z) (es : list (Z * list byte)) (l : RingLogger.t)
  : Prop :=
  RingLogger.head_ l = Z.of_nat (length es)
  ∧ length (RingLogger.buffer_ l) = Z.to_nat (RingLogger.Capacity k)
  ∧ Forall (λ e, length (RingLogger.message e) = 120%nat)
      (RingLogger.buffer_ l)
  ∧ ∀ i, 0 <= i < Z.min (Z.of_nat (length es)) (RingLogger.Capacity k) →
         ∃ e, RingLogger.buffer_ l !! Z.to_nat i = Some e
              ∧ same_line e
                  (logged (default (0, [])
                             (es !! Z.to_nat (kept (RingLogger.Capacity k)
                                                (Z.of_nat (length es)) i)))).

(** A logger of four slots and six messages, the third longer than a
    slot's text. *)
Definition sample_buffer : list RingLogger.LogEntry :=
  replicate 4 (RingLogger.mkEntry 0 (replicate 120 Byte.x00)).
Definition sample_log : list (Z * list byte) :=
  [ (10, String.list_byte_of_string "start");
    (11, String.list_byte_of_string "order 1");
    (12, replicate 130 "x"%byte);
    (13, String.list_byte_of_string "order 2");
    (14, String.list_byte_of_string "order 3");
    (15, String.list_byte_of_string "stop") ].

(** * Properties *)

(** ** Best pointers after a match (C1) *)

(** C1 (the code departs from the claim).  Asks are entered at 100, 120
    and 110; a buy then takes the whole level at 100.  [match_order] moves
    [best_ask_] to the right child of the depleted level, the level at 120,
    although the ask index still holds the level at 110: the best-ask
    pointer is non-null and is not the minimum-price level of the index. *)
Theorem C1_best_ask_not_minimum_after_match :
  (e ← run 16 asks_then_buy_100 (MatchingEngine.init (test_config 100));
   b ← MatchingEngine.get_book "A" e;
   Some (best_price SELL b, index_prices 16 SELL b))
  = Some (Some 120, Some [110; 120]).
Proof. vm_compute. reflexivity. Qed.

(** ** Back-pointers after a cancel that removes a level (C2) *)

(** C2 (the code departs from the claim).  Bids are entered at 100, 90 and
    110 and the bid at 100 is cancelled.  [remove_level] copies the level
    at 110 into the node that held 100 and unlinks the node that held 110;
    order 3 still rests (id map), its back-pointer still designates the
    unlinked node, and that node is absent from the bid index. *)
Theorem C2_back_pointer_leaves_index_after_cancel :
  (e ← run 16 bids_then_cancel_root (MatchingEngine.init (test_config 100));
   b ← MatchingEngine.get_book "A" e;
   a ← OrderBook.orders_ b !! 3;
   o ← MatchingEngine.order_pool_ e !! a;
   ls ← index_levels 16 (OrderBook.price_level_pool_ b) (OrderBook.root BUY b);
   Some (Order.parent_level o, ls, OrderBook.best_bid_ b))
  = Some (Some 2%nat, [1%nat; 0%nat], Some 2%nat).
Proof. vm_compute. reflexivity. Qed.

(** ** Volume queries (C3) *)

(** C3 (the code departs from the claim).  On the book of the test
    [OrderBookTest.MultiplePriceLevels] (bids of 100 at 100000, 99900 and
    99800) the levels of the bid index hold 300 in total, the value the test
    expects, while [get_total_bid_volume] follows only [right] pointers from
    the root and returns 100. *)
Theorem C3_total_bid_volume_misses_left_levels :
  (e ← run 16 multiple_price_levels (MatchingEngine.init (test_config 100));
   b ← MatchingEngine.get_book "A" e;
   Some (OrderBook.get_total_bid_volume 16 b, index_volume 16 BUY b))
  = Some (Some 100, Some 300).
Proof. vm_compute. reflexivity. Qed.

(** ** Order of the fills of one aggressor (C4) *)

(** C4 (the code departs from the claim).  With asks resting at 100, 110
    and 120 (entered in the order 100, 120, 110), a buy at 120 for 25 is
    filled at 100 and then at 120: the level at 110 is skipped, stays in the
    ask index, and the remainder of the buy rests at 120. *)
Theorem C4_match_skips_a_better_level :
  (e ← run 16 asks_then_buy_120 (MatchingEngine.init (test_config 100));
   b ← MatchingEngine.get_book "A" e;
   Some (map (λ r, (ExecutionReport.price r, ExecutionReport.executed_quantity r))
           (pending_reports e),
         index_prices 16 SELL b, index_prices 16 BUY b))
  = Some ([(100, 10); (120, 10)], Some [110], Some [120]).
Proof. vm_compute. reflexivity. Qed.

(** ** Arithmetic on fixed-width values *)

Lemma u32_idem z : u32 (u32 z) = u32 z.
Proof. unfold u32. apply Z.mod_mod. lia. Qed.

Lemma u32_small z : 0 <= z < 2 ^ 32 → u32 z = z.
Proof. intros H. unfold u32. by apply Z.mod_small. Qed.

(** A computation that succeeds returns the value [default] extracts. *)
Lemma default_is_Some {A} (d : A) (o : option A) :
  is_Some o → o = Some (default d o).
Proof. by intros [x ->]. Defined.

(** ** Pool exhaustion (C7) *)

Section EngineFacts.
Import MatchingEngine.

Lemma allocate_exhausted e :
  pool_exhausted e →
  allocate_order e = (nullptr, set_pool_index_ (u64 (pool_index_ e + 1)) e).
Proof.
  unfold pool_exhausted, allocate_order. intros H.
  destruct (decide _) as [|n]; [done|]. simpl in n. lia.
Qed.

(** C7.  A [submit_order] made while the pool is exhausted returns
    normally; it leaves the execution queue (no report is emitted), the
    order store, [total_orders_] and [total_matches_] as they were; the book
    of the symbol is unchanged if it existed and is the freshly created
    empty book otherwise; the books of the other symbols are unchanged. *)
Theorem C7_submit_on_exhausted_pool fuel symbol id ts p q s ty e :
  pool_exhausted e →
  ∃ e', submit_order fuel symbol id ts p q s ty e = Some e'
    ∧ execution_queue_ e' = execution_queue_ e
    ∧ total_orders_ e' = total_orders_ e
    ∧ total_matches_ e' = total_matches_ e
    ∧ order_pool_ e' = order_pool_ e
    ∧ (∀ b, get_book symbol e = Some b → get_book symbol e' = Some b)
    ∧ (get_book symbol e = None → get_book symbol e' = Some OrderBook.init)
    ∧ (∀ sym, sym ≠ symbol → get_book sym e' = get_book sym e).
Proof.
  intros Hex. unfold submit_order.
  destruct (get_book symbol e) as [book|] eqn:Hb.
  - rewrite (allocate_exhausted e Hex). eexists. split; [reflexivity|].
    simpl. repeat split; try done. intros b [= <-]. exact Hb.
  - assert (Hex' : pool_exhausted
                     (set_books_ (<[symbol:=OrderBook.init]> (books_ e)) e))
      by exact Hex.
    rewrite (allocate_exhausted _ Hex'). eexists. split; [reflexivity|].
    unfold get_book in *. simpl. repeat split; try done.
    + intros _. apply lookup_insert_eq.
    + intros sym Hne. by apply lookup_insert_ne.
Qed.

Lemma C7_submit_on_exhausted_pool_witness :
  let e := init (test_config 0) in
  pool_exhausted e ∧
  ∃ e', submit_order 16 "A" 1 1 100 10 BUY LIMIT e = Some e'
    ∧ execution_queue_ e' = execution_queue_ e
    ∧ total_orders_ e' = total_orders_ e
    ∧ total_matches_ e' = total_matches_ e
    ∧ order_pool_ e' = order_pool_ e
    ∧ (∀ b, get_book "A" e = Some b → get_book "A" e' = Some b)
    ∧ (get_book "A" e = None → get_book "A" e' = Some OrderBook.init)
    ∧ (∀ sym, sym ≠ "A"%string → get_book sym e' = get_book sym e).
Proof.
  intros e.
  assert (H : pool_exhausted e) by (unfold pool_exhausted; simpl; lia).
  split; [exact H|].
  exact (C7_submit_on_exhausted_pool 16 "A" 1 1 100 10 BUY LIMIT e H).
Defined.

(** ** The pool cursor (C8) *)

Lemma push_reports_frame rs e :
  pool_index_ (push_reports rs e) = pool_index_ e
  ∧ config_ (push_reports rs e) = config_ e
  ∧ books_ (push_reports rs e) = books_ e
  ∧ order_pool_ (push_reports rs e) = order_pool_ e
  ∧ total_orders_ (push_reports rs e) = total_orders_ e
  ∧ error_count (push_reports rs e) = error_count e.
Proof.
  revert e. induction rs as [|r rs IH]; intros e; simpl; [done|].
  destruct (SPSCQueue.push _ _ _) as [[] q]; [|done].
  destruct (IH (set_total_matches_ (u64 (total_matches_ e + 1))
                  (set_execution_queue_ q e)))
    as (-> & -> & -> & -> & -> & ->). done.
Qed.

Lemma submit_order_unfold fuel sym id ts p q s ty e :
  submit_order fuel sym id ts p q s ty e =
  let '(book, e0) := with_book sym e in
  if decide (pool_index_ e >= order_pool_size (config_ e)) then
    Some (set_error_count (u64 (error_count e + 1))
            (set_pool_index_ (u64 (pool_index_ e + 1)) e0))
  else
    let order := Z.to_nat (pool_index_ e) in
    '(h, book, reports) ← settle_order fuel order p s ty
                            (fill_slot order id ts p q s ty (order_pool_ e)) book;
    Some (set_total_orders_ (u64 (total_orders_ e + 1))
            (set_order_pool_ h
               (set_books_ (<[sym := book]> (books_ e0))
                  (push_reports reports
                     (set_pool_index_ (u64 (pool_index_ e + 1)) e0))))).
Proof.
  unfold submit_order, with_book, allocate_order, settle_order, fill_slot,
    deallocate_order.
  destruct (get_book sym e) as [book|]; simpl;
    (destruct (decide _); [done|]); simpl.
  all: destruct (is_aggressive _ _ _ _) as [[]|]; simpl; [|  |done].
  all: try (destruct (OrderBook.match_order _ _ _ _) as [[[h1 b1] rs]|];
            simpl; [|done]).
  all: repeat match goal with
       | |- context [?h !! ?a ≫= _] => destruct (h !! a); simpl; [|done]
       | |- context [if ?c then _ else _] => destruct c; simpl
       | |- context [OrderBook.add_order ?f ?o ?h ?b] =>
           destruct (OrderBook.add_order f o h b) as [[??]|]; simpl
       end; try done.
  all: match goal with |- context [push_reports ?rs ?x] =>
         destruct (push_reports_frame rs x) as (_ & _ & -> & _ & -> & _) end;
       done.
Qed.

Lemma submit_order_pool_index fuel sym id ts p q s ty e e' :
  submit_order fuel sym id ts p q s ty e = Some e' →
  pool_index_ e' = u64 (pool_index_ e + 1) ∧ config_ e' = config_ e.
Proof.
  rewrite submit_order_unfold. unfold with_book.
  destruct (get_book sym e); destruct (decide _); intros H; simplify_eq;
    try done.
  all: destruct (settle_order _ _ _ _ _ _ _) as [[[h b] rs]|]; simpl in H;
       simplify_eq; simpl.
  all: match goal with |- context [push_reports ?rs ?x] =>
         destruct (push_reports_frame rs x) as (-> & -> & _) end; done.
Qed.

Lemma step_pool_index fuel ev e e' :
  step fuel ev e = Some e' →
  pool_index_ e' = (if is_submit ev then u64 (pool_index_ e + 1) else pool_index_ e)
  ∧ config_ e' = config_ e.
Proof.
  destruct ev; simpl.
  - apply submit_order_pool_index.
  - unfold cancel_order. destruct (get_book _ _); intros H; simplify_eq; [|done].
    destruct (OrderBook.cancel_order _ _ _ _) as [[h b]|]; simpl in H;
      by simplify_eq.
  - unfold modify_order. destruct (get_book _ _); intros H; simplify_eq; [|done].
    destruct (OrderBook.modify_order _ _ _ _) as [[h b]|]; simpl in H;
      by simplify_eq.
Qed.

Lemma run_pool_index fuel evs e e' :
  run fuel evs e = Some e' →
  u64 (pool_index_ e') = u64 (pool_index_ e + Z.of_nat (count_submits evs))
  ∧ config_ e' = config_ e.
Proof.
  revert e. induction evs as [|ev evs IH]; intros e H; simpl in H.
  - simplify_eq. simpl. by rewrite Z.add_0_r.
  - destruct (step fuel ev e) as [e1|] eqn:Hs; simpl in H; [|done].
    apply step_pool_index in Hs as [Hp Hc]. apply IH in H as [Hp' Hc'].
    split; [|congruence]. rewrite Hp', Hp.
    destruct ev; cbn [count_submits is_submit Nat.add]; unfold u64.
    + rewrite Zplus_mod_idemp_l. f_equal. lia.
    + done.
    + done.
Qed.

Lemma run_pool_index_range fuel evs e e' :
  run fuel evs e = Some e' →
  0 <= pool_index_ e < 2 ^ 64 → 0 <= pool_index_ e' < 2 ^ 64.
Proof.
  revert e. induction evs as [|ev evs IH]; intros e H Hr; simpl in H.
  - by simplify_eq.
  - destruct (step fuel ev e) as [e1|] eqn:Hs; simpl in H; [|done].
    apply (IH _ H). apply step_pool_index in Hs as [-> _].
    destruct (is_submit ev); [|done]. unfold u64. apply Z.mod_pos_bound. lia.
Qed.

(** C8 (counterexample).  With a pool of one slot, the stream
    submit 1, cancel 1, submit 2 never has more than one resting order,
    yet its second submission meets an exhausted pool: only one order is
    counted, the failure counter is 1 and nothing rests at the end. *)
Lemma C8_cancelled_slot_is_not_reused :
  max_resting 16 "A" submit_cancel_submit (init (test_config 1)) = Some 1%nat
  ∧ (e ← run 16 submit_cancel_submit (init (test_config 1));
     Some (total_orders_ e, error_count e, resting_count "A" e, pool_index_ e))
    = Some (1, 1, 0%nat, 2).
Proof. split; vm_compute; reflexivity. Qed.

(** C8 (amended).  [order_pool_size] caps the number of submissions made
    over the life of the engine: on an engine started empty, after any
    stream of events the pool cursor equals the number of submissions made
    so far, whatever was cancelled or filled, and the pool is exhausted
    exactly when that number has reached [order_pool_size]. *)
Theorem C8_pool_caps_lifetime_submissions fuel cfg evs e :
  run fuel evs (init cfg) = Some e →
  Z.of_nat (count_submits evs) < 2 ^ 64 →
  pool_index_ e = Z.of_nat (count_submits evs)
  ∧ (pool_exhausted e ↔ order_pool_size cfg <= Z.of_nat (count_submits evs)).
Proof.
  intros Hrun Hlt.
  assert (Hr : 0 <= pool_index_ e < 2 ^ 64).
  { apply (run_pool_index_range _ _ _ _ Hrun).
    change (pool_index_ (init cfg)) with 0. lia. }
  apply run_pool_index in Hrun as [Hp Hc].
  unfold u64 in Hp.
  change (pool_index_ (init cfg)) with 0 in Hp.
  rewrite (Z.mod_small (pool_index_ e)), (Z.mod_small (0 + _)) in Hp by lia.
  split; [done|]. unfold pool_exhausted. rewrite Hc, Hp.
  change (config_ (init cfg)) with cfg. lia.
Qed.

Lemma C8_pool_caps_lifetime_submissions_witness :
  let e := default (init (test_config 1))
             (run 16 submit_cancel_submit (init (test_config 1))) in
  pool_index_ e = 2 ∧ (pool_exhausted e ↔ 1 <= 2).
Proof.
  intros e.
  apply (C8_pool_caps_lifetime_submissions 16 (test_config 1) submit_cancel_submit e).
  - apply default_is_Some, (bool_decide_unpack _). vm_compute. exact I.
  - vm_compute. reflexivity.
Defined.
End EngineFacts.

(** ** [modify_order] with a zero quantity (C5) *)

(** C5 (counterexample).  After a single bid has come to rest,
    [modify_order (1, 0)] leaves id 1 in the id map, the level in the bid
    index and [best_bid_] set, where [cancel_order (1)] empties all three. *)
Lemma C5_modify_zero_differs_from_cancel :
  book_summary 16 1
    (run 16 (one_bid ++ [Modify "A" 1 0]) (MatchingEngine.init (test_config 100)))
  = Some (Some 0%nat, Some 0%nat, Some [100000], 1)
  ∧ book_summary 16 1
      (run 16 (one_bid ++ [Cancel "A" 1]) (MatchingEngine.init (test_config 100)))
    = Some (None, None, Some [], 0).
Proof. split; vm_compute; reflexivity. Qed.

(** C5 (amended).  [modify_order (id, 0)] on a resting order does not
    cancel it: the call succeeds, the order stays in the id map and keeps
    its links ([next], [prev], [parent_level]) with [remaining_quantity] 0,
    its level stays as it was except that [total_volume] is reduced by the
    old remaining quantity, and the id map, the order counter, the two
    roots and the two best pointers are unchanged. *)
Theorem C5_modify_zero_leaves_order_resting id order o level lv h b :
  OrderBook.orders_ b !! id = Some order →
  h !! order = Some o →
  Order.parent_level o = Some level →
  OrderBook.price_level_pool_ b !! level = Some lv →
  ∃ h' b',
    OrderBook.modify_order id 0 h b = Some (h', b')
    ∧ OrderBook.orders_ b' !! id = Some order
    ∧ h' !! order = Some (Order.set_remaining_quantity 0 o)
    ∧ (∀ a, a ≠ order → h' !! a = h !! a)
    ∧ OrderBook.price_level_pool_ b' !! level
      = Some (PriceLevel.set_total_volume
                (u32 (PriceLevel.total_volume lv - Order.remaining_quantity o)) lv)
    ∧ (∀ l, l ≠ level →
            OrderBook.price_level_pool_ b' !! l = OrderBook.price_level_pool_ b !! l)
    ∧ OrderBook.orders_ b' = OrderBook.orders_ b
    ∧ OrderBook.order_count_ b' = OrderBook.order_count_ b
    ∧ (∀ s, OrderBook.root s b' = OrderBook.root s b
            ∧ OrderBook.best s b' = OrderBook.best s b).
Proof.
  intros Hid Ho Hpl Hlv. unfold OrderBook.modify_order.
  rewrite Hid. simpl. rewrite Ho. simpl. rewrite Hpl. simpl. rewrite Hlv. simpl.
  do 2 eexists. split; [reflexivity|]. simpl.
  split; [done|]. split; [apply lookup_insert_eq|].
  split; [intros a Ha; by apply lookup_insert_ne|].
  split.
  { rewrite lookup_insert_eq. f_equal. unfold PriceLevel.set_total_volume. simpl.
    by rewrite Z.add_0_r, u32_idem. }
  split; [intros l Hl; by apply lookup_insert_ne|].
  repeat split; by destruct s.
Qed.

Lemma C5_modify_zero_leaves_order_resting_witness :
  ∃ h' b',
    OrderBook.modify_order 1 0 heap_one_bid book_one_bid = Some (h', b')
    ∧ OrderBook.orders_ b' !! 1 = Some 0%nat
    ∧ h' !! 0%nat
      = Some (Order.set_remaining_quantity 0
                (Order.set_parent_level (Some 0%nat)
                   (Order.make 1 1 100000 100 BUY LIMIT)))
    ∧ (∀ a, a ≠ 0%nat → h' !! a = heap_one_bid !! a)
    ∧ OrderBook.price_level_pool_ b' !! 0%nat
      = Some (PriceLevel.set_total_volume (u32 (100 - 100))
                (PriceLevel.mk 100000 100 1 (Some 0%nat) (Some 0%nat)
                   nullptr nullptr nullptr))
    ∧ (∀ l, l ≠ 0%nat →
            OrderBook.price_level_pool_ b' !! l
            = OrderBook.price_level_pool_ book_one_bid !! l)
    ∧ OrderBook.orders_ b' = OrderBook.orders_ book_one_bid
    ∧ OrderBook.order_count_ b' = OrderBook.order_count_ book_one_bid
    ∧ (∀ s, OrderBook.root s b' = OrderBook.root s book_one_bid
            ∧ OrderBook.best s b' = OrderBook.best s book_one_bid).
Proof.
  apply (C5_modify_zero_leaves_order_resting 1 0%nat
           (Order.set_parent_level (Some 0%nat) (Order.make 1 1 100000 100 BUY LIMIT))
           0%nat
           (PriceLevel.mk 100000 100 1 (Some 0%nat) (Some 0%nat)
              nullptr nullptr nullptr)
           heap_one_bid book_one_bid);
    vm_compute; reflexivity.
Defined.

(** ** Quantity bounds (C6) *)

(** C6 (counterexample).  A bid of 100 rests; [modify_order (1, 150)]
    leaves it resting with 150 remaining out of an original 100, and
    [modify_order (1, 0)] leaves it resting with 0 remaining. *)
Lemma C6_modify_breaks_quantity_bounds :
  resting_quantities 1
    (run 16 (one_bid ++ [Modify "A" 1 150]) (MatchingEngine.init (test_config 100)))
  = Some (150, 100)
  ∧ resting_quantities 1
      (run 16 (one_bid ++ [Modify "A" 1 0]) (MatchingEngine.init (test_config 100)))
    = Some (0, 100).
Proof. split; vm_compute; reflexivity. Qed.

(** ** The execution queue (C9) *)

Section QueueFacts.
Context {T : Type}.
Variable k : Z.
Hypothesis Hk : 0 <= k < 64.

Lemma Capacity_range : 1 <= SPSCQueue.Capacity k <= 2 ^ 63.
Proof.
  unfold SPSCQueue.Capacity. split.
  - pose proof (Z.pow_pos_nonneg 2 k). lia.
  - apply Z.pow_le_mono_r; lia.
Qed.

(** The masked successor of an index in range. *)
Lemma next_index i :
  0 <= i < SPSCQueue.Capacity k →
  Z.land (u64 (i + 1)) (SPSCQueue.Capacity k - 1)
  = if decide (i + 1 = SPSCQueue.Capacity k) then 0 else i + 1.
Proof.
  intros Hi. pose proof Capacity_range as HC.
  unfold u64. rewrite (Z.mod_small (i + 1)) by lia.
  unfold SPSCQueue.Capacity in *.
  replace (2 ^ k - 1) with (Z.ones k) by (rewrite Z.ones_equiv; lia).
  rewrite Z.land_ones by lia.
  case_decide as E.
  - rewrite E. apply Z.mod_same. lia.
  - apply Z.mod_small. lia.
Qed.

Lemma contents_length (q : SPSCQueue.t T) :
  queue_wf k q →
  length (contents q)
  = if decide (Z.to_nat (SPSCQueue.tail_ q) ≤ Z.to_nat (SPSCQueue.head_ q))%nat
    then (Z.to_nat (SPSCQueue.head_ q) - Z.to_nat (SPSCQueue.tail_ q))%nat
    else (Z.to_nat (SPSCQueue.Capacity k) - Z.to_nat (SPSCQueue.tail_ q)
          + Z.to_nat (SPSCQueue.head_ q))%nat.
Proof.
  intros (Hh & Ht & Hb). unfold contents. case_decide.
  - rewrite length_take, length_drop. lia.
  - rewrite length_app, length_drop, length_take. lia.
Qed.

Lemma insert_last_take (l : list T) m x :
  length l = S m → <[m := x]> l = take m l ++ [x].
Proof.
  revert m. induction l as [|y l IH]; intros m Hl; [done|].
  destruct m as [|m]; simpl in *.
  - destruct l; [done|discriminate].
  - f_equal. apply IH. lia.
Qed.

Lemma push_spec item (q : SPSCQueue.t T) :
  queue_wf k q →
  ∃ q', SPSCQueue.push k item q
        = (negb (bool_decide (length (contents q)
                              = Z.to_nat (SPSCQueue.Capacity k - 1))), q')
    ∧ queue_wf k q'
    ∧ contents q' = (fifo_push (Z.to_nat (SPSCQueue.Capacity k - 1)) item (contents q)).2.
Proof.
  intros Hwf. pose proof (contents_length q Hwf) as Hlen.
  destruct Hwf as (Hh & Ht & Hb). pose proof Capacity_range as HC.
  unfold SPSCQueue.push, fifo_push. rewrite next_index by done.
  destruct q as [hd tl buf]; simpl in *.
  destruct (decide (hd + 1 = SPSCQueue.Capacity k)) as [E|E].
  - (* the head index wraps to 0 *)
    destruct (decide (0 = tl)) as [E'|E'].
    + subst tl. exists (SPSCQueue.mk hd 0 buf).
      split; [|split; [unfold queue_wf; simpl; lia|]].
      * rewrite bool_decide_true; [done|]. rewrite Hlen. case_decide; lia.
      * rewrite decide_True; [done|]. rewrite Hlen. case_decide; lia.
    + exists (SPSCQueue.mk 0 tl (<[Z.to_nat hd := item]> buf)).
      split; [|split].
      * rewrite bool_decide_false; [done|]. rewrite Hlen. case_decide; lia.
      * unfold queue_wf; simpl; rewrite length_insert; lia.
      * rewrite decide_False by (rewrite Hlen; case_decide; lia). simpl.
        unfold contents. simpl. rewrite decide_False by lia.
        rewrite decide_True by lia. rewrite take_0, app_nil_r.
        rewrite drop_insert_ge by lia.
        apply insert_last_take. rewrite length_drop. lia.
  - destruct (decide (hd + 1 = tl)) as [E'|E'].
    + exists (SPSCQueue.mk hd tl buf).
      split; [|split; [unfold queue_wf; simpl; lia|]].
      * rewrite bool_decide_true; [done|]. rewrite Hlen. case_decide; lia.
      * rewrite decide_True; [done|]. rewrite Hlen. case_decide; lia.
    + exists (SPSCQueue.mk (hd + 1) tl (<[Z.to_nat hd := item]> buf)).
      split; [|split].
      * rewrite bool_decide_false; [done|]. rewrite Hlen. case_decide; lia.
      * unfold queue_wf; simpl; rewrite length_insert; lia.
      * rewrite decide_False by (rewrite Hlen; case_decide; lia). simpl.
        unfold contents. simpl.
        destruct (decide (Z.to_nat tl ≤ Z.to_nat hd)%nat) as [Hle|Hgt].
        -- rewrite decide_True by lia.
           rewrite drop_insert_ge by lia.
           replace (Z.to_nat (hd + 1) - Z.to_nat tl)%nat
             with (S (Z.to_nat hd - Z.to_nat tl)) by lia.
           erewrite take_S_r; [|apply list_lookup_insert_eq; rewrite length_drop; lia].
           rewrite take_insert_ge by lia. done.
        -- rewrite decide_False by lia.
           rewrite drop_insert_lt by lia.
           replace (Z.to_nat (hd + 1)) with (S (Z.to_nat hd)) by lia.
           erewrite take_S_r; [|apply list_lookup_insert_eq; lia].
           rewrite take_insert_ge by lia. by rewrite app_assoc.
Qed.

Lemma pop_spec (q : SPSCQueue.t T) :
  queue_wf k q →
  ∃ q', SPSCQueue.pop k q = ((fifo_pop (contents q)).1, q')
    ∧ queue_wf k q'
    ∧ contents q' = (fifo_pop (contents q)).2.
Proof.
  intros (Hh & Ht & Hb). pose proof Capacity_range as HC.
  unfold SPSCQueue.pop. rewrite next_index by done.
  destruct q as [hd tl buf]; simpl in *.
  destruct (decide (tl = hd)) as [->|Hne].
  { assert (Hc : contents (SPSCQueue.mk hd hd buf) = []).
    { unfold contents. simpl. rewrite decide_True by lia.
      by rewrite Nat.sub_diag, take_0. }
    exists (SPSCQueue.mk hd hd buf). rewrite Hc. simpl.
    split; [done|]. split; [unfold queue_wf; simpl; lia|done]. }
  destruct (lookup_lt_is_Some_2 buf (Z.to_nat tl)) as [item Hitem]; [lia|].
  rewrite Hitem.
  assert (Hc : contents (SPSCQueue.mk hd tl buf)
               = item :: contents (SPSCQueue.mk hd
                           (if decide (tl + 1 = SPSCQueue.Capacity k)
                            then 0 else tl + 1) buf)).
  { unfold contents. simpl.
    destruct (decide (Z.to_nat tl ≤ Z.to_nat hd)%nat) as [Hle|Hgt].
    - rewrite (drop_S _ _ _ Hitem).
      replace (Z.to_nat hd - Z.to_nat tl)%nat
        with (S (Z.to_nat hd - S (Z.to_nat tl))) by lia. simpl.
      destruct (decide (tl + 1 = SPSCQueue.Capacity k)); [lia|].
      rewrite decide_True by lia.
      by replace (Z.to_nat (tl + 1)) with (S (Z.to_nat tl)) by lia.
    - rewrite (drop_S _ _ _ Hitem). simpl. f_equal.
      destruct (decide (tl + 1 = SPSCQueue.Capacity k)) as [E|E].
      + rewrite decide_True by lia. rewrite drop_ge by lia.
        simpl. by rewrite Nat.sub_0_r.
      + rewrite decide_False by lia.
        by replace (Z.to_nat (tl + 1)) with (S (Z.to_nat tl)) by lia. }
  eexists. split; [by rewrite Hc|]. rewrite Hc. simpl. split; [|done].
  unfold queue_wf; simpl. case_decide; lia.
Qed.

Lemma run_queue_refines ops (q : SPSCQueue.t T) :
  queue_wf k q →
  ∃ outs q',
    run_queue k ops q = (outs, q')
    ∧ run_fifo (Z.to_nat (SPSCQueue.Capacity k - 1)) ops (contents q)
      = (outs, contents q')
    ∧ queue_wf k q'.
Proof.
  revert q. induction ops as [|[item|] ops IH]; intros q Hwf; simpl.
  - by exists [], q.
  - destruct (push_spec item q Hwf) as (q1 & -> & Hwf1 & Hc1).
    destruct (IH q1 Hwf1) as (outs & q' & -> & Hf & Hwf').
    unfold fifo_push in *.
    destruct (decide (length (contents q) = _)) as [E|E]; simpl in *.
    + rewrite bool_decide_true by done. simpl. rewrite <- Hc1, Hf. by eexists _, _.
    + rewrite bool_decide_false by done. simpl. rewrite <- Hc1, Hf. by eexists _, _.
  - destruct (pop_spec q Hwf) as (q1 & -> & Hwf1 & Hc1).
    destruct (IH q1 Hwf1) as (outs & q' & -> & Hf & Hwf').
    destruct (fifo_pop (contents q)) as [r l]; simpl in *. subst l.
    rewrite Hf. by eexists _, _.
Qed.

Lemma init_wf (dflt : T) : queue_wf k (SPSCQueue.init k dflt).
Proof.
  pose proof Capacity_range. unfold queue_wf, SPSCQueue.init. simpl.
  rewrite length_replicate. lia.
Qed.

(** C9.  For a capacity [2 ^ k] with [0 <= k < 64], any sequence of [push]
    and [pop] calls on a newly constructed queue returns exactly what the
    bounded FIFO of bound [Capacity - 1] returns for it: a push is refused
    exactly when [Capacity - 1] elements are stored, a pop is refused exactly
    when nothing is stored, and values come out unchanged in the order they
    went in.  The queue never stores more than [Capacity - 1] elements. *)
Theorem C9_spsc_queue_is_bounded_fifo (dflt : T) (ops : list (QueueOp T)) :
  ∃ outs q,
    run_queue k ops (SPSCQueue.init k dflt) = (outs, q)
    ∧ run_fifo (Z.to_nat (SPSCQueue.Capacity k - 1)) ops [] = (outs, contents q)
    ∧ (length (contents q) ≤ Z.to_nat (SPSCQueue.Capacity k - 1))%nat.
Proof.
  destruct (run_queue_refines ops _ (init_wf dflt)) as (outs & q & Hr & Hf & Hwf).
  exists outs, q. split; [done|]. split; [exact Hf|].
  rewrite (contents_length q Hwf). destruct Hwf as (? & ? & ?). case_decide; lia.
Qed.
End QueueFacts.

Lemma C9_spsc_queue_is_bounded_fifo_witness :
  ∃ outs q,
    run_queue 2 [Push 7; Push 8; Push 9; Push 10; Pop; Pop; Push 11; Pop; Pop; Pop]
      (SPSCQueue.init 2 0)
    = (outs, q)
    ∧ run_fifo (Z.to_nat (SPSCQueue.Capacity 2 - 1))
        [Push 7; Push 8; Push 9; Push 10; Pop; Pop; Push 11; Pop; Pop; Pop] []
      = (outs, contents q)
    ∧ (length (contents q) ≤ Z.to_nat (SPSCQueue.Capacity 2 - 1))%nat.
Proof. apply (C9_spsc_queue_is_bounded_fifo 2); lia. Defined.

(** ** Fields untouched by list operations *)

Lemma insert_same_core (h : heap) a o o' :
  h !! a = Some o → core o' = core o → core <$> <[a := o']> h = core <$> h.
Proof.
  intros Ha Hc. rewrite fmap_insert. apply insert_id.
  by rewrite lookup_fmap, Ha, Hc.
Qed.

Lemma core_eq o' o :
  core o' = core o →
  Order.order_id o' = Order.order_id o
  ∧ Order.quantity o' = Order.quantity o
  ∧ Order.remaining_quantity o' = Order.remaining_quantity o.
Proof. unfold core. by intros [= -> -> ->]. Qed.

Lemma core_lookup (h h' : heap) a o :
  core <$> h' = core <$> h → h !! a = Some o →
  ∃ o', h' !! a = Some o' ∧ core o' = core o.
Proof.
  intros Hc Ha.
  assert (H : ((core <$> h') : gmap addr (Z * Z * Z)) !! a = Some (core o))
    by (by rewrite Hc, lookup_fmap, Ha).
  rewrite lookup_fmap in H. destruct (h' !! a) as [o'|]; [|done].
  exists o'. split; [done|]. simpl in H. congruence.
Qed.

Lemma heap_typed_core (h h' : heap) :
  core <$> h' = core <$> h → heap_typed h → heap_typed h'.
Proof.
  intros Hc Ht a o' Ha. symmetry in Hc.
  destruct (core_lookup _ _ _ _ Hc Ha) as (o & Ho & E).
  specialize (Ht _ _ Ho). destruct (core_eq _ _ E) as (_ & _ & <-). done.
Qed.

Lemma resting_ok_core (h h' : heap) b b' :
  core <$> h' = core <$> h →
  OrderBook.orders_ b' ⊆ OrderBook.orders_ b →
  resting_ok h b → resting_ok h' b'.
Proof.
  intros Hc Hsub Hok id a Hid.
  eapply lookup_weaken in Hid; [|exact Hsub].
  destruct (Hok _ _ Hid) as (o & Ho & Hi & Hq).
  destruct (core_lookup _ _ _ _ Hc Ho) as (o' & Ho' & E).
  exists o'. split; [done|]. destruct (core_eq _ _ E) as (E1 & E2 & E3).
  unfold quantity_ok in *. split; [congruence|]. rewrite E2, E3. done.
Qed.

Ltac same_core :=
  repeat (erewrite insert_same_core; [|eassumption|reflexivity]); try done.

Ltac open_opt :=
  repeat match goal with
  | H : (?x ≫= _) = Some _ |- _ => destruct x eqn:?; simpl in H; [|discriminate]
  | H : (match ?x with _ => _ end) = Some _ |- _ => destruct x eqn:?; simpl in H
  | H : None = Some _ |- _ => discriminate
  | p : _ * _ |- _ => destruct p
  end; simplify_eq.

Lemma PriceLevel_remove_order_core this order h L h' L' :
  PriceLevel.remove_order this order h L = Some (h', L') →
  core <$> h' = core <$> h.
Proof.
  unfold PriceLevel.remove_order. intros H. open_opt; same_core.
Qed.

Lemma PriceLevel_add_order_core this order h L h' L' :
  PriceLevel.add_order this order h L = Some (h', L') →
  core <$> h' = core <$> h.
Proof.
  unfold PriceLevel.add_order. intros H. open_opt; same_core.
Qed.

(** ** Pointer bounds *)

Lemma next_below_insert n (h : heap) a o :
  next_below n h → (∀ x, Order.next o = Some x → (x < n)%nat) →
  next_below n (<[a := o]> h).
Proof.
  intros Hh Ho a' o' x Ha Hx. destruct (decide (a = a')) as [->|Hne].
  - rewrite lookup_insert_eq in Ha. simplify_eq. by apply Ho.
  - rewrite lookup_insert_ne in Ha by done. by eapply Hh.
Qed.

Lemma head_below_insert n (L : PriceLevel.pool) l lv :
  head_below n L → (∀ x, PriceLevel.head_order lv = Some x → (x < n)%nat) →
  head_below n (<[l := lv]> L).
Proof.
  intros HL Hlv l' lv' x Hl Hx. destruct (decide (l = l')) as [->|Hne].
  - rewrite lookup_insert_eq in Hl. simplify_eq. by apply Hlv.
  - rewrite lookup_insert_ne in Hl by done. by eapply HL.
Qed.

Lemma next_below_lookup n (h : heap) a o x :
  next_below n h → h !! a = Some o → Order.next o = Some x → (x < n)%nat.
Proof. intros H. apply H. Qed.

Lemma head_below_lookup n (L : PriceLevel.pool) l lv x :
  head_below n L → L !! l = Some lv → PriceLevel.head_order lv = Some x →
  (x < n)%nat.
Proof. intros H. apply H. Qed.

Ltac below :=
  lazymatch goal with
  | |- next_below _ (<[_ := _]> _) =>
      apply next_below_insert; [below | simpl; intros ? ?; simplify_eq; below]
  | |- head_below _ (<[_ := _]> _) =>
      apply head_below_insert; [below | simpl; intros ? ?; simplify_eq; below]
  | |- next_below _ _ => assumption
  | |- head_below _ _ => assumption
  | |- (?x < ?n)%nat =>
      first
        [ assumption
        | lia
        | match goal with
          | Hx : Order.next ?o = Some x, Ho : ?h !! ?a = Some ?o |- _ =>
              apply (next_below_lookup n h a o x); [below | exact Ho | exact Hx]
          | Hx : PriceLevel.head_order ?lv = Some x, Hl : ?L !! ?l = Some ?lv |- _ =>
              apply (head_below_lookup n L l lv x); [below | exact Hl | exact Hx]
          end ]
  end.

Lemma PriceLevel_remove_order_below n this order h L h' L' :
  PriceLevel.remove_order this order h L = Some (h', L') →
  next_below n h → head_below n L →
  next_below n h' ∧ head_below n L'.
Proof.
  unfold PriceLevel.remove_order. intros H Hn Hh. open_opt; split; below.
Qed.

Lemma PriceLevel_add_order_below n this order h L h' L' :
  PriceLevel.add_order this order h L = Some (h', L') →
  (order < n)%nat →
  next_below n h → head_below n L →
  next_below n h' ∧ head_below n L'.
Proof.
  unfold PriceLevel.add_order. intros H Ho Hn Hh. open_opt; split; below.
Qed.

(** ** The level index keeps the FIFO heads it holds *)

Lemma relink_parent_below n level child L rt L' rt' :
  OrderBook.relink_parent level child L rt = Some (L', rt') →
  head_below n L → head_below n L'.
Proof. unfold OrderBook.relink_parent. intros H Hh. open_opt; below. Qed.

Ltac use_relink n :=
  match goal with
  | Hr : OrderBook.relink_parent _ _ _ _ = Some _ |- _ =>
      apply relink_parent_below with (n := n) in Hr; [|assumption]
  end.

Lemma remove_level_below n fuel level L rt L' rt' :
  OrderBook.remove_level fuel level L rt = Some (L', rt') →
  head_below n L → head_below n L'.
Proof.
  revert level L rt L' rt'.
  induction fuel as [|fuel IH]; intros level L rt L' rt' H Hh;
    simpl in H; open_opt; try use_relink n; try below.
  eapply IH; [eassumption|]. below.
Qed.

Lemma insert_below_below n fuel L p new_level current L' :
  OrderBook.insert_below fuel L p new_level current = Some L' →
  head_below n L → head_below n L'.
Proof.
  revert L current L'.
  induction fuel as [|fuel IH]; intros L current L' H Hh;
    simpl in H; open_opt; try below; eauto.
Qed.

Lemma find_or_create_level_below n fuel p s b level b' :
  OrderBook.find_or_create_level fuel p s b = Some (level, b') →
  head_below n (OrderBook.price_level_pool_ b) →
  head_below n (OrderBook.price_level_pool_ b')
  ∧ OrderBook.orders_ b' = OrderBook.orders_ b.
Proof.
  unfold OrderBook.find_or_create_level, OrderBook.insert_level.
  intros H Hh. open_opt; try done.
  all: try match goal with
       | Hi : OrderBook.insert_below _ _ _ _ _ = Some _ |- _ =>
           apply insert_below_below with (n := n) in Hi; [|below]
       end.
  all: destruct s; simpl; (split; [below|done]).
Qed.

(** ** The book invariant under the operations of the book *)

Ltac split_inv := unfold book_inv; split; [|split; [|split; [|split]]].

Lemma book_inv_mono n h b : book_inv n h b → book_inv (S n) h b.
Proof.
  intros (Ht & Hr & Hn & Hh & Ho). split_inv; try done.
  - intros a o x Ha Hx. specialize (Hn a o x Ha Hx). lia.
  - intros l lv x Hl Hx. specialize (Hh l lv x Hl Hx). lia.
  - intros id a Ha. specialize (Ho id a Ha). lia.
Qed.

Lemma heap_typed_insert (h : heap) a o :
  heap_typed h → 0 <= Order.remaining_quantity o < 2 ^ 32 →
  heap_typed (<[a := o]> h).
Proof.
  intros Hh Ho a' o' Ha. destruct (decide (a = a')) as [->|Hne].
  - rewrite lookup_insert_eq in Ha. by simplify_eq.
  - rewrite lookup_insert_ne in Ha by done. by eapply Hh.
Qed.

Lemma u32_range z : 0 <= u32 z < 2 ^ 32.
Proof. unfold u32. apply Z.mod_pos_bound. lia. Qed.

Lemma add_order_shape fuel order h b h' b' :
  OrderBook.add_order fuel order h b = Some (h', b') →
  ∃ level b1 o1,
    (∃ o, h !! order = Some o
          ∧ OrderBook.find_or_create_level fuel (Order.price o) (Order.side o) b
            = Some (level, b1))
    ∧ PriceLevel.add_order level order h (OrderBook.price_level_pool_ b1)
      = Some (h', OrderBook.price_level_pool_ b')
    ∧ h' !! order = Some o1
    ∧ OrderBook.orders_ b' = <[Order.order_id o1 := order]> (OrderBook.orders_ b1).
Proof.
  unfold OrderBook.add_order. intros H. open_opt.
  all: eexists _, _, _; (split; [eexists; split; [reflexivity|eassumption]|]).
  all: try match goal with
           | |- context [OrderBook.set_best ?s _ _] => destruct s
           end;
       simpl; by repeat split.
Qed.

Lemma add_order_inv n fuel order h b h' b' o :
  OrderBook.add_order fuel order h b = Some (h', b') →
  h !! order = Some o → quantity_ok o → (order < n)%nat →
  book_inv n h b → book_inv n h' b'.
Proof.
  intros H Ho Hq Hlt (Ht & Hr & Hn & Hh & Hm).
  apply add_order_shape in H
    as (level & b1 & o1 & (o0 & Ho0 & Hf) & Ha & Ho1 & Hmap).
  apply find_or_create_level_below with (n := n) in Hf as [Hh1 Hm1]; [|done].
  pose proof (PriceLevel_add_order_core _ _ _ _ _ _ Ha) as Hc.
  apply PriceLevel_add_order_below with (n := n) in Ha as [Hn' Hh']; try done.
  destruct (core_lookup _ _ _ _ Hc Ho) as (o1' & Ho1' & E).
  rewrite Ho1 in Ho1'. injection Ho1' as <-. clear Ho0.
  destruct (core_eq _ _ E) as (E1 & E2 & E3). clear E.
  split_inv; try done.
  - by eapply heap_typed_core.
  - intros id a Hid. rewrite Hmap, Hm1 in Hid.
    destruct (decide (Order.order_id o1 = id)) as [<-|Hne].
    + rewrite lookup_insert_eq in Hid. simplify_eq. exists o1.
      split; [done|]. split; [done|].
      unfold quantity_ok in *. by rewrite E2, E3.
    + rewrite lookup_insert_ne in Hid by done.
      destruct (Hr _ _ Hid) as (oa & Hoa & Hida & Hqa).
      destruct (core_lookup _ _ _ _ Hc Hoa) as (oa' & Hoa' & Ea).
      exists oa'. split; [done|]. destruct (core_eq _ _ Ea) as (F1 & F2 & F3).
      unfold quantity_ok in *. split; [congruence|]. by rewrite F2, F3.
  - intros id a Hid. rewrite Hmap, Hm1 in Hid.
    destruct (decide (Order.order_id o1 = id)) as [<-|Hne].
    + rewrite lookup_insert_eq in Hid. by simplify_eq.
    + rewrite lookup_insert_ne in Hid by done. by eapply Hm.
Qed.

Lemma update_best_bid_frame fuel b b' :
  OrderBook.update_best_bid fuel b = Some b' →
  OrderBook.price_level_pool_ b' = OrderBook.price_level_pool_ b
  ∧ OrderBook.orders_ b' = OrderBook.orders_ b.
Proof. unfold OrderBook.update_best_bid. intros H. open_opt; done. Qed.

Lemma update_best_ask_frame fuel b b' :
  OrderBook.update_best_ask fuel b = Some b' →
  OrderBook.price_level_pool_ b' = OrderBook.price_level_pool_ b
  ∧ OrderBook.orders_ b' = OrderBook.orders_ b.
Proof. unfold OrderBook.update_best_ask. intros H. open_opt; done. Qed.

Lemma cancel_order_shape fuel id h b h' b' :
  OrderBook.cancel_order fuel id h b = Some (h', b') →
  (OrderBook.orders_ b !! id = None ∧ h' = h ∧ b' = b)
  ∨ ∃ order level L1,
      OrderBook.orders_ b !! id = Some order
      ∧ PriceLevel.remove_order level order h (OrderBook.price_level_pool_ b)
        = Some (h', L1)
      ∧ OrderBook.orders_ b' = delete id (OrderBook.orders_ b)
      ∧ (OrderBook.price_level_pool_ b' = L1
         ∨ ∃ rt rt', OrderBook.remove_level fuel level L1 rt
                     = Some (OrderBook.price_level_pool_ b', rt')).
Proof.
  unfold OrderBook.cancel_order. intros H.
  destruct (OrderBook.orders_ b !! id) as [order|] eqn:Hid; [|left; by simplify_eq].
  right. open_opt.
  all: try match goal with
       | Hu : OrderBook.update_best_bid _ _ = Some _ |- _ =>
           apply update_best_bid_frame in Hu as [Hu1 Hu2]
       | Hu : OrderBook.update_best_ask _ _ = Some _ |- _ =>
           apply update_best_ask_frame in Hu as [Hu1 Hu2]
       end.
  all: eexists _, _, _; split; [reflexivity|]; split; [eassumption|]; simpl.
  all: rewrite ?Hu1, ?Hu2; simpl.
  all: try match goal with
           | |- context [OrderBook.set_root ?s _ _] => destruct s
           end; simpl; (split; [done|]); eauto.
Qed.

Lemma cancel_order_inv n fuel id h b h' b' :
  OrderBook.cancel_order fuel id h b = Some (h', b') →
  book_inv n h b → book_inv n h' b'.
Proof.
  intros H Hinv.
  apply cancel_order_shape in H
    as [(_ & -> & ->)|(order & level & L1 & Hid & Hr & Hmap & HL)]; [done|].
  destruct Hinv as (Ht & Hok & Hn & Hh & Hm).
  pose proof (PriceLevel_remove_order_core _ _ _ _ _ _ Hr) as Hc.
  apply PriceLevel_remove_order_below with (n := n) in Hr as [Hn' Hh']; try done.
  split_inv.
  - by eapply heap_typed_core.
  - eapply resting_ok_core; [exact Hc| |exact Hok]. rewrite Hmap. apply delete_subseteq.
  - done.
  - destruct HL as [->|(rt & rt' & HL)]; [done|].
    by eapply remove_level_below.
  - intros id' a Ha. rewrite Hmap in Ha.
    apply lookup_delete_Some in Ha as [_ Ha]. by eapply Hm.
Qed.

(** ** Matching *)

Lemma resting_ok_step n (h h' : heap) b b' order pa p :
  resting_ok h b → orders_below n (OrderBook.orders_ b) → (n ≤ order)%nat →
  h !! pa = Some p →
  OrderBook.orders_ b' ⊆ OrderBook.orders_ b →
  (∀ a, a ≠ order → a ≠ pa → core <$> (h' !! a) = core <$> (h !! a)) →
  (OrderBook.orders_ b' !! Order.order_id p = None
   ∨ ∃ p', h' !! pa = Some p'
           ∧ Order.order_id p' = Order.order_id p
           ∧ Order.quantity p' = Order.quantity p
           ∧ 0 < Order.remaining_quantity p' <= Order.remaining_quantity p) →
  resting_ok h' b'.
Proof.
  intros Hok Hm Hle Hp Hsub Hfr Hpa id a Hid.
  pose proof (lookup_weaken _ _ _ _ Hid Hsub) as Hid0.
  destruct (Hok _ _ Hid0) as (o & Ho & Hi & Hq).
  assert (a ≠ order) by (specialize (Hm _ _ Hid0); lia).
  destruct (decide (a = pa)) as [->|Hne].
  - rewrite Hp in Ho. injection Ho as <-.
    destruct Hpa as [Hnone|(p' & Hp' & E1 & E2 & E3)]; [congruence|].
    exists p'. split; [done|]. split; [congruence|].
    unfold quantity_ok in *. rewrite E2. lia.
  - specialize (Hfr a ltac:(done) ltac:(done)). rewrite Ho in Hfr.
    destruct (h' !! a) as [o'|]; [|done]. simpl in Hfr.
    injection Hfr as E1 E2 E3.
    exists o'. split; [done|]. split; [congruence|].
    unfold quantity_ok in *. by rewrite E2, E3.
Qed.

Lemma core_fmap_lookup (h h' : heap) a :
  core <$> h' = core <$> h → core <$> (h' !! a) = core <$> (h !! a).
Proof. intros H. by rewrite <- !lookup_fmap, H. Qed.

Lemma match_fifo_inv n fuel order contra :
  ∀ passive h b rs h' b' rs' o,
    OrderBook.match_fifo fuel order contra passive h b rs = Some (h', b', rs') →
    (n ≤ order)%nat →
    (∀ x, passive = Some x → (x < n)%nat) →
    h !! order = Some o →
    book_inv n h b →
    book_inv n h' b' ∧ ∃ o', h' !! order = Some o' ∧ spent o o'.
Proof.
  induction fuel as [|fuel IH];
    intros passive h b rs h' b' rs' o H Hle Hpa Ho Hinv;
    pose proof Hinv as (Ht & Hok & Hn & Hh & Hm);
    pose proof (Ht _ _ Ho) as Hro;
    (destruct passive as [pa|];
       [|simpl in H; simplify_eq; split; [done|]; exists o; unfold spent; split; [done|lia]]);
    simpl in H; rewrite Ho in H; simpl in H;
    (destruct (decide (Order.remaining_quantity o > 0)) as [Hpos|Hnpos];
       [|simplify_eq; split; [done|]; exists o; unfold spent; split; [done|lia]]);
    [done|].
  destruct (h !! pa) as [p|] eqn:Hp; simpl in H; [|done].
  assert (Hne : pa ≠ order) by (specialize (Hpa pa eq_refl); lia).
  pose proof (Ht _ _ Hp) as Hrp.
  unfold OrderBook.execute_trade in H. rewrite Ho, Hp in H. simpl in H.
  rewrite lookup_insert_ne in H by done. rewrite Hp in H. simpl in H.
  destruct (OrderBook.price_level_pool_ b !! contra) as [cl|] eqn:Hcl;
    simpl in H; [|done].
  rewrite lookup_insert_eq in H. simpl in H.
  set (m := Z.min (Order.remaining_quantity o) (Order.remaining_quantity p)) in *.
  assert (Hr : u32 (Order.remaining_quantity o - m) = Order.remaining_quantity o - m)
    by (apply u32_small; lia).
  assert (Hr' : u32 (Order.remaining_quantity p - m) = Order.remaining_quantity p - m)
    by (apply u32_small; lia).
  rewrite Hr, Hr' in H.
  set (o1 := Order.set_remaining_quantity (Order.remaining_quantity o - m) o) in *.
  set (p1 := Order.set_remaining_quantity (Order.remaining_quantity p - m) p) in *.
  set (h2 := <[pa := p1]> (<[order := o1]> h)) in *.
  assert (Ho2 : h2 !! order = Some o1)
    by (unfold h2; rewrite lookup_insert_ne by done; apply lookup_insert_eq).
  assert (Hp2 : h2 !! pa = Some p1) by apply lookup_insert_eq.
  assert (Hfr2 : ∀ a, a ≠ order → a ≠ pa → h2 !! a = h !! a).
  { intros a ? ?. unfold h2. by rewrite !lookup_insert_ne. }
  assert (Ht2 : heap_typed h2).
  { unfold h2. apply heap_typed_insert; [apply heap_typed_insert; [done|]|];
      simpl; lia. }
  assert (Hn2 : next_below n h2) by (unfold h2, p1, o1; below).
  assert (Hsp : spent o o1) by (unfold spent, o1; simpl; lia).
  match type of H with
  | context [OrderBook.set_pool ?L ?b0] => set (b1 := OrderBook.set_pool L b0) in *
  end.
  assert (Hh1 : head_below n (OrderBook.price_level_pool_ b1))
    by (unfold b1; simpl; below).
  assert (Hm1 : OrderBook.orders_ b1 = OrderBook.orders_ b) by done.
  assert (Hnext : ∀ x, Order.next p = Some x → (x < n)%nat)
    by (intros x Hx; exact (Hn _ _ _ Hp Hx)).
  destruct (decide (Order.remaining_quantity p - m = 0)) as [Hz|Hnz].
  - (* the passive order is filled and leaves the book *)
    destruct (PriceLevel.remove_order contra pa h2 _)
      as [[h3 L3]|] eqn:Hrm; simpl in H; [|done].
    destruct (h3 !! pa) as [p3|] eqn:Hp3; simpl in H; [|done].
    pose proof (PriceLevel_remove_order_core _ _ _ _ _ _ Hrm) as Hc.
    apply PriceLevel_remove_order_below with (n := n) in Hrm as [Hn3 Hh3];
      [|done|exact Hh1].
    destruct (core_lookup _ _ _ _ Hc Ho2) as (o3 & Ho3 & Eo).
    destruct (core_lookup _ _ _ _ Hc Hp2) as (p3' & Hp3' & Ep).
    rewrite Hp3 in Hp3'. injection Hp3' as <-.
    destruct (core_eq _ _ Eo) as (Eo1 & Eo2 & Eo3).
    destruct (core_eq _ _ Ep) as (Ep1 & Ep2 & Ep3).
    eapply IH in H; [| done | exact Hnext | exact Ho3 |].
    + destruct H as (Hinv' & o' & Ho' & Hsp'). split; [done|].
      exists o'. split; [done|]. unfold spent in *. simpl in *. lia.
    + split_inv; simpl; try done.
      * by eapply heap_typed_core.
      * eapply (resting_ok_step n h h3 b _ order pa p); try done.
        -- simpl. apply delete_subseteq.
        -- intros a ? ?. rewrite (core_fmap_lookup _ _ a Hc). by rewrite Hfr2.
        -- left. simpl. rewrite Ep1. simpl. apply lookup_delete_eq.
      * intros id a Ha. apply lookup_delete_Some in Ha as [_ Ha].
        by eapply Hm.
  - eapply IH in H; [| done | exact Hnext | exact Ho2 |].
    + destruct H as (Hinv' & o' & Ho' & Hsp'). split; [done|].
      exists o'. split; [done|]. unfold spent in *. simpl in *. lia.
    + split_inv; try done.
      * eapply (resting_ok_step n h h2 b b1 order pa p); try done.
        -- intros a ? ?. by rewrite Hfr2.
        -- right. exists p1. split; [done|]. unfold p1. simpl.
           repeat split; try done; lia.
Qed.

Lemma spent_refl (h : heap) a o :
  heap_typed h → h !! a = Some o → spent o o.
Proof. intros Ht Ho. specialize (Ht _ _ Ho). unfold spent. lia. Qed.

Lemma spent_trans o1 o2 o3 : spent o1 o2 → spent o2 o3 → spent o1 o3.
Proof. unfold spent. lia. Qed.

Lemma resting_ok_orders (h : heap) b b' :
  OrderBook.orders_ b' = OrderBook.orders_ b → resting_ok h b → resting_ok h b'.
Proof. intros E Hok id a Ha. rewrite E in Ha. by apply Hok. Qed.

Lemma match_levels_inv n fuel0 fuel order :
  ∀ contra_level h b rs h' b' rs' o,
    OrderBook.match_levels fuel0 fuel order contra_level h b rs
    = Some (h', b', rs') →
    (n ≤ order)%nat →
    h !! order = Some o →
    book_inv n h b →
    book_inv n h' b' ∧ ∃ o', h' !! order = Some o' ∧ spent o o'.
Proof.
  induction fuel as [|fuel IH];
    intros contra_level h b rs h' b' rs' o H Hle Ho Hinv;
    pose proof Hinv as (Ht & Hok & Hn & Hh & Hm);
    pose proof (spent_refl _ _ _ Ht Ho) as Hsp;
    simpl in H; rewrite Ho in H; simpl in H;
    (destruct (decide (Order.remaining_quantity o > 0));
       [|simplify_eq; split; [done|]; by exists o]);
    (destruct contra_level as [contra|];
       [|simplify_eq; split; [done|]; by exists o]);
    [done|].
  destruct (OrderBook.price_level_pool_ b !! contra) as [cl|] eqn:Hcl;
    simpl in H; [|done].
  match type of H with
  | (if ?c then _ else _) = _ =>
      destruct c; [simplify_eq; split; [done|]; by exists o|]
  end.
  destruct (OrderBook.match_fifo fuel0 order contra (PriceLevel.head_order cl) h b rs)
    as [[[h1 b1] rs1]|] eqn:Hfifo; simpl in H; [|done].
  eapply match_fifo_inv in Hfifo as (Hinv1 & o1 & Ho1 & Hsp1);
    [| exact Hle | intros x Hx; exact (Hh _ _ _ Hcl Hx) | exact Ho | exact Hinv].
  destruct (OrderBook.price_level_pool_ b1 !! contra) as [cl1|] eqn:Hcl1;
    simpl in H; [|done].
  destruct (decide (PriceLevel.order_count cl1 = 0));
    [|simplify_eq; split; [done|]; by exists o1].
  rewrite Ho1 in H. simpl in H.
  destruct (OrderBook.remove_level fuel0 contra _ _) as [[L rt]|] eqn:Hrm;
    simpl in H; [|done].
  destruct Hinv1 as (Ht1 & Hok1 & Hn1 & Hh1 & Hm1).
  apply remove_level_below with (n := n) in Hrm; [|done].
  eapply IH in H; [| exact Hle | exact Ho1 |].
  - destruct H as (Hinv' & o' & Ho' & Hsp'). split; [done|].
    exists o'. split; [done|]. by eapply spent_trans.
  - split_inv; try done.
    + eapply resting_ok_orders; [|exact Hok1].
      by destruct (OrderBook.contra_side (Order.side o1)).
    + by destruct (OrderBook.contra_side (Order.side o1)).
    + by destruct (OrderBook.contra_side (Order.side o1)).
Qed.

Lemma match_order_inv n fuel order h b rs h' b' o :
  OrderBook.match_order fuel order h b = Some (h', b', rs) →
  (n ≤ order)%nat →
  h !! order = Some o →
  book_inv n h b →
  book_inv n h' b' ∧ ∃ o', h' !! order = Some o' ∧ spent o o'.
Proof.
  unfold OrderBook.match_order. intros H Hle Ho Hinv.
  rewrite Ho in H. simpl in H.
  destruct (_ && _).
  - simplify_eq. split; [done|]. exists o. split; [done|].
    destruct Hinv as [Ht _]. by eapply spent_refl.
  - by eapply match_levels_inv.
Qed.

(** ** Submission, seen from the target book *)

Lemma settle_order_inv n fuel p s ty h b h' b' rs o :
  settle_order fuel n p s ty h b = Some (h', b', rs) →
  h !! n = Some o →
  Order.remaining_quantity o = Order.quantity o →
  book_inv n h b →
  book_inv (S n) h' b'.
Proof.
  unfold settle_order. intros H Ho Hfull Hinv.
  destruct (MatchingEngine.is_aggressive p s ty b) as [aggressive|];
    simpl in H; [|done].
  assert (Hm : ∃ h1 b1 rs1 o1,
             (if aggressive then OrderBook.match_order fuel n h b
              else Some (h, b, [])) = Some (h1, b1, rs1)
             ∧ book_inv n h1 b1 ∧ h1 !! n = Some o1 ∧ spent o o1).
  { destruct aggressive.
    - destruct (OrderBook.match_order fuel n h b) as [[[h1 b1] rs1]|] eqn:Hmo;
        [|done].
      eapply match_order_inv in Hmo as (? & o1 & ? & ?); [|done|exact Ho|done].
      by exists h1, b1, rs1, o1.
    - exists h, b, [], o. split; [done|]. split; [done|]. split; [done|].
      destruct Hinv as [Ht _]. by eapply spent_refl. }
  destruct Hm as (h1 & b1 & rs1 & o1 & Hm & Hinv1 & Ho1 & Hsp).
  rewrite Hm in H. simpl in H. rewrite Ho1 in H. simpl in H.
  destruct (bool_decide (Order.remaining_quantity o1 > 0)) eqn:Hpos; simpl in H.
  - destruct (bool_decide (ty = LIMIT)); simpl in H.
    + destruct (OrderBook.add_order fuel n h1 b1) as [[h2 b2]|] eqn:Hadd;
        simpl in H; [|done].
      simplify_eq. eapply add_order_inv; [exact Hadd|exact Ho1| |lia|].
      * apply bool_decide_eq_true in Hpos. unfold spent in Hsp.
        unfold quantity_ok. lia.
      * by apply book_inv_mono.
    + simplify_eq. by apply book_inv_mono.
  - simplify_eq. by apply book_inv_mono.
Qed.

(** ** [modify_order], seen from the book *)

Lemma modify_order_resting id q h b h' b' a o :
  OrderBook.modify_order id q h b = Some (h', b') →
  OrderBook.orders_ b !! id = Some a →
  h !! a = Some o →
  h' = <[a := Order.set_remaining_quantity q o]> h
  ∧ OrderBook.orders_ b' = OrderBook.orders_ b
  ∧ ∃ level lv,
      OrderBook.price_level_pool_ b !! level = Some lv
      ∧ OrderBook.price_level_pool_ b'
        = <[level := PriceLevel.set_total_volume
                       (u32 (u32 (PriceLevel.total_volume lv
                                  - Order.remaining_quantity o) + q)) lv]>
            (OrderBook.price_level_pool_ b).
Proof.
  unfold OrderBook.modify_order. intros H Hid Ho.
  rewrite Hid in H. simpl in H. rewrite Ho in H. simpl in H.
  destruct (Order.parent_level o) as [level|]; simpl in H; [|done].
  destruct (OrderBook.price_level_pool_ b !! level) as [lv|] eqn:Hlv;
    simpl in H; [|done].
  simplify_eq. split; [done|]. split; [done|]. by exists level, lv.
Qed.

Lemma modify_order_inv n id q h b h' b' :
  OrderBook.modify_order id q h b = Some (h', b') →
  0 <= q < 2 ^ 32 →
  book_inv n h b →
  (book_inv n h' b'
   ↔ ∀ a o, OrderBook.orders_ b !! id = Some a → h !! a = Some o →
            0 < q <= Order.quantity o).
Proof.
  intros H Hq Hinv. pose proof Hinv as (Ht & Hok & Hn & Hh & Hm).
  destruct (OrderBook.orders_ b !! id) as [a|] eqn:Hid.
  2:{ unfold OrderBook.modify_order in H. rewrite Hid in H. simplify_eq.
      split; [done|]. by intros _. }
  destruct (Hok _ _ Hid) as (o & Ho & Hi & Hqo).
  destruct (modify_order_resting _ _ _ _ _ _ _ _ H Hid Ho)
    as (-> & Hmap & level & lv & Hlv & HL).
  split.
  - intros (_ & Hok' & _) a' o' [= <-] Ho'. rewrite Ho in Ho'. injection Ho' as <-.
    rewrite <- Hmap in Hid. destruct (Hok' _ _ Hid) as (o2 & Ho2 & _ & Hq2).
    rewrite lookup_insert_eq in Ho2. injection Ho2 as <-.
    unfold quantity_ok in Hq2. simpl in Hq2. lia.
  - intros Hb. specialize (Hb a o eq_refl Ho). split_inv.
    + by apply heap_typed_insert.
    + intros id' a' Ha'. rewrite Hmap in Ha'.
      destruct (decide (a' = a)) as [->|Hne].
      * exists (Order.set_remaining_quantity q o).
        split; [apply lookup_insert_eq|].
        destruct (Hok _ _ Ha') as (o2 & Ho2 & Hi2 & _).
        rewrite Ho in Ho2. injection Ho2 as <-.
        split; [done|]. unfold quantity_ok. simpl. lia.
      * destruct (Hok _ _ Ha') as (o2 & Ho2 & Hi2 & Hq2).
        exists o2. by rewrite lookup_insert_ne.
    + below.
    + rewrite HL. below.
    + by rewrite Hmap.
Qed.

(** ** Quantity bounds under the operations of the engine (C6) *)

Lemma fill_slot_inv n id ts p q s ty h b :
  0 <= q < 2 ^ 32 →
  book_inv n h b →
  book_inv n (fill_slot n id ts p q s ty h) b.
Proof.
  intros Hq (Ht & Hok & Hn & Hh & Hm). unfold fill_slot. split_inv; try done.
  - by apply heap_typed_insert.
  - intros id' a Ha. destruct (Hok _ _ Ha) as (o & Ho & Hi & Hqo).
    specialize (Hm _ _ Ha). exists o. rewrite lookup_insert_ne by lia. done.
  - apply next_below_insert; [done|]. simpl. intros x Hx.
    destruct (h !! n) as [old|] eqn:Hold; simpl in Hx; [|done].
    exact (Hn _ _ _ Hold Hx).
Qed.

Section EngineInvariant.
Import MatchingEngine.

Lemma target_book_insert sym b (e : t) books :
  books_ e = <[sym := b]> books → target_book sym e = b.
Proof.
  intros E. unfold target_book, get_book. by rewrite E, lookup_insert_eq.
Qed.

Lemma submit_order_inv fuel sym id ts p q s ty e e' :
  submit_order fuel sym id ts p q s ty e = Some e' →
  0 <= q < 2 ^ 32 →
  pool_index_ e + 1 < 2 ^ 64 →
  engine_inv sym e → engine_inv sym e'.
Proof.
  rewrite submit_order_unfold. intros H Hq Hlt [Hpos Hinv].
  assert (Hu : u64 (pool_index_ e + 1) = pool_index_ e + 1)
    by (unfold u64; apply Z.mod_small; lia).
  assert (HS : Z.to_nat (pool_index_ e + 1) = S (Z.to_nat (pool_index_ e))) by lia.
  assert (Hwb : ∃ e0, with_book sym e = (target_book sym e, e0)
                      ∧ order_pool_ e0 = order_pool_ e
                      ∧ target_book sym e0 = target_book sym e).
  { unfold with_book, target_book.
    destruct (get_book sym e) as [book|] eqn:Hb; simpl.
    - exists e. by rewrite Hb.
    - eexists. split; [done|]. split; [done|].
      unfold get_book. simpl. by rewrite lookup_insert_eq. }
  destruct Hwb as (e0 & Hw & Hp0 & Hb0). rewrite Hw in H.
  destruct (decide (pool_index_ e >= order_pool_size (config_ e))).
  - simplify_eq. split; simpl; [lia|]. rewrite Hu, HS, Hp0.
    change (target_book sym _) with (target_book sym e0). rewrite Hb0.
    by apply book_inv_mono.
  - simpl in H.
    destruct (settle_order _ _ _ _ _ _ _) as [[[h b] rs]|] eqn:Hs; simpl in H;
      [|done].
    simplify_eq.
    destruct (push_reports_frame rs (set_pool_index_ (u64 (pool_index_ e + 1)) e0))
      as (Hpi & _).
    split; simpl; rewrite Hpi; simpl; rewrite Hu; [lia|]. rewrite HS.
    erewrite target_book_insert by reflexivity.
    eapply settle_order_inv; [exact Hs|apply lookup_insert_eq|done|].
    by apply fill_slot_inv.
Qed.

Lemma cancel_order_engine_inv fuel sym id e e' :
  cancel_order fuel sym id e = Some e' →
  engine_inv sym e → engine_inv sym e'.
Proof.
  unfold cancel_order, engine_inv, target_book. intros H [Hpos Hinv].
  destruct (get_book sym e) as [book|] eqn:Hb; [|by simplify_eq; rewrite Hb].
  destruct (OrderBook.cancel_order _ _ _ _) as [[h b]|] eqn:Hc; simpl in H;
    [|done].
  simplify_eq. split; [done|]. unfold get_book. simpl.
  rewrite lookup_insert_eq. simpl. by eapply cancel_order_inv.
Qed.

Lemma modify_order_engine_inv sym id q e e' :
  modify_order sym id q e = Some e' →
  0 <= q < 2 ^ 32 →
  engine_inv sym e →
  (engine_inv sym e'
   ↔ ∀ a o, OrderBook.orders_ (target_book sym e) !! id = Some a →
            order_pool_ e !! a = Some o →
            0 < q <= Order.quantity o)
  ∧ (∀ a o, OrderBook.orders_ (target_book sym e) !! id = Some a →
            order_pool_ e !! a = Some o →
            order_pool_ e' !! a = Some (Order.set_remaining_quantity q o)).
Proof.
  unfold modify_order, engine_inv, target_book. intros H Hq [Hpos Hinv].
  destruct (get_book sym e) as [book|] eqn:Hb; simpl in *.
  2:{ simplify_eq. rewrite Hb. simpl. split; [|by intros a o Ha].
      split; [by intros _ a o Ha|by intros _]. }
  destruct (OrderBook.modify_order _ _ _ _) as [[h b]|] eqn:Hm; simpl in H;
    [|done].
  simplify_eq. unfold get_book. simpl. rewrite lookup_insert_eq. simpl. split.
  - rewrite <- (modify_order_inv _ _ _ _ _ _ _ Hm Hq Hinv). tauto.
  - intros a o Ha Ho.
    destruct (modify_order_resting _ _ _ _ _ _ _ _ Hm Ha Ho) as (-> & _).
    apply lookup_insert_eq.
Qed.

(** C6 (amended).  Take the book an event works on, with the engine
    invariant [engine_inv] holding before the event (it states in
    particular that every resting order has
    [0 < remaining_quantity <= quantity]).  A [submit_order] (cursor not at
    the end of its range) and a [cancel_order] re-establish the invariant.
    A [modify_order (id, q)] stores [q] as the remaining quantity of the
    resting order [id], whatever [q] is, and leaves the original quantity
    alone: the invariant holds afterwards exactly when [0 < q <= quantity]
    for that order. *)
Theorem C6_quantity_bounds fuel ev e e' :
  step fuel ev e = Some e' →
  event_typed ev →
  pool_index_ e + 1 < 2 ^ 64 →
  engine_inv (event_symbol ev) e →
  match ev with
  | Modify sym id q =>
      (engine_inv sym e'
       ↔ ∀ a o, OrderBook.orders_ (target_book sym e) !! id = Some a →
                order_pool_ e !! a = Some o →
                0 < q <= Order.quantity o)
      ∧ (∀ a o, OrderBook.orders_ (target_book sym e) !! id = Some a →
                order_pool_ e !! a = Some o →
                order_pool_ e' !! a = Some (Order.set_remaining_quantity q o))
  | _ => engine_inv (event_symbol ev) e'
  end.
Proof.
  intros H Hty Hlt Hinv. destruct ev; simpl in *.
  - by eapply submit_order_inv.
  - by eapply cancel_order_engine_inv.
  - by eapply modify_order_engine_inv.
Qed.

Lemma engine_inv_init sym cfg : engine_inv sym (init cfg).
Proof.
  split; [simpl; lia|]. unfold target_book, get_book. simpl.
  rewrite lookup_empty. simpl. split_inv.
  - intros a o Ha. by rewrite lookup_empty in Ha.
  - intros id a Ha. simpl in Ha. by rewrite lookup_empty in Ha.
  - intros a o x Ha. by rewrite lookup_empty in Ha.
  - intros l lv x Hl. simpl in Hl. by rewrite lookup_empty in Hl.
  - intros id a Ha. simpl in Ha. by rewrite lookup_empty in Ha.
Qed.

Lemma C6_quantity_bounds_witness :
  engine_inv "A"
    (default (init (test_config 100))
       (step 16 (Submit "A" 1 1 100000 100 BUY LIMIT) (init (test_config 100)))).
Proof.
  apply (C6_quantity_bounds 16 (Submit "A" 1 1 100000 100 BUY LIMIT)
           (init (test_config 100))).
  - apply default_is_Some, (bool_decide_unpack _). vm_compute. exact I.
  - simpl. lia.
  - change (pool_index_ (init (test_config 100))) with 0. lia.
  - apply engine_inv_init.
Defined.
End EngineInvariant.


(** ** FIFO lists *)

Lemma is_fifo_ext (h h' : heap) l :
  ∀ p, is_fifo h p l →
       (∀ a, a ∈ l → Order.next <$> h' !! a = Order.next <$> h !! a) →
       is_fifo h' p l.
Proof.
  induction l as [|a l IH]; intros p Hf Hext; simpl in *; [done|].
  destruct Hf as (-> & o & Ho & Hf). split; [done|].
  pose proof (Hext a (list_elem_of_here _ _)) as E. rewrite Ho in E.
  destruct (h' !! a) as [o'|]; [|done]. simpl in E. injection E as E.
  exists o'. split; [done|]. rewrite E.
  apply IH; [done|]. intros b Hb. apply Hext. by apply list_elem_of_further.
Qed.

Lemma is_fifo_snoc (h : heap) new on t to l :
  ∀ p, is_fifo h p l →
       last l = Some t → h !! t = Some to → Order.next to = nullptr →
       new ∉ l → Order.next on = nullptr →
       is_fifo (<[t := Order.set_next (Some new) to]> (<[new := on]> h)) p
         (l ++ [new]).
Proof.
  induction l as [|a l IH]; intros p Hf Hlast Ht Hnt Hnew Hon; [done|].
  simpl in Hf. destruct Hf as (-> & o & Ho & Hf).
  assert (a ≠ new) by (intros ->; apply Hnew, list_elem_of_here).
  assert (t ≠ new).
  { intros ->. apply Hnew. apply last_Some_elem_of in Hlast. done. }
  destruct l as [|a' l].
  - simpl in Hlast. injection Hlast as ->. simpl in Hf.
    simpl. split; [done|]. eexists. split; [apply lookup_insert_eq|]. simpl.
    split; [done|]. exists on. split; [|done].
    rewrite lookup_insert_ne by done. apply lookup_insert_eq.
  - assert (a ≠ t).
    { intros ->. rewrite Ht in Ho. injection Ho as <-.
      simpl in Hf. destruct Hf as [Hf _]. congruence. }
    change ((a :: a' :: l) ++ [new]) with (a :: ((a' :: l) ++ [new])).
    cbn [is_fifo]. split; [done|]. exists o. split.
    + by rewrite !lookup_insert_ne.
    + apply IH; try done. intros Hin. apply Hnew. by apply list_elem_of_further.
Qed.

Lemma fifo_volume_ext (h h' : heap) l :
  (∀ a, a ∈ l → h' !! a = h !! a) → fifo_volume h' l = fifo_volume h l.
Proof.
  induction l as [|a l IH]; intros Hext; simpl; [done|].
  rewrite Hext by apply list_elem_of_here. rewrite IH; [done|].
  intros b Hb. apply Hext. by apply list_elem_of_further.
Qed.

Lemma level_wf_ext (h h' : heap) level lv lv' l :
  fifo_fields lv' = fifo_fields lv →
  (∀ a, a ∈ l → h' !! a = h !! a) →
  level_wf h level lv l → level_wf h' level lv' l.
Proof.
  unfold fifo_fields. intros [= E1 E2 E3 E4 E5] Hext (Hf & Ht & Hp & Hv & Hc & Hl).
  unfold level_wf. rewrite E2, E3, E4, E5.
  split; [|split; [|split; [|split; [|split]]]]; try done.
  - apply (is_fifo_ext h); [done|]. intros a Ha. by rewrite Hext.
  - rewrite Forall_forall in Hp |- *. intros a Ha. rewrite Hext by done. eauto.
  - by rewrite (fifo_volume_ext h h').
Qed.

Lemma u32_add_l a b : u32 (u32 a + b) = u32 (a + b).
Proof. unfold u32. apply Zplus_mod_idemp_l. Qed.

Lemma u32_sub_l a b : u32 (u32 a - b) = u32 (a - b).
Proof. unfold u32. apply Zminus_mod_idemp_l. Qed.

Lemma set_next_id (o : Order.t) :
  Order.set_next (Order.next o) o = o.
Proof. by destruct o. Qed.

Lemma fifo_volume_snoc (h : heap) l a :
  fifo_volume h (l ++ [a])
  = fifo_volume h l
    + match h !! a with Some o => Order.remaining_quantity o | None => 0 end.
Proof. induction l as [|b l IH]; simpl; [lia|]. rewrite IH. lia. Qed.

Lemma fifo_volume_core (h h' : heap) l :
  core <$> h' = core <$> h → fifo_volume h' l = fifo_volume h l.
Proof.
  intros Hc. induction l as [|a l IH]; simpl; [done|]. rewrite IH. f_equal.
  pose proof (core_fmap_lookup _ _ a Hc) as E.
  destruct (h' !! a) as [o'|], (h !! a) as [o|]; simpl in E; try done.
  injection E as _ _ E. done.
Qed.

(** ** What [PriceLevel::add_order] and [remove_order] write *)

Lemma PriceLevel_add_order_spec this order h (L : PriceLevel.pool) lv o :
  L !! this = Some lv → h !! order = Some o →
  (∀ t, PriceLevel.tail_order lv = Some t → t ≠ order ∧ is_Some (h !! t)) →
  let o' := Order.set_prev (PriceLevel.tail_order lv)
              (Order.set_next nullptr (Order.set_parent_level (Some this) o)) in
  let h1 := <[order := o']> h in
  let h2 := match PriceLevel.tail_order lv with
            | Some t =>
                match h !! t with
                | Some to => <[t := Order.set_next (Some order) to]> h1
                | None => h1
                end
            | None => h1
            end in
  PriceLevel.add_order this order h L
  = Some (h2,
          <[this := PriceLevel.mk (PriceLevel.price lv)
                      (u32 (PriceLevel.total_volume lv + Order.remaining_quantity o))
                      (u32 (PriceLevel.order_count lv + 1))
                      (match PriceLevel.tail_order lv with
                       | Some _ => PriceLevel.head_order lv
                       | None => Some order
                       end)
                      (Some order)
                      (PriceLevel.parent lv) (PriceLevel.left lv)
                      (PriceLevel.right lv)]> L).
Proof.
  intros HL Ho Ht. unfold PriceLevel.add_order. rewrite HL. simpl.
  rewrite Ho. simpl.
  destruct (PriceLevel.tail_order lv) as [t|] eqn:Etl.
  - destruct (Ht t eq_refl) as [Hne [to Hto]]. rewrite Hto.
    rewrite lookup_insert_ne by done. rewrite Hto. simpl.
    rewrite lookup_insert_ne by done. rewrite lookup_insert_eq. simpl.
    done.
  - simpl. rewrite lookup_insert_eq. simpl. done.
Qed.

Lemma PriceLevel_remove_last_spec this order h (L : PriceLevel.pool) lv o :
  L !! this = Some lv → h !! order = Some o →
  Order.next o = nullptr →
  (∀ p, Order.prev o = Some p → p ≠ order ∧ is_Some (h !! p)) →
  let h1 := match Order.prev o with
            | Some p =>
                match h !! p with
                | Some po => <[p := Order.set_next nullptr po]> h
                | None => h
                end
            | None => h
            end in
  PriceLevel.remove_order this order h L
  = Some (<[order := Order.set_prev nullptr
                       (Order.set_next nullptr
                          (Order.set_parent_level nullptr o))]> h1,
          <[this := PriceLevel.mk (PriceLevel.price lv)
                      (u32 (PriceLevel.total_volume lv - Order.remaining_quantity o))
                      (u32 (PriceLevel.order_count lv - 1))
                      (match Order.prev o with
                       | Some _ => PriceLevel.head_order lv
                       | None => nullptr
                       end)
                      (Order.prev o)
                      (PriceLevel.parent lv) (PriceLevel.left lv)
                      (PriceLevel.right lv)]> L).
Proof.
  intros HL Ho Hn Hp. unfold PriceLevel.remove_order. rewrite HL. simpl.
  rewrite Ho. simpl.
  destruct (Order.prev o) as [p|] eqn:Epv.
  - destruct (Hp p eq_refl) as [Hne [po Hpo]]. rewrite Hpo. simpl.
    rewrite lookup_insert_ne by done. rewrite Ho. simpl. rewrite Hn. simpl.
    rewrite lookup_insert_ne by done. rewrite Ho. simpl.
    rewrite ?Epv, ?Hn. done.
  - simpl. rewrite Ho. simpl. rewrite Hn. simpl. rewrite Ho. simpl.
    rewrite ?Epv, ?Hn. done.
Qed.

(** ** Levels whose FIFO fields an index operation leaves alone *)

Lemma pool_frame_refl L : pool_frame L L.
Proof. intros l lv Hl. by exists lv. Qed.

Lemma pool_frame_trans L1 L2 L3 :
  pool_frame L1 L2 → pool_frame L2 L3 → pool_frame L1 L3.
Proof.
  intros H12 H23 l lv Hl. destruct (H12 _ _ Hl) as (lv2 & Hl2 & E2).
  destruct (H23 _ _ Hl2) as (lv3 & Hl3 & E3). exists lv3. split; [done|].
  congruence.
Qed.

Lemma pool_frame_insert (L : PriceLevel.pool) a lv lv' :
  L !! a = Some lv → fifo_fields lv' = fifo_fields lv →
  pool_frame L (<[a := lv']> L).
Proof.
  intros Ha E l lv0 Hl. destruct (decide (a = l)) as [->|Hne].
  - exists lv'. rewrite lookup_insert_eq. split; [done|]. congruence.
  - exists lv0. by rewrite lookup_insert_ne.
Qed.

Lemma pool_frame_insert_fresh (L : PriceLevel.pool) a lv' :
  L !! a = None → pool_frame L (<[a := lv']> L).
Proof.
  intros Ha l lv0 Hl. exists lv0. rewrite lookup_insert_ne; [done|]. congruence.
Qed.

Ltac frame :=
  lazymatch goal with
  | |- pool_frame ?L ?L => apply pool_frame_refl
  | |- pool_frame ?L (<[?a := ?x]> ?M) =>
      apply (pool_frame_trans L M);
      [frame
      |first [ eapply pool_frame_insert; [eassumption|reflexivity]
             | apply pool_frame_insert_fresh; assumption ]]
  | |- pool_frame _ _ => assumption
  end.

Lemma relink_parent_frame level child L rt L' rt' :
  OrderBook.relink_parent level child L rt = Some (L', rt') → pool_frame L L'.
Proof. unfold OrderBook.relink_parent. intros H. open_opt; frame. Qed.

Lemma insert_below_frame fuel L p new_level current L' :
  OrderBook.insert_below fuel L p new_level current = Some L' → pool_frame L L'.
Proof.
  revert L current L'.
  induction fuel as [|fuel IH]; intros L current L' H;
    simpl in H; open_opt; try frame; eauto.
Qed.

Lemma find_level_found fuel L p :
  ∀ rt r, OrderBook.find_level fuel L p rt = Some (Some r) → is_Some (L !! r).
Proof.
  induction fuel as [|fuel IH]; intros rt r H; destruct rt as [r0|];
    simpl in H; try done.
  destruct (L !! r0) as [lv|] eqn:Hl; simpl in H; [|done].
  destruct (decide (p = PriceLevel.price lv)); [by simplify_eq|]. eauto.
Qed.

(** The level an order of price [p] and side [s] joins: an existing level,
    with the book unchanged, or the next slot of the pool, initialised
    empty. *)
Lemma find_or_create_level_spec fuel p s b level b' :
  OrderBook.find_or_create_level fuel p s b = Some (level, b') →
  OrderBook.price_level_pool_ b !! OrderBook.pool_index_ b = None →
  OrderBook.orders_ b' = OrderBook.orders_ b
  ∧ pool_frame (OrderBook.price_level_pool_ b) (OrderBook.price_level_pool_ b')
  ∧ ((b' = b ∧ is_Some (OrderBook.price_level_pool_ b !! level))
     ∨ (level = OrderBook.pool_index_ b
        ∧ ∃ lv, OrderBook.price_level_pool_ b' !! level = Some lv
                ∧ fifo_fields lv = fifo_fields (PriceLevel.make p))).
Proof.
  unfold OrderBook.find_or_create_level. intros H Hfresh.
  destruct (OrderBook.find_level _ _ _ _) as [[r|]|] eqn:Hf; simpl in H;
    [| |done].
  { simplify_eq. split; [done|]. split; [apply pool_frame_refl|]. left.
    split; [done|]. by eapply find_level_found. }
  unfold OrderBook.insert_level in H.
  destruct (decide _); [|done].
  set (L0 := <[OrderBook.pool_index_ b := PriceLevel.make p]>
               (OrderBook.price_level_pool_ b)) in *.
  assert (HF0 : pool_frame (OrderBook.price_level_pool_ b) L0)
    by (by apply pool_frame_insert_fresh).
  assert (Hnew0 : L0 !! OrderBook.pool_index_ b = Some (PriceLevel.make p))
    by apply lookup_insert_eq.
  destruct s; simpl in H.
  all: match type of H with
       | match ?r with _ => _ end = _ => destruct r as [r0|]
       end.
  all: try (destruct (OrderBook.insert_below _ _ _ _ _) as [L1|] eqn:Hib;
            simpl in H; [|done]).
  all: simplify_eq; simpl; (split; [done|]).
  all: try (pose proof (insert_below_frame _ _ _ _ _ _ Hib) as HF1;
            destruct (HF1 _ _ Hnew0) as (lv1 & Hlv1 & E1)).
  all: (split;
          [first [exact HF0 | exact (pool_frame_trans _ _ _ HF0 HF1)]|]);
       right; (split; [done|]); eauto.
Qed.

Lemma leftmost_spec fuel L :
  ∀ a s, OrderBook.leftmost fuel L a = Some s →
         ∃ sv, L !! s = Some sv ∧ PriceLevel.left sv = nullptr.
Proof.
  induction fuel as [|fuel IH]; intros a s H; simpl in H;
    (destruct (L !! a) as [lv|] eqn:Hl; simpl in H; [|done]);
    (destruct (PriceLevel.left lv) as [l|] eqn:El; [|simplify_eq; eauto]);
    [done|eauto].
Qed.

Lemma remove_level_frame fuel :
  ∀ level L rt L' rt',
    OrderBook.remove_level fuel level L rt = Some (L', rt') →
    ∀ l lv, L !! l = Some lv →
            (l = level → PriceLevel.left lv = nullptr ∨ PriceLevel.right lv = nullptr) →
            ∃ lv', L' !! l = Some lv' ∧ fifo_fields lv' = fifo_fields lv.
Proof.
  induction fuel as [|fuel IH]; intros level L rt L' rt' H l lv Hl Hcond;
    simpl in H;
    (destruct (L !! level) as [lvl|] eqn:Hlvl; simpl in H; [|done]);
    destruct (PriceLevel.left lvl) as [cl|] eqn:Ecl,
             (PriceLevel.right lvl) as [cr|] eqn:Ecr.
  all: try (open_opt;
            match goal with
            | Hr : OrderBook.relink_parent _ _ _ _ = Some _ |- _ =>
                apply relink_parent_frame in Hr
            end;
            match goal with
            | |- ∃ lv', ?M !! _ = _ ∧ _ =>
                assert (HF : pool_frame L M) by frame; exact (HF _ _ Hl)
            end).
  destruct (OrderBook.leftmost fuel L cr) as [s|] eqn:Hs; simpl in H; [|done].
  destruct (leftmost_spec _ _ _ _ Hs) as (sv & Hsv & Esv). rewrite Hsv in H.
  simpl in H.
  assert (l ≠ level).
  { intros ->. rewrite Hlvl in Hl. injection Hl as <-.
    destruct (Hcond eq_refl); congruence. }
  assert (s ≠ level) by (intros ->; congruence).
  eapply IH; [exact H| |].
  - by rewrite lookup_insert_ne.
  - intros ->. left. congruence.
Qed.

Lemma remove_level_frame_other fuel level L rt L' rt' l lv :
  OrderBook.remove_level fuel level L rt = Some (L', rt') →
  l ≠ level → L !! l = Some lv →
  ∃ lv', L' !! l = Some lv' ∧ fifo_fields lv' = fifo_fields lv.
Proof. intros H Hne Hl. eapply remove_level_frame; eauto. done. Qed.

Lemma cancel_order_steps fuel id h b h' b' order :
  OrderBook.cancel_order fuel id h b = Some (h', b') →
  OrderBook.orders_ b !! id = Some order →
  ∃ o level L1 lv1,
    h !! order = Some o ∧ Order.parent_level o = Some level
    ∧ PriceLevel.remove_order level order h (OrderBook.price_level_pool_ b)
      = Some (h', L1)
    ∧ L1 !! level = Some lv1
    ∧ OrderBook.orders_ b' = delete id (OrderBook.orders_ b)
    ∧ ((PriceLevel.order_count lv1 ≠ 0 ∧ OrderBook.price_level_pool_ b' = L1)
       ∨ (PriceLevel.order_count lv1 = 0
          ∧ ∃ rt rt', OrderBook.remove_level fuel level L1 rt
                      = Some (OrderBook.price_level_pool_ b', rt'))).
Proof.
  unfold OrderBook.cancel_order. intros H Hid. rewrite Hid in H.
  destruct (h !! order) as [o|] eqn:Ho; simpl in H; [|done].
  destruct (Order.parent_level o) as [level|] eqn:Hp; simpl in H; [|done].
  destruct (PriceLevel.remove_order _ _ _ _) as [[h1 L1]|] eqn:Hr;
    simpl in H; [|done].
  destruct (L1 !! level) as [lv1|] eqn:Hl1; simpl in H; [|done].
  exists o, level, L1, lv1.
  destruct (decide (PriceLevel.order_count lv1 = 0)) as [Hz|Hnz]; simpl in H.
  - open_opt.
    all: try match goal with
         | Hu : OrderBook.update_best_bid _ _ = Some _ |- _ =>
             apply update_best_bid_frame in Hu as [Hu1 Hu2]
         | Hu : OrderBook.update_best_ask _ _ = Some _ |- _ =>
             apply update_best_ask_frame in Hu as [Hu1 Hu2]
         end.
    all: do 4 (split; [done|]); simpl; rewrite ?Hu1, ?Hu2.
    all: try match goal with
             | |- context [OrderBook.set_root ?s _ _] => destruct s
             end; simpl; (split; [done|]); right; (split; [done|]); eauto.
  - simplify_eq. do 4 (split; [done|]). simpl. split; [done|]. by left.
Qed.

(** [modify_order] on the last order of a level. *)
Lemma modify_last_wf (h : heap) level lv lv' l a o q :
  level_wf h level lv (l ++ [a]) → a ∉ l → h !! a = Some o →
  fifo_fields lv'
  = (PriceLevel.price lv,
     u32 (u32 (PriceLevel.total_volume lv - Order.remaining_quantity o) + q),
     PriceLevel.order_count lv, PriceLevel.head_order lv,
     PriceLevel.tail_order lv) →
  level_wf (<[a := Order.set_remaining_quantity q o]> h) level lv' (l ++ [a]).
Proof.
  unfold fifo_fields. intros (Hf & Ht & Hp & Hv & Hc & Hl) Ha Ho [= E1 E2 E3 E4 E5].
  unfold level_wf. rewrite E2, E3, E4, E5.
  split; [|split; [|split; [|split; [|split]]]]; try done.
  - apply (is_fifo_ext h); [done|]. intros x _.
    destruct (decide (x = a)) as [->|Hne].
    + by rewrite lookup_insert_eq, Ho.
    + by rewrite lookup_insert_ne.
  - rewrite Forall_forall in Hp |- *. intros x Hx.
    destruct (decide (x = a)) as [->|Hne].
    + rewrite lookup_insert_eq. destruct (Hp a Hx) as (o' & Ho' & Hpo).
      rewrite Ho in Ho'. injection Ho' as <-. eauto.
    + rewrite lookup_insert_ne by done. eauto.
  - rewrite Hv, !fifo_volume_snoc, Ho, lookup_insert_eq. simpl.
    rewrite (fifo_volume_ext h (<[a := Order.set_remaining_quantity q o]> h) l).
    2:{ intros x Hx. rewrite lookup_insert_ne; [done|]. by intros ->. }
    rewrite u32_sub_l, u32_add_l. f_equal. lia.
Qed.

(** ** A second order under an id that is already resting (C10) *)

Section DuplicateId.
Variables (fuel : nat) (id : Z) (old new : addr) (on : Order.t).
Variables (l : list addr) (lv_old : addr) (Lv : PriceLevel.t).
Variables (h : heap) (b : OrderBook.t).

Hypothesis Hid : OrderBook.orders_ b !! id = Some old.
Hypothesis Hkeys : ∀ k, OrderBook.orders_ b !! k = Some old → k = id.
Hypothesis HLv : OrderBook.price_level_pool_ b !! lv_old = Some Lv.
Hypothesis Hwf : level_wf h lv_old Lv l.
Hypothesis Hold : old ∈ l.
Hypothesis Hlen : Z.of_nat (length l) + 1 < 2 ^ 32.
Hypothesis Hnew : h !! new = Some on.
Hypothesis Hnid : Order.order_id on = id.
Hypothesis Hnl : new ∉ l.
Hypothesis Htails : tails_ok h (OrderBook.price_level_pool_ b) new.
Hypothesis Hfresh :
  OrderBook.price_level_pool_ b !! OrderBook.pool_index_ b = None.

Lemma add_order_explicit h1 b1 :
  OrderBook.add_order fuel new h b = Some (h1, b1) →
  ∃ level_new b0 lvn,
    OrderBook.price_level_pool_ b0 !! level_new = Some lvn
    ∧ pool_frame (OrderBook.price_level_pool_ b) (OrderBook.price_level_pool_ b0)
    ∧ (level_new = lv_old → lvn = Lv)
    ∧ (∀ t, PriceLevel.tail_order lvn = Some t →
            t ≠ new ∧ ∃ to, h !! t = Some to ∧ Order.next to = nullptr
                            ∧ Order.parent_level to = Some level_new)
    ∧ h1 = linked_heap h new on level_new lvn
    ∧ OrderBook.price_level_pool_ b1
      = <[level_new := joined_level new on lvn]> (OrderBook.price_level_pool_ b0)
    ∧ OrderBook.orders_ b1 = <[id := new]> (OrderBook.orders_ b).
Proof.
  intros H.
  pose proof (add_order_shape _ _ _ _ _ _ H)
    as (level & b0 & o1 & (o & Ho & Hf) & Ha & Ho1 & Hmap).
  rewrite Hnew in Ho. injection Ho as <-.
  destruct (find_or_create_level_spec _ _ _ _ _ _ Hf Hfresh)
    as (Hord & Hfr & Hcase).
  assert (Hlvn : ∃ lvn,
             OrderBook.price_level_pool_ b0 !! level = Some lvn
             ∧ (level = lv_old → lvn = Lv)
             ∧ (∀ t, PriceLevel.tail_order lvn = Some t →
                     t ≠ new ∧ ∃ to, h !! t = Some to ∧ Order.next to = nullptr
                                     ∧ Order.parent_level to = Some level)).
  { destruct Hcase as [[-> [lvn Hlvn]]|(-> & lvn & Hlvn & E)].
    - exists lvn. split; [done|]. split; [intros ->; congruence|].
      intros t Ht. by eapply Htails.
    - exists lvn. split; [done|]. split; [intros E'; congruence|].
      intros t Ht. unfold fifo_fields in E. simpl in E. congruence. }
  destruct Hlvn as (lvn & Hlvn & Hsame & Htl).
  exists level, b0, lvn.
  rewrite (PriceLevel_add_order_spec _ _ _ _ lvn on Hlvn Hnew) in Ha.
  2:{ intros t Ht. destruct (Htl t Ht) as (? & to & ? & _). eauto. }
  injection Ha as Hh1 HL1.
  pose proof (PriceLevel_add_order_core level new h
                (OrderBook.price_level_pool_ b0)) as Hc.
  rewrite (PriceLevel_add_order_spec _ _ _ _ lvn on Hlvn Hnew) in Hc.
  2:{ intros t Ht. destruct (Htl t Ht) as (? & to & ? & _). eauto. }
  specialize (Hc _ _ eq_refl). rewrite Hh1 in Hc.
  destruct (core_lookup _ _ _ _ Hc Hnew) as (o1' & Ho1' & E).
  rewrite Ho1 in Ho1'. injection Ho1' as <-.
  destruct (core_eq _ _ E) as (E1 & _).
  do 6 (split; [done|]).
  by rewrite Hmap, Hord, E1, Hnid.
Qed.

Lemma wf_nonempty : ∃ t, last l = Some t.
Proof.
  destruct l as [|a l'] eqn:E; [by apply not_elem_of_nil in Hold|].
  rewrite <- E. destruct (last l) eqn:El; [eauto|].
  apply last_None in El. congruence.
Qed.

Lemma wf_member a :
  a ∈ l → ∃ o, h !! a = Some o ∧ Order.parent_level o = Some lv_old.
Proof.
  destruct Hwf as (_ & _ & Hp & _). rewrite Forall_forall in Hp. apply Hp.
Qed.

Lemma linked_heap_other level_new lvn a :
  a ≠ new → PriceLevel.tail_order lvn ≠ Some a →
  linked_heap h new on level_new lvn !! a = h !! a.
Proof.
  intros Hne Hnt. unfold linked_heap.
  destruct (PriceLevel.tail_order lvn) as [t|] eqn:Et.
  - destruct (h !! t); rewrite ?lookup_insert_ne; congruence.
  - by rewrite lookup_insert_ne.
Qed.

Section Linked.
Variables (level_new : addr) (lvn : PriceLevel.t).
Hypothesis Htl :
  ∀ t, PriceLevel.tail_order lvn = Some t →
       t ≠ new ∧ ∃ to, h !! t = Some to ∧ Order.next to = nullptr
                       ∧ Order.parent_level to = Some level_new.

Lemma linked_heap_new :
  linked_heap h new on level_new lvn !! new = Some (linked_order on level_new lvn).
Proof.
  unfold linked_heap. destruct (PriceLevel.tail_order lvn) as [t|] eqn:Et.
  - destruct (Htl t eq_refl) as (Hne & to & Hto & _). rewrite Hto.
    rewrite lookup_insert_ne by done. apply lookup_insert_eq.
  - apply lookup_insert_eq.
Qed.

Lemma linked_heap_core : core <$> linked_heap h new on level_new lvn = core <$> h.
Proof.
  unfold linked_heap.
  assert (E : core <$> <[new := linked_order on level_new lvn]> h = core <$> h)
    by (by eapply insert_same_core).
  destruct (PriceLevel.tail_order lvn) as [t|] eqn:Et; [|done].
  destruct (Htl t eq_refl) as (Hne & to & Hto & _). rewrite Hto.
  rewrite (insert_same_core _ t to); [done| |done].
  rewrite lookup_insert_ne by congruence. exact Hto.
Qed.

Lemma linked_heap_members a :
  level_new ≠ lv_old → a ∈ l → linked_heap h new on level_new lvn !! a = h !! a.
Proof.
  intros Hne Ha. apply linked_heap_other; [congruence|].
  intros Et. destruct (Htl a Et) as (_ & to & Hto & _ & Hp).
  destruct (wf_member a Ha) as (o & Ho & Hpo). congruence.
Qed.

End Linked.

Lemma joined_level_wf :
  (∀ t, PriceLevel.tail_order Lv = Some t →
        t ≠ new ∧ ∃ to, h !! t = Some to ∧ Order.next to = nullptr
                        ∧ Order.parent_level to = Some lv_old) →
  level_wf (linked_heap h new on lv_old Lv) lv_old (joined_level new on Lv) (l ++ [new]).
Proof.
  intros Htl. destruct wf_nonempty as [t Hlast].
  pose proof Hwf as (Hf & Ht & Hp & Hv & Hc & Hl).
  rewrite Hlast in Ht. destruct (Htl t Ht) as (Hne & to & Hto & Hnt & Hpt).
  assert (Hh1 : linked_heap h new on lv_old Lv
                = <[t := Order.set_next (Some new) to]>
                    (<[new := linked_order on lv_old Lv]> h))
    by (unfold linked_heap; by rewrite Ht, Hto).
  unfold level_wf, joined_level. simpl. rewrite Ht.
  split; [|split; [|split; [|split; [|split]]]].
  - rewrite Hh1. by apply is_fifo_snoc.
  - by rewrite last_snoc.
  - apply Forall_app. split.
    + rewrite Forall_forall. intros a Ha.
      destruct (wf_member a Ha) as (o & Ho & Hpo). rewrite Hh1.
      destruct (decide (a = t)) as [->|Hat].
      * rewrite lookup_insert_eq. eexists. split; [done|]. simpl. congruence.
      * exists o. rewrite !lookup_insert_ne; [done|congruence|done].
    + apply Forall_singleton. rewrite (linked_heap_new _ _ Htl).
      eexists. by split.
  - rewrite Hv, u32_add_l. f_equal. rewrite fifo_volume_snoc.
    rewrite (linked_heap_new _ _ Htl). simpl.
    by rewrite (fifo_volume_core h (linked_heap h new on lv_old Lv))
      by (by apply linked_heap_core).
  - rewrite Hc, length_app. simpl. rewrite u32_small by lia. lia.
  - rewrite length_app. simpl. lia.
Qed.

(** After the duplicate has come to rest: the id designates the new
    order, and the level of the old order is well formed with the old
    order still in its FIFO. *)
Lemma add_order_keeps_old h1 b1 :
  OrderBook.add_order fuel new h b = Some (h1, b1) →
  OrderBook.orders_ b1 !! id = Some new
  ∧ ∃ Lv1 l1,
      OrderBook.price_level_pool_ b1 !! lv_old = Some Lv1
      ∧ level_wf h1 lv_old Lv1 l1
      ∧ old ∈ l1.
Proof.
  intros H.
  destruct (add_order_explicit _ _ H)
    as (level_new & b0 & lvn & Hlvn & Hfr & Hsame & Htl & -> & HL1 & Hmap).
  split; [rewrite Hmap; apply lookup_insert_eq|]. rewrite HL1.
  destruct (decide (level_new = lv_old)) as [->|Hne].
  - rewrite (Hsame eq_refl) in *.
    exists (joined_level new on Lv), (l ++ [new]). rewrite lookup_insert_eq.
    split; [done|]. split; [by apply joined_level_wf|].
    apply elem_of_app. by left.
  - destruct (Hfr _ _ HLv) as (Lv0 & HLv0 & E0).
    exists Lv0, l. rewrite lookup_insert_ne by done.
    split; [done|]. split; [|done].
    eapply level_wf_ext; [exact E0| |exact Hwf].
    intros a Ha. by apply linked_heap_members.
Qed.

(** Cancelling the id afterwards removes the new order only: the store
    is as it was before the duplicate came in, except for the slot of the
    new order; so are the FIFO fields of the level of the old order; and the
    id map has lost the id. *)
Lemma cancel_after_add fuel' h1 b1 h2 b2 :
  OrderBook.add_order fuel new h b = Some (h1, b1) →
  OrderBook.cancel_order fuel' id h1 b1 = Some (h2, b2) →
  OrderBook.orders_ b2 = delete id (OrderBook.orders_ b)
  ∧ (∀ a, a ≠ new → h2 !! a = h !! a)
  ∧ ∃ Lv2, OrderBook.price_level_pool_ b2 !! lv_old = Some Lv2
           ∧ fifo_fields Lv2 = fifo_fields Lv.
Proof.
  intros Hadd Hc.
  destruct (add_order_explicit _ _ Hadd)
    as (level_new & b0 & lvn & Hlvn & Hfr & Hsame & Htl & -> & HL1 & Hmap).
  assert (Hidn : OrderBook.orders_ b1 !! id = Some new)
    by (rewrite Hmap; apply lookup_insert_eq).
  destruct (cancel_order_steps _ _ _ _ _ _ _ Hc Hidn)
    as (o & level & L1 & lv1 & Ho & Hp & Hr & Hl1 & Hm2 & Hcase).
  rewrite (linked_heap_new _ _ Htl) in Ho. injection Ho as <-.
  simpl in Hp. injection Hp as <-.
  rewrite HL1 in Hr.
  rewrite (PriceLevel_remove_last_spec _ _ _ _ (joined_level new on lvn)
             (linked_order on level_new lvn)) in Hr;
    [|apply lookup_insert_eq|by apply linked_heap_new|done|].
  2:{ simpl. intros p Hpv. destruct (Htl p Hpv) as (Hne & to & Hto & _).
      split; [done|]. unfold linked_heap. rewrite Hpv, Hto.
      rewrite lookup_insert_eq. eauto. }
  injection Hr as Hh2 HL1'.
  split; [by rewrite Hm2, Hmap, delete_insert_eq|].
  split.
  { intros a Ha. rewrite <- Hh2. rewrite lookup_insert_ne by done. simpl.
    destruct (PriceLevel.tail_order lvn) as [t|] eqn:Et.
    - destruct (Htl t eq_refl) as (Hne & to & Hto & Hnt & _).
      assert (Ht1 : linked_heap h new on level_new lvn !! t
                    = Some (Order.set_next (Some new) to)).
      { unfold linked_heap. rewrite Et, Hto. apply lookup_insert_eq. }
      rewrite Ht1. destruct (decide (a = t)) as [->|Hat].
      + rewrite lookup_insert_eq, Hto. f_equal.
        rewrite <- (set_next_id to) at 2. by rewrite Hnt.
      + rewrite lookup_insert_ne by done.
        apply linked_heap_other; [done|]. rewrite Et. congruence.
    - apply linked_heap_other; [done|]. by rewrite Et. }
  rewrite insert_insert_eq in HL1'.
  destruct (decide (level_new = lv_old)) as [->|Hne].
  - rewrite (Hsame eq_refl) in *.
    pose proof Hwf as (Hf & Ht & Hpp & Hv & Hcn & Hl).
    destruct wf_nonempty as [t Hlast]. rewrite Hlast in Ht.
    rewrite <- HL1', lookup_insert_eq in Hl1. injection Hl1 as <-.
    assert (Hcount : u32 (u32 (PriceLevel.order_count Lv + 1) - 1)
                     = PriceLevel.order_count Lv).
    { rewrite u32_sub_l, Hcn. rewrite u32_small by lia. lia. }
    assert (l ≠ []) by (intros ->; done).
    assert (Z.of_nat (length l) ≠ 0) by (destruct l; simpl; [done|lia]).
    destruct Hcase as [[_ HL2]|[Hz _]].
    + rewrite HL2, <- HL1', lookup_insert_eq. eexists. split; [done|].
      unfold fifo_fields. simpl. rewrite Ht, Hcount.
      rewrite u32_sub_l, Hv.
      replace (u32 (fifo_volume h l) + Order.remaining_quantity on
               - Order.remaining_quantity on) with (u32 (fifo_volume h l)) by lia.
      by rewrite u32_idem.
    + simpl in Hz. rewrite Hcount in Hz. congruence.
  - destruct (Hfr _ _ HLv) as (Lv0 & HLv0 & E0).
    assert (HL1o : L1 !! lv_old = Some Lv0)
      by (rewrite <- HL1'; by rewrite lookup_insert_ne).
    destruct Hcase as [[_ HL2]|[_ (rt & rt' & Hrm)]].
    + rewrite HL2. eauto.
    + destruct (remove_level_frame_other _ _ _ _ _ _ lv_old Lv0 Hrm
                  (not_eq_sym Hne) HL1o) as (Lv2 & HLv2 & E2).
      exists Lv2. split; [done|]. congruence.
Qed.

(** Modifying the id afterwards rewrites the remaining quantity of the
    new order and nothing else in the store; the old order stays in the
    FIFO of its level. *)
Lemma modify_after_add h1 b1 q :
  OrderBook.add_order fuel new h b = Some (h1, b1) →
  ∃ on1 b3,
    h1 !! new = Some on1
    ∧ OrderBook.modify_order id q h1 b1
      = Some (<[new := Order.set_remaining_quantity q on1]> h1, b3)
    ∧ OrderBook.orders_ b3 = OrderBook.orders_ b1
    ∧ ∃ Lv3 l3,
        OrderBook.price_level_pool_ b3 !! lv_old = Some Lv3
        ∧ level_wf (<[new := Order.set_remaining_quantity q on1]> h1)
            lv_old Lv3 l3
        ∧ old ∈ l3.
Proof.
  intros Hadd.
  destruct (add_order_keeps_old _ _ Hadd) as (Hidn & Lv1 & l1 & HLv1 & Hwf1 & Hin1).
  destruct (add_order_explicit _ _ Hadd)
    as (level_new & b0 & lvn & Hlvn & Hfr & Hsame & Htl & -> & HL1 & Hmap).
  exists (linked_order on level_new lvn).
  unfold OrderBook.modify_order. rewrite Hidn, (linked_heap_new _ _ Htl). simpl.
  rewrite HL1, lookup_insert_eq. simpl.
  eexists. split; [done|]. split; [done|]. simpl. split; [done|].
  rewrite insert_insert_eq.
  destruct (decide (level_new = lv_old)) as [->|Hne].
  - rewrite (Hsame eq_refl) in *.
    eexists _, (l ++ [new]). rewrite lookup_insert_eq. split; [done|].
    split; [|apply elem_of_app; by left].
    eapply modify_last_wf;
      [by apply joined_level_wf|done|by apply linked_heap_new|done].
  - rewrite HL1, lookup_insert_ne in HLv1 by done.
    destruct (Hfr _ _ HLv) as (Lv0 & HLv0 & E0).
    exists Lv0, l. rewrite lookup_insert_ne by done. split; [done|].
    split; [|done].
    eapply level_wf_ext; [exact E0| |exact Hwf].
    intros a Ha. rewrite lookup_insert_ne by (by intros ->).
    by apply linked_heap_members.
Qed.

End DuplicateId.

Section QueueSize.
Context {T : Type}.
Variable k : Z.
Hypothesis Hk : 0 <= k < 64.

Lemma size_spec (q : SPSCQueue.t T) :
  queue_wf k q →
  SPSCQueue.size k q = Z.of_nat (length (contents q))
  ∧ (SPSCQueue.empty q = true ↔ contents q = []).
Proof.
  intros Hwf. pose proof (contents_length k q Hwf) as Hlen.
  pose proof (Capacity_range k Hk) as HC.
  destruct Hwf as (Hh & Ht & Hb).
  split.
  - unfold SPSCQueue.size. rewrite Hlen.
    destruct (decide (SPSCQueue.tail_ q <= SPSCQueue.head_ q)) as [Hle|Hgt].
    + rewrite decide_True by lia. lia.
    + rewrite decide_False by lia. unfold u64.
      rewrite (Z.mod_small (SPSCQueue.Capacity k - _)) by lia.
      rewrite Z.mod_small by lia. lia.
  - unfold SPSCQueue.empty. rewrite bool_decide_eq_true.
    rewrite <- length_zero_iff_nil, Hlen. case_decide; lia.
Qed.

(** X1.  After any sequence of [push] and [pop] calls on a newly
    constructed queue of capacity [2 ^ k], [size] is the number of
    elements the bounded FIFO holds after the same calls, and [empty]
    answers [true] exactly when that FIFO holds nothing. *)
Theorem X1_queue_size_and_empty (dflt : T) (ops : list (QueueOp T)) :
  let q := (run_queue k ops (SPSCQueue.init k dflt)).2 in
  let l := (run_fifo (Z.to_nat (SPSCQueue.Capacity k - 1)) ops []).2 in
  SPSCQueue.size k q = Z.of_nat (length l)
  ∧ (SPSCQueue.empty q = true ↔ l = []).
Proof.
  destruct (run_queue_refines k Hk ops _ (init_wf k Hk dflt))
    as (outs & q & Hr & Hf & Hwf).
  rewrite Hr. change (contents (SPSCQueue.init k dflt)) with (@nil T) in Hf.
  rewrite Hf. simpl. by apply size_spec.
Qed.
End QueueSize.

Lemma X1_queue_size_and_empty_witness :
  let ops := [Push 7; Push 8; Push 9; Push 10; Pop; Pop; Push 11; Pop] in
  let q := (run_queue 2 ops (SPSCQueue.init 2 0)).2 in
  let l := (run_fifo (Z.to_nat (SPSCQueue.Capacity 2 - 1)) ops []).2 in
  SPSCQueue.size 2 q = Z.of_nat (length l)
  ∧ (SPSCQueue.empty q = true ↔ l = []).
Proof. apply (X1_queue_size_and_empty 2); lia. Defined.

Section ReportQueue.
Import MatchingEngine.

Lemma QUEUE_LOG2_range : 0 <= QUEUE_LOG2 < 64.
Proof. unfold QUEUE_LOG2. lia. Qed.

Lemma push_reports_spec rs : ∀ e,
  queue_wf QUEUE_LOG2 (execution_queue_ e) →
  0 <= total_matches_ e < 2 ^ 64 →
  let bound := Z.to_nat (SPSCQueue.Capacity QUEUE_LOG2 - 1) in
  let n := (length rs `min` (bound - length (contents (execution_queue_ e))))%nat in
  queue_wf QUEUE_LOG2 (execution_queue_ (push_reports rs e))
  ∧ contents (execution_queue_ (push_reports rs e))
    = contents (execution_queue_ e) ++ take n rs
  ∧ total_matches_ (push_reports rs e) = u64 (total_matches_ e + Z.of_nat n).
Proof.
  induction rs as [|r rs IH]; intros e Hwf Htm bound n.
  - simpl. rewrite app_nil_r, Z.add_0_r. unfold u64. by rewrite Z.mod_small.
  - cbn [push_reports].
    destruct (push_spec _ QUEUE_LOG2_range r _ Hwf) as (q' & -> & Hwf' & Hc).
    pose proof (contents_length _ _ Hwf) as Hlen.
    assert (Hle : (length (contents (execution_queue_ e)) ≤ bound)%nat).
    { rewrite Hlen. destruct Hwf as (? & ? & ?). unfold bound. case_decide; lia. }
    unfold fifo_push in Hc. fold bound in Hc |- *.
    destruct (decide (length (contents (execution_queue_ e)) = bound)) as [E|E];
      simpl in Hc.
    + rewrite bool_decide_true by done. cbn [negb].
      assert (n = 0%nat) as -> by (unfold n; lia).
      rewrite take_0, app_nil_r, Z.add_0_r.
      split; [done|]. split; [done|]. unfold u64. by rewrite Z.mod_small.
    + rewrite bool_decide_false by done. cbn [negb].
      set (e1 := set_total_matches_ _ _).
      destruct (IH e1) as (Hwf2 & Hc2 & Ht2); [done| |].
      { simpl. unfold u64. apply Z.mod_pos_bound. lia. }
      split; [done|]. rewrite Hc2, Ht2.
      change (execution_queue_ e1) with q'.
      change (total_matches_ e1) with (u64 (total_matches_ e + 1)).
      rewrite Hc, length_app. cbn [length]. fold bound.
      assert (n = S (length rs `min` (bound
                 - (length (contents (execution_queue_ e)) + 1))))%nat as ->
        by (unfold n; cbn [length]; lia).
      rewrite <- app_assoc. split; [done|].
      unfold u64. rewrite Zplus_mod_idemp_l. f_equal. lia.
Qed.

(** X2.  The loop of [submit_order] that hands the reports of one match to
    the execution queue pushes them in order until the queue is full: the
    queue then holds its former contents followed by the first [n] reports,
    [n] being the smaller of the number of reports and the number of free
    places (the queue holds 65535 at most); [total_matches_] has advanced
    by [n]; the reports that did not fit are dropped uncounted. *)
Theorem X2_reports_beyond_queue_capacity_are_dropped rs e :
  queue_wf QUEUE_LOG2 (execution_queue_ e) →
  0 <= total_matches_ e < 2 ^ 64 →
  let bound := Z.to_nat (SPSCQueue.Capacity QUEUE_LOG2 - 1) in
  let n := (length rs `min` (bound - length (contents (execution_queue_ e))))%nat in
  SPSCQueue.Capacity QUEUE_LOG2 - 1 = 65535
  ∧ contents (execution_queue_ (push_reports rs e))
    = contents (execution_queue_ e) ++ take n rs
  ∧ total_matches_ (push_reports rs e) = u64 (total_matches_ e + Z.of_nat n)
  ∧ (length (contents (execution_queue_ (push_reports rs e))) ≤ bound)%nat.
Proof.
  intros Hwf Htm bound n.
  destruct (push_reports_spec rs e Hwf Htm) as (Hwf' & Hc & Ht).
  split; [done|]. split; [exact Hc|]. split; [exact Ht|].
  rewrite (contents_length _ _ Hwf'). destruct Hwf' as (? & ? & ?).
  unfold bound. case_decide; lia.
Qed.

Lemma X2_reports_beyond_queue_capacity_are_dropped_witness :
  let e := init (test_config 10) in
  let rs := [ExecutionReport.mk 1 1 1 100 10 BUY false;
             ExecutionReport.mk 1 2 1 100 5 BUY true] in
  let bound := Z.to_nat (SPSCQueue.Capacity QUEUE_LOG2 - 1) in
  let n := (length rs `min` (bound - length (contents (execution_queue_ e))))%nat in
  SPSCQueue.Capacity QUEUE_LOG2 - 1 = 65535
  ∧ contents (execution_queue_ (push_reports rs e))
    = contents (execution_queue_ e) ++ take n rs
  ∧ total_matches_ (push_reports rs e) = u64 (total_matches_ e + Z.of_nat n)
  ∧ (length (contents (execution_queue_ (push_reports rs e))) ≤ bound)%nat.
Proof.
  intros e rs.
  apply (X2_reports_beyond_queue_capacity_are_dropped rs e).
  - apply (init_wf _ QUEUE_LOG2_range).
  - simpl. lia.
Defined.
End ReportQueue.

Section Counters.
Import MatchingEngine.

Lemma submit_order_counters fuel sym id ts p q s ty e e' :
  submit_order fuel sym id ts p q s ty e = Some e' →
  if decide (pool_index_ e >= order_pool_size (config_ e))
  then total_orders_ e' = total_orders_ e
       ∧ error_count e' = u64 (error_count e + 1)
  else total_orders_ e' = u64 (total_orders_ e + 1)
       ∧ error_count e' = error_count e.
Proof.
  rewrite submit_order_unfold. unfold with_book.
  destruct (get_book sym e); destruct (decide _); intros H; simplify_eq;
    try done.
  all: destruct (settle_order _ _ _ _ _ _ _) as [[[h b] rs]|]; simpl in H;
       simplify_eq; simpl.
  all: match goal with |- context [push_reports ?rs ?x] =>
         destruct (push_reports_frame rs x) as (_ & _ & _ & _ & E1 & E2) end;
       rewrite ?E1, ?E2; done.
Qed.

Lemma step_counters fuel ev e e' :
  step fuel ev e = Some e' →
  if is_submit ev then
    if decide (pool_index_ e >= order_pool_size (config_ e))
    then total_orders_ e' = total_orders_ e
         ∧ error_count e' = u64 (error_count e + 1)
    else total_orders_ e' = u64 (total_orders_ e + 1)
         ∧ error_count e' = error_count e
  else total_orders_ e' = total_orders_ e ∧ error_count e' = error_count e.
Proof.
  destruct ev; simpl.
  - apply submit_order_counters.
  - unfold cancel_order. destruct (get_book _ _); intros H; simplify_eq; [|done].
    destruct (OrderBook.cancel_order _ _ _ _) as [[h b]|]; simpl in H;
      by simplify_eq.
  - unfold modify_order. destruct (get_book _ _); intros H; simplify_eq; [|done].
    destruct (OrderBook.modify_order _ _ _ _) as [[h b]|]; simpl in H;
      by simplify_eq.
Qed.

Lemma run_counters fuel errors evs : ∀ e e',
  run fuel evs e = Some e' →
  0 <= order_pool_size (config_ e) →
  0 <= pool_index_ e →
  pool_index_ e + Z.of_nat (count_submits evs) < 2 ^ 64 →
  total_orders_ e = Z.min (pool_index_ e) (order_pool_size (config_ e)) →
  error_count e
  = u64 (errors + Z.max 0 (pool_index_ e - order_pool_size (config_ e))) →
  total_orders_ e'
  = Z.min (pool_index_ e + Z.of_nat (count_submits evs)) (order_pool_size (config_ e))
  ∧ error_count e'
    = u64 (errors + Z.max 0 (pool_index_ e + Z.of_nat (count_submits evs)
                             - order_pool_size (config_ e))).
Proof.
  induction evs as [|ev evs IH]; intros e e' H HS Hp Hlt Ht He; simpl in H.
  - simplify_eq. simpl. rewrite Z.add_0_r. done.
  - destruct (step fuel ev e) as [e1|] eqn:Hs; simpl in H; [|done].
    pose proof (step_pool_index _ _ _ _ Hs) as [Hp1 Hc1].
    pose proof (step_counters _ _ _ _ Hs) as Hk.
    cbn [count_submits] in Hlt |- *.
    destruct (is_submit ev).
    + assert (Hp1' : pool_index_ e1 = pool_index_ e + 1).
      { rewrite Hp1. unfold u64. apply Z.mod_small. lia. }
      apply IH in H; [|rewrite Hc1; lia|lia|lia| |].
      * rewrite Hc1, Hp1' in H.
        replace (pool_index_ e + Z.of_nat (1 + count_submits evs))
          with (pool_index_ e + 1 + Z.of_nat (count_submits evs)) by lia.
        exact H.
      * rewrite Hc1, Hp1'. destruct (decide _) as [Hge|Hlt'];
          destruct Hk as [-> _]; rewrite Ht; [lia|].
        unfold u64. rewrite Z.mod_small by lia. lia.
      * rewrite Hc1, Hp1'. destruct (decide _) as [Hge|Hlt'];
          destruct Hk as [_ ->]; rewrite He.
        -- unfold u64. rewrite Zplus_mod_idemp_l. f_equal. lia.
        -- f_equal. lia.
    + destruct Hk as [Ht1 He1].
      apply IH in H; [|rewrite Hc1; lia|lia|lia| |].
      * rewrite Hc1, Hp1 in H. exact H.
      * rewrite Hc1, Hp1. congruence.
      * rewrite Hc1, Hp1. congruence.
Qed.

(** X3.  On an engine just built, in a process whose failure counter
    stands at [errors], after any stream of events [total_orders_] is the
    number of submissions that were handed a pool slot, that is the smaller
    of the number of submissions and [order_pool_size].  The failure
    counter of [submit_order] is a static of the process that the
    constructor does not reset: it has advanced from [errors], modulo
    2^64, by the number of submissions made beyond the pool size.
    Cancellations and modifications count for nothing. *)
Theorem X3_total_orders_counts_accepted_submissions fuel cfg errors evs e :
  run fuel evs (init_at cfg errors) = Some e →
  0 <= order_pool_size cfg →
  Z.of_nat (count_submits evs) < 2 ^ 64 →
  0 <= errors < 2 ^ 64 →
  total_orders_ e = Z.min (Z.of_nat (count_submits evs)) (order_pool_size cfg)
  ∧ error_count e
    = u64 (errors
           + Z.max 0 (Z.of_nat (count_submits evs) - order_pool_size cfg)).
Proof.
  intros Hrun HS Hlt He.
  apply (run_counters fuel errors) in Hrun.
  - exact Hrun.
  - exact HS.
  - change (pool_index_ (init_at cfg errors)) with 0. lia.
  - change (pool_index_ (init_at cfg errors)) with 0. lia.
  - change (pool_index_ (init_at cfg errors)) with 0.
    change (config_ (init_at cfg errors)) with cfg.
    change (total_orders_ (init_at cfg errors)) with 0.
    lia.
  - change (pool_index_ (init_at cfg errors)) with 0.
    change (config_ (init_at cfg errors)) with cfg.
    change (error_count (init_at cfg errors)) with errors.
    unfold u64. rewrite Z.mod_small by lia. lia.
Qed.

Lemma X3_total_orders_counts_accepted_submissions_witness :
  let e1 := default (init (test_config 1))
              (run 16 submit_cancel_submit (init (test_config 1))) in
  let e2 := default (init (test_config 1))
              (run 16 submit_cancel_submit
                 (init_at (test_config 1) (error_count e1))) in
  error_count e1 = 1
  ∧ total_orders_ e2 = Z.min (Z.of_nat (count_submits submit_cancel_submit)) 1
  ∧ error_count e2
    = u64 (1 + Z.max 0 (Z.of_nat (count_submits submit_cancel_submit) - 1)).
Proof.
  intros e1 e2. split; [vm_compute; reflexivity|].
  apply (X3_total_orders_counts_accepted_submissions 16 (test_config 1) 1
           submit_cancel_submit e2).
  - apply default_is_Some, (bool_decide_unpack _). vm_compute. exact I.
  - simpl. lia.
  - vm_compute. reflexivity.
  - lia.
Defined.
End Counters.

Section MissingKeys.
Import MatchingEngine.

Lemma put_back_book sym b (e : t) :
  get_book sym e = Some b →
  set_order_pool_ (order_pool_ e) (set_books_ (<[sym := b]> (books_ e)) e) = e.
Proof.
  unfold get_book. intros H. rewrite (insert_id _ _ _ H). by destruct e.
Qed.

Lemma cancel_order_unknown fuel sym id e :
  (∀ b, get_book sym e = Some b → OrderBook.orders_ b !! id = None) →
  cancel_order fuel sym id e = Some e.
Proof.
  intros H. unfold cancel_order, OrderBook.cancel_order.
  destruct (get_book sym e) as [b|] eqn:Hb; [|done].
  rewrite (H b eq_refl). simpl. by rewrite put_back_book.
Qed.

Lemma modify_order_unknown sym id q e :
  (∀ b, get_book sym e = Some b → OrderBook.orders_ b !! id = None) →
  modify_order sym id q e = Some e.
Proof.
  intros H. unfold modify_order, OrderBook.modify_order.
  destruct (get_book sym e) as [b|] eqn:Hb; [|done].
  rewrite (H b eq_refl). simpl. by rewrite put_back_book.
Qed.

(** X4.  [cancel_order] and [modify_order] called with a symbol that has
    no book, or with an order id that is not resting in the book of the
    symbol, return normally and leave the whole engine as it was; in
    particular they do not create a book for an unknown symbol. *)
Theorem X4_unknown_symbol_or_id_is_ignored fuel sym id q e :
  (∀ b, get_book sym e = Some b → OrderBook.orders_ b !! id = None) →
  cancel_order fuel sym id e = Some e ∧ modify_order sym id q e = Some e.
Proof.
  intros H. split; [by apply cancel_order_unknown|by apply modify_order_unknown].
Qed.

Lemma X4_unknown_symbol_or_id_is_ignored_witness :
  cancel_order 16 "A" 7 engine_one_bid = Some engine_one_bid
  ∧ modify_order "A" 7 50 engine_one_bid = Some engine_one_bid.
Proof.
  apply (X4_unknown_symbol_or_id_is_ignored 16 "A" 7 50 engine_one_bid).
  intros b Hb.
  assert (E : get_book "A" engine_one_bid = Some book_one_bid).
  { apply default_is_Some, (bool_decide_unpack _). vm_compute. exact I. }
  rewrite E in Hb. injection Hb as <-. vm_compute. reflexivity.
Defined.

(** X5.  Once [cancel_order (symbol, id)] has returned, [id] is no longer
    in the id map of the book, every other id is mapped as before, and
    cancelling [id] again changes nothing. *)
Theorem X5_cancel_is_idempotent fuel sym id e e' b :
  cancel_order fuel sym id e = Some e' →
  get_book sym e = Some b →
  ∃ b', get_book sym e' = Some b'
        ∧ OrderBook.orders_ b' = delete id (OrderBook.orders_ b)
        ∧ cancel_order fuel sym id e' = Some e'.
Proof.
  intros H Hb. unfold cancel_order in H. rewrite Hb in H.
  destruct (OrderBook.cancel_order fuel id (order_pool_ e) b) as [[h b']|] eqn:Hc;
    simpl in H; [|done].
  injection H as <-. exists b'.
  assert (Hb' : get_book sym (set_order_pool_ h
                   (set_books_ (<[sym := b']> (books_ e)) e)) = Some b')
    by apply lookup_insert_eq.
  assert (Hm : OrderBook.orders_ b' = delete id (OrderBook.orders_ b)).
  { apply cancel_order_shape in Hc
      as [(Hn & -> & ->)|(order & level & L1 & _ & _ & Hm & _)]; [|done].
    symmetry. by apply delete_id. }
  split; [done|]. split; [done|].
  apply cancel_order_unknown. intros b2 Hb2. rewrite Hb' in Hb2.
  injection Hb2 as <-. rewrite Hm. apply lookup_delete_eq.
Qed.

Lemma X5_cancel_is_idempotent_witness :
  let e' := default engine_one_bid (cancel_order 16 "A" 1 engine_one_bid) in
  ∃ b', get_book "A" e' = Some b'
        ∧ OrderBook.orders_ b' = delete 1 (OrderBook.orders_ book_one_bid)
        ∧ cancel_order 16 "A" 1 e' = Some e'.
Proof.
  intros e'.
  apply (X5_cancel_is_idempotent 16 "A" 1 engine_one_bid e' book_one_bid).
  - apply default_is_Some, (bool_decide_unpack _). vm_compute. exact I.
  - apply default_is_Some, (bool_decide_unpack _). vm_compute. exact I.
Defined.
End MissingKeys.

Lemma fills_nil mc o : 0 <= Order.remaining_quantity o → fills mc o o [].
Proof.
  intros H. unfold fills. split; [done|]. split; [done|].
  split; [simpl; lia|]. split; [by constructor|].
  split; [by intros i r Hi|]. split; [by intros i r Hi|]. done.
Qed.

Lemma fills_static mc o o1 o' news :
  static o1 = static o →
  Order.remaining_quantity o1 = Order.remaining_quantity o →
  fills mc o1 o' news → fills mc o o' news.
Proof.
  unfold fills, static. intros E Er (F1 & F2 & F3 & F4 & F5 & F6 & F7 & F8).
  injection E as E1 E2 E3 E4 E5 E6.
  split; [unfold static in *; congruence|]. split; [done|].
  split; [by rewrite <- Er|].
  split; [eapply Forall_impl; [exact F4|]; simpl; intros r ?;
          rewrite <- E1, <- E2, <- E5; done|].
  split; [done|]. split; [done|]. split; [by rewrite <- Er|by rewrite <- Er].
Qed.

Lemma fills_app mc mc1 o o1 o2 n1 n2 :
  fills mc o o1 n1 → fills mc1 o1 o2 n2 →
  u64 mc1 = u64 (mc + Z.of_nat (length n1)) →
  fills mc o o2 (n1 ++ n2).
Proof.
  unfold fills.
  intros (A1 & A2 & A3 & A4 & A5 & A6 & A7 & A8)
         (B1 & B2 & B3 & B4 & B5 & B6 & B7 & B8) Hmc.
  pose proof A1 as A1'. unfold static in A1'. injection A1' as E1 E2 E3 E4 E5 E6.
  split; [congruence|]. split; [done|].
  split.
  { unfold executed in *. rewrite foldr_app.
    assert (G : ∀ l a, foldr (λ r acc, ExecutionReport.executed_quantity r + acc) a l
                       = foldr (λ r acc, ExecutionReport.executed_quantity r + acc) 0 l + a).
    { induction l as [|x l IH]; intros a; simpl; [lia|]. rewrite IH. lia. }
    rewrite G, A3, B3. lia. }
  split.
  { apply Forall_app. split; [done|]. eapply Forall_impl; [exact B4|].
    simpl. intros r ?. by rewrite <- E1, <- E2, <- E5. }
  split.
  { intros i r Hi. apply lookup_app_Some in Hi as [Hi|[Hle Hi]].
    - by apply A5.
    - rewrite (B5 _ _ Hi). unfold u64 in *.
      rewrite <- Zplus_mod_idemp_l, Hmc, Zplus_mod_idemp_l. f_equal. lia. }
  split.
  { intros i r Hi. rewrite length_app.
    apply lookup_app_Some in Hi as [Hi|[Hle Hi]].
    - pose proof (lookup_lt_Some _ _ _ Hi) as Hlt. rewrite (A6 _ _ Hi). split.
      + intros [HS Hz]. assert (n2 = []) as -> by (apply B8; lia).
        simpl. split; [lia|]. rewrite B7 by done. done.
      + intros [HS Hz]. assert (n2 = []) as -> by (destruct n2; [done|simpl in HS; lia]).
        split; [simpl in HS; lia|]. rewrite <- B7 by done. done.
    - rewrite (B6 _ _ Hi). split; intros [HS Hz]; (split; [lia|done]). }
  split.
  { intros Hnil. apply app_eq_nil in Hnil as [-> ->].
    rewrite B7 by done. by apply A7. }
  intros Hz. assert (n1 = []) as -> by (by apply A8).
  rewrite (B8 ltac:(rewrite A7 by done; done)). done.
Qed.

(** ** The identity of an order survives the list operations *)

Lemma insert_same_static (h : heap) a o o' :
  h !! a = Some o → static o' = static o →
  Order.remaining_quantity o' = Order.remaining_quantity o →
  (λ x, (static x, Order.remaining_quantity x)) <$> <[a := o']> h
  = (λ x, (static x, Order.remaining_quantity x)) <$> h.
Proof.
  intros Ha E1 E2. rewrite fmap_insert, E1, E2. apply insert_id.
  by rewrite lookup_fmap, Ha.
Qed.

Lemma PriceLevel_remove_order_static this order h L h' L' :
  PriceLevel.remove_order this order h L = Some (h', L') →
  (λ x, (static x, Order.remaining_quantity x)) <$> h'
  = (λ x, (static x, Order.remaining_quantity x)) <$> h.
Proof.
  unfold PriceLevel.remove_order. intros H. open_opt;
    repeat (erewrite insert_same_static; [|eassumption|reflexivity|reflexivity]);
    done.
Qed.

Lemma static_lookup (h h' : heap) a o :
  (λ x, (static x, Order.remaining_quantity x)) <$> h'
  = (λ x, (static x, Order.remaining_quantity x)) <$> h →
  h !! a = Some o →
  ∃ o', h' !! a = Some o' ∧ static o' = static o
        ∧ Order.remaining_quantity o' = Order.remaining_quantity o.
Proof.
  intros E Ha. assert (E' := f_equal (λ m, m !! a) E). simpl in E'.
  rewrite !lookup_fmap, Ha in E'. destruct (h' !! a) as [o'|]; [|done].
  simpl in E'. exists o'. split; [done|]. split; congruence.
Qed.

(** ** One trade of the inner loop of [match_order] *)

Lemma match_fifo_step n fuel order contra pa h b rs res o :
  OrderBook.match_fifo (S fuel) order contra (Some pa) h b rs = Some res →
  (n ≤ order)%nat → (pa < n)%nat →
  h !! order = Some o →
  Order.remaining_quantity o > 0 →
  book_inv n h b →
  ∃ h1 b1 r o1 next,
    OrderBook.match_fifo fuel order contra next h1 b1 (rs ++ [r]) = Some res
    ∧ (∀ x, next = Some x → (x < n)%nat)
    ∧ h1 !! order = Some o1
    ∧ book_inv n h1 b1
    ∧ fills (OrderBook.match_count_ b) o o1 [r]
    ∧ OrderBook.match_count_ b1 = u64 (OrderBook.match_count_ b + 1).
Proof.
  intros H Hle Hpa Ho Hpos Hinv.
  pose proof Hinv as (Ht & Hok & Hn & Hh & Hm).
  pose proof (Ht _ _ Ho) as Hro.
  simpl in H. rewrite Ho in H. simpl in H.
  rewrite decide_True in H by done.
  destruct (h !! pa) as [p|] eqn:Hp; simpl in H; [|done].
  assert (Hne : pa ≠ order) by lia.
  pose proof (Ht _ _ Hp) as Hrp.
  unfold OrderBook.execute_trade in H. rewrite Ho, Hp in H. simpl in H.
  rewrite lookup_insert_ne in H by done. rewrite Hp in H. simpl in H.
  destruct (OrderBook.price_level_pool_ b !! contra) as [cl|] eqn:Hcl;
    simpl in H; [|done].
  rewrite lookup_insert_eq in H. simpl in H.
  set (m := Z.min (Order.remaining_quantity o) (Order.remaining_quantity p)) in *.
  assert (Hr : u32 (Order.remaining_quantity o - m) = Order.remaining_quantity o - m)
    by (apply u32_small; lia).
  assert (Hr' : u32 (Order.remaining_quantity p - m) = Order.remaining_quantity p - m)
    by (apply u32_small; lia).
  rewrite Hr, Hr' in H.
  set (o1 := Order.set_remaining_quantity (Order.remaining_quantity o - m) o) in *.
  set (p1 := Order.set_remaining_quantity (Order.remaining_quantity p - m) p) in *.
  set (h2 := <[pa := p1]> (<[order := o1]> h)) in *.
  set (r := ExecutionReport.mk _ _ _ _ _ _ _) in H.
  assert (Ho2 : h2 !! order = Some o1)
    by (unfold h2; rewrite lookup_insert_ne by done; apply lookup_insert_eq).
  assert (Hp2 : h2 !! pa = Some p1) by apply lookup_insert_eq.
  assert (Hfr2 : ∀ a, a ≠ order → a ≠ pa → h2 !! a = h !! a).
  { intros a ? ?. unfold h2. by rewrite !lookup_insert_ne. }
  assert (Ht2 : heap_typed h2).
  { unfold h2. apply heap_typed_insert; [apply heap_typed_insert; [done|]|];
      simpl; lia. }
  assert (Hn2 : next_below n h2) by (unfold h2, p1, o1; below).
  match type of H with
  | context [OrderBook.set_pool ?L ?b0] => set (b1 := OrderBook.set_pool L b0) in *
  end.
  assert (Hh1 : head_below n (OrderBook.price_level_pool_ b1))
    by (unfold b1; simpl; below).
  assert (Hm1 : OrderBook.orders_ b1 = OrderBook.orders_ b) by done.
  assert (Hnext : ∀ x, Order.next p = Some x → (x < n)%nat)
    by (intros x Hx; exact (Hn _ _ _ Hp Hx)).
  assert (Hfill : ∀ o3, static o3 = static o1 →
                        Order.remaining_quantity o3 = Order.remaining_quantity o1 →
                        fills (OrderBook.match_count_ b) o o3 [r]).
  { intros o3 E3 E3'. unfold fills. rewrite E3, E3'. unfold o1, r. simpl.
    split; [done|]. split; [lia|]. split; [lia|].
    split; [constructor; [simpl; repeat split; try done; lia|constructor]|].
    split; [intros [|i] r0 Hi; simpl in Hi; [by injection Hi as <-|done]|].
    split.
    { intros [|i] r0 Hi; simpl in Hi; [injection Hi as <-|done]. simpl.
      rewrite bool_decide_eq_true. split; [intros ->; lia|intros [_ ?]; lia]. }
    split; [done|lia]. }
  destruct (decide (Order.remaining_quantity p - m = 0)) as [Hz|Hnz].
  - destruct (PriceLevel.remove_order contra pa h2 _)
      as [[h3 L3]|] eqn:Hrm; simpl in H; [|done].
    destruct (h3 !! pa) as [p3|] eqn:Hp3; simpl in H; [|done].
    pose proof (PriceLevel_remove_order_core _ _ _ _ _ _ Hrm) as Hc.
    pose proof (PriceLevel_remove_order_static _ _ _ _ _ _ Hrm) as Hs.
    apply PriceLevel_remove_order_below with (n := n) in Hrm as [Hn3 Hh3];
      [|done|exact Hh1].
    destruct (static_lookup _ _ _ _ Hs Ho2) as (o3 & Ho3 & Eo & Eo').
    destruct (core_lookup _ _ _ _ Hc Hp2) as (p3' & Hp3' & Ep).
    rewrite Hp3 in Hp3'. injection Hp3' as <-.
    destruct (core_eq _ _ Ep) as (Ep1 & Ep2 & Ep3).
    eexists h3, _, r, o3, _. split; [exact H|]. split; [exact Hnext|].
    split; [exact Ho3|]. split; [|split; [by apply Hfill|done]].
    split_inv; simpl; try done.
    + by eapply heap_typed_core.
    + eapply (resting_ok_step n h h3 b _ order pa p); try done.
      * simpl. apply delete_subseteq.
      * intros a ? ?. rewrite (core_fmap_lookup _ _ a Hc). by rewrite Hfr2.
      * left. simpl. rewrite Ep1. simpl. apply lookup_delete_eq.
    + intros id a Ha. apply lookup_delete_Some in Ha as [_ Ha]. by eapply Hm.
  - eexists h2, b1, r, o1, _. split; [exact H|]. split; [exact Hnext|].
    split; [exact Ho2|]. split; [|split; [by apply Hfill|done]].
    split_inv; try done.
    eapply (resting_ok_step n h h2 b b1 order pa p); try done.
    + intros a ? ?. by rewrite Hfr2.
    + right. exists p1. split; [done|]. unfold p1. simpl.
      repeat split; try done; lia.
Qed.

Lemma match_fifo_fills n fuel order contra :
  ∀ passive h b rs h' b' rs' o,
    OrderBook.match_fifo fuel order contra passive h b rs = Some (h', b', rs') →
    (n ≤ order)%nat →
    (∀ x, passive = Some x → (x < n)%nat) →
    h !! order = Some o →
    book_inv n h b →
    ∃ news o',
      rs' = rs ++ news
      ∧ h' !! order = Some o'
      ∧ book_inv n h' b'
      ∧ fills (OrderBook.match_count_ b) o o' news
      ∧ u64 (OrderBook.match_count_ b')
        = u64 (OrderBook.match_count_ b + Z.of_nat (length news)).
Proof.
  assert (Hstop : ∀ (h : heap) b rs o,
            h !! order = Some o → book_inv n h b →
            ∃ news o',
              rs = rs ++ news ∧ h !! order = Some o' ∧ book_inv n h b
              ∧ fills (OrderBook.match_count_ b) o o' news
              ∧ u64 (OrderBook.match_count_ b)
                = u64 (OrderBook.match_count_ b + Z.of_nat (length news))).
  { intros h b rs o Ho Hinv. exists [], o. rewrite app_nil_r. simpl.
    rewrite Z.add_0_r. do 3 (split; [done|]). split; [|done].
    apply fills_nil. destruct Hinv as [Ht _]. specialize (Ht _ _ Ho). lia. }
  induction fuel as [|fuel IH];
    intros passive h b rs h' b' rs' o H Hle Hpa Ho Hinv.
  - destruct passive as [pa|]; simpl in H.
    + rewrite Ho in H. simpl in H.
      destruct (decide _); [done|]. simplify_eq. by apply Hstop.
    + simplify_eq. by apply Hstop.
  - destruct passive as [pa|]; [|simpl in H; simplify_eq; by apply Hstop].
    destruct (decide (Order.remaining_quantity o > 0)) as [Hpos|Hnpos].
    2:{ simpl in H. rewrite Ho in H. simpl in H.
        rewrite decide_False in H by done. simplify_eq. by apply Hstop. }
    destruct (match_fifo_step n fuel order contra pa h b rs _ o H Hle
                (Hpa pa eq_refl) Ho Hpos Hinv)
      as (h1 & b1 & r & o1 & next & H1 & Hnext & Ho1 & Hinv1 & Hf1 & Hmc1).
    destruct (IH _ _ _ _ _ _ _ _ H1 Hle Hnext Ho1 Hinv1)
      as (news & o' & -> & Ho' & Hinv' & Hf & Hmc).
    exists (r :: news), o'. rewrite <- app_assoc. simpl.
    split; [done|]. split; [done|]. split; [done|]. split.
    + change (r :: news) with ([r] ++ news).
      eapply fills_app; [exact Hf1|exact Hf|]. rewrite Hmc1. simpl.
      unfold u64. by rewrite Zmod_mod.
    + rewrite Hmc, Hmc1. unfold u64. rewrite Zplus_mod_idemp_l. f_equal. lia.
Qed.

Lemma match_levels_fills n fuel0 fuel order :
  ∀ contra_level h b rs h' b' rs' o,
    OrderBook.match_levels fuel0 fuel order contra_level h b rs
    = Some (h', b', rs') →
    (n ≤ order)%nat →
    h !! order = Some o →
    book_inv n h b →
    ∃ news o',
      rs' = rs ++ news
      ∧ h' !! order = Some o'
      ∧ fills (OrderBook.match_count_ b) o o' news
      ∧ u64 (OrderBook.match_count_ b')
        = u64 (OrderBook.match_count_ b + Z.of_nat (length news)).
Proof.
  assert (Hstop : ∀ (h : heap) b rs o,
            h !! order = Some o → book_inv n h b →
            ∃ news o',
              rs = rs ++ news ∧ h !! order = Some o'
              ∧ fills (OrderBook.match_count_ b) o o' news
              ∧ u64 (OrderBook.match_count_ b)
                = u64 (OrderBook.match_count_ b + Z.of_nat (length news))).
  { intros h b rs o Ho Hinv. exists [], o. rewrite app_nil_r. simpl.
    rewrite Z.add_0_r. do 2 (split; [done|]). split; [|done].
    apply fills_nil. destruct Hinv as [Ht _]. specialize (Ht _ _ Ho). lia. }
  induction fuel as [|fuel IH];
    intros contra_level h b rs h' b' rs' o H Hle Ho Hinv;
    pose proof Hinv as (Ht & Hok & Hn & Hh & Hm);
    simpl in H; rewrite Ho in H; simpl in H;
    (destruct (decide (Order.remaining_quantity o > 0));
       [|simplify_eq; by apply Hstop]);
    (destruct contra_level as [contra|]; [|simplify_eq; by apply Hstop]);
    [done|].
  destruct (OrderBook.price_level_pool_ b !! contra) as [cl|] eqn:Hcl;
    simpl in H; [|done].
  match type of H with
  | (if ?c then _ else _) = _ => destruct c; [simplify_eq; by apply Hstop|]
  end.
  destruct (OrderBook.match_fifo fuel0 order contra (PriceLevel.head_order cl) h b rs)
    as [[[h1 b1] rs1]|] eqn:Hfifo; simpl in H; [|done].
  eapply match_fifo_fills in Hfifo
    as (news1 & o1 & -> & Ho1 & Hinv1 & Hf1 & Hmc1);
    [| exact Hle | intros x Hx; exact (Hh _ _ _ Hcl Hx) | exact Ho | exact Hinv].
  destruct (OrderBook.price_level_pool_ b1 !! contra) as [cl1|] eqn:Hcl1;
    simpl in H; [|done].
  destruct (decide (PriceLevel.order_count cl1 = 0));
    [|simplify_eq; by exists news1, o1].
  rewrite Ho1 in H. simpl in H.
  destruct (OrderBook.remove_level fuel0 contra _ _) as [[L rt]|] eqn:Hrm;
    simpl in H; [|done].
  destruct Hinv1 as (Ht1 & Hok1 & Hn1 & Hh1 & Hm1).
  apply remove_level_below with (n := n) in Hrm; [|done].
  eapply IH in H; [| exact Hle | exact Ho1 |].
  - destruct H as (news2 & o' & -> & Ho' & Hf2 & Hmc2).
    exists (news1 ++ news2), o'. rewrite app_assoc.
    split; [done|]. split; [done|].
    assert (E : OrderBook.match_count_
                  (OrderBook.set_best (OrderBook.contra_side (Order.side o1))
                     match Order.side o1 with
                     | BUY => PriceLevel.right cl1
                     | SELL => PriceLevel.left cl1
                     end
                     (OrderBook.set_root (OrderBook.contra_side (Order.side o1)) rt
                        (OrderBook.set_pool L b1)))
                = OrderBook.match_count_ b1)
      by (by destruct (Order.side o1)).
    rewrite E in Hf2, Hmc2. split.
    + eapply fills_app; [exact Hf1|exact Hf2|exact Hmc1].
    + rewrite Hmc2, length_app. unfold u64 in *.
      rewrite <- Zplus_mod_idemp_l, Hmc1, Zplus_mod_idemp_l. f_equal. lia.
  - split_inv; try done.
    + eapply resting_ok_orders; [|exact Hok1].
      by destruct (OrderBook.contra_side (Order.side o1)).
    + by destruct (OrderBook.contra_side (Order.side o1)).
    + by destruct (OrderBook.contra_side (Order.side o1)).
Qed.

Lemma match_order_fills n fuel order h b rs h' b' o :
  OrderBook.match_order fuel order h b = Some (h', b', rs) →
  (n ≤ order)%nat →
  h !! order = Some o →
  book_inv n h b →
  ∃ o', h' !! order = Some o'
        ∧ fills (OrderBook.match_count_ b) o o' rs
        ∧ u64 (OrderBook.match_count_ b')
          = u64 (OrderBook.match_count_ b + Z.of_nat (length rs)).
Proof.
  unfold OrderBook.match_order. intros H Hle Ho Hinv.
  rewrite Ho in H. simpl in H.
  destruct (_ && _).
  - simplify_eq. exists o. split; [done|]. simpl. rewrite Z.add_0_r.
    split; [|done]. apply fills_nil.
    destruct Hinv as [Ht _]. specialize (Ht _ _ Ho). lia.
  - apply match_levels_fills with (n := n) (o := o) in H
      as (news & o' & E & Ho' & Hf & Hmc); try done.
    simpl in E. subst. by exists o'.
Qed.

Lemma crossing_buy_inv :
  book_inv 1 crossing_buy_heap (target_book "A" engine_one_ask).
Proof.
  apply (fill_slot_inv 1); [lia|].
  assert (H : engine_inv "A" engine_one_ask).
  { eapply (submit_order_inv 16 "A" 1 1 100 10 SELL LIMIT
              (MatchingEngine.init (test_config 100))).
    - apply default_is_Some, (bool_decide_unpack _). vm_compute. exact I.
    - lia.
    - change (MatchingEngine.pool_index_ (MatchingEngine.init (test_config 100)))
        with 0. lia.
    - apply engine_inv_init. }
  destruct H as [_ H].
  assert (E : Z.to_nat (MatchingEngine.pool_index_ engine_one_ask) = 1%nat)
    by (vm_compute; reflexivity).
  by rewrite E in H.
Qed.

Lemma crossing_buy_match :
  OrderBook.match_order 16 1 crossing_buy_heap (target_book "A" engine_one_ask)
  = Some (after_crossing_buy.1.1, after_crossing_buy.1.2, after_crossing_buy.2).
Proof.
  rewrite <- !surjective_pairing.
  apply default_is_Some, (bool_decide_unpack _). vm_compute. exact I.
Qed.

Lemma crossing_buy_order :
  crossing_buy_heap !! 1%nat = Some (Order.make 2 2 100 25 BUY LIMIT).
Proof. vm_compute. reflexivity. Qed.

(** X6.  The reports returned by [match_order] account for the fill of
    the incoming order: each carries the id, the timestamp and the side of
    that order and a quantity that is not negative, and the executed
    quantities add up to exactly what the order's [remaining_quantity] has
    lost; the identifying fields and the original quantity of the order are
    untouched. *)
Theorem X6_match_reports_account_for_the_fill n fuel order h b rs h' b' o :
  OrderBook.match_order fuel order h b = Some (h', b', rs) →
  (n ≤ order)%nat →
  h !! order = Some o →
  book_inv n h b →
  ∃ o', h' !! order = Some o'
        ∧ static o' = static o
        ∧ 0 <= Order.remaining_quantity o'
        ∧ executed rs = Order.remaining_quantity o - Order.remaining_quantity o'
        ∧ Forall (λ r, ExecutionReport.order_id r = Order.order_id o
                       ∧ ExecutionReport.timestamp r = Order.timestamp o
                       ∧ ExecutionReport.side r = Order.side o
                       ∧ 0 <= ExecutionReport.executed_quantity r) rs.
Proof.
  intros H Hle Ho Hinv.
  destruct (match_order_fills _ _ _ _ _ _ _ _ _ H Hle Ho Hinv)
    as (o' & Ho' & (F1 & F2 & F3 & F4 & _) & _).
  by exists o'.
Qed.

Lemma X6_match_reports_account_for_the_fill_witness :
  ∃ o', after_crossing_buy.1.1 !! 1%nat = Some o'
        ∧ static o' = static (Order.make 2 2 100 25 BUY LIMIT)
        ∧ 0 <= Order.remaining_quantity o'
        ∧ executed after_crossing_buy.2 = 25 - Order.remaining_quantity o'
        ∧ Forall (λ r, ExecutionReport.order_id r = 2
                       ∧ ExecutionReport.timestamp r = 2
                       ∧ ExecutionReport.side r = BUY
                       ∧ 0 <= ExecutionReport.executed_quantity r)
            after_crossing_buy.2.
Proof.
  apply (X6_match_reports_account_for_the_fill 1 16 1%nat crossing_buy_heap
           (target_book "A" engine_one_ask) after_crossing_buy.2
           after_crossing_buy.1.1 after_crossing_buy.1.2
           (Order.make 2 2 100 25 BUY LIMIT)).
  - exact crossing_buy_match.
  - lia.
  - exact crossing_buy_order.
  - exact crossing_buy_inv.
Defined.

(** X7.  Match ids are handed out consecutively: the report of index [i]
    of one [match_order] call carries the match counter of the book before
    the call plus [i + 1] (as a 64-bit value), and the call advances
    [match_count_] by the number of reports it returns. *)
Theorem X7_match_ids_are_consecutive n fuel order h b rs h' b' o :
  OrderBook.match_order fuel order h b = Some (h', b', rs) →
  (n ≤ order)%nat →
  h !! order = Some o →
  book_inv n h b →
  (∀ i r, rs !! i = Some r →
          ExecutionReport.match_id r
          = u64 (OrderBook.match_count_ b + Z.of_nat i + 1))
  ∧ u64 (OrderBook.match_count_ b')
    = u64 (OrderBook.match_count_ b + Z.of_nat (length rs)).
Proof.
  intros H Hle Ho Hinv.
  destruct (match_order_fills _ _ _ _ _ _ _ _ _ H Hle Ho Hinv)
    as (o' & Ho' & (_ & _ & _ & _ & F5 & _) & Hmc).
  split; [|done]. intros i r Hi. rewrite (F5 _ _ Hi). f_equal. lia.
Qed.

Lemma X7_match_ids_are_consecutive_witness :
  (∀ i r, after_crossing_buy.2 !! i = Some r →
          ExecutionReport.match_id r
          = u64 (OrderBook.match_count_ (target_book "A" engine_one_ask)
                 + Z.of_nat i + 1))
  ∧ u64 (OrderBook.match_count_ after_crossing_buy.1.2)
    = u64 (OrderBook.match_count_ (target_book "A" engine_one_ask)
           + Z.of_nat (length after_crossing_buy.2)).
Proof.
  apply (X7_match_ids_are_consecutive 1 16 1%nat crossing_buy_heap
           (target_book "A" engine_one_ask) after_crossing_buy.2
           after_crossing_buy.1.1 after_crossing_buy.1.2
           (Order.make 2 2 100 25 BUY LIMIT)).
  - exact crossing_buy_match.
  - lia.
  - exact crossing_buy_order.
  - exact crossing_buy_inv.
Defined.

(** X8.  Among the reports of one [match_order] call, [is_full_fill] is
    set on a report exactly when it is the last one and the incoming
    order has nothing left afterwards; while the order has quantity left
    no report carries the flag, and an order that arrives with nothing to
    fill produces no report. *)
Theorem X8_full_fill_flag_marks_the_last_report n fuel order h b rs h' b' o :
  OrderBook.match_order fuel order h b = Some (h', b', rs) →
  (n ≤ order)%nat →
  h !! order = Some o →
  book_inv n h b →
  ∃ o', h' !! order = Some o'
        ∧ (∀ i r, rs !! i = Some r →
                  ExecutionReport.is_full_fill r = true
                  ↔ S i = length rs ∧ Order.remaining_quantity o' = 0)
        ∧ (Order.remaining_quantity o <= 0 → rs = []).
Proof.
  intros H Hle Ho Hinv.
  destruct (match_order_fills _ _ _ _ _ _ _ _ _ H Hle Ho Hinv)
    as (o' & Ho' & (_ & _ & _ & _ & _ & F6 & _ & F8) & _).
  by exists o'.
Qed.

Lemma X8_full_fill_flag_marks_the_last_report_witness :
  ∃ o', after_crossing_buy.1.1 !! 1%nat = Some o'
        ∧ (∀ i r, after_crossing_buy.2 !! i = Some r →
                  ExecutionReport.is_full_fill r = true
                  ↔ S i = length after_crossing_buy.2
                    ∧ Order.remaining_quantity o' = 0)
        ∧ (Order.remaining_quantity (Order.make 2 2 100 25 BUY LIMIT) <= 0
           → after_crossing_buy.2 = []).
Proof.
  apply (X8_full_fill_flag_marks_the_last_report 1 16 1%nat crossing_buy_heap
           (target_book "A" engine_one_ask) after_crossing_buy.2
           after_crossing_buy.1.1 after_crossing_buy.1.2
           (Order.make 2 2 100 25 BUY LIMIT)).
  - exact crossing_buy_match.
  - lia.
  - exact crossing_buy_order.
  - exact crossing_buy_inv.
Defined.

Lemma shape_ext (L L' : PriceLevel.pool) t :
  ∀ rt, (∀ a, a ∈ addrs t → tree_fields <$> L' !! a = tree_fields <$> L !! a) →
        shape L rt t → shape L' rt t.
Proof.
  induction t as [|tl IHl a p tr IHr]; intros rt Hext Hs; simpl in *; [done|].
  destruct Hs as (-> & lv & Ha & Hp & Hl & Hr). split; [done|].
  pose proof (Hext a ltac:(set_solver)) as E. rewrite Ha in E.
  destruct (L' !! a) as [lv'|]; [|done]. simpl in E.
  unfold tree_fields in E. injection E as E1 E2 E3.
  exists lv'. split; [done|]. split; [congruence|]. rewrite E2, E3.
  split; [apply IHl|apply IHr]; try done; intros x Hx; apply Hext; set_solver.
Qed.

Lemma shape_root (L : PriceLevel.pool) rt t :
  shape L rt t → match rt with Some a => a ∈ addrs t | None => t = Leaf end.
Proof.
  destruct t; simpl; [by intros ->|]. intros (-> & _). set_solver.
Qed.

Lemma shape_lookup (L : PriceLevel.pool) t :
  ∀ rt a, shape L rt t → a ∈ addrs t →
          ∃ lv, L !! a = Some lv ∧ PriceLevel.price lv ∈ keys t.
Proof.
  induction t as [|tl IHl a0 p tr IHr]; intros rt a Hs Ha; simpl in *.
  - by apply not_elem_of_nil in Ha.
  - destruct Hs as (-> & lv & Ha0 & Hp & Hl & Hr).
    apply elem_of_app in Ha as [Ha|Ha].
    + destruct (IHl _ _ Hl Ha) as (lv' & ? & ?). exists lv'. set_solver.
    + apply elem_of_cons in Ha as [->|Ha].
      * exists lv. set_solver.
      * destruct (IHr _ _ Hr Ha) as (lv' & ? & ?). exists lv'. set_solver.
Qed.

Lemma bst_node tl a p tr :
  bst (Node tl a p tr) ↔
  bst tl ∧ bst tr ∧ (∀ k, k ∈ keys tl → k < p) ∧ (∀ k, k ∈ keys tr → p < k).
Proof.
  unfold bst. simpl. rewrite StronglySorted_app, StronglySorted_cons, Forall_forall.
  split.
  - intros (H1 & H2 & H3 & H4). split; [done|]. split; [done|].
    split; [|done]. intros k Hk. apply (H1 k p); set_solver.
  - intros (H1 & H2 & H3 & H4). split; [|done].
    intros x1 x2 Hx1 Hx2. apply elem_of_cons in Hx2 as [->|Hx2]; [by apply H3|].
    specialize (H3 _ Hx1). specialize (H4 _ Hx2). lia.
Qed.

(** [find_level] on a search tree. *)
Lemma find_level_spec (L : PriceLevel.pool) p t :
  ∀ fuel rt, shape L rt t → bst t → (height t ≤ fuel)%nat →
    ∃ r, OrderBook.find_level fuel L p rt = Some r
         ∧ match r with
           | Some a => a ∈ addrs t ∧ p ∈ keys t
                       ∧ ∃ lv, L !! a = Some lv ∧ PriceLevel.price lv = p
           | None => p ∉ keys t
           end.
Proof.
  induction t as [|tl IHl a q tr IHr]; intros fuel rt Hs Hb Hh; simpl in *.
  - subst rt. exists None. destruct fuel; simpl; (split; [done|]);
      apply not_elem_of_nil.
  - destruct Hs as (-> & lv & Ha & Hq & Hl & Hr).
    apply bst_node in Hb as (Hbl & Hbr & Hlt & Hgt).
    destruct fuel as [|fuel]; [lia|]. simpl. rewrite Ha. simpl. rewrite Hq.
    destruct (decide (p = q)) as [->|Hne].
    { exists (Some a). split; [done|]. split; [set_solver|].
      split; [set_solver|]. by exists lv. }
    destruct (decide (p < q)) as [Hpq|Hpq].
    + destruct (IHl fuel _ Hl Hbl ltac:(lia)) as (r & -> & Hr0).
      exists r. split; [done|]. destruct r as [a'|].
      * destruct Hr0 as (Hx1 & Hx2 & Hx3).
        split; [apply elem_of_app; by left|].
        split; [apply elem_of_app; by left|done].
      * intros Hin. apply elem_of_app in Hin as [Hin|Hin]; [done|].
        apply elem_of_cons in Hin as [->|Hin]; [done|].
        specialize (Hgt _ Hin). lia.
    + destruct (IHr fuel _ Hr Hbr ltac:(lia)) as (r & -> & Hr0).
      exists r. split; [done|]. destruct r as [a'|].
      * destruct Hr0 as (Hx1 & Hx2 & Hx3).
        split; [apply elem_of_app; right; by apply list_elem_of_further|].
        split; [apply elem_of_app; right; by apply list_elem_of_further|done].
      * intros Hin. apply elem_of_app in Hin as [Hin|Hin].
        -- specialize (Hlt _ Hin). lia.
        -- apply elem_of_cons in Hin as [->|Hin]; done.
Qed.

(** ** Insertion *)

Lemma keys_ins new p t : keys (ins new p t) ≡ₚ p :: keys t.
Proof.
  induction t as [|tl IHl a q tr IHr]; simpl; [done|].
  destruct (decide (p < q)); simpl.
  - by rewrite IHl.
  - rewrite IHr. by rewrite Permutation_middle, (Permutation_swap p q).
Qed.

Lemma addrs_ins new p t : addrs (ins new p t) ≡ₚ new :: addrs t.
Proof.
  induction t as [|tl IHl a q tr IHr]; simpl; [done|].
  destruct (decide (p < q)); simpl.
  - by rewrite IHl.
  - rewrite IHr. by rewrite Permutation_middle, (Permutation_swap new a).
Qed.

Lemma height_ins new p t : (height (ins new p t) ≤ S (height t))%nat.
Proof.
  induction t as [|tl IHl a q tr IHr]; simpl; [lia|].
  destruct (decide (p < q)); simpl; lia.
Qed.

Lemma bst_ins new p t : bst t → p ∉ keys t → bst (ins new p t).
Proof.
  induction t as [|tl IHl a q tr IHr]; intros Hb Hp; simpl.
  - unfold bst. simpl. repeat constructor.
  - apply bst_node in Hb as (Hbl & Hbr & Hlt & Hgt). simpl in Hp.
    destruct (decide (p < q)) as [Hpq|Hpq]; apply bst_node.
    + split; [apply IHl; [done|set_solver]|]. split; [done|]. split; [|done].
      intros k Hk. rewrite keys_ins in Hk.
      apply elem_of_cons in Hk as [->|Hk]; [done|by apply Hlt].
    + split; [done|]. split; [apply IHr; [done|set_solver]|]. split; [done|].
      intros k Hk. rewrite keys_ins in Hk.
      apply elem_of_cons in Hk as [->|Hk]; [|by apply Hgt].
      assert (p ≠ q) by set_solver. lia.
Qed.

Lemma insert_below_spec (L : PriceLevel.pool) p new t :
  ∀ fuel c,
    shape L (Some c) t → new ∉ addrs t → NoDup (addrs t) →
    L !! new = Some (PriceLevel.make p) → (height t ≤ fuel)%nat →
    ∃ L' par,
      OrderBook.insert_below fuel L p new c = Some L'
      ∧ shape L' (Some c) (ins new p t)
      ∧ L' !! new = Some (PriceLevel.set_parent (Some par) (PriceLevel.make p))
      ∧ (∀ a, a ∉ addrs t → a ≠ new → L' !! a = L !! a).
Proof.
  induction t as [|tl IHl a q tr IHr]; intros fuel c Hs Hnew Hnd Hl Hh;
    simpl in *; [done|].
  destruct Hs as ([= ->] & lv & Ha & Hq & Hsl & Hsr).
  apply NoDup_app in Hnd as (Hndl & Hnd1 & Hnd2).
  apply NoDup_cons in Hnd2 as (Har & Hndr).
  assert (Hal : a ∉ addrs tl) by (intros Hin; apply (Hnd1 _ Hin); set_solver).
  assert (Hne : a ≠ new) by set_solver.
  destruct fuel as [|fuel]; [lia|]. simpl. rewrite Ha. simpl. rewrite Hq.
  destruct (decide (p < q)) as [Hpq|Hpq].
  - destruct (PriceLevel.left lv) as [l0|] eqn:El.
    + destruct (IHl fuel l0 Hsl ltac:(set_solver) Hndl Hl ltac:(lia))
        as (L' & par & -> & Hs' & Hn' & Hfr).
      exists L', par. split; [done|]. split; [|split; [done|]].
      * split; [done|]. exists lv. rewrite Hfr by done.
        split; [done|]. split; [done|]. rewrite El. split; [done|].
        eapply shape_ext; [|exact Hsr]. intros x Hx. rewrite Hfr; [done| |set_solver].
        intros Hin. apply (Hnd1 _ Hin). set_solver.
      * intros x Hx Hxn. apply Hfr; [set_solver|done].
    + assert (tl = Leaf) as -> by (by destruct tl; [|destruct Hsl]).
      rewrite lookup_insert_ne by done. rewrite Hl. simpl.
      eexists _, a. split; [done|]. split; [|split].
      * split; [done|]. eexists. rewrite lookup_insert_ne by done.
        rewrite lookup_insert_eq. split; [done|]. simpl.
        split; [done|]. split.
        -- split; [done|]. eexists. rewrite lookup_insert_eq. by simpl.
        -- eapply shape_ext; [|exact Hsr]. intros x Hx.
           rewrite !lookup_insert_ne; [done|set_solver|set_solver].
      * apply lookup_insert_eq.
      * intros x Hx Hxn. rewrite !lookup_insert_ne; [done|set_solver|done].
  - destruct (PriceLevel.right lv) as [r0|] eqn:Er.
    + destruct (IHr fuel r0 Hsr ltac:(set_solver) Hndr Hl ltac:(lia))
        as (L' & par & -> & Hs' & Hn' & Hfr).
      exists L', par. split; [done|]. split; [|split; [done|]].
      * split; [done|]. exists lv. rewrite Hfr by done.
        split; [done|]. split; [done|]. rewrite Er. split; [|done].
        eapply shape_ext; [|exact Hsl]. intros x Hx. rewrite Hfr; [done| |set_solver].
        intros Hin. apply (Hnd1 _ Hx). set_solver.
      * intros x Hx Hxn. apply Hfr; [set_solver|done].
    + assert (tr = Leaf) as -> by (by destruct tr; [|destruct Hsr]).
      rewrite lookup_insert_ne by done. rewrite Hl. simpl.
      eexists _, a. split; [done|]. split; [|split].
      * split; [done|]. eexists. rewrite lookup_insert_ne by done.
        rewrite lookup_insert_eq. split; [done|]. simpl.
        split; [done|]. split.
        -- eapply shape_ext; [|exact Hsl]. intros x Hx.
           rewrite !lookup_insert_ne; [done|set_solver|set_solver].
        -- split; [done|]. eexists. rewrite lookup_insert_eq. by simpl.
      * apply lookup_insert_eq.
      * intros x Hx Hxn. rewrite !lookup_insert_ne; [done|set_solver|done].
Qed.

Lemma find_level_tree (L : PriceLevel.pool) p t :
  ∀ fuel rt, shape L rt t → (height t ≤ fuel)%nat →
             OrderBook.find_level fuel L p rt = Some (tree_find p t).
Proof.
  induction t as [|tl IHl a q tr IHr]; intros fuel rt Hs Hh; simpl in *.
  - subst rt. by destruct fuel.
  - destruct Hs as (-> & lv & Ha & Hq & Hl & Hr).
    destruct fuel as [|fuel]; [lia|]. simpl. rewrite Ha. simpl. rewrite Hq.
    destruct (decide (p = q)); [done|].
    destruct (decide (p < q)); [apply IHl|apply IHr]; try done; lia.
Qed.

Lemma tree_find_ins new p t : p ∉ keys t → tree_find p (ins new p t) = Some new.
Proof.
  induction t as [|tl IHl a q tr IHr]; intros Hp; simpl in *.
  - by rewrite decide_True.
  - assert (p ≠ q) by set_solver.
    destruct (decide (p < q)); simpl; rewrite decide_False by done.
    + rewrite decide_True by done. apply IHl. set_solver.
    + rewrite decide_False by done. apply IHr. set_solver.
Qed.

(** ** [find_or_create_level] on a well-formed index *)

Lemma insert_level_index fuel p s b t :
  index_wf fuel s b t → p ∉ keys t →
  (OrderBook.pool_index_ b < OrderBook.POOL_SIZE)%nat →
  ∃ b' par,
    OrderBook.insert_level fuel p s b = Some (OrderBook.pool_index_ b, b')
    ∧ index_wf (S fuel) s b' (ins (OrderBook.pool_index_ b) p t)
    ∧ OrderBook.price_level_pool_ b' !! OrderBook.pool_index_ b
      = Some (PriceLevel.set_parent par (PriceLevel.make p))
    ∧ OrderBook.pool_index_ b' = S (OrderBook.pool_index_ b)
    ∧ (∀ a, a ∉ addrs t → a ≠ OrderBook.pool_index_ b →
            OrderBook.price_level_pool_ b' !! a = OrderBook.price_level_pool_ b !! a)
    ∧ OrderBook.root (OrderBook.contra_side s) b'
      = OrderBook.root (OrderBook.contra_side s) b
    ∧ (∀ s0, OrderBook.best s0 b' = OrderBook.best s0 b)
    ∧ (∀ a lv, a ≠ OrderBook.pool_index_ b →
               OrderBook.price_level_pool_ b !! a = Some lv →
               ∃ lv', OrderBook.price_level_pool_ b' !! a = Some lv'
                      ∧ fifo_fields lv' = fifo_fields lv).
Proof.
  intros (Hs & Hb & Hnd & Hlt & Hh) Hp Hsz.
  unfold OrderBook.insert_level. rewrite decide_True by done.
  set (new := OrderBook.pool_index_ b).
  assert (Hnew : new ∉ addrs t).
  { intros Hin. rewrite Forall_forall in Hlt. specialize (Hlt _ Hin). unfold new in Hlt. lia. }
  assert (Hwf : ∀ (b' : OrderBook.t),
            shape (OrderBook.price_level_pool_ b') (OrderBook.root s b')
              (ins new p t) →
            OrderBook.pool_index_ b' = S new →
            index_wf (S fuel) s b' (ins new p t)).
  { intros b' Hs' Hpi. split; [done|]. split; [by apply bst_ins|].
    split; [rewrite addrs_ins; by apply NoDup_cons|].
    split.
    - rewrite addrs_ins, Hpi. constructor; [lia|].
      eapply Forall_impl; [exact Hlt|]. simpl. intros x Hx. unfold new. lia.
    - pose proof (height_ins new p t). lia. }
  assert (Hroot : OrderBook.root s
                    (OrderBook.set_pool (<[new := PriceLevel.make p]>
                        (OrderBook.price_level_pool_
                           (OrderBook.set_pool_index_ (S new) b)))
                       (OrderBook.set_pool_index_ (S new) b))
                  = OrderBook.root s b) by (by destruct s).
  rewrite Hroot.
  destruct (OrderBook.root s b) as [r|] eqn:Er.
  - simpl.
    destruct (insert_below_spec (<[new := PriceLevel.make p]>
                                   (OrderBook.price_level_pool_ b)) p new t fuel r)
      as (L' & par & Hib & Hs' & Hn' & Hfr); try done.
    { eapply shape_ext; [|exact Hs]. intros x Hx.
      rewrite lookup_insert_ne; [done|]. by intros <-. }
    { apply lookup_insert_eq. }
    rewrite Hib. simpl. eexists _, (Some par). split; [reflexivity|].
    split; [apply Hwf; [|done]|].
    { simpl. by destruct s; simpl in *; rewrite Er. }
    split; [done|]. split; [done|]. split.
    { intros a Ha Hne. simpl. rewrite Hfr by done. by rewrite lookup_insert_ne. }
    split; [by destruct s|]. split; [by intros []|].
    intros a lv Hne Ha. simpl.
    apply (insert_below_frame _ _ _ _ _ _ Hib). by rewrite lookup_insert_ne.
  - assert (t = Leaf) as -> by (by destruct t; [|destruct Hs]).
    eexists _, None. split; [reflexivity|].
    split; [apply Hwf|].
    { destruct s; simpl; (split; [done|]); eexists;
        (split; [apply lookup_insert_eq|by simpl]). }
    { by destruct s. }
    split; [destruct s; simpl; rewrite lookup_insert_eq; reflexivity|].
    split; [by destruct s|]. split.
    { intros a _ Hne. destruct s; simpl; by rewrite lookup_insert_ne. }
    split; [by destruct s|]. split; [by intros []; destruct s|].
    intros a lv Hne Ha. exists lv. split; [|done].
    destruct s; simpl; by rewrite lookup_insert_ne.
Qed.

(** ** The index seen through [index_prices] *)

Lemma index_levels_tree (L : PriceLevel.pool) t :
  ∀ fuel rt, shape L rt t → (height t ≤ fuel)%nat →
             index_levels fuel L rt = Some (addrs t).
Proof.
  induction t as [|tl IHl a q tr IHr]; intros fuel rt Hs Hh; simpl in *.
  - subst rt. by destruct fuel.
  - destruct Hs as (-> & lv & Ha & Hq & Hl & Hr).
    destruct fuel as [|fuel]; [lia|]. simpl. rewrite Ha. simpl.
    rewrite (IHl fuel _ Hl) by lia. simpl. rewrite (IHr fuel _ Hr) by lia. done.
Qed.

Lemma level_prices_tree (L : PriceLevel.pool) t :
  ∀ rt, shape L rt t → level_prices L (addrs t) = Some (keys t).
Proof.
  unfold level_prices. intros rt Hs. apply mapM_Some_2. revert rt Hs.
  induction t as [|tl IHl a q tr IHr]; intros rt Hs; simpl in *; [constructor|].
  destruct Hs as (-> & lv & Ha & Hq & Hl & Hr).
  apply Forall2_app; [by eapply IHl|]. constructor; [|by eapply IHr].
  by rewrite Ha, <- Hq.
Qed.

Lemma index_prices_tree fuel s b t :
  index_wf fuel s b t → index_prices fuel s b = Some (keys t).
Proof.
  intros (Hs & _ & _ & _ & Hh). unfold index_prices.
  rewrite (index_levels_tree _ _ _ _ Hs Hh). simpl. by eapply level_prices_tree.
Qed.

Lemma index_wf_fuel fuel fuel' s b t :
  (fuel ≤ fuel')%nat → index_wf fuel s b t → index_wf fuel' s b t.
Proof. intros Hle (? & ? & ? & ? & ?). repeat split; try done. lia. Qed.

(** X9.  On a side whose index is a search tree on the prices,
    [find_level] returns: when no level of the index has the price, the
    null pointer; otherwise a level of the index (one of the nodes
    [index_levels] lists, reachable from the root) that has the price. *)
Theorem X9_find_level_searches_the_index fuel s b t p :
  index_wf fuel s b t →
  ∃ ls ps r,
    index_levels fuel (OrderBook.price_level_pool_ b) (OrderBook.root s b)
    = Some ls
    ∧ index_prices fuel s b = Some ps
    ∧ OrderBook.find_level fuel (OrderBook.price_level_pool_ b) p
        (OrderBook.root s b) = Some r
    ∧ match r with
      | Some a => a ∈ ls
                  ∧ p ∈ ps
                  ∧ ∃ lv, OrderBook.price_level_pool_ b !! a = Some lv
                          ∧ PriceLevel.price lv = p
      | None => p ∉ ps
      end.
Proof.
  intros Hwf. pose proof (index_prices_tree _ _ _ _ Hwf) as Hps.
  destruct Hwf as (Hs & Hb & _ & _ & Hh).
  destruct (find_level_spec _ p _ _ _ Hs Hb Hh) as (r & Hr & Hr').
  exists (addrs t), (keys t), r.
  split; [by apply index_levels_tree|]. split; [done|]. split; [done|].
  by destruct r as [a|].
Qed.

(** X10.  [find_or_create_level] on a side whose index is a search tree:
    when a level of the price exists the book is left as it is and that
    level is returned; otherwise (a pool slot being left) the next slot of
    the level pool is initialised empty with the price and linked in, and
    the index has exactly one more price.  Either way the index is again a
    search tree without repeated price, the level returned has the price,
    and a following [find_level] of the price returns that same level. *)
Theorem X10_find_or_create_level_keeps_the_index fuel p s b t :
  index_wf fuel s b t →
  p ∈ keys t ∨ (OrderBook.pool_index_ b < OrderBook.POOL_SIZE)%nat →
  ∃ level b' t' lv,
    OrderBook.find_or_create_level fuel p s b = Some (level, b')
    ∧ index_wf (S fuel) s b' t'
    ∧ index_prices (S fuel) s b' = Some (keys t')
    ∧ keys t' ≡ₚ (if decide (p ∈ keys t) then keys t else p :: keys t)
    ∧ StronglySorted Z.lt (keys t')
    ∧ (p ∈ keys t → b' = b)
    ∧ OrderBook.price_level_pool_ b' !! level = Some lv
    ∧ PriceLevel.price lv = p
    ∧ (p ∉ keys t →
       level = OrderBook.pool_index_ b
       ∧ OrderBook.pool_index_ b' = S (OrderBook.pool_index_ b)
       ∧ fifo_fields lv = fifo_fields (PriceLevel.make p))
    ∧ OrderBook.find_level (S fuel) (OrderBook.price_level_pool_ b') p
        (OrderBook.root s b') = Some (Some level).
Proof.
  intros Hwf Hor. pose proof Hwf as (Hs & Hb & Hnd & Hlt & Hh).
  unfold OrderBook.find_or_create_level.
  rewrite (find_level_tree _ p _ _ _ Hs Hh). simpl.
  destruct (find_level_spec _ p _ _ _ Hs Hb Hh) as (r & Hr & Hr').
  rewrite (find_level_tree _ p _ _ _ Hs Hh) in Hr. injection Hr as Hr.
  rewrite Hr. destruct r as [a|].
  - destruct Hr' as (Ha & Hp & lv & Hlv & Hpr).
    exists a, b, t, lv. split; [done|].
    assert (Hwf' : index_wf (S fuel) s b t) by (eapply index_wf_fuel; [|done]; lia).
    split; [done|]. split; [by apply index_prices_tree|].
    rewrite decide_True by done. do 3 (split; [done|]).
    do 2 (split; [done|]). split; [done|].
    pose proof (find_level_tree _ p _ (S fuel) _ Hs ltac:(lia)) as Hf.
    rewrite Hr in Hf. exact Hf.
  - destruct Hor as [Hin|Hsz]; [done|].
    destruct (insert_level_index _ _ _ _ _ Hwf Hr' Hsz)
      as (b' & par & -> & Hwf' & Hnew & Hpi & Hfr & Hroot & _ & _).
    eexists _, b', _, _. split; [done|]. split; [exact Hwf'|].
    split; [by apply index_prices_tree|].
    rewrite decide_False by done. split; [apply keys_ins|].
    split; [by destruct Hwf' as (_ & ? & _)|]. split; [done|].
    split; [exact Hnew|]. split; [done|]. split; [done|].
    destruct Hwf' as (Hs' & _ & _ & _ & Hh').
    pose proof (find_level_tree _ p _ _ _ Hs' Hh') as Hf.
    rewrite tree_find_ins in Hf by done. exact Hf.
Qed.

Lemma book_one_bid_index : index_wf 16 BUY book_one_bid (Node Leaf 0%nat 100000 Leaf).
Proof.
  unfold index_wf. cbn [shape keys addrs height].
  split.
  { split; [vm_compute; reflexivity|]. eexists.
    split; [vm_compute; reflexivity|]. by simpl. }
  split; [unfold bst; simpl; repeat constructor|].
  split; [apply NoDup_singleton|].
  split; [|simpl; lia].
  constructor; [|constructor]. apply Nat.ltb_lt. vm_compute. reflexivity.
Qed.

Lemma X10_find_or_create_level_keeps_the_index_witness :
  let t := Node Leaf 0%nat 100000 Leaf in
  ∃ level b' t' lv,
    OrderBook.find_or_create_level 16 99900 BUY book_one_bid = Some (level, b')
    ∧ index_wf 17 BUY b' t'
    ∧ index_prices 17 BUY b' = Some (keys t')
    ∧ keys t' ≡ₚ (if decide (99900 ∈ keys t) then keys t else 99900 :: keys t)
    ∧ StronglySorted Z.lt (keys t')
    ∧ (99900 ∈ keys t → b' = book_one_bid)
    ∧ OrderBook.price_level_pool_ b' !! level = Some lv
    ∧ PriceLevel.price lv = 99900
    ∧ (99900 ∉ keys t →
       level = OrderBook.pool_index_ book_one_bid
       ∧ OrderBook.pool_index_ b' = S (OrderBook.pool_index_ book_one_bid)
       ∧ fifo_fields lv = fifo_fields (PriceLevel.make 99900))
    ∧ OrderBook.find_level 17 (OrderBook.price_level_pool_ b') 99900
        (OrderBook.root BUY b') = Some (Some level).
Proof.
  intros t.
  apply (X10_find_or_create_level_keeps_the_index 16 99900 BUY book_one_bid t).
  - exact book_one_bid_index.
  - right. apply Nat.ltb_lt. vm_compute. reflexivity.
Defined.

(** ** Best pointers recomputed from the index *)

Lemma rightmost_spec (L : PriceLevel.pool) t :
  ∀ fuel a, shape L (Some a) t → (height t ≤ S fuel)%nat →
    ∃ m lv, OrderBook.rightmost fuel L a = Some m
            ∧ L !! m = Some lv ∧ last (keys t) = Some (PriceLevel.price lv).
Proof.
  induction t as [|tl IHl a0 q tr IHr]; intros fuel a Hs Hh; simpl in *; [done|].
  destruct Hs as ([= ->] & lv & Ha & Hq & Hl & Hr).
  destruct (PriceLevel.right lv) as [r|] eqn:Er.
  - destruct fuel as [|fuel].
    { destruct tr; simpl in *; [done|lia]. }
    destruct (IHr fuel r Hr ltac:(lia)) as (m & lvm & Hm & Hlm & Hlast).
    exists m, lvm. simpl. rewrite Ha. simpl. rewrite Er. split; [done|].
    split; [done|]. rewrite last_app, last_cons, Hlast. done.
  - assert (tr = Leaf) as -> by (by destruct tr; [|destruct Hr]).
    exists a0, lv. split.
    + destruct fuel; simpl; rewrite Ha; simpl; by rewrite Er.
    + split; [done|]. simpl. rewrite last_snoc. by rewrite Hq.
Qed.

Lemma leftmost_tree (L : PriceLevel.pool) t :
  ∀ fuel a, shape L (Some a) t → (height t ≤ S fuel)%nat →
    ∃ m lv, OrderBook.leftmost fuel L a = Some m
            ∧ L !! m = Some lv ∧ head (keys t) = Some (PriceLevel.price lv).
Proof.
  induction t as [|tl IHl a0 q tr IHr]; intros fuel a Hs Hh; simpl in *; [done|].
  destruct Hs as ([= ->] & lv & Ha & Hq & Hl & Hr).
  destruct (PriceLevel.left lv) as [l|] eqn:El.
  - destruct fuel as [|fuel].
    { destruct tl; simpl in *; [done|lia]. }
    destruct (IHl fuel l Hl ltac:(lia)) as (m & lvm & Hm & Hlm & Hhead).
    exists m, lvm. simpl. rewrite Ha. simpl. rewrite El. split; [done|].
    split; [done|]. destruct (keys tl); [done|]. simpl in *. done.
  - assert (tl = Leaf) as -> by (by destruct tl; [|destruct Hl]).
    exists a0, lv. split.
    + destruct fuel; simpl; rewrite Ha; simpl; by rewrite El.
    + split; [done|]. simpl. by rewrite Hq.
Qed.

Lemma sorted_last_max (l : list Z) m k :
  StronglySorted Z.lt l → last l = Some m → k ∈ l → k <= m.
Proof.
  intros Hs Hl Hk. destruct (last_Some l m) as [[l' ->] _]; [done|].
  apply StronglySorted_app in Hs as (H1 & _ & _).
  apply elem_of_app in Hk as [Hk|Hk].
  - specialize (H1 k m Hk ltac:(set_solver)). lia.
  - apply list_elem_of_singleton in Hk. lia.
Qed.

Lemma sorted_head_min (l : list Z) m k :
  StronglySorted Z.lt l → head l = Some m → k ∈ l → m <= k.
Proof.
  intros Hs Hl Hk. destruct l as [|x l]; [done|]. simpl in Hl. injection Hl as ->.
  apply StronglySorted_cons in Hs as [Hf _].
  apply elem_of_cons in Hk as [->|Hk]; [lia|].
  rewrite Forall_forall in Hf. specialize (Hf _ Hk). lia.
Qed.

(** X11.  [update_best_bid] and [update_best_ask], on a side whose index
    is a search tree, leave the best pointer null when the index is empty
    and otherwise on the level of the highest bid price, respectively of
    the lowest ask price; they change nothing else in the book. *)
Theorem X11_update_best_finds_the_extreme_price fuel b tb ta :
  index_wf fuel BUY b tb → index_wf fuel SELL b ta →
  ∃ bb ba,
    OrderBook.update_best_bid fuel b = Some (OrderBook.set_best BUY bb b)
    ∧ OrderBook.update_best_ask fuel b = Some (OrderBook.set_best SELL ba b)
    ∧ best_price BUY (OrderBook.set_best BUY bb b) = last (keys tb)
    ∧ best_price SELL (OrderBook.set_best SELL ba b) = head (keys ta)
    ∧ (bb = nullptr ↔ keys tb = [])
    ∧ (ba = nullptr ↔ keys ta = [])
    ∧ (∀ k m, k ∈ keys tb → last (keys tb) = Some m → k <= m)
    ∧ (∀ k m, k ∈ keys ta → head (keys ta) = Some m → m <= k).
Proof.
  intros (Hsb & Hbb & _ & _ & Hhb) (Hsa & Hba & _ & _ & Hha).
  unfold OrderBook.update_best_bid, OrderBook.update_best_ask, best_price.
  simpl in Hsb, Hsa.
  assert (Hb : ∃ bb,
             match OrderBook.bid_tree_root_ b with
             | Some r => m ← OrderBook.rightmost fuel (OrderBook.price_level_pool_ b) r;
                         Some (OrderBook.set_best BUY (Some m) b)
             | None => Some (OrderBook.set_best BUY nullptr b)
             end = Some (OrderBook.set_best BUY bb b)
             ∧ (bb ≫= λ a, PriceLevel.price <$> OrderBook.price_level_pool_ b !! a)
               = last (keys tb)
             ∧ (bb = nullptr ↔ keys tb = [])).
  { destruct (OrderBook.bid_tree_root_ b) as [r|].
    - destruct (rightmost_spec _ _ fuel r Hsb ltac:(lia)) as (m & lv & -> & Hm & Hl).
      exists (Some m). simpl. rewrite Hm. simpl. split; [done|]. split; [done|].
      split; [done|]. intros E. by rewrite E in Hl.
    - assert (tb = Leaf) as -> by (by destruct tb; [|destruct Hsb]).
      by exists None. }
  assert (Ha : ∃ ba,
             match OrderBook.ask_tree_root_ b with
             | Some r => m ← OrderBook.leftmost fuel (OrderBook.price_level_pool_ b) r;
                         Some (OrderBook.set_best SELL (Some m) b)
             | None => Some (OrderBook.set_best SELL nullptr b)
             end = Some (OrderBook.set_best SELL ba b)
             ∧ (ba ≫= λ a, PriceLevel.price <$> OrderBook.price_level_pool_ b !! a)
               = head (keys ta)
             ∧ (ba = nullptr ↔ keys ta = [])).
  { destruct (OrderBook.ask_tree_root_ b) as [r|].
    - destruct (leftmost_tree _ _ fuel r Hsa ltac:(lia)) as (m & lv & -> & Hm & Hl).
      exists (Some m). simpl. rewrite Hm. simpl. split; [done|]. split; [done|].
      split; [done|]. intros E. by rewrite E in Hl.
    - assert (ta = Leaf) as -> by (by destruct ta; [|destruct Hsa]).
      by exists None. }
  destruct Hb as (bb & Hb1 & Hb2 & Hb3). destruct Ha as (ba & Ha1 & Ha2 & Ha3).
  exists bb, ba. split; [exact Hb1|]. split; [exact Ha1|].
  split; [exact Hb2|]. split; [exact Ha2|]. split; [exact Hb3|].
  split; [exact Ha3|]. split.
  - intros k m Hk Hl. exact (sorted_last_max _ _ _ Hbb Hl Hk).
  - intros k m Hk Hl. exact (sorted_head_min _ _ _ Hba Hl Hk).
Qed.

Lemma book_one_bid_asks : index_wf 16 SELL book_one_bid Leaf.
Proof.
  unfold index_wf. cbn [shape keys addrs height].
  split; [vm_compute; reflexivity|].
  split; [unfold bst; simpl; constructor|].
  split; [apply NoDup_nil_2|]. split; [constructor|lia].
Qed.

Lemma X11_update_best_finds_the_extreme_price_witness :
  ∃ bb ba,
    OrderBook.update_best_bid 16 book_one_bid
    = Some (OrderBook.set_best BUY bb book_one_bid)
    ∧ OrderBook.update_best_ask 16 book_one_bid
      = Some (OrderBook.set_best SELL ba book_one_bid)
    ∧ best_price BUY (OrderBook.set_best BUY bb book_one_bid) = Some 100000
    ∧ best_price SELL (OrderBook.set_best SELL ba book_one_bid) = None
    ∧ (bb = nullptr ↔ [100000] = [])
    ∧ (ba = nullptr ↔ @nil Z = [])
    ∧ (∀ k m, k ∈ [100000] → Some 100000 = Some m → k <= m)
    ∧ (∀ k m, k ∈ @nil Z → None = Some m → m <= k).
Proof.
  exact (X11_update_best_finds_the_extreme_price 16 book_one_bid _ _
           book_one_bid_index book_one_bid_asks).
Defined.

Lemma sorted_last_intro (l : list Z) m :
  StronglySorted Z.lt l → m ∈ l → (∀ k, k ∈ l → k <= m) → last l = Some m.
Proof.
  intros Hs Hm Hmax. destruct (last l) as [x|] eqn:Hl.
  - pose proof (sorted_last_max _ _ _ Hs Hl Hm).
    pose proof (Hmax x (last_Some_elem_of _ _ Hl)). f_equal. lia.
  - apply last_None in Hl. subst. by apply not_elem_of_nil in Hm.
Qed.

Lemma sorted_head_intro (l : list Z) m :
  StronglySorted Z.lt l → m ∈ l → (∀ k, k ∈ l → m <= k) → head l = Some m.
Proof.
  intros Hs Hm Hmin. destruct l as [|x l]; [by apply not_elem_of_nil in Hm|].
  simpl. pose proof (sorted_head_min _ x m Hs eq_refl Hm).
  pose proof (Hmin x ltac:(left)). f_equal. lia.
Qed.

Lemma extreme_intro s (l : list Z) m :
  StronglySorted Z.lt l → m ∈ l →
  (∀ k, k ∈ l → match s with BUY => k <= m | SELL => m <= k end) →
  extreme s l = Some m.
Proof.
  destruct s; simpl; [apply sorted_last_intro|apply sorted_head_intro].
Qed.

Lemma extreme_bound s (l : list Z) m k :
  StronglySorted Z.lt l → extreme s l = Some m → k ∈ l →
  match s with BUY => k <= m | SELL => m <= k end.
Proof.
  destruct s; simpl; [apply sorted_last_max|apply sorted_head_min].
Qed.

Lemma extreme_elem s (l : list Z) m : extreme s l = Some m → m ∈ l.
Proof.
  destruct s; simpl; [apply last_Some_elem_of|].
  destruct l; [done|]. intros [= ->]. left.
Qed.

Lemma PriceLevel_add_order_tree this order h L h' L' :
  PriceLevel.add_order this order h L = Some (h', L') →
  ∀ a, tree_fields <$> L' !! a = tree_fields <$> L !! a.
Proof.
  unfold PriceLevel.add_order. intros H a. open_opt.
  all: match goal with
       | |- context [<[?k := _]> _ !! ?x] =>
           destruct (decide (x = k)) as [->|Hne];
           [rewrite lookup_insert_eq|by rewrite lookup_insert_ne]
       end.
  all: match goal with
       | E : ?M !! ?k = Some _ |- context [?M !! ?k] => by rewrite E
       end.
Qed.

Lemma PriceLevel_add_order_static this order h L h' L' :
  PriceLevel.add_order this order h L = Some (h', L') →
  (λ x, (static x, Order.remaining_quantity x)) <$> h'
  = (λ x, (static x, Order.remaining_quantity x)) <$> h.
Proof.
  unfold PriceLevel.add_order. intros H. open_opt;
    repeat (erewrite insert_same_static; [|eassumption|reflexivity|reflexivity]);
    done.
Qed.

Lemma find_or_create_level_cases fuel p s b t level b1 :
  index_wf fuel s b t →
  OrderBook.find_or_create_level fuel p s b = Some (level, b1) →
  ∃ t' lv,
    index_wf (S fuel) s b1 t'
    ∧ keys t' ≡ₚ (if decide (p ∈ keys t) then keys t else p :: keys t)
    ∧ (∀ a, a ∈ addrs t → a ∈ addrs t')
    ∧ level ∈ addrs t'
    ∧ OrderBook.price_level_pool_ b1 !! level = Some lv
    ∧ PriceLevel.price lv = p
    ∧ (∀ s0, OrderBook.best s0 b1 = OrderBook.best s0 b)
    ∧ (∀ a lv, a ∈ addrs t →
               OrderBook.price_level_pool_ b !! a = Some lv →
               ∃ lv', OrderBook.price_level_pool_ b1 !! a = Some lv'
                      ∧ PriceLevel.price lv' = PriceLevel.price lv).
Proof.
  intros Hwf Hf. pose proof Hwf as (Hs & Hb & Hnd & Hlt & Hh).
  unfold OrderBook.find_or_create_level in Hf.
  rewrite (find_level_tree _ p _ _ _ Hs Hh) in Hf. simpl in Hf.
  destruct (find_level_spec _ p _ _ _ Hs Hb Hh) as (r & Hr & Hr').
  rewrite (find_level_tree _ p _ _ _ Hs Hh) in Hr. injection Hr as Hr.
  rewrite Hr in Hf. destruct r as [a|].
  - injection Hf as <- <-. destruct Hr' as (Ha & Hp & lv & Hlv & Hpr).
    exists t, lv. rewrite decide_True by done.
    split; [eapply index_wf_fuel; [|done]; lia|].
    do 6 (split; [done|]). intros a' lv' _ Ha'. by exists lv'.
  - assert (Hsz : (OrderBook.pool_index_ b < OrderBook.POOL_SIZE)%nat).
    { unfold OrderBook.insert_level in Hf. by destruct (decide _). }
    destruct (insert_level_index _ _ _ _ _ Hwf Hr' Hsz)
      as (b' & par & Hi & Hwf' & Hnew & Hpi & Hfr & Hroot & Hbest & Hframe).
    rewrite Hi in Hf. injection Hf as <- <-.
    eexists _, _. split; [exact Hwf'|]. rewrite decide_False by done.
    split; [apply keys_ins|].
    split; [intros a Ha; rewrite addrs_ins; by right|].
    split; [rewrite addrs_ins; left|].
    split; [exact Hnew|]. split; [done|]. split; [done|].
    intros a lv Ha Hlv. destruct (Hframe a lv) as (lv' & Hlv' & E); [|done|].
    { intros ->. rewrite Forall_forall in Hlt. specialize (Hlt _ Ha). lia. }
    exists lv'. split; [done|]. unfold fifo_fields in E. by injection E.
Qed.

Lemma add_order_index fuel order h b h' b' o t :
  OrderBook.add_order fuel order h b = Some (h', b') →
  h !! order = Some o →
  index_wf fuel (Order.side o) b t →
  best_ok (Order.side o) b t →
  ∃ t', index_wf (S fuel) (Order.side o) b' t'
        ∧ keys t' ≡ₚ (if decide (Order.price o ∈ keys t) then keys t
                       else Order.price o :: keys t)
        ∧ best_ok (Order.side o) b' t'
        ∧ OrderBook.best (OrderBook.contra_side (Order.side o)) b'
          = OrderBook.best (OrderBook.contra_side (Order.side o)) b.
Proof.
  intros Hadd Ho Hwf Hbest. pose proof Hwf as (_ & Hbst & _).
  unfold OrderBook.add_order in Hadd. rewrite Ho in Hadd. simpl in Hadd.
  set (s := Order.side o) in *. set (p := Order.price o) in *.
  destruct (OrderBook.find_or_create_level fuel p s b) as [[level b1]|] eqn:Hf;
    simpl in Hadd; [|done].
  destruct (find_or_create_level_cases _ _ _ _ _ _ _ Hwf Hf)
    as (t' & lv & Hwf1 & Hk & Hsub & Hlev & Hlv & Hpr & Hb1 & Hprice).
  destruct (PriceLevel.add_order level order h (OrderBook.price_level_pool_ b1))
    as [[h1 L1]|] eqn:Ha; simpl in Hadd; [|done].
  pose proof (PriceLevel_add_order_tree _ _ _ _ _ _ Ha) as Htf.
  pose proof (PriceLevel_add_order_static _ _ _ _ _ _ Ha) as Hst.
  destruct (static_lookup _ _ _ _ Hst Ho) as (o1 & Ho1 & Es & _).
  rewrite Ho1 in Hadd. simpl in Hadd.
  assert (Eside : Order.side o1 = s) by (unfold static in Es; by injection Es).
  rewrite Eside in Hadd.
  assert (Hlv1 : ∃ lv1, L1 !! level = Some lv1 ∧ PriceLevel.price lv1 = p).
  { specialize (Htf level). rewrite Hlv in Htf.
    destruct (L1 !! level) as [lv1|]; [|done]. exists lv1. split; [done|].
    simpl in Htf. unfold tree_fields in Htf. injection Htf as E _ _. congruence. }
  destruct Hlv1 as (lv1 & Hlv1 & Hp1).
  assert (Hwf2 : ∀ b2, OrderBook.price_level_pool_ b2 = L1 →
                       OrderBook.root s b2 = OrderBook.root s b1 →
                       OrderBook.pool_index_ b2 = OrderBook.pool_index_ b1 →
                       index_wf (S fuel) s b2 t').
  { intros b2 E1 E2 E3. destruct Hwf1 as (Hs1 & ? & ? & ? & ?).
    unfold index_wf. rewrite E1, E2, E3. split; [|done].
    eapply shape_ext; [|exact Hs1]. intros a _. apply Htf. }
  assert (Hkeys : ∀ k, k ∈ keys t' ↔ k = p ∨ k ∈ keys t).
  { intros k. rewrite Hk. destruct (decide (p ∈ keys t)); [|by rewrite elem_of_cons].
    split; [by right|]. by intros [->|?]. }
  assert (Hbst' : StronglySorted Z.lt (keys t')) by (by destruct Hwf1 as (_ & ? & _)).
  assert (Hsame : ∀ (b2 : OrderBook.t) a m,
            OrderBook.price_level_pool_ b2 = L1 →
            a ∈ addrs t →
            PriceLevel.price <$> OrderBook.price_level_pool_ b !! a = Some m →
            PriceLevel.price <$> OrderBook.price_level_pool_ b2 !! a = Some m).
  { intros b2 a m E Ha' Hm. rewrite E.
    destruct (OrderBook.price_level_pool_ b !! a) as [lva|] eqn:Hlva; [|done].
    destruct (Hprice _ _ Ha' Hlva) as (lva' & Hlva' & Epr).
    specialize (Htf a). rewrite Hlva' in Htf.
    destruct (L1 !! a) as [lva1|]; [|done]. simpl in *.
    unfold tree_fields in Htf. injection Htf as E1 _ _. congruence. }
  unfold best_ok in Hbest. unfold best_price in *.
  rewrite lookup_insert_eq in Hadd || idtac.
  simpl in Hadd. rewrite Hlv1 in Hadd. simpl in Hadd.
  match type of Hadd with
  | context [OrderBook.set_orders_ ?m ?b0] =>
      set (b2 := OrderBook.set_orders_ m b0) in *
  end.
  assert (Hbs : OrderBook.best s b2 = OrderBook.best s b)
    by (rewrite <- (Hb1 s); by destruct s).
  assert (Hb2 : OrderBook.price_level_pool_ b2 = L1
                ∧ OrderBook.root s b2 = OrderBook.root s b1
                ∧ OrderBook.pool_index_ b2 = OrderBook.pool_index_ b1
                ∧ OrderBook.best (OrderBook.contra_side s) b2
                  = OrderBook.best (OrderBook.contra_side s) b).
  { rewrite <- (Hb1 (OrderBook.contra_side s)). by destruct s. }
  destruct Hb2 as (Hb2p & Hb2r & Hb2i & Hb2c).
  clearbody b2.
  rewrite Hbs in Hadd.
  destruct (OrderBook.best s b) as [bst|] eqn:Ebest.
  - destruct Hbest as (Hin & Hbp). simpl in Hbp.
    destruct (OrderBook.price_level_pool_ b !! bst) as [bl0|] eqn:Hbl0;
      [|simpl in Hbp; symmetry in Hbp; destruct s; simpl in Hbp;
        [apply last_None in Hbp|destruct (keys t) eqn:E; [|done]];
        (destruct t; [by apply not_elem_of_nil in Hin
                     |simpl in *; by destruct (keys t1)])].
    simpl in Hbp. symmetry in Hbp.
    simpl in Hadd.
    destruct (L1 !! bst) as [bl|] eqn:Hbl; simpl in Hadd; [|done].
    assert (Hblp : PriceLevel.price bl = PriceLevel.price bl0).
    { pose proof (Hsame b2 bst (PriceLevel.price bl0) Hb2p Hin) as E.
      rewrite Hbl0 in E. specialize (E eq_refl). rewrite Hb2p, Hbl in E.
      simpl in E. by injection E. }
    set (m := PriceLevel.price bl0) in *.
    pose proof (extreme_elem _ _ _ Hbp) as Hm.
    match type of Hadd with
    | (if ?c then _ else _) ≫= _ = _ => destruct c eqn:Hc
    end; simpl in Hadd; injection Hadd as <- <-; exists t'.
    + (* the level of the order has the better price *)
      split; [apply Hwf2; by destruct s|]. split; [done|].
      split; [|by destruct s].
      unfold best_ok, best_price.
      replace (OrderBook.best s _) with (Some level) by (by destruct s).
      split; [done|]. simpl.
      replace (OrderBook.price_level_pool_ _) with L1 by (by destruct s).
      rewrite Hlv1. simpl. rewrite Hp1. symmetry. apply extreme_intro; [done| |].
      * apply Hkeys. by left.
      * intros k Hkin. apply Hkeys in Hkin as [->|Hkin]; [by destruct s; lia|].
        pose proof (extreme_bound _ _ _ _ Hbst Hbp Hkin) as Hb.
        destruct s; apply bool_decide_eq_true in Hc; lia.
    + split; [apply Hwf2; by destruct s|]. split; [done|].
      split; [|by destruct s].
      unfold best_ok, best_price.
      replace (OrderBook.best s _) with (Some bst)
        by (rewrite <- Hbs; by destruct s).
      split; [by apply Hsub|]. simpl.
      replace (OrderBook.price_level_pool_ _) with L1 by (by destruct s).
      rewrite Hbl. simpl. rewrite Hblp. symmetry. apply extreme_intro; [done| |].
      * apply Hkeys. by right.
      * intros k Hkin. apply Hkeys in Hkin as [->|Hkin].
        -- destruct s; apply bool_decide_eq_false in Hc; lia.
        -- exact (extreme_bound _ _ _ _ Hbst Hbp Hkin).
  - subst t. simpl in Hadd. injection Hadd as <- <-. exists t'.
    split; [apply Hwf2; by destruct s|]. split; [done|].
    split; [|by destruct s].
    unfold best_ok, best_price.
    replace (OrderBook.best s _) with (Some level) by (by destruct s).
    split; [done|]. simpl.
    replace (OrderBook.price_level_pool_ _) with L1 by (by destruct s).
    rewrite Hlv1. simpl. rewrite Hp1. symmetry. apply extreme_intro; [done| |].
    + apply Hkeys. by left.
    + intros k Hkin. apply Hkeys in Hkin as [->|Hkin]; [by destruct s; lia|].
      by apply not_elem_of_nil in Hkin.
Qed.

(** X12.  [add_order] keeps the best pointer of the side of the order on
    the best price: if the index of that side is a search tree and its best
    pointer is null on an empty index and otherwise designates a level of
    the highest bid price (lowest ask price), then after [add_order] the
    index is a search tree holding the former prices and the price of the
    order, the best pointer designates a level of the highest bid (lowest
    ask) price of that index, and the best pointer of the other side is
    untouched. *)
Theorem X12_add_order_keeps_the_best_price fuel order h b h' b' o t :
  OrderBook.add_order fuel order h b = Some (h', b') →
  h !! order = Some o →
  index_wf fuel (Order.side o) b t →
  best_ok (Order.side o) b t →
  ∃ t', index_wf (S fuel) (Order.side o) b' t'
        ∧ index_prices (S fuel) (Order.side o) b' = Some (keys t')
        ∧ keys t' ≡ₚ (if decide (Order.price o ∈ keys t) then keys t
                       else Order.price o :: keys t)
        ∧ best_ok (Order.side o) b' t'
        ∧ best_price (Order.side o) b' = extreme (Order.side o) (keys t')
        ∧ OrderBook.best (OrderBook.contra_side (Order.side o)) b'
          = OrderBook.best (OrderBook.contra_side (Order.side o)) b.
Proof.
  intros Hadd Ho Hwf Hbest.
  destruct (add_order_index _ _ _ _ _ _ _ _ Hadd Ho Hwf Hbest)
    as (t' & Hwf' & Hk & Hbest' & Hc).
  exists t'. split; [done|]. split; [by apply index_prices_tree|].
  split; [done|]. split; [done|]. split; [|done].
  unfold best_ok in Hbest'.
  destruct (OrderBook.best (Order.side o) b') as [a|] eqn:E; [by destruct Hbest'|].
  subst t'. simpl in Hk. symmetry in Hk.
  destruct (decide _) as [Hin|Hnin].
  - apply Permutation_nil_r in Hk. rewrite Hk in Hin. by apply not_elem_of_nil in Hin.
  - by apply Permutation_nil_r in Hk.
Qed.

Lemma X12_add_order_keeps_the_best_price_witness :
  let t := Node Leaf 0%nat 100000 Leaf in
  ∃ t', index_wf 17 BUY after_higher_bid.2 t'
        ∧ index_prices 17 BUY after_higher_bid.2 = Some (keys t')
        ∧ keys t' ≡ₚ (if decide (100100 ∈ keys t) then keys t else 100100 :: keys t)
        ∧ best_ok BUY after_higher_bid.2 t'
        ∧ best_price BUY after_higher_bid.2 = extreme BUY (keys t')
        ∧ OrderBook.best SELL after_higher_bid.2 = OrderBook.best SELL book_one_bid.
Proof.
  intros t.
  apply (X12_add_order_keeps_the_best_price 16 1%nat heap_higher_bid book_one_bid
           after_higher_bid.1 after_higher_bid.2 higher_bid t).
  - rewrite <- surjective_pairing.
    apply default_is_Some, (bool_decide_unpack _). vm_compute. exact I.
  - apply lookup_insert_eq.
  - exact book_one_bid_index.
  - assert (E : OrderBook.best BUY book_one_bid = Some 0%nat)
      by (vm_compute; reflexivity).
    unfold best_ok. change (Order.side higher_bid) with BUY. rewrite E.
    split; [left|]. vm_compute. reflexivity.
Defined.

Lemma last_prev_index (l : list addr) : last l = prev_index l (length l).
Proof. rewrite last_lookup. by destruct l. Qed.

Lemma dll_tail (h : heap) level lv l t :
  dll h level lv l → PriceLevel.tail_order lv = Some t →
  t ∈ l ∧ ∃ o, h !! t = Some o ∧ Order.next o = nullptr.
Proof.
  intros (Hnd & Hh & Ht & Hl & _) E. rewrite Ht, last_lookup in E.
  split; [apply list_elem_of_lookup; eauto|].
  destruct (Hl _ _ E) as (o & Ho & Hn & _). exists o. split; [done|].
  rewrite Hn. apply lookup_ge_None. destruct l; simpl in *; [done|lia].
Qed.

(** X13.  [PriceLevel::add_order] on a level whose FIFO is a well-formed
    doubly linked list, for an order not yet in it: the call returns, the
    order is appended behind the former tail (the orders already there keep
    their places), the level is again a well-formed doubly linked list with
    [total_volume] raised by the remaining quantity of the order and
    [order_count] by one, and no other order record of the store and no
    field that places the level in the index is written. *)
Theorem X13_level_add_order_appends_to_the_fifo
  this order h (L : PriceLevel.pool) lv o l :
  L !! this = Some lv → h !! order = Some o →
  dll h this lv l → order ∉ l → Z.of_nat (length l) + 1 < 2 ^ 32 →
  ∃ h' lv',
    PriceLevel.add_order this order h L = Some (h', <[this := lv']> L)
    ∧ dll h' this lv' (l ++ [order])
    ∧ tree_fields lv' = tree_fields lv
    ∧ PriceLevel.total_volume lv'
      = u32 (PriceLevel.total_volume lv + Order.remaining_quantity o)
    ∧ (∀ a, a ∉ l → a ≠ order → h' !! a = h !! a)
    ∧ core <$> h' = core <$> h.
Proof.
  intros HL Ho Hd Hnl Hlen.
  pose proof Hd as (Hnd & Hh & Ht & Hl & Hv & Hc & _).
  assert (Htl : ∀ t, PriceLevel.tail_order lv = Some t →
                     t ≠ order ∧ is_Some (h !! t)).
  { intros t E. destruct (dll_tail _ _ _ _ _ Hd E) as (Hin & to & Hto & _).
    split; [by intros ->|eauto]. }
  pose proof (PriceLevel_add_order_spec this order h L lv o HL Ho Htl) as Hspec.
  simpl in Hspec.
  pose proof (PriceLevel_add_order_core _ _ _ _ _ _ Hspec) as Hcore.
  eexists _, _. split; [exact Hspec|].
  set (o' := Order.set_prev (PriceLevel.tail_order lv)
               (Order.set_next nullptr (Order.set_parent_level (Some this) o))) in *.
  set (h' := match PriceLevel.tail_order lv with
             | Some t => match h !! t with
                         | Some to => <[t := Order.set_next (Some order) to]>
                                        (<[order := o']> h)
                         | None => <[order := o']> h
                         end
             | None => <[order := o']> h
             end) in *.
  assert (Hnew : h' !! order = Some o').
  { unfold h'. destruct (PriceLevel.tail_order lv) as [t|] eqn:Et;
      [|apply lookup_insert_eq].
    destruct (Htl t eq_refl) as [Hne [to Hto]]. rewrite Hto.
    rewrite lookup_insert_ne by done. apply lookup_insert_eq. }
  assert (Hold : ∀ a, a ≠ order →
            h' !! a = if decide (PriceLevel.tail_order lv = Some a)
                      then Order.set_next (Some order) <$> h !! a
                      else h !! a).
  { intros a Hne. unfold h'.
    destruct (PriceLevel.tail_order lv) as [t|] eqn:Et.
    - destruct (Htl t eq_refl) as [_ [to Hto]]. rewrite Hto.
      destruct (decide (Some t = Some a)) as [[= ->]|Hna].
      + by rewrite lookup_insert_eq, Hto.
      + rewrite !lookup_insert_ne; [done|done|congruence].
    - rewrite decide_False by done. by rewrite lookup_insert_ne. }
  split; [|split; [done|split; [done|split; [|done]]]].
  2:{ intros a Ha Hne. rewrite Hold by done. case_decide as E; [|done].
      destruct (dll_tail _ _ _ _ _ Hd E) as [Hin _]. done. }
  unfold dll. simpl.
  split; [apply NoDup_app; split; [done|]; split;
          [intros x Hx Hx'; apply list_elem_of_singleton in Hx'; by subst
          |apply NoDup_singleton]|].
  split.
  { rewrite Ht. destruct l as [|x l']; [done|]. simpl.
    destruct (last (x :: l')) eqn:E; [by rewrite Hh|].
    by apply last_None in E. }
  split; [by rewrite last_snoc|].
  split.
  { intros i a Hi. apply lookup_snoc_Some in Hi as [[Hlt Hi]|[-> ->]].
    - assert (Hne : a ≠ order).
      { intros ->. apply Hnl. apply list_elem_of_lookup. eauto. }
      destruct (Hl _ _ Hi) as (oa & Hoa & Hn & Hp & Hpa).
      rewrite Hold by done. rewrite Hoa.
      assert (Hpi : prev_index (l ++ [order]) i = prev_index l i).
      { destruct i as [|j]; [done|]. simpl. apply lookup_app_l. lia. }
      rewrite Hpi.
      case_decide as E.
      + rewrite Ht, last_lookup in E.
        assert (i = pred (length l)) as Ei.
        { eapply NoDup_lookup; [exact Hnd|exact Hi|exact E]. }
        eexists. split; [done|]. simpl.
        split; [|done]. replace (S i) with (length l) by lia.
        symmetry. apply list_lookup_middle. done.
      + exists oa. split; [done|]. split; [|done]. rewrite Hn.
        destruct (decide (S i < length l)%nat).
        * by rewrite lookup_app_l.
        * exfalso. apply E. rewrite Ht, last_lookup.
          by replace (pred (length l)) with i by lia.
    - exists o'. split; [done|]. unfold o'. simpl.
      split; [symmetry; apply lookup_ge_None; rewrite length_app; simpl; lia|].
      split; [|done]. rewrite Ht, last_prev_index.
      destruct (length l) eqn:E; [done|]. simpl. symmetry. apply lookup_app_l. lia. }
  split.
  { rewrite fifo_volume_snoc, Hnew. unfold o'. simpl. rewrite Hv.
    rewrite (fifo_volume_core h h') by done. by rewrite u32_add_l. }
  split; [rewrite Hc, length_app; simpl; rewrite u32_small; lia|].
  rewrite length_app. simpl. lia.
Qed.

(** What [PriceLevel::remove_order] writes, for an order whose neighbours
    are other orders of the store. *)
Lemma PriceLevel_remove_order_spec this a h (L : PriceLevel.pool) lv o :
  L !! this = Some lv → h !! a = Some o →
  (∀ p, Order.prev o = Some p → p ≠ a ∧ is_Some (h !! p)) →
  (∀ n, Order.next o = Some n →
        n ≠ a ∧ Order.prev o ≠ Some n ∧ is_Some (h !! n)) →
  ∃ h',
    PriceLevel.remove_order this a h L
    = Some (h',
            <[this := PriceLevel.mk (PriceLevel.price lv)
                        (u32 (PriceLevel.total_volume lv - Order.remaining_quantity o))
                        (u32 (PriceLevel.order_count lv - 1))
                        (match Order.prev o with
                         | Some _ => PriceLevel.head_order lv
                         | None => Order.next o
                         end)
                        (match Order.next o with
                         | Some _ => PriceLevel.tail_order lv
                         | None => Order.prev o
                         end)
                        (PriceLevel.parent lv) (PriceLevel.left lv)
                        (PriceLevel.right lv)]> L)
    ∧ h' !! a = Some (Order.set_prev nullptr
                        (Order.set_next nullptr
                           (Order.set_parent_level nullptr o)))
    ∧ (∀ x, x ≠ a →
            h' !! x
            = (λ ox, if decide (Order.prev o = Some x)
                     then Order.set_next (Order.next o) ox
                     else if decide (Order.next o = Some x)
                          then Order.set_prev (Order.prev o) ox
                          else ox) <$> h !! x).
Proof.
  intros HL Ho Hp Hn. unfold PriceLevel.remove_order. rewrite HL. simpl.
  rewrite Ho. simpl.
  destruct (Order.prev o) as [p|] eqn:Ep; destruct (Order.next o) as [n|] eqn:En.
  - destruct (Hp p eq_refl) as [Hpa [po Hpo]].
    destruct (Hn n eq_refl) as (Hna & Hnp & [no Hno]).
    assert (p ≠ n) by congruence.
    rewrite Hpo. simpl. rewrite lookup_insert_ne by done. rewrite Ho. simpl.
    rewrite ?En. rewrite lookup_insert_ne by done. rewrite Hno. simpl.
    rewrite !lookup_insert_ne by done. rewrite Ho. simpl.
    rewrite ?Ep, ?En. eexists. split; [reflexivity|].
    split; [apply lookup_insert_eq|]. intros x Hx.
    rewrite lookup_insert_ne by done.
    destruct (decide (Some p = Some x)) as [[= <-]|Hxp].
    + rewrite lookup_insert_ne by done. by rewrite lookup_insert_eq, Hpo.
    + destruct (decide (Some n = Some x)) as [[= <-]|Hxn].
      * by rewrite lookup_insert_eq, Hno.
      * rewrite !lookup_insert_ne by congruence. by destruct (h !! x).
  - destruct (Hp p eq_refl) as [Hpa [po Hpo]].
    rewrite Hpo. simpl. rewrite lookup_insert_ne by done. rewrite Ho. simpl.
    rewrite ?En. simpl. rewrite !lookup_insert_ne by done. rewrite Ho. simpl.
    rewrite ?Ep, ?En. eexists. split; [reflexivity|].
    split; [apply lookup_insert_eq|]. intros x Hx.
    rewrite lookup_insert_ne by done.
    destruct (decide (Some p = Some x)) as [[= <-]|Hxp].
    + by rewrite lookup_insert_eq, Hpo.
    + rewrite lookup_insert_ne by congruence.
      destruct (decide (None = Some x)); [done|]. by destruct (h !! x).
  - destruct (Hn n eq_refl) as (Hna & Hnp & [no Hno]).
    simpl. rewrite Ho. simpl. rewrite ?En. rewrite Hno. simpl.
    rewrite !lookup_insert_ne by done. rewrite Ho. simpl.
    rewrite ?Ep, ?En. eexists. split; [reflexivity|].
    split; [apply lookup_insert_eq|]. intros x Hx.
    rewrite lookup_insert_ne by done.
    destruct (decide (None = Some x)); [done|].
    destruct (decide (Some n = Some x)) as [[= <-]|Hxn].
    + by rewrite lookup_insert_eq, Hno.
    + rewrite lookup_insert_ne by congruence. by destruct (h !! x).
  - simpl. rewrite Ho. simpl. rewrite ?En. simpl. rewrite Ho. simpl.
    rewrite ?Ep, ?En. eexists. split; [reflexivity|].
    split; [apply lookup_insert_eq|]. intros x Hx.
    rewrite lookup_insert_ne by done.
    destruct (decide (None = Some x)); [done|]. by destruct (h !! x).
Qed.

Lemma fifo_volume_delete (h : heap) l :
  ∀ i a o, l !! i = Some a → h !! a = Some o →
           fifo_volume h l
           = fifo_volume h (delete i l) + Order.remaining_quantity o.
Proof.
  induction l as [|x l IH]; intros i a o Hi Ho; [done|].
  destruct i as [|i]; simpl in *.
  - injection Hi as ->. rewrite Ho. lia.
  - rewrite (IH _ _ _ Hi Ho). lia.
Qed.

Lemma PriceLevel_remove_order_dll this a h (L : PriceLevel.pool) lv l i :
  L !! this = Some lv → dll h this lv l → l !! i = Some a →
  ∃ h' lv' o,
    h !! a = Some o
    ∧ PriceLevel.remove_order this a h L = Some (h', <[this := lv']> L)
    ∧ dll h' this lv' (delete i l)
    ∧ h' !! a = Some (Order.set_prev nullptr
                        (Order.set_next nullptr
                           (Order.set_parent_level nullptr o)))
    ∧ tree_fields lv' = tree_fields lv
    ∧ PriceLevel.total_volume lv'
      = u32 (PriceLevel.total_volume lv - Order.remaining_quantity o)
    ∧ PriceLevel.order_count lv' = PriceLevel.order_count lv - 1
    ∧ (∀ x, x ∉ l → h' !! x = h !! x)
    ∧ core <$> h' = core <$> h.
Proof.
  intros HL Hd Hi.
  pose proof Hd as (Hnd & Hh & Ht & Hl & Hv & Hc & Hlen).
  pose proof (lookup_lt_Some _ _ _ Hi) as Hilt.
  destruct (Hl _ _ Hi) as (o & Ho & Hn & Hp & Hpa).
  assert (Hprev : ∀ p, Order.prev o = Some p →
                       ∃ j, i = S j ∧ l !! j = Some p ∧ p ≠ a).
  { intros p E. rewrite Hp in E. destruct i as [|j]; [done|]. simpl in E.
    exists j. split; [done|]. split; [done|]. intros ->.
    pose proof (NoDup_lookup _ _ _ _ Hnd Hi E). lia. }
  assert (Hnext : ∀ n, Order.next o = Some n → l !! S i = Some n ∧ n ≠ a).
  { intros n E. rewrite Hn in E. split; [done|]. intros ->.
    pose proof (NoDup_lookup _ _ _ _ Hnd Hi E). lia. }
  destruct (PriceLevel_remove_order_spec this a h L lv o HL Ho)
    as (h' & Hrm & Ha' & Hpt).
  { intros p E. destruct (Hprev p E) as (j & -> & Hj & Hne). split; [done|].
    destruct (Hl _ _ Hj) as (po & -> & _). eauto. }
  { intros n E. destruct (Hnext n E) as (HSi & Hne). split; [done|]. split.
    - intros E'. destruct (Hprev n E') as (j & -> & Hj & _).
      pose proof (NoDup_lookup _ _ _ _ Hnd HSi Hj). lia.
    - destruct (Hl _ _ HSi) as (no & -> & _). eauto. }
  pose proof (PriceLevel_remove_order_core _ _ _ _ _ _ Hrm) as Hcore.
  eexists h', _, o. split; [done|]. split; [exact Hrm|].
  split; [|split; [done|split; [done|split; [done|split; [|split; [|done]]]]]].
  2:{ simpl. rewrite Hc. apply u32_small. lia. }
  2:{ intros x Hx. rewrite Hpt.
      - destruct (decide (Order.prev o = Some x)) as [E|_].
        { destruct (Hprev x E) as (j & _ & Hj & _). exfalso. apply Hx.
          apply list_elem_of_lookup. eauto. }
        destruct (decide (Order.next o = Some x)) as [E|_].
        { destruct (Hnext x E) as (Hj & _). exfalso. apply Hx.
          apply list_elem_of_lookup. eauto. }
        by destruct (h !! x).
      - intros ->. apply Hx. apply list_elem_of_lookup. eauto. }
  assert (Hld : length (delete i l) = (length l - 1)%nat)
    by (apply length_delete; eauto).
  unfold dll. simpl.
  split; [eapply sublist_NoDup; [exact Hnd|apply sublist_delete]|].
  split.
  { rewrite head_lookup. destruct (Order.prev o) as [p|] eqn:Ep.
    - destruct (Hprev p eq_refl) as (j & -> & _).
      rewrite list_lookup_delete_lt by lia. by rewrite Hh, head_lookup.
    - symmetry in Hp. destruct i as [|j].
      + rewrite list_lookup_delete_ge by lia. done.
      + simpl in Hp. apply lookup_ge_None in Hp. lia. }
  split.
  { rewrite last_lookup, Hld. destruct (Order.next o) as [n|] eqn:En.
    - destruct (Hnext n eq_refl) as (HSi & _).
      pose proof (lookup_lt_Some _ _ _ HSi).
      rewrite list_lookup_delete_ge by lia. rewrite Ht, last_lookup.
      f_equal. lia.
    - symmetry in Hn. apply lookup_ge_None in Hn.
      rewrite Hp. destruct i as [|j]; simpl.
      + destruct l as [|x [|y l']]; simpl in *; [done|done|lia].
      + rewrite list_lookup_delete_lt by lia. f_equal. lia. }
  split.
  { intros j x Hj.
    assert (Hxa : x ≠ a).
    { intros ->. rewrite list_lookup_delete in Hj.
      pose proof (NoDup_lookup _ _ _ _ Hnd Hi Hj). case_decide; lia. }
    rewrite Hpt by done.
    destruct (decide (j < i)%nat) as [Hji|Hji].
    - (* an order before the removed one *)
      rewrite list_lookup_delete_lt in Hj by done.
      destruct (Hl _ _ Hj) as (ox & Hox & Hnx & Hpx & Hpax). rewrite Hox. simpl.
      assert (Hprevj : prev_index (delete i l) j = prev_index l j).
      { destruct j as [|j']; [done|]. simpl. apply list_lookup_delete_lt. lia. }
      rewrite Hprevj.
      destruct (decide (Order.prev o = Some x)) as [E|E].
      + destruct (Hprev x E) as (j' & -> & Hj' & _).
        assert (j = j') as -> by (eapply NoDup_lookup; eauto).
        eexists. split; [done|]. simpl. split; [|done].
        rewrite list_lookup_delete_ge by lia. done.
      + destruct (decide (Order.next o = Some x)) as [E'|E'].
        { destruct (Hnext x E') as (HSi & _).
          pose proof (NoDup_lookup _ _ _ _ Hnd Hj HSi). lia. }
        exists ox. split; [done|]. split; [|done]. rewrite Hnx.
        destruct (decide (S j < i)%nat).
        * by rewrite list_lookup_delete_lt.
        * exfalso. apply E. rewrite Hp.
          assert (i = S j) as -> by lia. done.
    - (* an order after the removed one *)
      rewrite list_lookup_delete_ge in Hj by lia.
      destruct (Hl _ _ Hj) as (ox & Hox & Hnx & Hpx & Hpax). rewrite Hox. simpl.
      rewrite list_lookup_delete_ge by lia.
      destruct (decide (Order.prev o = Some x)) as [E|E].
      { destruct (Hprev x E) as (j' & -> & Hj' & _).
        pose proof (NoDup_lookup _ _ _ _ Hnd Hj Hj'). lia. }
      destruct (decide (Order.next o = Some x)) as [E'|E'].
      + destruct (Hnext x E') as (HSi & _).
        assert (j = i) as -> by (pose proof (NoDup_lookup _ _ _ _ Hnd Hj HSi); lia).
        eexists. split; [done|]. simpl. split; [done|]. split; [|done].
        rewrite Hp. destruct i as [|i']; [done|]. simpl.
        symmetry. apply list_lookup_delete_lt. lia.
      + exists ox. split; [done|]. split; [done|]. split; [|done].
        rewrite Hpx. simpl. destruct j as [|j'].
        * exfalso. apply E'. rewrite Hn. by assert (i = 0%nat) as -> by lia.
        * simpl. destruct (decide (j' < i)%nat).
          -- exfalso. apply E'. rewrite Hn. by assert (i = S j') as -> by lia.
          -- by rewrite list_lookup_delete_ge by lia. }
  split.
  { rewrite (fifo_volume_core h h') by done.
    rewrite Hv, u32_sub_l. f_equal.
    rewrite (fifo_volume_delete h l i a o) by done. lia. }
  split; [rewrite Hc, Hld; rewrite u32_small; lia|].
  rewrite Hld. lia.
Qed.

Ltac dll_concrete :=
  unfold dll;
  split; [apply (bool_decide_unpack _); vm_compute; exact I|];
  split; [reflexivity|]; split; [reflexivity|];
  split;
    [intros i a Hi;
     repeat (destruct i as [|i]; [injection Hi as <-; eexists;
                                  split; [vm_compute; reflexivity|by simpl]|]);
     done|];
  split; [vm_compute; reflexivity|]; split; [reflexivity|simpl; lia].

Lemma one_bid_dll : dll heap_second_bid 0%nat level_one_bid [0%nat].
Proof. dll_concrete. Qed.

Lemma two_bids_dll : dll after_second_bid.1 0%nat level_two_bids [0%nat; 1%nat].
Proof. dll_concrete. Qed.

Lemma X13_level_add_order_appends_to_the_fifo_witness :
  ∃ h' lv',
    PriceLevel.add_order 0%nat 1%nat heap_second_bid
      (OrderBook.price_level_pool_ book_one_bid)
    = Some (h', <[0%nat := lv']> (OrderBook.price_level_pool_ book_one_bid))
    ∧ dll h' 0%nat lv' ([0%nat] ++ [1%nat])
    ∧ tree_fields lv' = tree_fields level_one_bid
    ∧ PriceLevel.total_volume lv'
      = u32 (PriceLevel.total_volume level_one_bid
             + Order.remaining_quantity second_bid)
    ∧ (∀ a, a ∉ [0%nat] → a ≠ 1%nat → h' !! a = heap_second_bid !! a)
    ∧ core <$> h' = core <$> heap_second_bid.
Proof.
  apply (X13_level_add_order_appends_to_the_fifo 0%nat 1%nat heap_second_bid
           (OrderBook.price_level_pool_ book_one_bid) level_one_bid second_bid
           [0%nat]).
  - vm_compute. reflexivity.
  - apply lookup_insert_eq.
  - exact one_bid_dll.
  - apply (bool_decide_unpack _). vm_compute. exact I.
  - simpl. lia.
Defined.

(** X14.  [PriceLevel::remove_order] on a level whose FIFO is a
    well-formed doubly linked list, for any order of it (first, last or in
    the middle): the call returns, the order is unlinked and its three
    pointers are nulled, the other orders keep their relative order, the
    level is again a well-formed doubly linked list with [total_volume]
    lowered by the remaining quantity of the order and [order_count] by
    one; no order record outside the FIFO is written, and no id, quantity
    or remaining quantity at all. *)
Theorem X14_level_remove_order_unlinks_one_order
  this a h (L : PriceLevel.pool) lv l i :
  L !! this = Some lv → dll h this lv l → l !! i = Some a →
  ∃ h' lv' o,
    h !! a = Some o
    ∧ PriceLevel.remove_order this a h L = Some (h', <[this := lv']> L)
    ∧ dll h' this lv' (delete i l)
    ∧ h' !! a = Some (Order.set_prev nullptr
                        (Order.set_next nullptr
                           (Order.set_parent_level nullptr o)))
    ∧ tree_fields lv' = tree_fields lv
    ∧ PriceLevel.total_volume lv'
      = u32 (PriceLevel.total_volume lv - Order.remaining_quantity o)
    ∧ PriceLevel.order_count lv' = PriceLevel.order_count lv - 1
    ∧ (∀ x, x ∉ l → h' !! x = h !! x)
    ∧ core <$> h' = core <$> h.
Proof. apply PriceLevel_remove_order_dll. Qed.

Lemma X14_level_remove_order_unlinks_one_order_witness :
  ∃ h' lv' o,
    after_second_bid.1 !! 0%nat = Some o
    ∧ PriceLevel.remove_order 0%nat 0%nat after_second_bid.1
        (OrderBook.price_level_pool_ after_second_bid.2)
      = Some (h', <[0%nat := lv']> (OrderBook.price_level_pool_ after_second_bid.2))
    ∧ dll h' 0%nat lv' (delete 0%nat [0%nat; 1%nat])
    ∧ h' !! 0%nat = Some (Order.set_prev nullptr
                           (Order.set_next nullptr
                              (Order.set_parent_level nullptr o)))
    ∧ tree_fields lv' = tree_fields level_two_bids
    ∧ PriceLevel.total_volume lv'
      = u32 (PriceLevel.total_volume level_two_bids - Order.remaining_quantity o)
    ∧ PriceLevel.order_count lv' = PriceLevel.order_count level_two_bids - 1
    ∧ (∀ x, x ∉ [0%nat; 1%nat] → h' !! x = after_second_bid.1 !! x)
    ∧ core <$> h' = core <$> after_second_bid.1.
Proof.
  apply (X14_level_remove_order_unlinks_one_order 0%nat 0%nat after_second_bid.1
           (OrderBook.price_level_pool_ after_second_bid.2) level_two_bids
           [0%nat; 1%nat] 0%nat).
  - vm_compute. reflexivity.
  - exact two_bids_dll.
  - reflexivity.
Defined.

(** X15.  [cancel_order] of an order that rests in a level holding at
    least one other order: the call returns; the order leaves the FIFO of
    its level, whose other orders keep their relative order (the level is a
    well-formed doubly linked list before and after); the id leaves the id
    map and [order_count_] drops by one; the level stays in the index, and
    roots, best pointers and every other level are left as they were. *)
Theorem X15_cancel_keeps_the_order_of_the_others
  fuel id a level lv l i h b :
  OrderBook.orders_ b !! id = Some a →
  OrderBook.price_level_pool_ b !! level = Some lv →
  dll h level lv l → l !! i = Some a → (2 ≤ length l)%nat →
  ∃ h' b' lv',
    OrderBook.cancel_order fuel id h b = Some (h', b')
    ∧ OrderBook.price_level_pool_ b'
      = <[level := lv']> (OrderBook.price_level_pool_ b)
    ∧ dll h' level lv' (delete i l)
    ∧ tree_fields lv' = tree_fields lv
    ∧ OrderBook.orders_ b' = delete id (OrderBook.orders_ b)
    ∧ OrderBook.order_count_ b' = u64 (OrderBook.order_count_ b - 1)
    ∧ (∀ s, OrderBook.root s b' = OrderBook.root s b
            ∧ OrderBook.best s b' = OrderBook.best s b)
    ∧ (∀ x, x ∉ l → h' !! x = h !! x).
Proof.
  intros Hid HL Hd Hi Hlen.
  destruct (PriceLevel_remove_order_dll _ _ _ _ _ _ _ HL Hd Hi)
    as (h' & lv' & o & Ho & Hrm & Hd' & Ha' & Htf & Hv & Hc & Hfr & _).
  destruct Hd as (_ & _ & _ & Hl & _ & Hcount & _).
  destruct (Hl _ _ Hi) as (o0 & Ho0 & _ & _ & Hpa).
  rewrite Ho in Ho0. injection Ho0 as <-.
  unfold OrderBook.cancel_order. rewrite Hid, Ho. simpl. rewrite Hpa. simpl.
  rewrite Hrm. simpl. rewrite lookup_insert_eq. simpl.
  rewrite decide_False by (rewrite Hc, Hcount; lia). simpl.
  eexists h', _, lv'. split; [reflexivity|]. simpl.
  do 5 (split; [done|]). split; [|done]. by intros [].
Qed.

Lemma X15_cancel_keeps_the_order_of_the_others_witness :
  ∃ h' b' lv',
    OrderBook.cancel_order 16 1 after_second_bid.1 after_second_bid.2 = Some (h', b')
    ∧ OrderBook.price_level_pool_ b'
      = <[0%nat := lv']> (OrderBook.price_level_pool_ after_second_bid.2)
    ∧ dll h' 0%nat lv' (delete 0%nat [0%nat; 1%nat])
    ∧ tree_fields lv' = tree_fields level_two_bids
    ∧ OrderBook.orders_ b' = delete 1 (OrderBook.orders_ after_second_bid.2)
    ∧ OrderBook.order_count_ b'
      = u64 (OrderBook.order_count_ after_second_bid.2 - 1)
    ∧ (∀ s, OrderBook.root s b' = OrderBook.root s after_second_bid.2
            ∧ OrderBook.best s b' = OrderBook.best s after_second_bid.2)
    ∧ (∀ x, x ∉ [0%nat; 1%nat] → h' !! x = after_second_bid.1 !! x).
Proof.
  apply (X15_cancel_keeps_the_order_of_the_others 16 1 0%nat 0%nat
           level_two_bids [0%nat; 1%nat] 0%nat
           after_second_bid.1 after_second_bid.2).
  - vm_compute. reflexivity.
  - vm_compute. reflexivity.
  - exact two_bids_dll.
  - reflexivity.
  - simpl. lia.
Defined.

Lemma rems_ext (h h' : heap) l :
  (∀ a, a ∈ l → h' !! a = h !! a) → rems h' l = rems h l.
Proof.
  intros H. unfold rems. apply list_fmap_ext. intros i a Hi.
  rewrite H; [done|]. apply list_elem_of_lookup. eauto.
Qed.

Lemma rems_core (h h' : heap) l :
  core <$> h' = core <$> h → rems h' l = rems h l.
Proof.
  intros Hc. unfold rems. apply list_fmap_ext. intros _ a _.
  pose proof (core_fmap_lookup _ _ a Hc) as E.
  destruct (h' !! a) as [o'|], (h !! a) as [o|]; simpl in *; try done.
  by injection E.
Qed.

Lemma order_prices_ext (h h' : heap) l :
  (∀ a, a ∈ l → static <$> h' !! a = static <$> h !! a) →
  order_prices h' l = order_prices h l.
Proof.
  intros H. unfold order_prices. apply list_fmap_ext. intros i a Hi.
  pose proof (H a ltac:(apply list_elem_of_lookup; eauto)) as E.
  destruct (h' !! a) as [o'|], (h !! a) as [o|]; simpl in *; try done.
  unfold static in E. by injection E.
Qed.

Lemma greedy_done q rs : q <= 0 → greedy q rs = [].
Proof. intros H. destruct rs; simpl; [done|]. by rewrite decide_False by lia. Qed.

Lemma filled_prefix_done q rs : q <= 0 → filled_prefix q rs = O.
Proof. intros H. destruct rs; simpl; [done|]. by rewrite decide_False by lia. Qed.

Lemma match_fifo_done fuel order contra passive (h : heap) b rs o :
  h !! order = Some o → Order.remaining_quantity o <= 0 →
  OrderBook.match_fifo fuel order contra passive h b rs = Some (h, b, rs).
Proof.
  intros Ho Hz. destruct passive, fuel; simpl; rewrite ?Ho; simpl;
    rewrite ?decide_False by lia; done.
Qed.

(** A trade takes [m] from the order [p] of a level and from the level's
    volume. *)
Lemma dll_spend (h : heap) level lv l i p po order o1 m :
  dll h level lv l → l !! i = Some p → h !! p = Some po → order ∉ l →
  dll (<[p := Order.set_remaining_quantity (Order.remaining_quantity po - m) po]>
         (<[order := o1]> h))
    level
    (PriceLevel.set_total_volume (u32 (PriceLevel.total_volume lv - m)) lv) l.
Proof.
  intros (Hnd & Hh & Ht & Hl & Hv & Hc & Hlen) Hi Hp Hnl.
  assert (Hpo : p ≠ order).
  { intros ->. apply Hnl. apply list_elem_of_lookup. eauto. }
  unfold dll. simpl. do 3 (split; [done|]).
  split.
  { intros j x Hj. destruct (Hl _ _ Hj) as (ox & Hox & Hrest).
    destruct (decide (x = p)) as [->|Hne].
    - rewrite lookup_insert_eq. rewrite Hp in Hox. injection Hox as <-.
      eexists. split; [done|]. by simpl.
    - rewrite !lookup_insert_ne; [eauto|..]; [|done].
      intros ->. apply Hnl. apply list_elem_of_lookup. eauto. }
  split; [|done].
  rewrite Hv, u32_sub_l. f_equal.
  rewrite (fifo_volume_delete h l i p po) by done.
  rewrite (fifo_volume_delete _ l i p
             (Order.set_remaining_quantity (Order.remaining_quantity po - m) po))
    by (done || apply lookup_insert_eq).
  simpl.
  match goal with
  | |- _ = fifo_volume ?h2 (delete i l) + _ =>
      rewrite (fifo_volume_ext h h2 (delete i l)); [lia|]
  end.
  intros a Ha. rewrite !lookup_insert_ne; [done|..].
  - intros ->. apply Hnl. eapply elem_of_sublist; [exact Ha|apply sublist_delete].
  - intros ->. apply list_elem_of_lookup in Ha as [j Hj].
    rewrite list_lookup_delete in Hj.
    pose proof (NoDup_lookup _ _ _ _ Hnd Hi Hj). case_decide; lia.
Qed.

Lemma match_fifo_priority order contra :
  ∀ l fuel (h : heap) b rs lv o,
    OrderBook.price_level_pool_ b !! contra = Some lv →
    dll h contra lv l →
    h !! order = Some o → order ∉ l →
    heap_typed h → (length l ≤ fuel)%nat →
    ∃ h' b' news lv',
      OrderBook.match_fifo fuel order contra (head l) h b rs
      = Some (h', b', rs ++ news)
      ∧ ExecutionReport.executed_quantity <$> news
        = greedy (Order.remaining_quantity o) (rems h l)
      ∧ ExecutionReport.price <$> news
        = take (length news) (order_prices h l)
      ∧ OrderBook.price_level_pool_ b' !! contra = Some lv'
      ∧ dll h' contra lv'
          (drop (filled_prefix (Order.remaining_quantity o) (rems h l)) l)
      ∧ tree_fields lv' = tree_fields lv.
Proof.
  induction l as [|p l IH]; intros fuel h b rs lv o HL Hd Ho Hnl Ht Hfuel.
  { exists h, b, [], lv. rewrite app_nil_r. simpl.
    split; [by destruct fuel|]. done. }
  destruct fuel as [|fuel]; [simpl in Hfuel; lia|].
  destruct (decide (Order.remaining_quantity o > 0)) as [Hpos|Hnpos].
  2:{ exists h, b, [], lv. rewrite app_nil_r.
      rewrite (match_fifo_done _ _ _ _ _ _ _ o) by (done || lia).
      simpl. rewrite !decide_False by done. done. }
  pose proof Hd as (Hnd & Hhd & Htl & Hl & Hv & Hc & Hlen).
  destruct (Hl 0%nat p eq_refl) as (po & Hp & Hnx & _ & _).
  assert (Hne : p ≠ order) by (intros ->; apply Hnl; left).
  pose proof (Ht _ _ Ho) as Hro. pose proof (Ht _ _ Hp) as Hrp.
  set (m := Z.min (Order.remaining_quantity o) (Order.remaining_quantity po)).
  assert (Hm : 0 <= m <= Order.remaining_quantity o
               ∧ m <= Order.remaining_quantity po) by (unfold m; lia).
  set (o1 := Order.set_remaining_quantity (Order.remaining_quantity o - m) o).
  set (p1 := Order.set_remaining_quantity (Order.remaining_quantity po - m) po).
  set (h2 := <[p := p1]> (<[order := o1]> h)).
  set (lv2 := PriceLevel.set_total_volume (u32 (PriceLevel.total_volume lv - m)) lv).
  assert (Hd2 : dll h2 contra lv2 (p :: l))
    by (by apply (dll_spend h contra lv (p :: l) 0%nat p po order o1 m)).
  assert (Ho2 : h2 !! order = Some o1).
  { unfold h2. rewrite lookup_insert_ne by done. apply lookup_insert_eq. }
  assert (Ht2 : heap_typed h2).
  { unfold h2. apply heap_typed_insert; [apply heap_typed_insert; [done|]|];
      simpl; lia. }
  assert (Hr1 : rems h (p :: l) = Order.remaining_quantity po :: rems h l)
    by (unfold rems; simpl; by rewrite Hp).
  assert (Hp1 : order_prices h (p :: l) = Order.price po :: order_prices h l)
    by (unfold order_prices; simpl; by rewrite Hp).
  assert (Hpl : p ∉ l) by (by apply NoDup_cons in Hnd as [? _]).
  assert (Hol : order ∉ l) by (intros ?; apply Hnl; by right).
  assert (Hh2l : ∀ a, a ∈ l → h2 !! a = h !! a).
  { intros a Ha. unfold h2. rewrite !lookup_insert_ne; [done|..]; by intros ->. }
  (* the body of the loop *)
  rewrite Hr1, Hp1.
  cbn [head OrderBook.match_fifo]. rewrite Ho. simpl.
  rewrite decide_True by done. rewrite Hp. simpl.
  unfold OrderBook.execute_trade. rewrite Ho, Hp. simpl.
  rewrite lookup_insert_ne by done. rewrite Hp. simpl.
  rewrite HL. simpl. rewrite lookup_insert_eq. simpl.
  fold m. rewrite (u32_small (Order.remaining_quantity o - m)) by lia.
  rewrite (u32_small (Order.remaining_quantity po - m)) by lia.
  fold o1 p1 h2 lv2.
  set (r := ExecutionReport.mk _ _ _ _ _ _ _).
  set (b2 := OrderBook.set_pool _ _).
  assert (HL2 : OrderBook.price_level_pool_ b2 !! contra = Some lv2)
    by apply lookup_insert_eq.
  cbn [greedy filled_prefix]. rewrite !(decide_True (P:=Order.remaining_quantity o > 0)) by done. fold m.
  destruct (decide (Order.remaining_quantity po - m = 0)) as [Hz|Hnz].
  - (* the resting order is filled and leaves the level *)
    destruct (PriceLevel_remove_order_dll contra p h2
                (OrderBook.price_level_pool_ b2) lv2 (p :: l) 0%nat HL2 Hd2 eq_refl)
      as (h3 & lv3 & p2 & Hp2 & Hrm & Hd3 & Hp3 & Htf3 & _ & _ & Hfr3 & Hcore3).
    pose proof (PriceLevel_remove_order_static _ _ _ _ _ _ Hrm) as Hst3.
    change (<[contra:=lv2]> (OrderBook.price_level_pool_ b))
      with (OrderBook.price_level_pool_ b2).
    rewrite Hrm. simpl. rewrite Hp3. simpl.
    set (b3 := OrderBook.set_order_count_ _ _).
    assert (Ho3 : h3 !! order = Some o1) by (by rewrite Hfr3).
    assert (Hhead : Order.next po = head l) by (rewrite Hnx; by destruct l).
    rewrite Hhead.
    destruct (IH fuel h3 b3 (rs ++ [r]) lv3 o1)
      as (h' & b' & news & lv' & Hmf & Hq & Hpr & HL' & Hd' & Htf'); try done.
    { apply lookup_insert_eq. }
    { intros a oa Ha. pose proof (core_fmap_lookup _ _ a Hcore3) as E.
      rewrite Ha in E. destruct (h2 !! a) as [ob|] eqn:Hb; [|done].
      simpl in E. injection E as _ _ E. rewrite E. by apply (Ht2 a). }
    { simpl in Hfuel. lia. }
    exists h', b', (r :: news), lv'. rewrite Hmf. rewrite <- app_assoc.
    split; [done|].
    assert (Er : rems h3 l = rems h l).
    { rewrite (rems_core h2 h3) by done. by apply rems_ext. }
    assert (Ep : order_prices h3 l = order_prices h l).
    { apply order_prices_ext. intros a Ha. rewrite <- (Hh2l a Ha).
      assert (E := f_equal (λ m : gmap addr _, fst <$> m !! a) Hst3).
      simpl in E. rewrite !lookup_fmap in E.
      clear -E. destruct (h3 !! a), (h2 !! a); simpl in E |- *; congruence. }
    rewrite Er in Hq, Hd'. rewrite Ep in Hpr.
    assert (Em : m = Order.remaining_quantity po) by lia.
    split; [simpl; f_equal; exact Hq|].
    split; [simpl; f_equal; exact Hpr|].
    split; [done|]. split; [|by rewrite Htf', Htf3].
    rewrite decide_True by lia. simpl. rewrite <- Em. exact Hd'.
  - (* the incoming order is used up *)
    simpl.
    rewrite (match_fifo_done _ _ _ _ _ _ _ o1) by (done || (simpl; lia)).
    exists h2, b2, [r], lv2. split; [done|].
    rewrite greedy_done by lia. split; [done|]. split; [done|].
    split; [done|]. split; [|done].
    rewrite decide_False by lia. done.
Qed.

(** X16.  Time priority inside a price level.  The inner loop of
    [match_order], started at the head of a level whose FIFO [l] is a
    well-formed doubly linked list, for an incoming order that is not in
    it: the loop returns; it appends one report per resting order it
    trades with, in the order of [l]; the quantities are those of serving
    [l] strictly from the front (each resting order gives all it has until
    the incoming quantity is used up) and the price of each report is the
    price of the resting order; the resting orders that were filled leave
    the level, which afterwards holds the rest of [l] in the same order
    and is again well formed. *)
Theorem X16_a_level_is_matched_in_arrival_order
  fuel order contra (h : heap) b rs lv l o :
  OrderBook.price_level_pool_ b !! contra = Some lv →
  dll h contra lv l →
  h !! order = Some o → order ∉ l →
  heap_typed h → (length l ≤ fuel)%nat →
  ∃ h' b' news lv',
    OrderBook.match_fifo fuel order contra (PriceLevel.head_order lv) h b rs
    = Some (h', b', rs ++ news)
    ∧ ExecutionReport.executed_quantity <$> news
      = greedy (Order.remaining_quantity o) (rems h l)
    ∧ ExecutionReport.price <$> news
      = take (length news) (order_prices h l)
    ∧ OrderBook.price_level_pool_ b' !! contra = Some lv'
    ∧ dll h' contra lv'
        (drop (filled_prefix (Order.remaining_quantity o) (rems h l)) l).
Proof.
  intros HL Hd Ho Hnl Ht Hfuel.
  destruct (match_fifo_priority order contra l fuel h b rs lv o
              HL Hd Ho Hnl Ht Hfuel)
    as (h' & b' & news & lv' & Hm & Hq & Hp & HL' & Hd' & _).
  exists h', b', news, lv'.
  destruct Hd as (_ & -> & _). done.
Qed.

Lemma crossing_sell_typed : heap_typed heap_crossing_sell.
Proof.
  change (map_Forall (λ _ o, 0 <= Order.remaining_quantity o < 2 ^ 32)
            heap_crossing_sell).
  apply (bool_decide_unpack _). vm_compute. exact I.
Qed.

Lemma crossing_sell_dll :
  dll heap_crossing_sell 0%nat level_two_bids [0%nat; 1%nat].
Proof. dll_concrete. Qed.

Lemma X16_a_level_is_matched_in_arrival_order_witness :
  ∃ h' b' news lv',
    OrderBook.match_fifo 2 2%nat 0%nat (PriceLevel.head_order level_two_bids)
      heap_crossing_sell after_second_bid.2 []
    = Some (h', b', [] ++ news)
    ∧ ExecutionReport.executed_quantity <$> news
      = greedy (Order.remaining_quantity crossing_sell)
          (rems heap_crossing_sell [0%nat; 1%nat])
    ∧ ExecutionReport.price <$> news
      = take (length news) (order_prices heap_crossing_sell [0%nat; 1%nat])
    ∧ OrderBook.price_level_pool_ b' !! 0%nat = Some lv'
    ∧ dll h' 0%nat lv'
        (drop (filled_prefix (Order.remaining_quantity crossing_sell)
                 (rems heap_crossing_sell [0%nat; 1%nat]))
           [0%nat; 1%nat]).
Proof.
  apply (X16_a_level_is_matched_in_arrival_order 2 2%nat 0%nat
           heap_crossing_sell after_second_bid.2 [] level_two_bids
           [0%nat; 1%nat] crossing_sell).
  - vm_compute. reflexivity.
  - exact crossing_sell_dll.
  - vm_compute. reflexivity.
  - apply (bool_decide_unpack _). vm_compute. exact I.
  - exact crossing_sell_typed.
  - simpl. lia.
Defined.

Section OtherSymbols.
Import MatchingEngine.

Lemma with_book_other sym sym' (e : t) :
  sym' ≠ sym →
  books_ (with_book sym e).2 !! sym' = books_ e !! sym'.
Proof.
  intros Hne. unfold with_book. destruct (get_book sym e); simpl; [done|].
  by rewrite lookup_insert_ne.
Qed.

Lemma step_other_symbol fuel ev sym e e' :
  event_symbol ev ≠ sym → step fuel ev e = Some e' →
  get_book sym e' = get_book sym e.
Proof.
  intros Hne H. destruct ev as [s id ts p q sd ty|s id|s id q]; simpl in *.
  - rewrite submit_order_unfold in H.
    pose proof (with_book_other s sym e (not_eq_sym Hne)) as Hw.
    destruct (with_book s e) as [book e0]. simpl in Hw.
    destruct (decide _).
    + injection H as <-. exact Hw.
    + cbv zeta in H.
      destruct (settle_order _ _ _ _ _ _ _) as [[[h b] rs]|]; [|done].
      simpl in H. injection H as <-. unfold get_book. simpl.
      by rewrite lookup_insert_ne.
  - unfold cancel_order in H. destruct (get_book s e) as [b|]; [|by injection H as <-].
    destruct (OrderBook.cancel_order _ _ _ _) as [[h b']|]; [|done].
    injection H as <-. unfold get_book. simpl. by rewrite lookup_insert_ne.
  - unfold modify_order in H. destruct (get_book s e) as [b|]; [|by injection H as <-].
    destruct (OrderBook.modify_order _ _ _ _) as [[h b']|]; [|done].
    injection H as <-. unfold get_book. simpl. by rewrite lookup_insert_ne.
Qed.

End OtherSymbols.

(** ** The slots of the order store an operation of a book writes *)

Lemma links_in_insert S (h : heap) a o :
  links_in S h →
  (∀ x, Order.next o = Some x ∨ Order.prev o = Some x → S x) →
  links_in S (<[a := o]> h).
Proof.
  intros Hh Ho a' o' x Sa Ha Hx. destruct (decide (a = a')) as [->|Hne].
  - rewrite lookup_insert_eq in Ha. simplify_eq. by apply Ho.
  - rewrite lookup_insert_ne in Ha by done. by eapply Hh.
Qed.

Lemma ends_in_insert S (L : PriceLevel.pool) l lv :
  ends_in S L →
  (∀ x, PriceLevel.head_order lv = Some x ∨ PriceLevel.tail_order lv = Some x →
        S x) →
  ends_in S (<[l := lv]> L).
Proof.
  intros HL Hlv l' lv' x Hl Hx. destruct (decide (l = l')) as [->|Hne].
  - rewrite lookup_insert_eq in Hl. simplify_eq. by apply Hlv.
  - rewrite lookup_insert_ne in Hl by done. by eapply HL.
Qed.

Lemma links_in_next S (h : heap) a o x :
  links_in S h → S a → h !! a = Some o → Order.next o = Some x → S x.
Proof. intros H Sa Ha Hx. eapply H; eauto. Qed.

Lemma links_in_prev S (h : heap) a o x :
  links_in S h → S a → h !! a = Some o → Order.prev o = Some x → S x.
Proof. intros H Sa Ha Hx. eapply H; eauto. Qed.

Lemma ends_in_head S (L : PriceLevel.pool) l lv x :
  ends_in S L → L !! l = Some lv → PriceLevel.head_order lv = Some x → S x.
Proof. intros H Hl Hx. eapply H; eauto. Qed.

Lemma ends_in_tail S (L : PriceLevel.pool) l lv x :
  ends_in S L → L !! l = Some lv → PriceLevel.tail_order lv = Some x → S x.
Proof. intros H Hl Hx. eapply H; eauto. Qed.

Lemma same_outside_refl S h : same_outside S h h.
Proof. by intros a _. Qed.

Lemma same_outside_trans S h1 h2 h3 :
  same_outside S h1 h2 → same_outside S h2 h3 → same_outside S h1 h3.
Proof. intros H12 H23 a Ha. by rewrite H23, H12. Qed.

Lemma same_outside_insert S (h h' : heap) a o :
  S a → same_outside S h h' → same_outside S h (<[a := o]> h').
Proof.
  intros Sa H x Hx. rewrite lookup_insert_ne; [by apply H|]. by intros ->.
Qed.

Ltac inside :=
  lazymatch goal with
  | |- links_in _ (<[_ := _]> _) =>
      apply links_in_insert;
      [inside | simpl; intros ? [?|?]; simplify_eq; inside]
  | |- ends_in _ (<[_ := _]> _) =>
      apply ends_in_insert;
      [inside | simpl; intros ? [?|?]; simplify_eq; inside]
  | |- same_outside _ ?h ?h => apply same_outside_refl
  | |- same_outside _ _ (<[_ := _]> _) =>
      apply same_outside_insert; [inside | inside]
  | |- links_in _ _ => assumption
  | |- ends_in _ _ => assumption
  | |- same_outside _ _ _ => assumption
  | |- ?S ?x =>
      first
        [ assumption
        | match goal with
          | Hx : Order.next ?o = Some x, Ho : ?h !! ?a = Some ?o |- _ =>
              apply (links_in_next S h a o x); [inside | inside | exact Ho | exact Hx]
          | Hx : Order.prev ?o = Some x, Ho : ?h !! ?a = Some ?o |- _ =>
              apply (links_in_prev S h a o x); [inside | inside | exact Ho | exact Hx]
          | Hx : PriceLevel.head_order ?lv = Some x, Hl : ?L !! ?l = Some ?lv |- _ =>
              apply (ends_in_head S L l lv x); [inside | exact Hl | exact Hx]
          | Hx : PriceLevel.tail_order ?lv = Some x, Hl : ?L !! ?l = Some ?lv |- _ =>
              apply (ends_in_tail S L l lv x); [inside | exact Hl | exact Hx]
          end ]
  end.

Lemma PriceLevel_remove_order_foot S this order h L h' L' :
  PriceLevel.remove_order this order h L = Some (h', L') →
  S order → ends_in S L → links_in S h →
  ends_in S L' ∧ links_in S h' ∧ same_outside S h h'.
Proof.
  unfold PriceLevel.remove_order. intros H So He Hl.
  open_opt; (split; [|split]); inside.
Qed.

Lemma PriceLevel_add_order_foot S this order h L h' L' :
  PriceLevel.add_order this order h L = Some (h', L') →
  S order → ends_in S L → links_in S h →
  ends_in S L' ∧ links_in S h' ∧ same_outside S h h'.
Proof.
  unfold PriceLevel.add_order. intros H So He Hl.
  open_opt; (split; [|split]); inside.
Qed.

Lemma ids_in_delete S (m : gmap Z addr) id : ids_in S m → ids_in S (delete id m).
Proof. intros H id' a Ha. apply lookup_delete_Some in Ha as [_ Ha]. by eapply H. Qed.

Lemma ids_in_insert S (m : gmap Z addr) id a :
  S a → ids_in S m → ids_in S (<[id := a]> m).
Proof.
  intros Sa H id' a' Ha. destruct (decide (id = id')) as [->|Hne].
  - rewrite lookup_insert_eq in Ha. by simplify_eq.
  - rewrite lookup_insert_ne in Ha by done. by eapply H.
Qed.

Lemma relink_parent_ends S level child L rt L' rt' :
  OrderBook.relink_parent level child L rt = Some (L', rt') →
  ends_in S L → ends_in S L'.
Proof. unfold OrderBook.relink_parent. intros H He. open_opt; inside. Qed.

Ltac use_relink_ends S :=
  match goal with
  | Hr : OrderBook.relink_parent _ _ _ _ = Some _ |- _ =>
      apply relink_parent_ends with (S := S) in Hr; [|assumption]
  end.

Lemma remove_level_ends S fuel level L rt L' rt' :
  OrderBook.remove_level fuel level L rt = Some (L', rt') →
  ends_in S L → ends_in S L'.
Proof.
  revert level L rt L' rt'.
  induction fuel as [|fuel IH]; intros level L rt L' rt' H He;
    simpl in H; open_opt; try use_relink_ends S; try inside.
  eapply IH; [eassumption|]. inside.
Qed.

Lemma insert_below_ends S fuel L p new_level current L' :
  OrderBook.insert_below fuel L p new_level current = Some L' →
  ends_in S L → ends_in S L'.
Proof.
  revert L current L'.
  induction fuel as [|fuel IH]; intros L current L' H He;
    simpl in H; open_opt; try inside; eauto.
Qed.

Lemma find_or_create_level_ends S fuel p s b level b' :
  OrderBook.find_or_create_level fuel p s b = Some (level, b') →
  ends_in S (OrderBook.price_level_pool_ b) →
  ends_in S (OrderBook.price_level_pool_ b')
  ∧ OrderBook.orders_ b' = OrderBook.orders_ b.
Proof.
  unfold OrderBook.find_or_create_level, OrderBook.insert_level.
  intros H He. open_opt; try done.
  all: try match goal with
       | Hi : OrderBook.insert_below _ _ _ _ _ = Some _ |- _ =>
           apply insert_below_ends with (S := S) in Hi; [|inside]
       end.
  all: destruct s; simpl; (split; [inside|done]).
Qed.

Lemma add_order_foot S fuel order h b h' b' :
  OrderBook.add_order fuel order h b = Some (h', b') →
  S order → closed S h b →
  closed S h' b' ∧ same_outside S h h'.
Proof.
  intros H So (Hi & He & Hl).
  apply add_order_shape in H
    as (level & b1 & o1 & (o0 & Ho0 & Hf) & Ha & Ho1 & Hmap).
  apply find_or_create_level_ends with (S := S) in Hf as [He1 Hm1]; [|done].
  apply PriceLevel_add_order_foot with (S := S) in Ha as (He' & Hl' & Hs);
    try done.
  split; [|done]. split; [|by split].
  rewrite Hmap, Hm1. by apply ids_in_insert.
Qed.

Lemma cancel_order_foot S fuel id h b h' b' :
  OrderBook.cancel_order fuel id h b = Some (h', b') →
  closed S h b →
  closed S h' b' ∧ same_outside S h h'.
Proof.
  intros H (Hi & He & Hl).
  apply cancel_order_shape in H
    as [(_ & -> & ->)|(order & level & L1 & Hid & Hr & Hmap & HL)].
  { split; [done|apply same_outside_refl]. }
  apply PriceLevel_remove_order_foot with (S := S) in Hr as (He' & Hl' & Hs);
    [|by eapply Hi|done|done].
  split; [|done]. split; [rewrite Hmap; by apply ids_in_delete|].
  split; [|done].
  destruct HL as [->|(rt & rt' & HL)]; [done|]. by eapply remove_level_ends.
Qed.

Lemma modify_order_foot S id q h b h' b' :
  OrderBook.modify_order id q h b = Some (h', b') →
  closed S h b →
  closed S h' b' ∧ same_outside S h h'.
Proof.
  unfold OrderBook.modify_order. intros H (Hi & He & Hl).
  destruct (OrderBook.orders_ b !! id) as [order|] eqn:Hid.
  2:{ simplify_eq. split; [done|apply same_outside_refl]. }
  pose proof (Hi _ _ Hid) as So.
  open_opt. split; [split; [done|split]|]; simpl; inside.
Qed.

Lemma match_fifo_foot S fuel order contra :
  ∀ passive h b rs h' b' rs',
    OrderBook.match_fifo fuel order contra passive h b rs = Some (h', b', rs') →
    S order → (∀ x, passive = Some x → S x) →
    ids_in S (OrderBook.orders_ b) →
    ends_in S (OrderBook.price_level_pool_ b) →
    links_in S h →
    closed S h' b' ∧ same_outside S h h'.
Proof.
  induction fuel as [|fuel IH];
    intros passive h b rs h' b' rs' H So Hpa Hi He Hl;
    (destruct passive as [pa|];
       [|simpl in H; simplify_eq; split; [done|apply same_outside_refl]]);
    simpl in H;
    (destruct (h !! order) as [o|] eqn:Ho; simpl in H; [|done]);
    (destruct (decide (Order.remaining_quantity o > 0));
       [|simplify_eq; split; [done|apply same_outside_refl]]);
    [done|].
  pose proof (Hpa pa eq_refl) as Spa.
  unfold OrderBook.execute_trade in H. rewrite Ho in H. simpl in H.
  destruct (h !! pa) as [p|] eqn:Hp; simpl in H; [|done].
  match type of H with
  | context [<[order := ?x]> h] => set (o1 := x) in *
  end.
  destruct (<[order := o1]> h !! pa) as [p1|] eqn:Hp1; simpl in H; [|done].
  match type of H with
  | context [<[pa := ?x]> (<[order := o1]> h)] => set (p2 := x) in *
  end.
  destruct (OrderBook.price_level_pool_ b !! contra) as [cl|] eqn:Hcl;
    simpl in H; [|done].
  rewrite lookup_insert_eq in H. simpl in H.
  set (h2 := <[pa := p2]> (<[order := o1]> h)) in *.
  assert (Hl2 : links_in S h2) by (subst h2 p2 o1; inside).
  assert (Hs2 : same_outside S h h2) by (subst h2; inside).
  assert (Hn2 : ∀ x, Order.next p1 = Some x → S x)
    by (intros x Hx; subst h2 p2 o1; inside).
  match type of H with
  | context [<[contra := ?x]> (OrderBook.price_level_pool_ b)] =>
      set (cl1 := x) in *
  end.
  assert (He1 : ends_in S (<[contra := cl1]> (OrderBook.price_level_pool_ b)))
    by (subst cl1; inside).
  destruct (decide _) in H.
  - destruct (PriceLevel.remove_order contra pa h2 _)
      as [[h3 L3]|] eqn:Hrm; simpl in H; [|done].
    destruct (h3 !! pa) as [p3|] eqn:Hp3; simpl in H; [|done].
    apply PriceLevel_remove_order_foot with (S := S) in Hrm
      as (He3 & Hl3 & Hs3); [|done|exact He1|done].
    eapply IH in H; [|done|intros x Hx; by apply Hn2| | |]; try done.
    + destruct H as [Hc Hs]. split; [done|].
      eapply same_outside_trans; [|exact Hs].
      eapply same_outside_trans; [exact Hs2|exact Hs3].
    + simpl. by apply ids_in_delete.
  - simpl in H.
    eapply IH in H; [|done|intros x Hx; by apply Hn2| | |]; try done.
    destruct H as [Hc Hs]. split; [done|].
    eapply same_outside_trans; [exact Hs2|exact Hs].
Qed.

Lemma match_levels_foot S fuel0 fuel order :
  ∀ contra_level h b rs h' b' rs',
    OrderBook.match_levels fuel0 fuel order contra_level h b rs
    = Some (h', b', rs') →
    S order → closed S h b →
    closed S h' b' ∧ same_outside S h h'.
Proof.
  induction fuel as [|fuel IH];
    intros contra_level h b rs h' b' rs' H So Hc;
    pose proof Hc as (Hi & He & Hl);
    simpl in H;
    (destruct (h !! order) as [o|] eqn:Ho; simpl in H; [|done]);
    (destruct (decide (Order.remaining_quantity o > 0));
       [|simplify_eq; split; [done|apply same_outside_refl]]);
    (destruct contra_level as [contra|];
       [|simplify_eq; split; [done|apply same_outside_refl]]);
    [done|].
  destruct (OrderBook.price_level_pool_ b !! contra) as [cl|] eqn:Hcl;
    simpl in H; [|done].
  match type of H with
  | (if ?c then _ else _) = _ =>
      destruct c; [simplify_eq; split; [done|apply same_outside_refl]|]
  end.
  destruct (OrderBook.match_fifo fuel0 order contra (PriceLevel.head_order cl) h b rs)
    as [[[h1 b1] rs1]|] eqn:Hfifo; simpl in H; [|done].
  eapply (match_fifo_foot S) in Hfifo as [Hc1 Hs1];
    [|exact So|intros x Hx; inside|exact Hi|exact He|exact Hl].
  destruct (OrderBook.price_level_pool_ b1 !! contra) as [cl1|] eqn:Hcl1;
    simpl in H; [|done].
  destruct (decide (PriceLevel.order_count cl1 = 0));
    [|simplify_eq; by split].
  destruct (h1 !! order) as [o1|] eqn:Ho1; simpl in H; [|done].
  destruct (OrderBook.remove_level fuel0 contra _ _) as [[L rt]|] eqn:Hrm;
    simpl in H; [|done].
  destruct Hc1 as (Hi1 & He1 & Hl1).
  apply remove_level_ends with (S := S) in Hrm; [|done].
  eapply IH in H; [|exact So|].
  - destruct H as [Hc' Hs']. split; [done|].
    eapply same_outside_trans; [exact Hs1|exact Hs'].
  - by destruct (OrderBook.contra_side (Order.side o1)).
Qed.

Lemma match_order_foot S fuel order h b rs h' b' :
  OrderBook.match_order fuel order h b = Some (h', b', rs) →
  S order → closed S h b →
  closed S h' b' ∧ same_outside S h h'.
Proof.
  unfold OrderBook.match_order. intros H So Hc.
  destruct (h !! order) as [o|]; simpl in H; [|done].
  destruct (_ && _).
  - simplify_eq. split; [done|apply same_outside_refl].
  - by eapply (match_levels_foot S).
Qed.

Lemma settle_order_foot S fuel order p s ty h b h' b' rs :
  settle_order fuel order p s ty h b = Some (h', b', rs) →
  S order → closed S h b →
  closed S h' b' ∧ same_outside S h h'.
Proof.
  unfold settle_order. intros H So Hc.
  destruct (MatchingEngine.is_aggressive p s ty b) as [aggressive|];
    simpl in H; [|done].
  assert (Hm : ∃ h1 b1 rs1,
             (if aggressive then OrderBook.match_order fuel order h b
              else Some (h, b, [])) = Some (h1, b1, rs1)
             ∧ closed S h1 b1 ∧ same_outside S h h1).
  { destruct aggressive.
    - destruct (OrderBook.match_order fuel order h b) as [[[h1 b1] rs1]|] eqn:Hmo;
        [|done].
      eapply (match_order_foot S) in Hmo as [? ?]; [|done|done].
      by exists h1, b1, rs1.
    - exists h, b, []. split; [done|]. split; [done|apply same_outside_refl]. }
  destruct Hm as (h1 & b1 & rs1 & Hm & Hc1 & Hs1).
  rewrite Hm in H. simpl in H.
  destruct (h1 !! order) as [o1|]; simpl in H; [|done].
  destruct (_ && _).
  - destruct (OrderBook.add_order fuel order h1 b1) as [[h2 b2]|] eqn:Hadd;
      simpl in H; [|done].
    simplify_eq. eapply (add_order_foot S) in Hadd as [Hc2 Hs2]; [|done|done].
    split; [done|]. by eapply same_outside_trans.
  - by simplify_eq.
Qed.

(** ** What a book reaches in the order store *)

Lemma book_order_closed h b : closed (book_order h b) h b.
Proof.
  split; [|split].
  - intros id a Ha. by eapply order_by_id.
  - intros l lv a Hl [Ha|Ha]; [by eapply order_head|by eapply order_tail].
  - intros a o x Ha Ho [Hx|Hx]; [by eapply order_next|by eapply order_prev].
Qed.

Lemma book_order_least S h b a : closed S h b → book_order h b a → S a.
Proof.
  intros (Hi & He & Hl) H. induction H.
  - by eapply Hi.
  - eapply He; eauto.
  - eapply He; eauto.
  - eapply Hl; eauto.
  - eapply Hl; eauto.
Qed.

Lemma book_order_init h a : ¬ book_order h OrderBook.init a.
Proof.
  intros H. induction H; try done.
  all: simpl in *; by rewrite lookup_empty in *.
Qed.

Lemma book_order_ext (h h' : heap) b :
  (∀ a, book_order h b a → h' !! a = h !! a) →
  ∀ a, book_order h' b a ↔ book_order h b a.
Proof.
  intros Hext a. split; intros H; induction H.
  1-3, 6-8: eauto using book_order.
  - eapply order_next; [done| |done]. by rewrite <- Hext.
  - eapply order_prev; [done| |done]. by rewrite <- Hext.
  - eapply order_next; [done| |done]. by rewrite Hext.
  - eapply order_prev; [done| |done]. by rewrite Hext.
Qed.

Section Apart.
Import MatchingEngine.

Lemma apart_update (e e' : t) sym b' (S : addr → Prop) :
  books_apart e →
  books_ e' = <[sym := b']> (books_ e) →
  closed S (order_pool_ e') b' →
  same_outside S (order_pool_ e) (order_pool_ e') →
  (∀ a, S a →
        book_order (order_pool_ e) (target_book sym e) a
        ∨ (a = Z.to_nat (pool_index_ e) ∧ pool_index_ e < pool_index_ e')) →
  pool_index_ e <= pool_index_ e' →
  books_apart e'
  ∧ ∀ s2 b2 a, s2 ≠ sym → books_ e !! s2 = Some b2 →
               book_order (order_pool_ e) b2 a →
               order_pool_ e' !! a = order_pool_ e !! a.
Proof.
  intros (Hpos & Hdom & Hbelow & Hdis) Hbooks Hc Hs HS Hle.
  assert (HA : ∀ a, book_order (order_pool_ e) (target_book sym e) a →
                    (a < Z.to_nat (pool_index_ e))%nat
                    ∧ ∀ s2 b2, s2 ≠ sym → books_ e !! s2 = Some b2 →
                               ¬ book_order (order_pool_ e) b2 a).
  { unfold target_book, get_book. intros a Ha.
    destruct (books_ e !! sym) as [bk|] eqn:Hbk; simpl in Ha.
    - split; [by eapply Hbelow|]. intros s2 b2 Hne Hb2.
      by eapply (Hdis sym s2).
    - by apply book_order_init in Ha. }
  assert (HB : ∀ s2 b2 a, s2 ≠ sym → books_ e !! s2 = Some b2 →
                          book_order (order_pool_ e) b2 a → ¬ S a).
  { intros s2 b2 a Hne Hb2 Ha Sa. destruct (HS a Sa) as [Hr|[-> _]].
    - destruct (HA a Hr) as [_ Hn]. by eapply Hn.
    - specialize (Hbelow _ _ _ Hb2 Ha). lia. }
  assert (HF : ∀ s2 b2 a, s2 ≠ sym → books_ e !! s2 = Some b2 →
                          book_order (order_pool_ e) b2 a →
                          order_pool_ e' !! a = order_pool_ e !! a).
  { intros s2 b2 a Hne Hb2 Ha. apply Hs. by eapply HB. }
  assert (HE : ∀ s2 b2 a, s2 ≠ sym → books_ e !! s2 = Some b2 →
                          book_order (order_pool_ e') b2 a
                          ↔ book_order (order_pool_ e) b2 a).
  { intros s2 b2 a Hne Hb2. apply book_order_ext. intros x Hx. by eapply HF. }
  assert (HSb : ∀ a, S a → (a < Z.to_nat (pool_index_ e'))%nat).
  { intros a Sa. destruct (HS a Sa) as [Hr|[-> ?]]; [|lia].
    destruct (HA a Hr) as [? _]. lia. }
  split; [|exact HF]. split; [lia|]. split; [|split].
  - intros a Hsome.
    destruct (decide (a < Z.to_nat (pool_index_ e'))%nat) as [|Hge]; [done|].
    rewrite Hs in Hsome by (intros Sa; apply Hge; by apply HSb).
    specialize (Hdom _ Hsome). lia.
  - intros s b a Hb Hr. rewrite Hbooks in Hb.
    destruct (decide (s = sym)) as [->|Hne].
    + rewrite lookup_insert_eq in Hb. injection Hb as <-.
      apply HSb. by eapply book_order_least.
    + rewrite lookup_insert_ne in Hb by done.
      apply (HE s b a Hne Hb) in Hr. specialize (Hbelow _ _ _ Hb Hr). lia.
  - intros s1 s2 b1 b2 a Hne H1 H2 R1 R2. rewrite Hbooks in H1, H2.
    destruct (decide (s1 = sym)) as [->|Hne1];
      destruct (decide (s2 = sym)) as [->|Hne2]; [done| | |].
    + rewrite lookup_insert_eq in H1. injection H1 as <-.
      rewrite lookup_insert_ne in H2 by done.
      apply (HE s2 b2 a Hne2 H2) in R2.
      apply (HB s2 b2 a Hne2 H2 R2). by eapply book_order_least.
    + rewrite lookup_insert_eq in H2. injection H2 as <-.
      rewrite lookup_insert_ne in H1 by done.
      apply (HE s1 b1 a Hne1 H1) in R1.
      apply (HB s1 b1 a Hne1 H1 R1). by eapply book_order_least.
    + rewrite lookup_insert_ne in H1, H2 by done.
      apply (HE s1 b1 a Hne1 H1) in R1. apply (HE s2 b2 a Hne2 H2) in R2.
      by eapply (Hdis s1 s2).
Qed.

Lemma insert_target_book sym (e : t) b :
  get_book sym e = Some b → <[sym := b]> (books_ e) = books_ e.
Proof. intros H. by apply insert_id. Qed.

Lemma fill_slot_closed (e : t) b id ts p q s ty :
  books_apart e →
  let new := Z.to_nat (pool_index_ e) in
  let S := λ a, book_order (order_pool_ e) b a ∨ a = new in
  closed S (fill_slot new id ts p q s ty (order_pool_ e)) b
  ∧ same_outside S (order_pool_ e) (fill_slot new id ts p q s ty (order_pool_ e)).
Proof.
  intros (Hpos & Hdom & _) new S.
  assert (Hnew : order_pool_ e !! new = None).
  { destruct (order_pool_ e !! new) eqn:E; [|done].
    assert (new < new)%nat by (apply Hdom; by rewrite E). lia. }
  unfold fill_slot. rewrite Hnew. simpl. split; [split; [|split]|].
  - intros k a Ha. left. by eapply order_by_id.
  - intros l lv a Hl [Ha|Ha]; left; [by eapply order_head|by eapply order_tail].
  - intros a o x Sa Ho Hx. destruct (decide (a = new)) as [->|Hne].
    + rewrite lookup_insert_eq in Ho. injection Ho as <-. simpl in Hx.
      by destruct Hx.
    + rewrite lookup_insert_ne in Ho by done. destruct Sa as [Sa|]; [|done].
      left. destruct Hx; [by eapply order_next|by eapply order_prev].
  - intros a Ha. rewrite lookup_insert_ne; [done|]. intros <-. apply Ha. by right.
Qed.

Lemma step_apart fuel ev e e' :
  step fuel ev e = Some e' →
  (is_submit ev → pool_index_ e + 1 < 2 ^ 64) →
  books_apart e →
  books_apart e'
  ∧ ∀ s2 b2 a, s2 ≠ event_symbol ev → books_ e !! s2 = Some b2 →
               book_order (order_pool_ e) b2 a →
               order_pool_ e' !! a = order_pool_ e !! a.
Proof.
  intros H Hlt Hap. pose proof Hap as (Hpos & _).
  destruct ev as [sym id ts p q s ty|sym id|sym id q]; simpl in *.
  - specialize (Hlt I).
    assert (Hu : u64 (pool_index_ e + 1) = pool_index_ e + 1)
      by (unfold u64; apply Z.mod_small; lia).
    rewrite submit_order_unfold in H.
    assert (Hwb : ∃ e0, with_book sym e = (target_book sym e, e0)
                        ∧ order_pool_ e0 = order_pool_ e
                        ∧ pool_index_ e0 = pool_index_ e
                        ∧ books_ e0 = <[sym := target_book sym e]> (books_ e)).
    { unfold with_book, target_book.
      destruct (get_book sym e) as [book|] eqn:Hb; simpl.
      - exists e. by rewrite (insert_target_book _ _ _ Hb).
      - by eexists. }
    destruct Hwb as (e0 & Hw & Hp0 & Hi0 & Hb0). rewrite Hw in H.
    destruct (decide (pool_index_ e >= order_pool_size (config_ e))).
    + injection H as <-.
      apply (apart_update e _ sym (target_book sym e)
               (book_order (order_pool_ e) (target_book sym e))); simpl;
        rewrite ?Hp0, ?Hi0, ?Hb0, ?Hu.
      * exact Hap.
      * reflexivity.
      * apply book_order_closed.
      * apply same_outside_refl.
      * intros a Ha. by left.
      * lia.
    + cbv zeta in H.
      destruct (settle_order _ _ _ _ _ _ _) as [[[h b] rs]|] eqn:Hs;
        simpl in H; [|done].
      injection H as <-.
      destruct (fill_slot_closed e (target_book sym e) id ts p q s ty Hap)
        as [Hc0 Hs0].
      eapply (settle_order_foot
                (λ a, book_order (order_pool_ e) (target_book sym e) a
                      ∨ a = Z.to_nat (pool_index_ e))) in Hs as [Hc1 Hs1];
        [|by right|exact Hc0].
      match goal with |- context [push_reports ?rs ?x] =>
        destruct (push_reports_frame rs x) as (Hq1 & _ & Hq2 & _) end.
      eapply (apart_update e _ sym b); simpl; rewrite ?Hq1, ?Hq2; simpl;
        rewrite ?Hi0, ?Hu.
      * exact Hap.
      * by rewrite Hb0, insert_insert_eq.
      * exact Hc1.
      * by eapply same_outside_trans.
      * intros a [Ha| ->]; [by left|right; split; [done|lia]].
      * lia.
  - unfold cancel_order in H.
    destruct (get_book sym e) as [book|] eqn:Hb; [|by injection H as <-].
    destruct (OrderBook.cancel_order _ _ _ _) as [[h b]|] eqn:Hc; [|done].
    injection H as <-.
    eapply (cancel_order_foot (book_order (order_pool_ e) book)) in Hc
      as [Hc1 Hs1]; [|apply book_order_closed].
    eapply (apart_update e _ sym b); simpl.
    + exact Hap.
    + reflexivity.
    + exact Hc1.
    + exact Hs1.
    + intros a Ha. left. unfold target_book. by rewrite Hb.
    + lia.
  - unfold modify_order in H.
    destruct (get_book sym e) as [book|] eqn:Hb; [|by injection H as <-].
    destruct (OrderBook.modify_order _ _ _ _) as [[h b]|] eqn:Hc; [|done].
    injection H as <-.
    eapply (modify_order_foot (book_order (order_pool_ e) book)) in Hc
      as [Hc1 Hs1]; [|apply book_order_closed].
    eapply (apart_update e _ sym b); simpl.
    + exact Hap.
    + reflexivity.
    + exact Hc1.
    + exact Hs1.
    + intros a Ha. left. unfold target_book. by rewrite Hb.
    + lia.
Qed.

Lemma books_apart_init cfg errors : books_apart (init_at cfg errors).
Proof.
  split; [simpl; lia|]. split; [|split].
  - intros a [o Ha]. simpl in Ha. by rewrite lookup_empty in Ha.
  - intros sym b a Hb. simpl in Hb. by rewrite lookup_empty in Hb.
  - intros s1 s2 b1 b2 a _ Hb. simpl in Hb. by rewrite lookup_empty in Hb.
Qed.

Lemma count_submits_app evs1 evs2 :
  count_submits (evs1 ++ evs2) = (count_submits evs1 + count_submits evs2)%nat.
Proof. induction evs1 as [|ev evs1 IH]; simpl; [done|]. rewrite IH. lia. Qed.

Lemma run_apart fuel evs : ∀ e e',
  run fuel evs e = Some e' →
  pool_index_ e + Z.of_nat (count_submits evs) < 2 ^ 64 →
  books_apart e →
  books_apart e'
  ∧ pool_index_ e' = pool_index_ e + Z.of_nat (count_submits evs).
Proof.
  induction evs as [|ev evs IH]; intros e e' H Hlt Hap; simpl in H.
  - simplify_eq. simpl. split; [done|lia].
  - destruct (step fuel ev e) as [e1|] eqn:Hs; simpl in H; [|done].
    pose proof Hap as (Hpos & _).
    pose proof (step_pool_index _ _ _ _ Hs) as [Hp1 _].
    cbn [count_submits] in Hlt |- *.
    assert (Hp1' : pool_index_ e1
                   = pool_index_ e + (if is_submit ev then 1 else 0)).
    { rewrite Hp1. destruct (is_submit ev); [|lia].
      unfold u64. apply Z.mod_small. lia. }
    apply step_apart in Hs as [Hap1 _]; [|destruct (is_submit ev); [intros _; lia|done]|done].
    apply IH in H as [Hap' Hp']; [|destruct (is_submit ev); lia|done].
    split; [done|]. rewrite Hp', Hp1'. destruct (is_submit ev); lia.
Qed.

Lemma run_other_symbols fuel sym evs : ∀ e e',
  Forall (λ ev, event_symbol ev ≠ sym) evs →
  run fuel evs e = Some e' →
  pool_index_ e + Z.of_nat (count_submits evs) < 2 ^ 64 →
  books_apart e →
  get_book sym e' = get_book sym e
  ∧ ∀ b a, get_book sym e = Some b →
           book_order (order_pool_ e) b a →
           order_pool_ e' !! a = order_pool_ e !! a.
Proof.
  induction evs as [|ev evs IH]; intros e e' Hall H Hlt Hap; simpl in H.
  - by simplify_eq.
  - destruct (step fuel ev e) as [e1|] eqn:Hs; simpl in H; [|done].
    apply Forall_cons in Hall as [Hev Hall].
    pose proof Hap as (Hpos & _).
    pose proof (step_pool_index _ _ _ _ Hs) as [Hp1 _].
    pose proof (step_other_symbol _ _ _ _ _ Hev Hs) as Hbk.
    cbn [count_submits] in Hlt.
    assert (Hp1' : pool_index_ e1
                   = pool_index_ e + (if is_submit ev then 1 else 0)).
    { rewrite Hp1. destruct (is_submit ev); [|lia].
      unfold u64. apply Z.mod_small. lia. }
    apply step_apart in Hs as [Hap1 Hfr]; [|destruct (is_submit ev); [intros _; lia|done]|done].
    apply IH in H as [Hbk' Hfr']; [|done|destruct (is_submit ev); lia|done].
    split; [congruence|]. intros b a Hb Ha.
    assert (Hsame : ∀ x, book_order (order_pool_ e) b x →
                         order_pool_ e1 !! x = order_pool_ e !! x).
    { intros x Hx. apply (Hfr sym b x); [by apply not_eq_sym|exact Hb|exact Hx]. }
    rewrite (Hfr' b a).
    + by apply Hsame.
    + congruence.
    + by apply (book_order_ext _ _ _ Hsame).
Qed.

(** X17.  The books are independent.  On an engine that was built and
    has then run any stream of events, a further stream of submissions,
    cancellations and modifications that all name other symbols leaves the
    book of a symbol exactly as it was (and creates none for it), and leaves
    every order record that book can reach in the shared order store (the
    orders of its id map and of the FIFOs of its levels, with their
    quantities, links and back-pointers) exactly as it was; the pool cursor
    is assumed not to wrap around. *)
Theorem X17_events_leave_other_books_alone
  fuel cfg errors evs0 evs sym e e' :
  run fuel evs0 (init_at cfg errors) = Some e →
  run fuel evs e = Some e' →
  Forall (λ ev, event_symbol ev ≠ sym) evs →
  Z.of_nat (count_submits (evs0 ++ evs)) < 2 ^ 64 →
  get_book sym e' = get_book sym e
  ∧ ∀ b a, get_book sym e = Some b →
           book_order (order_pool_ e) b a →
           order_pool_ e' !! a = order_pool_ e !! a
           ∧ book_order (order_pool_ e') b a.
Proof.
  intros H0 H Hall Hlt. rewrite count_submits_app in Hlt.
  apply run_apart in H0 as [Hap Hp]; [|simpl; lia|apply books_apart_init].
  simpl in Hp.
  destruct (run_other_symbols fuel sym evs e e' Hall H ltac:(lia) Hap)
    as [Hbk Hfr].
  split; [done|]. intros b a Hb Ha. split; [by eapply Hfr|].
  apply (book_order_ext (order_pool_ e) (order_pool_ e') b); [|done].
  intros x Hx. by eapply Hfr.
Qed.
End Apart.

Lemma X17_events_leave_other_books_alone_witness :
  MatchingEngine.get_book "A" after_second_symbol
  = MatchingEngine.get_book "A" engine_two_symbols
  ∧ ∀ b a,
      MatchingEngine.get_book "A" engine_two_symbols = Some b →
      book_order (MatchingEngine.order_pool_ engine_two_symbols) b a →
      MatchingEngine.order_pool_ after_second_symbol !! a
      = MatchingEngine.order_pool_ engine_two_symbols !! a
      ∧ book_order (MatchingEngine.order_pool_ after_second_symbol) b a.
Proof.
  apply (X17_events_leave_other_books_alone 16 (test_config 100) 0
           two_symbol_orders second_symbol_events "A"
           engine_two_symbols after_second_symbol).
  - apply default_is_Some, (bool_decide_unpack _). vm_compute. exact I.
  - apply default_is_Some, (bool_decide_unpack _). vm_compute. exact I.
  - repeat constructor; simpl; discriminate.
  - vm_compute. reflexivity.
Defined.

Section NothingToRest.
Import MatchingEngine.

Lemma is_aggressive_returns p s ty b :
  best_valid b → is_Some (is_aggressive p s ty b).
Proof.
  intros Hv. unfold is_aggressive. destruct ty; [|done..].
  destruct s.
  - unfold OrderBook.get_best_ask.
    destruct (OrderBook.best_ask_ b) as [a|] eqn:E; [|done].
    destruct (Hv SELL a E) as [l ->]. done.
  - unfold OrderBook.get_best_bid.
    destruct (OrderBook.best_bid_ b) as [a|] eqn:E; [|done].
    destruct (Hv BUY a E) as [l ->]. done.
Qed.

Lemma match_order_nothing fuel order (h : heap) b o :
  h !! order = Some o → Order.remaining_quantity o = 0 →
  OrderBook.match_order fuel order h b = Some (h, b, []).
Proof.
  intros Ho Hz. unfold OrderBook.match_order. rewrite Ho. simpl.
  destruct (_ && _); [done|].
  destruct fuel; simpl; rewrite Ho; simpl; by rewrite decide_False by lia.
Qed.

Lemma settle_order_nothing fuel order id ts p q s ty (h : heap) b :
  q = 0 ∨ ty = CANCEL → best_valid b →
  settle_order fuel order p s ty (fill_slot order id ts p q s ty h) b
  = Some (fill_slot order id ts p q s ty h, b, []).
Proof.
  intros Hq Hv. unfold settle_order.
  destruct (is_aggressive_returns p s ty b Hv) as [ag Hag]. rewrite Hag. simpl.
  assert (Hslot : ∃ o, fill_slot order id ts p q s ty h !! order = Some o
                       ∧ Order.remaining_quantity o = q ∧ Order.type o = ty).
  { unfold fill_slot. eexists. split; [apply lookup_insert_eq|]. done. }
  destruct Hslot as (o & Ho & Hr & Hty).
  assert (Hm : (if ag then OrderBook.match_order fuel order
                             (fill_slot order id ts p q s ty h) b
                else Some (fill_slot order id ts p q s ty h, b, []))
               = Some (fill_slot order id ts p q s ty h, b, [])).
  { destruct ag; [|done]. destruct Hq as [->| ->].
    - by apply (match_order_nothing _ _ _ _ o).
    - by destruct s. }
  rewrite Hm. simpl. rewrite Ho. simpl.
  destruct Hq as [->| ->].
  - rewrite Hr. by rewrite bool_decide_false by lia.
  - by rewrite andb_false_r.
Qed.

(** X18.  An order with nothing to fill and nothing to rest.
    [submit_order] of an order of quantity 0 (of any type), or of an order
    of type CANCEL, while the pool has a free slot: the call returns; the
    book of the symbol is left as it was (it is created empty if the symbol
    is new) and so is every other book; nothing is pushed to the execution
    queue and [total_matches_] does not move; yet the order uses up a pool
    slot and counts in [total_orders_]. *)
Theorem X18_order_with_nothing_to_rest_is_dropped
  fuel sym id ts p q s ty e :
  q = 0 ∨ ty = CANCEL →
  0 <= pool_index_ e < order_pool_size (config_ e) →
  (∀ b, get_book sym e = Some b → best_valid b) →
  ∃ e',
    submit_order fuel sym id ts p q s ty e = Some e'
    ∧ books_ e' = <[sym := default OrderBook.init (get_book sym e)]> (books_ e)
    ∧ execution_queue_ e' = execution_queue_ e
    ∧ total_matches_ e' = total_matches_ e
    ∧ pool_index_ e' = u64 (pool_index_ e + 1)
    ∧ total_orders_ e' = u64 (total_orders_ e + 1)
    ∧ order_pool_ e'
      = fill_slot (Z.to_nat (pool_index_ e)) id ts p q s ty (order_pool_ e).
Proof.
  intros Hq Hidx Hv. rewrite submit_order_unfold.
  assert (Hb : best_valid (with_book sym e).1).
  { unfold with_book. destruct (get_book sym e) as [b|] eqn:E; simpl; [eauto|].
    intros s' a. by destruct s'. }
  assert (Hbooks : <[sym := (with_book sym e).1]> (books_ (with_book sym e).2)
                   = <[sym := default OrderBook.init (get_book sym e)]> (books_ e)).
  { unfold with_book. destruct (get_book sym e) as [b|] eqn:E; simpl; [done|].
    by rewrite insert_insert_eq. }
  assert (Hrest : execution_queue_ (with_book sym e).2 = execution_queue_ e
                  ∧ total_matches_ (with_book sym e).2 = total_matches_ e).
  { unfold with_book. by destruct (get_book sym e). }
  destruct (with_book sym e) as [book e0]. simpl in Hb, Hbooks, Hrest.
  rewrite decide_False by lia. cbv zeta.
  rewrite (settle_order_nothing _ _ _ _ _ _ _ _ _ _ Hq Hb). simpl.
  eexists. split; [reflexivity|]. simpl. by destruct Hrest.
Qed.

End NothingToRest.

Lemma one_bid_best_valid : best_valid book_one_bid.
Proof.
  intros s a E. destruct s; vm_compute in E; [|done].
  injection E as <-. vm_compute. eauto.
Qed.

Lemma X18_order_with_nothing_to_rest_is_dropped_witness :
  ∃ e',
    MatchingEngine.submit_order 16 "A" 9 9 100000 0 SELL MARKET engine_one_bid
    = Some e'
    ∧ MatchingEngine.books_ e'
      = <["A" := default OrderBook.init
                   (MatchingEngine.get_book "A" engine_one_bid)]>
          (MatchingEngine.books_ engine_one_bid)
    ∧ MatchingEngine.execution_queue_ e'
      = MatchingEngine.execution_queue_ engine_one_bid
    ∧ MatchingEngine.total_matches_ e'
      = MatchingEngine.total_matches_ engine_one_bid
    ∧ MatchingEngine.pool_index_ e'
      = u64 (MatchingEngine.pool_index_ engine_one_bid + 1)
    ∧ MatchingEngine.total_orders_ e'
      = u64 (MatchingEngine.total_orders_ engine_one_bid + 1)
    ∧ MatchingEngine.order_pool_ e'
      = fill_slot (Z.to_nat (MatchingEngine.pool_index_ engine_one_bid))
          9 9 100000 0 SELL MARKET
          (MatchingEngine.order_pool_ engine_one_bid).
Proof.
  apply (X18_order_with_nothing_to_rest_is_dropped 16 "A" 9 9 100000 0
           SELL MARKET engine_one_bid).
  - by left.
  - vm_compute. split; [discriminate|reflexivity].
  - intros b Hb.
    assert (E : MatchingEngine.get_book "A" engine_one_bid = Some book_one_bid).
    { apply default_is_Some, (bool_decide_unpack _). vm_compute. exact I. }
    rewrite E in Hb. injection Hb as <-. exact one_bid_best_valid.
Defined.

Section FeedFacts.
Import FeedHandler.

Lemma byte_val_range b : 0 <= byte_val b < 256.
Proof. unfold byte_val. pose proof (Byte.to_N_bounded b). lia. Qed.

Lemma load_le_range bs : 0 <= load_le bs < 256 ^ Z.of_nat (length bs).
Proof.
  induction bs as [|b bs IH]; simpl load_le; [simpl; lia|].
  pose proof (byte_val_range b).
  replace (Z.of_nat (length (b :: bs))) with (Z.of_nat (length bs) + 1)
    by (simpl; lia).
  rewrite Z.pow_add_r by lia. lia.
Qed.

Lemma load_be_acc acc bs :
  foldl (λ acc b, acc * 256 + byte_val b) acc bs
  = acc * 256 ^ Z.of_nat (length bs) + load_be bs.
Proof.
  unfold load_be. revert acc. induction bs as [|b bs IH]; intros acc.
  - simpl. lia.
  - cbn [foldl]. rewrite IH. rewrite (IH (0 * 256 + byte_val b)).
    replace (Z.of_nat (length (b :: bs))) with (Z.of_nat (length bs) + 1)
      by (simpl; lia).
    rewrite Z.pow_add_r by lia. lia.
Qed.

Lemma load_be_cons b bs :
  load_be (b :: bs) = byte_val b * 256 ^ Z.of_nat (length bs) + load_be bs.
Proof.
  unfold load_be at 1. cbn [foldl]. rewrite load_be_acc. lia.
Qed.

Lemma load_be_range bs : 0 <= load_be bs < 256 ^ Z.of_nat (length bs).
Proof.
  induction bs as [|b bs IH]; [by cbn|]. rewrite load_be_cons.
  pose proof (byte_val_range b).
  replace (Z.of_nat (length (b :: bs))) with (Z.of_nat (length bs) + 1)
    by (simpl; lia).
  rewrite Z.pow_add_r by lia. nia.
Qed.

Lemma lor_shiftl_low a k y :
  0 <= k → 0 <= y < 2 ^ k → Z.lor (Z.shiftl a k) y = a * 2 ^ k + y.
Proof.
  intros Hk Hy. rewrite <- Z.shiftl_mul_pow2 by done.
  symmetry. apply Z.add_nocarry_lor.
  destruct (decide (y = 0)) as [->|]; [apply Z.land_0_r|].
  apply Z.bits_inj'. intros i Hi.
  rewrite Z.land_spec, Z.bits_0.
  destruct (decide (i < k)).
  - by rewrite Z.shiftl_spec_low.
  - rewrite (Z.bits_above_log2 y i), andb_false_r; [done|lia|].
    apply Z.log2_lt_pow2; [lia|].
    apply Z.lt_le_trans with (2 ^ k); [lia|]. apply Z.pow_le_mono_r; lia.
Qed.

(** Swapping the bytes of a field read in place gives the network-order
    value of its bytes. *)
Lemma bswap_load_le bs : bswap (length bs) (load_le bs) = load_be bs.
Proof.
  induction bs as [|b bs IH]; [done|].
  cbn [length bswap load_le]. rewrite load_be_cons.
  pose proof (byte_val_range b). pose proof (load_le_range bs).
  assert (E1 : Z.land (byte_val b + 256 * load_le bs) 255 = byte_val b).
  { change 255 with (Z.ones 8). rewrite Z.land_ones by lia.
    change (2 ^ 8) with 256.
    symmetry. apply Z.mod_unique_pos with (q := load_le bs); lia. }
  assert (E2 : Z.shiftr (byte_val b + 256 * load_le bs) 8 = load_le bs).
  { rewrite Z.shiftr_div_pow2 by lia. change (2 ^ 8) with 256.
    symmetry. apply Z.div_unique_pos with (r := byte_val b); lia. }
  rewrite E1, E2, IH.
  pose proof (load_be_range bs).
  rewrite lor_shiftl_low; [|lia|].
  - replace (2 ^ (8 * Z.of_nat (length bs))) with (256 ^ Z.of_nat (length bs));
      [done|]. rewrite Z.pow_mul_r by lia. done.
  - rewrite Z.pow_mul_r by lia. done.
Qed.

Lemma length_store_be n x : length (store_be n x) = n.
Proof. induction n; simpl; congruence. Qed.

Lemma byte_of_val v :
  0 <= v < 256 →
  byte_val (default Byte.x00 (Byte.of_N (Z.to_N v))) = v.
Proof.
  intros Hv. pose proof (Byte.to_of_N_option_map (Z.to_N v)) as E.
  destruct (Byte.of_N (Z.to_N v)) as [b|]; simpl in *.
  - destruct (_ <=? _)%N; [|done]. injection E as E. unfold byte_val.
    rewrite E. lia.
  - destruct (N.leb_spec (Z.to_N v) 255); [done|lia].
Qed.

Lemma load_be_store_be n x :
  0 <= x → load_be (store_be n x) = x `mod` 256 ^ Z.of_nat n.
Proof.
  intros Hx. induction n as [|n IH].
  - simpl. by rewrite Z.mod_1_r.
  - cbn [store_be]. rewrite load_be_cons, length_store_be, IH.
    rewrite byte_of_val by (apply Z.mod_pos_bound; lia).
    replace (Z.of_nat (S n)) with (Z.of_nat n + 1) by lia.
    rewrite Z.pow_add_r by lia. change (256 ^ 1) with 256.
    rewrite (Z.rem_mul_r x (256 ^ Z.of_nat n) 256) by lia. lia.
Qed.

End FeedFacts.

Section FeedProperties.
Import FeedHandler.

Lemma parse_uint_prefix n x rest :
  0 <= x →
  bswap n (load_le (bytes_at (store_be n x ++ rest) 0 n))
  = x `mod` 256 ^ Z.of_nat n.
Proof.
  intros Hx. unfold bytes_at. rewrite drop_0.
  rewrite take_app_length' by (by rewrite length_store_be).
  rewrite <- (length_store_be n x) at 1.
  rewrite bswap_load_le. by apply load_be_store_be.
Qed.

(** X19.  [parse_uint16], [parse_uint32] and [parse_uint64] read an
    unsigned integer in network byte order: on a buffer that starts with
    the 2, 4 or 8 big-endian bytes of a number they return that number
    (reduced to the width), whatever follows in the buffer. *)
Theorem X19_parse_uint_reads_network_order x rest :
  0 <= x →
  parse_uint16 (store_be 2 x ++ rest) = x `mod` 2 ^ 16
  ∧ parse_uint32 (store_be 4 x ++ rest) = x `mod` 2 ^ 32
  ∧ parse_uint64 (store_be 8 x ++ rest) = x `mod` 2 ^ 64.
Proof.
  intros Hx. unfold parse_uint16, parse_uint32, parse_uint64, ntohs, ntohl,
    bswap64.
  by rewrite !parse_uint_prefix.
Qed.

Lemma find_last_not_of_None c s :
  find_last_not_of c s = None → s = replicate (length s) c.
Proof.
  induction s as [|x s IH]; simpl; [done|].
  destruct (find_last_not_of c s); [done|].
  destruct (Byte.eqb x c) eqn:E; [|done]. intros _.
  apply Byte.byte_dec_bl in E as ->. by rewrite <- IH.
Qed.

Lemma find_last_not_of_Some c s i :
  find_last_not_of c s = Some i →
  ∃ x, s !! i = Some x ∧ x ≠ c
       ∧ drop (S i) s = replicate (length s - S i) c.
Proof.
  revert i. induction s as [|x s IH]; intros i; simpl; [done|].
  destruct (find_last_not_of c s) as [j|] eqn:Ej.
  - intros [= <-]. destruct (IH j eq_refl) as (y & Hy & Hne & Hd).
    exists y. done.
  - destruct (Byte.eqb x c) eqn:E; [done|]. intros [= <-].
    exists x. split; [done|]. split; [by apply Byte.eqb_false|].
    rewrite drop_0, Nat.sub_0_r. by apply find_last_not_of_None.
Qed.

(** X20.  [parse_stock_symbol] looks at the first 8 characters only and
    strips the trailing spaces: the result ends in a character that is not
    a space and the 8 characters are the result followed by spaces only.
    A field made of spaces only is the exception: it is returned as it
    is, spaces included, not as the empty string. *)
Theorem X20_parse_stock_symbol_strips_trailing_spaces data :
  let s := take 8 data in
  let r := parse_stock_symbol data in
  (s = replicate (length s) " "%byte ∧ r = s)
  ∨ (∃ r' c k, c ≠ " "%byte ∧ r = r' ++ [c]
               ∧ s = r ++ replicate k " "%byte).
Proof.
  intros s r. unfold r, parse_stock_symbol. fold s.
  destruct (find_last_not_of " "%byte s) as [i|] eqn:E.
  - right. destruct (find_last_not_of_Some _ _ _ E) as (x & Hx & Hne & Hd).
    exists (take i s), x, (length s - S i)%nat. split; [done|].
    replace (i + 1)%nat with (S i) by lia.
    split; [by apply take_S_r|].
    rewrite <- Hd. by rewrite take_drop.
  - left. split; [|done]. by apply find_last_not_of_None.
Qed.

Lemma length_bytes_at data off len :
  (off + len ≤ length data)%nat → length (bytes_at data off len) = len.
Proof. intros H. unfold bytes_at. rewrite length_take, length_drop. lia. Qed.

Lemma field_value data off len :
  (off + len ≤ length data)%nat →
  bswap len (load_le (bytes_at data off len)) = load_be (bytes_at data off len).
Proof.
  intros H. rewrite <- (length_bytes_at data off len H) at 1.
  apply bswap_load_le.
Qed.

(** The case analysis of [process_message] on the type byte [ty] and the
    payload [data]. *)
Ltac message_cases ty data :=
  destruct (Byte.eqb ty "A"%byte) eqn:Ety;
  [ apply Byte.byte_dec_bl in Ety as ->;
    unfold process_message, as_ITCHAddOrder, sizeof_ITCHAddOrder;
    destruct (decide (37 ≤ length data)%nat) as [Hlen|Hlen];
    [ rewrite bool_decide_true by done; cbn [andb run step];
      let ind := fresh "ind" in
      let Hind := fresh "Hind" in
      destruct (lookup_lt_is_Some_2 data 20%nat ltac:(lia)) as [ind Hind];
      unfold add_order_event; rewrite Hind; cbn [mbind option_bind default];
      unfold handle_add_order, bswap64, bswap32;
      cbn [stock buy_sell_indicator timestamp order_ref_num price shares];
      rewrite !field_value by lia; cbn [step id];
      by destruct (MatchingEngine.submit_order _ _ _ _ _ _ _ _ _)
    | by rewrite bool_decide_false ]
  | simpl; destruct ty; try done; simpl; by destruct (decide _) ].

(** X21.  What one message does to the engine.  An add-order message
    ('A') whose payload has at least the 37 bytes of [ITCHAddOrder] is one
    [submit_order] of a LIMIT order: id, timestamp, price and quantity are
    the network-order values of the bytes at offsets 12, 4, 33 and 21, the
    side is BUY when the byte at offset 20 is 'B' and SELL for any other
    value, and the symbol is the stock field without its trailing spaces.
    Every other message, order cancel ('X') and order delete ('D')
    included, and a shorter add-order message, leaves the engine
    untouched. *)
Theorem X21_only_add_order_messages_reach_the_engine fuel msg_type data e :
  process_message fuel msg_type data (length data) e
  = run fuel (message_events (msg_type, data)) e.
Proof. unfold message_events. cbn [fst snd]. message_cases msg_type data. Qed.



Lemma u64_add_l a b : u64 (u64 a + b) = u64 (a + b).
Proof. unfold u64. by rewrite Z.add_mod_idemp_l. Qed.

Lemma length_frame m : length (frame m) = (3 + length m.2)%nat.
Proof. unfold frame. rewrite length_app, length_store_be. simpl. lia. Qed.

Lemma frame_header m rest :
  Z.of_nat (length m.2) < 65535 →
  ntohs (load_le (take 2 (frame m ++ rest))) = Z.of_nat (S (length m.2))
  ∧ drop 2 (frame m ++ rest) = m.1 :: m.2 ++ rest.
Proof.
  intros Hlen. unfold frame. rewrite <- !app_assoc.
  set (hdr := store_be 2 _).
  assert (Hh : length hdr = 2%nat) by apply length_store_be.
  rewrite take_app_length' by done.
  rewrite drop_app_length' by done. split; [|done].
  unfold ntohs. rewrite <- Hh at 1. rewrite bswap_load_le.
  unfold hdr. rewrite load_be_store_be by lia.
  apply Z.mod_small. change (256 ^ Z.of_nat 2) with 65536. lia.
Qed.

(** One pass of the loop over a complete message. *)
Lemma replay_loop_frame n fuel m rest count h :
  Z.of_nat (length m.2) < 65535 →
  replay_loop (S n) fuel (frame m ++ rest) count h
  = e ← process_message fuel m.1 m.2 (length m.2) (engine_ h);
    replay_loop n fuel rest (u64 (count + 1))
      (mk e (running_ h) (messages_processed_ h) (last_timestamp_ h)).
Proof.
  intros Hlen. cbn [replay_loop].
  destruct (frame_header m rest Hlen) as [Hl Hd].
  rewrite decide_False by (rewrite length_app, length_frame; lia).
  rewrite Hl, Hd.
  rewrite decide_False by lia.
  replace (Z.to_nat (Z.of_nat (S (length m.2)) - 1)) with (length m.2) by lia.
  rewrite decide_False by (rewrite length_app; lia).
  rewrite take_app_length, drop_app_length. done.
Qed.

Lemma run_app fuel evs1 evs2 e :
  run fuel (evs1 ++ evs2) e = e1 ← run fuel evs1 e; run fuel evs2 e1.
Proof.
  revert e. induction evs1 as [|ev evs1 IH]; intros e; simpl; [done|].
  destruct (step fuel ev e); simpl; [apply IH|done].
Qed.

Lemma process_message_events fuel m e :
  process_message fuel m.1 m.2 (length m.2) e = run fuel (message_events m) e.
Proof.
  unfold message_events. destruct m as [ty data]. cbn [fst snd].
  message_cases ty data.
Qed.

Lemma replay_loop_frames fuel fs :
  ∀ n rest count h,
    Forall (λ m, Z.of_nat (length m.2) < 65535) fs →
    replay_loop (length fs + n) fuel (concat (frame <$> fs) ++ rest) count h
    = e ← run fuel (concat (message_events <$> fs)) (engine_ h);
      replay_loop n fuel rest
        (Nat.iter (length fs) (λ c, u64 (c + 1)) count)
        (mk e (running_ h) (messages_processed_ h) (last_timestamp_ h)).
Proof.
  induction fs as [|m fs IH]; intros n rest count h Hall.
  - cbn [length fmap list_fmap concat app run mbind option_bind Nat.add Nat.iter
         nat_rect]. by destruct h.
  - apply Forall_cons in Hall as [Hm Hall].
    cbn [length fmap list_fmap concat Nat.add]. rewrite <- app_assoc.
    rewrite replay_loop_frame by done.
    rewrite process_message_events, run_app.
    destruct (run fuel (message_events m) (engine_ h)) as [e1|];
      cbn [mbind option_bind]; [|done].
    rewrite IH by done. cbn [engine_ running_ messages_processed_ last_timestamp_].
    destruct (run fuel _ e1) as [e2|]; cbn [mbind option_bind]; [|done].
    by rewrite Nat.iter_succ_r.
Qed.

Lemma count_messages k : Nat.iter k (λ c, u64 (c + 1)) 0 = u64 (Z.of_nat k).
Proof.
  induction k as [|k IH]; [done|].
  cbn [Nat.iter nat_rect]. fold (Nat.iter k (λ c, u64 (c + 1)) 0).
  rewrite IH, u64_add_l. f_equal. lia.
Qed.

Lemma length_frames fs :
  (3 * length fs ≤ length (concat (frame <$> fs)))%nat.
Proof.
  induction fs as [|m fs IH]; [simpl; lia|].
  cbn [fmap list_fmap concat length]. change (list_fmap _ _ frame fs) with (frame <$> fs).
  rewrite length_app, length_frame. lia.
Qed.

(** The loop on what is left of a file that ends inside a message. *)
Lemma replay_loop_truncated n fuel m k count h :
  Z.of_nat (length m.2) < 65535 → (k < length (frame m))%nat →
  replay_loop (S n) fuel (take k (frame m)) count h
  = Some (Replayed (mk (engine_ h) (running_ h) count (last_timestamp_ h))).
Proof.
  intros Hlen Hk. cbn [replay_loop].
  destruct (decide (length (take k (frame m)) < 2)%nat) as [|Hk2]; [done|].
  rewrite length_take in Hk2. rewrite length_frame in Hk, Hk2.
  destruct (frame_header m [] Hlen) as [Hl Hd]. rewrite app_nil_r in Hl, Hd.
  rewrite take_take. replace (2 `min` k)%nat with 2%nat by lia.
  rewrite Hl.
  replace k with (2 + (k - 2))%nat at 1 by lia.
  rewrite <- take_drop_commute, Hd.
  destruct (k - 2)%nat as [|j] eqn:Ej; [done|].
  cbn [take]. rewrite decide_False by lia.
  rewrite decide_True; [done|].
  rewrite length_take. lia.
Qed.

(** X22.  Replaying a file made of complete messages, possibly followed by
    the beginning of one more: [replay_itch_file] returns; the engine has
    received, in the order of the file, one [submit_order] for each
    add-order message with a full payload and nothing for any other
    message; [messages_processed_] is the number of complete messages (as
    a 64-bit value); the incomplete message at the end is ignored. *)
Theorem X22_replay_submits_the_add_orders_of_a_file fuel fs m k h :
  Forall (λ m, Z.of_nat (length m.2) < 65535) (m :: fs) →
  (k < length (frame m))%nat →
  replay_itch_file fuel (concat (frame <$> fs) ++ take k (frame m)) h
  = e ← run fuel (concat (message_events <$> fs)) (engine_ h);
    Some (Replayed (mk e (running_ h) (u64 (Z.of_nat (length fs)))
                      (last_timestamp_ h))).
Proof.
  intros Hall Hk. apply Forall_cons in Hall as [Hm Hall].
  unfold replay_itch_file.
  pose proof (length_frames fs) as Hfs.
  set (file := concat (frame <$> fs) ++ take k (frame m)).
  assert (Hn : ∃ n, S (length file) = (length fs + S n)%nat).
  { exists (length file - length fs)%nat. unfold file. rewrite length_app. lia. }
  destruct Hn as [n ->]. unfold file.
  rewrite replay_loop_frames by done.
  destruct (run fuel _ (engine_ h)) as [e|]; cbn [mbind option_bind]; [|done].
  rewrite replay_loop_truncated by done.
  by rewrite count_messages.
Qed.

(** X23.  A message whose length field is 0 stops the replay with an
    exception: when the two length bytes are 0 and at least the type byte
    follows, [replay_itch_file] throws [std::length_error] (the payload
    buffer is asked for [SIZE_MAX] bytes).  The messages before it have
    been given to the engine, nothing after it is read, and
    [messages_processed_] is not updated. *)
Theorem X23_zero_length_message_aborts_the_replay
  fuel fs msg_type rest h :
  Forall (λ m, Z.of_nat (length m.2) < 65535) fs →
  replay_itch_file fuel
    (concat (frame <$> fs) ++ store_be 2 0 ++ msg_type :: rest) h
  = e ← run fuel (concat (message_events <$> fs)) (engine_ h);
    Some (LengthError (mk e (running_ h) (messages_processed_ h)
                         (last_timestamp_ h))).
Proof.
  intros Hall. unfold replay_itch_file.
  set (file := concat (frame <$> fs) ++ _).
  assert (Hn : ∃ n, S (length file) = (length fs + S n)%nat).
  { exists (length file - length fs)%nat. unfold file.
    pose proof (length_frames fs). rewrite length_app. lia. }
  destruct Hn as [n ->]. unfold file.
  rewrite replay_loop_frames by done.
  destruct (run fuel _ (engine_ h)) as [e|]; cbn [mbind option_bind]; [|done].
  done.
Qed.

End FeedProperties.

Lemma X19_parse_uint_reads_network_order_witness :
  FeedHandler.parse_uint16 (store_be 2 4660 ++ ["A"%byte])
  = 4660 `mod` 2 ^ 16
  ∧ FeedHandler.parse_uint32 (store_be 4 4660 ++ ["A"%byte])
    = 4660 `mod` 2 ^ 32
  ∧ FeedHandler.parse_uint64 (store_be 8 4660 ++ ["A"%byte])
    = 4660 `mod` 2 ^ 64.
Proof.
  apply (X19_parse_uint_reads_network_order 4660 ["A"%byte]). lia.
Defined.

Lemma sample_messages_short :
  Forall (λ m : byte * list byte, Z.of_nat (length m.2) < 65535) sample_messages.
Proof. repeat constructor. Qed.

Lemma X22_replay_submits_the_add_orders_of_a_file_witness :
  FeedHandler.replay_itch_file 16
    (concat (frame <$> sample_messages)
     ++ take 12 (frame ("A"%byte, sample_add_order))) sample_handler
  = e ← run 16 (concat (message_events <$> sample_messages))
          (FeedHandler.engine_ sample_handler);
    Some (FeedHandler.Replayed
            (FeedHandler.mk e (FeedHandler.running_ sample_handler)
               (u64 (Z.of_nat (length sample_messages)))
               (FeedHandler.last_timestamp_ sample_handler))).
Proof.
  apply (X22_replay_submits_the_add_orders_of_a_file 16 sample_messages
           ("A"%byte, sample_add_order) 12 sample_handler).
  - constructor; [reflexivity|exact sample_messages_short].
  - apply Nat.ltb_lt. vm_compute. reflexivity.
Defined.

Lemma X23_zero_length_message_aborts_the_replay_witness :
  FeedHandler.replay_itch_file 16
    (concat (frame <$> sample_messages)
     ++ store_be 2 0 ++ "A"%byte :: sample_add_order) sample_handler
  = e ← run 16 (concat (message_events <$> sample_messages))
          (FeedHandler.engine_ sample_handler);
    Some (FeedHandler.LengthError
            (FeedHandler.mk e (FeedHandler.running_ sample_handler)
               (FeedHandler.messages_processed_ sample_handler)
               (FeedHandler.last_timestamp_ sample_handler))).
Proof.
  apply (X23_zero_length_message_aborts_the_replay 16 sample_messages
           "A"%byte sample_add_order sample_handler).
  exact sample_messages_short.
Defined.

Lemma pshape_ext (L L' : PriceLevel.pool) t :
  ∀ par rt, (∀ a, a ∈ addrs t → L' !! a = L !! a) →
            pshape L par rt t → pshape L' par rt t.
Proof.
  induction t as [|tl IHl a p tr IHr]; intros par rt Hext Hs; simpl in *; [done|].
  destruct Hs as (-> & lv & Ha & Hp & Hpa & Hl & Hr). split; [done|].
  exists lv. rewrite Hext by (apply elem_of_app; right; left).
  split; [done|]. split; [done|]. split; [done|].
  split; [apply IHl|apply IHr]; try done; intros x Hx; apply Hext;
    apply elem_of_app; [by left|by right; right].
Qed.

Lemma pshape_shape (L : PriceLevel.pool) t :
  ∀ par rt, pshape L par rt t → shape L rt t.
Proof.
  induction t as [|tl IHl a p tr IHr]; intros par rt Hs; simpl in *; [done|].
  destruct Hs as (-> & lv & Ha & Hp & Hpa & Hl & Hr). split; [done|].
  exists lv. split; [done|]. split; [done|]. split; [by eapply IHl|by eapply IHr].
Qed.

Lemma pshape_Leaf (L : PriceLevel.pool) par t : pshape L par nullptr t → t = Leaf.
Proof. destruct t; [done|]. by intros [? _]. Qed.

Lemma pshape_root (L : PriceLevel.pool) par r t :
  pshape L par (Some r) t → ∃ tl p tr, t = Node tl r p tr.
Proof. destruct t; [done|]. intros ([= ->] & _). eauto. Qed.

(** Giving the root of a subtree another parent. *)
Lemma pshape_reparent (L : PriceLevel.pool) par par' r rl t :
  pshape L par (Some r) t → NoDup (addrs t) → L !! r = Some rl →
  pshape (<[r := PriceLevel.set_parent par' rl]> L) par' (Some r) t.
Proof.
  intros Hs Hnd Hr. destruct t as [|tl a p tr]; [done|]. simpl in *.
  destruct Hs as (E & lv & Ha & Hp & Hpa & Hl & Hrr).
  assert (Era : a = r) by congruence. subst a. clear E.
  rewrite Hr in Ha. injection Ha as <-.
  apply NoDup_app in Hnd as (Hndl & Hnin & Hndr).
  apply NoDup_cons in Hndr as [Hr' Hndr].
  split; [done|]. eexists. rewrite lookup_insert_eq. split; [done|].
  simpl. split; [done|]. split; [done|].
  split; (eapply pshape_ext; [|eassumption]); intros x Hx;
    apply lookup_insert_ne; intros Hrx; rewrite <- Hrx in Hx; [|done].
  apply (Hnin r Hx). left.
Qed.

Lemma tree_remove_notin a t : a ∉ addrs t → tree_remove a t = t.
Proof.
  induction t as [|tl IHl x p tr IHr]; [done|]. simpl. intros Hn.
  rewrite decide_False by (intros ->; apply Hn, elem_of_app; right; left).
  rewrite IHl, IHr; [done|..]; intros H; apply Hn, elem_of_app;
    [by right; right|by left].
Qed.

Lemma tree_min_head t :
  tree_min t = match addrs t, keys t with
               | a :: _, p :: _ => Some (a, p)
               | _, _ => None
               end.
Proof.
  induction t as [|tl IHl x p tr _]; [done|]. simpl. rewrite IHl.
  destruct tl as [|tll xl pl tlr]; [done|].
  destruct (addrs (Node tll xl pl tlr)) eqn:Ea, (keys (Node tll xl pl tlr)) eqn:Ek;
    simpl in *; try done.
  - by destruct (addrs tll).
  - by destruct (keys tll).
Qed.

Lemma length_keys t : length (keys t) = length (addrs t).
Proof.
  induction t as [|tl IHl x p tr IHr]; [done|]. simpl.
  rewrite !length_app. simpl. lia.
Qed.

Lemma leftmost_min (L : PriceLevel.pool) t :
  ∀ fuel par r, pshape L par (Some r) t → (height t ≤ S fuel)%nat →
    ∃ s sv, OrderBook.leftmost fuel L r = Some s
            ∧ L !! s = Some sv
            ∧ tree_min t = Some (s, PriceLevel.price sv)
            ∧ s ∈ addrs t.
Proof.
  induction t as [|tl IHl a q tr _]; intros fuel par r Hs Hh; simpl in *; [done|].
  destruct Hs as (E & lv & Ha & Hq & Hpa & Hl & Hr).
  assert (Era : a = r) by congruence. subst a. clear E.
  destruct (PriceLevel.left lv) as [l|] eqn:El.
  - destruct fuel as [|fuel].
    { destruct tl; simpl in *; [done|lia]. }
    destruct (IHl fuel _ l Hl ltac:(lia)) as (s & sv & Hm & Hsv & Hmin & Hin).
    exists s, sv. simpl. rewrite Ha. simpl. rewrite El. split; [done|].
    split; [done|]. rewrite Hmin. split; [done|]. apply elem_of_app. by left.
  - apply pshape_Leaf in Hl as ->.
    exists r, lv. split.
    + destruct fuel; simpl; rewrite Ha; simpl; by rewrite El.
    + split; [done|]. simpl. rewrite Hq. split; [done|]. left.
Qed.

Lemma relink_parent_slot (L : PriceLevel.pool) par rt a lv c' t :
  L !! a = Some lv → PriceLevel.parent lv = par → a ∈ addrs t →
  slot_pre L par (Some a) rt t →
  ∃ L1 rt1, OrderBook.relink_parent a c' L rt = Some (L1, rt1)
            ∧ slot_post L L1 par (Some a) c' rt rt1
            ∧ (∀ y, Some y ≠ par → L1 !! y = L !! y)
            ∧ L1 !! a = Some lv.
Proof.
  intros Ha Hpa Hin Hpre. unfold OrderBook.relink_parent. rewrite Ha. simpl.
  rewrite Hpa. unfold slot_pre, slot_post in *. destruct par as [q|].
  - destruct Hpre as (Hq & ql & Hql & Hside). rewrite Hql. simpl.
    assert (Hqa : q ≠ a) by (intros E; apply Hq; by rewrite E).
    destruct (decide (PriceLevel.left ql = Some a)) as [El|El].
    + eexists _, _. split; [done|]. split.
      * split; [done|]. exists ql. split; [done|].
        by rewrite lookup_insert_eq, decide_True.
      * split; [|by rewrite lookup_insert_ne].
        intros y Hy. apply lookup_insert_ne. congruence.
    + eexists _, _. split; [done|]. split.
      * split; [done|]. exists ql. split; [done|].
        by rewrite lookup_insert_eq, decide_False.
      * split; [|by rewrite lookup_insert_ne].
        intros y Hy. apply lookup_insert_ne. congruence.
  - eexists _, _. split; [done|]. done.
Qed.

Lemma slot_keep (L L' : PriceLevel.pool) par c rt t :
  slot_pre L par c rt t →
  (∀ q, par = Some q → L' !! q = L !! q) →
  slot_post L L' par c c rt rt.
Proof.
  unfold slot_pre, slot_post. destruct par as [q|]; [|done].
  intros (Hq & ql & Hql & Hside) Hsame. split; [done|].
  exists ql. split; [done|]. rewrite (Hsame q eq_refl), Hql. f_equal.
  destruct (decide _) as [E|E].
  - destruct ql. simpl in *. by subst.
  - destruct Hside as [?|[E' _]]; [done|]. destruct ql. simpl in *. by subst.
Qed.

Lemma lookup_middle_NoDup {A} (l1 l2 : list A) x i :
  NoDup (l1 ++ x :: l2) → (l1 ++ x :: l2) !! i = Some x → i = length l1.
Proof.
  intros Hnd Hi.
  apply (NoDup_lookup _ _ _ _ Hnd Hi). by apply list_lookup_middle.
Qed.

Lemma delete_app_l {A} (l1 l2 : list A) i :
  (i < length l1)%nat → delete i (l1 ++ l2) = delete i l1 ++ l2.
Proof.
  revert i. induction l1 as [|x l1 IH]; intros i Hi; simpl in *; [lia|].
  destruct i as [|i]; [done|]. simpl. by rewrite IH by lia.
Qed.

Lemma delete_app_r {A} (l1 l2 : list A) n :
  delete (length l1 + n)%nat (l1 ++ l2) = l1 ++ delete n l2.
Proof. induction l1 as [|x l1 IH]; simpl; [done|]. by rewrite IH. Qed.

Lemma tree_min_Node tl x p tr :
  ∃ s ps ss ks,
    addrs (Node tl x p tr) = s :: ss ∧ keys (Node tl x p tr) = ps :: ks
    ∧ tree_min (Node tl x p tr) = Some (s, ps).
Proof.
  rewrite tree_min_head. pose proof (length_keys tl) as Hlen. simpl.
  destruct (addrs tl) as [|s ss], (keys tl) as [|ps ks]; simpl in *; try done;
    eauto 10.
Qed.

Lemma level_data_Node (L : PriceLevel.pool) tl x p tr :
  level_data L (Node tl x p tr)
  = level_data L tl ++ (fifo_fields <$> L !! x) :: level_data L tr.
Proof. unfold level_data. cbn [addrs]. by rewrite fmap_app. Qed.

Lemma level_data_ext (L L' : PriceLevel.pool) t :
  (∀ y, y ∈ addrs t → fifo_fields <$> L' !! y = fifo_fields <$> L !! y) →
  level_data L' t = level_data L t.
Proof.
  intros H. unfold level_data. apply list_fmap_ext. intros i y Hy.
  apply H, list_elem_of_lookup. eauto.
Qed.

Lemma length_level_data (L : PriceLevel.pool) t :
  length (level_data L t) = length (addrs t).
Proof. unfold level_data. by rewrite length_fmap. Qed.

Lemma pshape_root_in (L : PriceLevel.pool) par c t a :
  pshape L par c t → a ∈ addrs t → ∃ r, c = Some r ∧ r ∈ addrs t.
Proof.
  destruct t as [|tl x p tr]; [by intros _ ?%not_elem_of_nil|].
  intros (-> & _) _. exists x. split; [done|].
  cbn [addrs]. apply elem_of_app. right. left.
Qed.

Lemma remove_level_unfold fuel level (L : PriceLevel.pool) rt :
  OrderBook.remove_level fuel level L rt
  = lv ← L !! level;
    match PriceLevel.left lv, PriceLevel.right lv with
    | None, None => OrderBook.relink_parent level nullptr L rt
    | None, Some _ =>
        '(L, rt) ← OrderBook.relink_parent level (PriceLevel.right lv) L rt;
        lv ← L !! level;
        match PriceLevel.right lv with
        | Some r =>
            rl ← L !! r;
            Some (<[r := PriceLevel.set_parent (PriceLevel.parent lv) rl]> L, rt)
        | None => Some (L, rt)
        end
    | Some _, None =>
        '(L, rt) ← OrderBook.relink_parent level (PriceLevel.left lv) L rt;
        lv ← L !! level;
        match PriceLevel.left lv with
        | Some l =>
            ll ← L !! l;
            Some (<[l := PriceLevel.set_parent (PriceLevel.parent lv) ll]> L, rt)
        | None => Some (L, rt)
        end
    | Some _, Some r =>
        match fuel with
        | O => None
        | S fuel =>
            successor ← OrderBook.leftmost fuel L r;
            sv ← L !! successor;
            let lv := PriceLevel.mk (PriceLevel.price sv)
                        (PriceLevel.total_volume sv) (PriceLevel.order_count sv)
                        (PriceLevel.head_order sv) (PriceLevel.tail_order sv)
                        (PriceLevel.parent lv) (PriceLevel.left lv)
                        (PriceLevel.right lv) in
            OrderBook.remove_level fuel successor (<[level := lv]> L) rt
        end
    end.
Proof. by destruct fuel. Qed.

(** The node [a] is replaced by its only child [r]. *)
Lemma splice_child (L : PriceLevel.pool) par rt a lv r tc t :
  L !! a = Some lv → PriceLevel.parent lv = par → a ∈ addrs t →
  slot_pre L par (Some a) rt t →
  pshape L (Some a) (Some r) tc → NoDup (addrs tc) → a ∉ addrs tc →
  (∀ y, y ∈ addrs tc → y ∈ addrs t) →
  ∃ L1 rt1 rl,
    OrderBook.relink_parent a (Some r) L rt = Some (L1, rt1)
    ∧ L1 !! a = Some lv ∧ L1 !! r = Some rl
    ∧ pshape (<[r := PriceLevel.set_parent par rl]> L1) par (Some r) tc
    ∧ slot_post L (<[r := PriceLevel.set_parent par rl]> L1) par (Some a)
        (Some r) rt rt1
    ∧ (∀ y, y ∉ addrs t → Some y ≠ par →
            <[r := PriceLevel.set_parent par rl]> L1 !! y = L !! y)
    ∧ (∀ y, y ∈ addrs t →
            fifo_fields <$> <[r := PriceLevel.set_parent par rl]> L1 !! y
            = fifo_fields <$> L !! y).
Proof.
  intros Ha Hpa Hin Hpre Hs Hnd Hatc Hsub.
  destruct (relink_parent_slot L par rt a lv (Some r) t Ha Hpa Hin Hpre)
    as (L1 & rt1 & Hrel & Hpost & Hfr & Ha1).
  assert (Hpar : ∀ y, y ∈ addrs t → Some y ≠ par).
  { intros y Hy E. rewrite <- E in Hpre. by destruct Hpre as [Hq _]. }
  assert (Hs1 : pshape L1 (Some a) (Some r) tc).
  { eapply pshape_ext; [|exact Hs]. intros y Hy. apply Hfr, Hpar, Hsub, Hy. }
  destruct (pshape_root _ _ _ _ Hs1) as (tcl & pr & tcr & ->).
  assert (Hrt : r ∈ addrs t) by (apply Hsub, elem_of_app; right; left).
  destruct Hs1 as (_ & rl & Hrl & Hs1').
  exists L1, rt1, rl. split; [done|]. split; [done|]. split; [done|].
  split; [|split; [|split]].
  - apply (pshape_reparent L1 (Some a)); [|done..].
    split; [done|]. by exists rl.
  - unfold slot_post in *. destruct par as [q|]; [|done].
    destruct Hpost as (-> & ql & Hql & Hq1). split; [done|].
    exists ql. split; [done|]. rewrite lookup_insert_ne; [done|].
    intros <-. by apply (Hpar r).
  - intros y Hy Hyp. rewrite lookup_insert_ne by (by intros <-).
    by apply Hfr.
  - intros y Hy. destruct (decide (y = r)) as [->|Hyr].
    + rewrite lookup_insert_eq, <- (Hfr r (Hpar r Hrt)), Hrl. done.
    + rewrite lookup_insert_ne by done. f_equal. by apply Hfr, Hpar.
Qed.

Ltac tree_proj :=
  cbn [PriceLevel.price PriceLevel.parent PriceLevel.left PriceLevel.right
       PriceLevel.set_right PriceLevel.set_left PriceLevel.set_parent].

Lemma remove_level_tree t :
  ∀ fuel (L : PriceLevel.pool) par c rt a i,
    pshape L par c t → NoDup (addrs t) → addrs t !! i = Some a →
    (height t ≤ fuel)%nat → slot_pre L par c rt t →
    ∃ L' rt' c',
      OrderBook.remove_level fuel a L rt = Some (L', rt')
      ∧ pshape L' par c' (tree_remove a t)
      ∧ slot_post L L' par c c' rt rt'
      ∧ (∀ y, y ∉ addrs t → Some y ≠ par → L' !! y = L !! y)
      ∧ level_data L' (tree_remove a t) = delete i (level_data L t).
Proof.
  induction t as [|tl IHl x p tr IHr]; intros fuel L par c rt a i Hs Hnd Hi Hh Hpre.
  { done. }
  pose proof Hs as Hs0. pose proof Hnd as Hnd0. pose proof Hpre as Hpre0.
  assert (Ha : a ∈ addrs (Node tl x p tr)) by (apply list_elem_of_lookup; eauto).
  cbn [pshape] in Hs. destruct Hs as (-> & lv & Hx & Hp & Hpa & Hl & Hr).
  change (addrs (Node tl x p tr)) with (addrs tl ++ x :: addrs tr) in Hnd, Hi.
  apply NoDup_app in Hnd as (Hndl & Hlr & Hndr).
  apply NoDup_cons in Hndr as [Hxr Hndr].
  assert (Hxl : x ∉ addrs tl) by (intros H; apply (Hlr x H); left).
  assert (Hdisj : ∀ y, y ∈ addrs tl → y ∉ addrs tr)
    by (intros y H1 H2; apply (Hlr y H1); by right).
  assert (Hxt : x ∈ addrs (Node tl x p tr))
    by (cbn [addrs]; apply elem_of_app; right; left).
  assert (Hsubl : ∀ y, y ∈ addrs tl → y ∈ addrs (Node tl x p tr))
    by (intros y Hy; cbn [addrs]; apply elem_of_app; by left).
  assert (Hsubr : ∀ y, y ∈ addrs tr → y ∈ addrs (Node tl x p tr))
    by (intros y Hy; cbn [addrs]; apply elem_of_app; by right; right).
  assert (Hpar : ∀ y, y ∈ addrs (Node tl x p tr) → Some y ≠ par).
  { intros y Hy E. rewrite <- E in Hpre. by destruct Hpre as [Hq _]. }
  rewrite (level_data_Node L tl x p tr).
  cbn [tree_remove].
  destruct (decide (x = a)) as [Exa|Hxa].
  - (* the node to remove is the root of this subtree *)
    subst a. pose proof (lookup_middle_NoDup (addrs tl) (addrs tr) x i Hnd0 Hi) as ->.
    rewrite <- (length_level_data L tl), delete_middle.
    rewrite remove_level_unfold, Hx. cbn [mbind option_bind].
    destruct tl as [|tll l pl tlr], tr as [|trl r pr trr].
    + (* no child *)
      cbn [pshape] in Hl, Hr. rewrite Hl, Hr.
      destruct (relink_parent_slot L par rt x lv nullptr _ Hx Hpa Hxt Hpre)
        as (L1 & rt1 & Hrel & Hpost & Hfr & _).
      exists L1, rt1, nullptr. split; [done|]. split; [done|].
      split; [done|]. split; [|done]. intros y _ Hy. by apply Hfr.
    + (* a right child only *)
      cbn [pshape] in Hl. rewrite Hl.
      pose proof Hr as (Er & _). rewrite Er in Hr |- *.
      destruct (splice_child L par rt x lv r _ _ Hx Hpa Hxt Hpre Hr Hndr Hxr Hsubr)
        as (L1 & rt1 & rl & Hrel & Hx1 & Hrl & Hs' & Hpost & Hfr & Hdata).
      rewrite Hrel. cbn [mbind option_bind]. rewrite Hx1. cbn [mbind option_bind].
      rewrite Er, Hrl. cbn [mbind option_bind]. rewrite Hpa.
      eexists _, _, (Some r). split; [done|]. split; [done|]. split; [done|].
      split; [done|]. apply level_data_ext. intros y Hy. by apply Hdata, Hsubr.
    + (* a left child only *)
      cbn [pshape] in Hr. rewrite Hr.
      pose proof Hl as (El & _). rewrite El in Hl |- *.
      destruct (splice_child L par rt x lv l _ _ Hx Hpa Hxt Hpre Hl Hndl Hxl Hsubl)
        as (L1 & rt1 & ll & Hrel & Hx1 & Hll & Hs' & Hpost & Hfr & Hdata).
      rewrite Hrel. cbn [mbind option_bind]. rewrite Hx1. cbn [mbind option_bind].
      rewrite El, Hll. cbn [mbind option_bind]. rewrite Hpa.
      eexists _, _, (Some l). split; [done|]. split; [done|]. split; [done|].
      split; [done|]. rewrite app_nil_r.
      apply level_data_ext. intros y Hy. by apply Hdata, Hsubl.
    + (* two children: the successor moves up *)
      pose proof Hl as (El & _). pose proof Hr as (Er & _). rewrite El, Er.
      destruct fuel as [|fuel]; [cbn [height] in Hh; lia|].
      destruct (tree_min_Node trl r pr trr) as (s' & ps & ss & ks & Ea & Ek & Hmin').
      set (tl0 := Node tll l pl tlr) in *. set (tr0 := Node trl r pr trr) in *.
      assert (Hhr : (height tr0 ≤ fuel)%nat) by (cbn [height] in Hh; lia).
      rewrite Er in Hr.
      destruct (leftmost_min L tr0 fuel _ r Hr ltac:(lia))
        as (s & sv & Hlm & Hsv & Hmin & Hsin).
      assert (s' = s ∧ ps = PriceLevel.price sv) as [-> ->] by (split; congruence).
      rewrite Hlm. cbn [mbind option_bind]. rewrite Hsv. cbn [mbind option_bind].
      rewrite Hmin.
      set (lv1 := PriceLevel.mk _ _ _ _ _ _ _ _).
      set (L1 := <[x := lv1]> L).
      assert (HL1 : ∀ y, y ≠ x → L1 !! y = L !! y)
        by (intros y Hy; unfold L1; by apply lookup_insert_ne).
      assert (Hs1 : pshape L1 (Some x) (Some r) tr0).
      { eapply pshape_ext; [|exact Hr]. intros y Hy. apply HL1. by intros ->. }
      assert (Hlr' : l ≠ r).
      { intros <-. apply (Hdisj l); [apply elem_of_app; right; left|].
        apply elem_of_app; right; left. }
      destruct (IHr fuel L1 (Some x) (Some r) rt s 0%nat Hs1 Hndr
                  ltac:(by rewrite Ea) Hhr)
        as (L' & rt' & c' & Hrem & Hs' & Hpost & Hfr & Hdata).
      { split; [done|]. exists lv1. split; [apply lookup_insert_eq|].
        right. simpl. split; [done|]. congruence. }
      destruct Hpost as (-> & ql & Hql & Hx').
      unfold L1 in Hql. rewrite lookup_insert_eq in Hql. injection Hql as <-.
      rewrite decide_False in Hx' by (simpl; congruence).
      exists L', rt, (Some x). split; [done|]. split; [|split; [|split]].
      * split; [done|]. eexists. split; [exact Hx'|]. tree_proj.
        split; [done|]. split; [done|]. split; [|done].
        rewrite El in Hl.
        eapply pshape_ext; [|exact Hl]. intros y Hy.
        rewrite Hfr; [|by apply Hdisj|intros [= <-]; by apply Hxl].
        apply HL1. intros ->. by apply Hxl.
      * apply (slot_keep L L' par (Some x) rt (Node tl0 x p tr0) Hpre0).
        intros q ->. destruct Hpre0 as (Hq & _).
        rewrite Hfr; [|intros H; by apply Hq, Hsubr|intros [= <-]; by apply Hq].
        apply HL1. intros ->. by apply Hq.
      * intros y Hy Hyp.
        rewrite Hfr; [|intros H; by apply Hy, Hsubr|intros [= <-]; by apply Hy].
        apply HL1. intros ->. by apply Hy.
      * rewrite level_data_Node, Hdata, Hx'. f_equal.
        { apply level_data_ext. intros y Hy.
          rewrite Hfr; [|by apply Hdisj|intros [= <-]; by apply Hxl].
          rewrite HL1; [done|]. intros ->. by apply Hxl. }
        rewrite (level_data_ext L L1 tr0)
          by (intros y Hy; rewrite HL1; [done|by intros ->]).
        unfold level_data. rewrite Ea. cbn [fmap list_fmap delete list_delete].
        rewrite Hsv. done.
  - (* the node to remove lies below *)
    apply lookup_app_Some in Hi as [Hi|[Hlen Hi]].
    + (* in the left subtree *)
      assert (Hal : a ∈ addrs tl) by (apply list_elem_of_lookup; eauto).
      destruct (IHl fuel L (Some x) (PriceLevel.left lv) rt a i Hl Hndl Hi
                  ltac:(cbn [height] in Hh; lia))
        as (L' & rt' & c' & Hrem & Hs' & Hpost & Hfr & Hdata).
      { split; [done|]. exists lv. split; [done|]. by left. }
      destruct Hpost as (-> & ql & Hql & Hx').
      rewrite Hx in Hql. injection Hql as <-.
      rewrite decide_True in Hx' by done.
      rewrite (tree_remove_notin a tr) by (by apply Hdisj).
      assert (Htr : ∀ y, y ∈ addrs tr → L' !! y = L !! y).
      { intros y Hy.
        apply Hfr; [intros H; by apply (Hdisj y)|intros [= <-]; by apply Hxr]. }
      exists L', rt, (Some x). split; [done|]. split; [|split; [|split]].
      * split; [done|]. eexists. split; [exact Hx'|]. tree_proj.
        split; [done|]. split; [done|]. split; [done|].
        eapply pshape_ext; [|exact Hr]. done.
      * apply (slot_keep L L' par (Some x) rt (Node tl x p tr) Hpre0).
        intros q ->. destruct Hpre0 as (Hq & _).
        apply Hfr; [intros H; by apply Hq, Hsubl|intros [= <-]; by apply Hq].
      * intros y Hy Hyp.
        apply Hfr; [intros H; by apply Hy, Hsubl|intros [= <-]; by apply Hy].
      * rewrite level_data_Node, Hdata, Hx', Hx.
        rewrite (level_data_ext L L' tr) by (intros y Hy; by rewrite Htr).
        rewrite delete_app_l; [done|].
        rewrite length_level_data. by eapply lookup_lt_Some.
    + (* in the right subtree *)
      destruct (i - length (addrs tl))%nat as [|j] eqn:Ej;
        [simpl in Hi; congruence|]. simpl in Hi.
      assert (Har : a ∈ addrs tr) by (apply list_elem_of_lookup; eauto).
      assert (Hlr' : PriceLevel.left lv ≠ PriceLevel.right lv).
      { destruct (pshape_root_in L (Some x) (PriceLevel.right lv) tr a Hr Har)
          as (r & Er & Hrin).
        rewrite Er. intros El. rewrite El in Hl.
        destruct (pshape_root _ _ _ _ Hl) as (? & ? & ? & ->).
        apply (Hdisj r); [apply elem_of_app; right; left|done]. }
      destruct (IHr fuel L (Some x) (PriceLevel.right lv) rt a j Hr Hndr Hi
                  ltac:(cbn [height] in Hh; lia))
        as (L' & rt' & c' & Hrem & Hs' & Hpost & Hfr & Hdata).
      { split; [done|]. exists lv. split; [done|]. by right. }
      destruct Hpost as (-> & ql & Hql & Hx').
      rewrite Hx in Hql. injection Hql as <-.
      rewrite decide_False in Hx' by done.
      rewrite (tree_remove_notin a tl)
        by (intros H; by apply (Hdisj a)).
      assert (Htl : ∀ y, y ∈ addrs tl → L' !! y = L !! y).
      { intros y Hy.
        apply Hfr; [by apply Hdisj|intros [= <-]; by apply Hxl]. }
      exists L', rt, (Some x). split; [done|]. split; [|split; [|split]].
      * split; [done|]. eexists. split; [exact Hx'|]. tree_proj.
        split; [done|]. split; [done|]. split; [|done].
        eapply pshape_ext; [|exact Hl]. done.
      * apply (slot_keep L L' par (Some x) rt (Node tl x p tr) Hpre0).
        intros q ->. destruct Hpre0 as (Hq & _).
        apply Hfr; [intros H; by apply Hq, Hsubr|intros [= <-]; by apply Hq].
      * intros y Hy Hyp.
        apply Hfr; [intros H; by apply Hy, Hsubr|intros [= <-]; by apply Hy].
      * rewrite level_data_Node, Hdata, Hx', Hx.
        rewrite (level_data_ext L L' tl) by (intros y Hy; by rewrite Htl).
        replace i with (length (level_data L tl) + S j)%nat
          by (rewrite length_level_data; lia).
        by rewrite delete_app_r.
Qed.

Lemma StronglySorted_sublist {A} (R : A → A → Prop) (l1 l2 : list A) :
  l1 `sublist_of` l2 → StronglySorted R l2 → StronglySorted R l1.
Proof.
  induction 1 as [|x l1 l2 Hs IH|x l1 l2 Hs IH]; intros Hss; [done|..].
  - apply StronglySorted_inv in Hss as [Hss Hall]. constructor; [by apply IH|].
    rewrite Forall_forall in Hall |- *. intros y Hy. apply Hall.
    by eapply elem_of_sublist.
  - apply StronglySorted_inv in Hss as [Hss _]. by apply IH.
Qed.









Lemma tree_remove_lists t :
  ∀ a i, NoDup (addrs t) → addrs t !! i = Some a →
         keys (tree_remove a t) = delete i (keys t)
         ∧ addrs (tree_remove a t) `sublist_of` addrs t.
Proof.
  induction t as [|tl IHl x p tr IHr]; intros a i Hnd Hi; [done|].
  pose proof Hnd as Hnd0.
  change (addrs (Node tl x p tr)) with (addrs tl ++ x :: addrs tr) in *.
  change (keys (Node tl x p tr)) with (keys tl ++ p :: keys tr).
  apply NoDup_app in Hnd as (Hndl & Hlr & Hndr).
  apply NoDup_cons in Hndr as [Hxr Hndr].
  cbn [tree_remove].
  destruct (decide (x = a)) as [Exa|Hxa].
  - subst a. pose proof (lookup_middle_NoDup (addrs tl) (addrs tr) x i Hnd0 Hi) as ->.
    rewrite <- (length_keys tl).
    destruct tl as [|tll l pl tlr], tr as [|trl r pr trr].
    + split; [done|]. apply sublist_nil_l.
    + change (keys Leaf) with (@nil Z). change (addrs Leaf) with (@nil addr).
      split; [done|]. by apply sublist_cons.
    + set (tl0 := Node tll l pl tlr) in *.
      change (keys Leaf) with (@nil Z). change (addrs Leaf) with (@nil addr).
      rewrite delete_middle, app_nil_r. split; [done|].
      apply sublist_inserts_r. done.
    + set (tl0 := Node tll l pl tlr) in *. set (tr0 := Node trl r pr trr) in *.
      rewrite delete_middle.
      destruct (tree_min_Node trl r pr trr) as (s & ps & ss & ks & Ea & Ek & Hmin).
      fold tr0 in Ea, Ek, Hmin. rewrite Hmin, Ea.
      change (keys (Node tl0 x ps ?t)) with (keys tl0 ++ ps :: keys t).
      change (addrs (Node tl0 x ps ?t)) with (addrs tl0 ++ x :: addrs t).
      destruct (IHr s 0%nat Hndr) as [Hk Hsub]; [by rewrite Ea|].
      rewrite Hk, Ek. cbn [delete list_delete]. split; [done|].
      apply sublist_app; [done|]. apply sublist_skip.
      rewrite Ea in Hsub. done.
  - change (keys (Node ?a1 x p ?a2)) with (keys a1 ++ p :: keys a2).
    change (addrs (Node ?a1 x p ?a2)) with (addrs a1 ++ x :: addrs a2).
    apply lookup_app_Some in Hi as [Hi|[Hlen Hi]].
    + assert (Ha : a ∈ addrs tl) by (apply list_elem_of_lookup; eauto).
      destruct (IHl a i Hndl Hi) as [Hk Hsub].
      rewrite (tree_remove_notin a tr) by (intros H; by apply (Hlr a Ha); right).
      rewrite Hk. split.
      * pose proof (lookup_lt_Some _ _ _ Hi) as Hlt.
        rewrite <- (length_keys tl) in Hlt. by rewrite delete_app_l.
      * by apply sublist_app.
    + destruct (i - length (addrs tl))%nat as [|j] eqn:Ej;
        [simpl in Hi; congruence|]. simpl in Hi.
      assert (Ha : a ∈ addrs tr) by (apply list_elem_of_lookup; eauto).
      destruct (IHr a j Hndr Hi) as [Hk Hsub].
      rewrite (tree_remove_notin a tl)
        by (intros H; apply (Hlr a H); by right).
      rewrite Hk. split.
      * replace i with (length (keys tl) + S j)%nat
          by (rewrite length_keys; lia).
        by rewrite delete_app_r.
      * apply sublist_app; [done|]. by apply sublist_skip.
Qed.

(** X24.  [remove_level] takes exactly one level out of the index.  On an
    index that is a tree of distinct nodes with consistent parent pointers,
    for any node of it: the call returns; the index is again such a tree;
    read in the order of the tree, the levels (price, volume, order count
    and FIFO ends) are those of before without the one that was given, so
    the prices are still sorted if they were; no slot outside the tree is
    written.  A node with at most one child is unlinked; a node with two
    children stays in the tree and takes over the fields of the leftmost
    node of its right subtree, which is unlinked in its place. *)
Theorem X24_remove_level_takes_one_level_out_of_the_index
  fuel (L : PriceLevel.pool) rt t a i :
  pshape L nullptr rt t → NoDup (addrs t) → (height t ≤ fuel)%nat →
  addrs t !! i = Some a →
  ∃ L' rt',
    OrderBook.remove_level fuel a L rt = Some (L', rt')
    ∧ pshape L' nullptr rt' (tree_remove a t)
    ∧ level_data L' (tree_remove a t) = delete i (level_data L t)
    ∧ keys (tree_remove a t) = delete i (keys t)
    ∧ (bst t → bst (tree_remove a t))
    ∧ NoDup (addrs (tree_remove a t))
    ∧ addrs (tree_remove a t) ⊆ addrs t
    ∧ (∀ y, y ∉ addrs t → L' !! y = L !! y).
Proof.
  intros Hs Hnd Hh Hi.
  destruct (remove_level_tree t fuel L nullptr rt rt a i Hs Hnd Hi Hh eq_refl)
    as (L' & rt' & c' & Hrem & Hs' & Hpost & Hfr & Hdata).
  destruct (tree_remove_lists t a i Hnd Hi) as [Hk Hsub].
  simpl in Hpost. subst c'.
  exists L', rt'. split; [done|]. split; [done|]. split; [done|].
  split; [done|]. split; [|split; [|split]].
  - unfold bst. rewrite Hk. apply StronglySorted_sublist, sublist_delete.
  - by eapply sublist_NoDup.
  - intros y Hy. by eapply elem_of_sublist.
  - intros y Hy. by apply Hfr.
Qed.

Lemma three_bids_pshape :
  pshape (OrderBook.price_level_pool_ book_three_bids)
    nullptr (OrderBook.bid_tree_root_ book_three_bids) tree_three_bids.
Proof.
  unfold tree_three_bids. cbn [pshape].
  split; [vm_compute; reflexivity|]. eexists.
  split; [vm_compute; reflexivity|]. split; [reflexivity|]. split; [reflexivity|].
  split.
  - split; [reflexivity|]. eexists.
    split; [vm_compute; reflexivity|]. by simpl.
  - split; [reflexivity|]. eexists.
    split; [vm_compute; reflexivity|]. by simpl.
Qed.

Lemma X24_remove_level_takes_one_level_out_of_the_index_witness :
  ∃ L' rt',
    OrderBook.remove_level 16 0%nat
      (OrderBook.price_level_pool_ book_three_bids)
      (OrderBook.bid_tree_root_ book_three_bids) = Some (L', rt')
    ∧ pshape L' nullptr rt' (tree_remove 0%nat tree_three_bids)
    ∧ level_data L' (tree_remove 0%nat tree_three_bids)
      = delete 1%nat
          (level_data (OrderBook.price_level_pool_ book_three_bids)
             tree_three_bids)
    ∧ keys (tree_remove 0%nat tree_three_bids)
      = delete 1%nat (keys tree_three_bids)
    ∧ (bst tree_three_bids → bst (tree_remove 0%nat tree_three_bids))
    ∧ NoDup (addrs (tree_remove 0%nat tree_three_bids))
    ∧ addrs (tree_remove 0%nat tree_three_bids) ⊆ addrs tree_three_bids
    ∧ (∀ y, y ∉ addrs tree_three_bids →
            L' !! y = OrderBook.price_level_pool_ book_three_bids !! y).
Proof.
  apply (X24_remove_level_takes_one_level_out_of_the_index 16
           (OrderBook.price_level_pool_ book_three_bids)
           (OrderBook.bid_tree_root_ book_three_bids) tree_three_bids
           0%nat 1%nat).
  - exact three_bids_pshape.
  - apply (bool_decide_unpack _). vm_compute. exact I.
  - simpl. lia.
  - reflexivity.
Defined.

Section NoConsumer.
Import MatchingEngine.

(** While nothing is popped, [total_matches_] is the number of reports
    waiting in the queue. *)
Lemma step_pending fuel ev e e' :
  step fuel ev e = Some e' →
  queue_wf QUEUE_LOG2 (execution_queue_ e) →
  total_matches_ e = Z.of_nat (length (contents (execution_queue_ e))) →
  queue_wf QUEUE_LOG2 (execution_queue_ e')
  ∧ total_matches_ e' = Z.of_nat (length (contents (execution_queue_ e'))).
Proof.
  intros H Hwf Htm. destruct ev as [sym id ts p q s ty|sym id|sym id q]; simpl in H.
  - rewrite submit_order_unfold in H. unfold with_book in H.
    assert (Hpush : ∀ rs x,
      execution_queue_ x = execution_queue_ e → total_matches_ x = total_matches_ e →
      queue_wf QUEUE_LOG2 (execution_queue_ (push_reports rs x))
      ∧ total_matches_ (push_reports rs x)
        = Z.of_nat (length (contents (execution_queue_ (push_reports rs x))))).
    { intros rs x Eq Et.
      pose proof (contents_length QUEUE_LOG2 _ Hwf) as Hlen.
      assert (Hle : (length (contents (execution_queue_ e))
                     ≤ Z.to_nat (SPSCQueue.Capacity QUEUE_LOG2 - 1))%nat).
      { rewrite Hlen. destruct Hwf as (? & ? & ?). case_decide; lia. }
      destruct (push_reports_spec rs x) as (Hwf' & Hc & Ht).
      { by rewrite Eq. }
      { rewrite Et, Htm.
        pose proof (Capacity_range QUEUE_LOG2 QUEUE_LOG2_range).
        split; [lia|]. apply Z.lt_le_trans with (2 ^ 63); lia. }
      split; [done|]. rewrite Ht, Hc, Eq, Et, Htm, length_app, length_take.
      unfold u64. rewrite Z.mod_small; [lia|].
      pose proof (Capacity_range QUEUE_LOG2 QUEUE_LOG2_range).
      split; [lia|]. apply Z.le_lt_trans with (2 ^ 63); lia. }
    destruct (get_book sym e); destruct (decide _); simplify_eq; try done.
    all: destruct (settle_order _ _ _ _ _ _ _) as [[[h b] rs]|]; simpl in H;
         simplify_eq; simpl.
    all: by apply Hpush.
  - unfold cancel_order in H. destruct (get_book _ _); simplify_eq; [|done].
    destruct (OrderBook.cancel_order _ _ _ _) as [[h b]|]; simpl in H;
      by simplify_eq.
  - unfold modify_order in H. destruct (get_book _ _); simplify_eq; [|done].
    destruct (OrderBook.modify_order _ _ _ _) as [[h b]|]; simpl in H;
      by simplify_eq.
Qed.

Lemma run_pending fuel evs : ∀ e e',
  run fuel evs e = Some e' →
  queue_wf QUEUE_LOG2 (execution_queue_ e) →
  total_matches_ e = Z.of_nat (length (contents (execution_queue_ e))) →
  queue_wf QUEUE_LOG2 (execution_queue_ e')
  ∧ total_matches_ e' = Z.of_nat (length (contents (execution_queue_ e'))).
Proof.
  induction evs as [|ev evs IH]; intros e e' H Hwf Htm; simpl in H.
  - by simplify_eq.
  - destruct (step fuel ev e) as [e1|] eqn:E1; [|done]. simpl in H.
    destruct (step_pending _ _ _ _ E1 Hwf Htm) as [Hwf1 Htm1].
    by apply (IH e1).
Qed.

Lemma drain_reports_spec (q : SPSCQueue.t ExecutionReport.t) :
  ∀ fuel count,
    queue_wf QUEUE_LOG2 q → (length (contents q) ≤ fuel)%nat →
    ∃ q', drain_reports fuel q count
          = Some (Nat.iter (length (contents q)) (λ c, u64 (c + 1)) count, q')
          ∧ queue_wf QUEUE_LOG2 q' ∧ contents q' = [].
Proof.
  remember (length (contents q)) as n eqn:Hn. revert q Hn.
  induction n as [|n IH]; intros q Hn fuel count Hwf Hfuel.
  - destruct (pop_spec QUEUE_LOG2 QUEUE_LOG2_range q Hwf) as (q' & Hpop & Hwf' & Hc).
    destruct (contents q) eqn:Ec; [|done]. simpl in Hpop, Hc.
    exists q'. split; [|done].
    destruct fuel; simpl; by rewrite Hpop.
  - destruct (pop_spec QUEUE_LOG2 QUEUE_LOG2_range q Hwf) as (q' & Hpop & Hwf' & Hc).
    destruct (contents q) as [|r l] eqn:Ec; [done|]. simpl in Hpop, Hc, Hn.
    destruct fuel as [|fuel]; [lia|].
    destruct (IH q' ltac:(rewrite Hc; lia) fuel (u64 (count + 1)) Hwf' ltac:(lia))
      as (q'' & Hd & Hwf'' & Hc'').
    exists q''. split; [|done]. cbn [drain_reports]. rewrite Hpop. cbn [fst].
    rewrite Hd. by rewrite Nat.iter_succ_r.
Qed.

Lemma count_iter k : Nat.iter k (λ c, u64 (c + 1)) 0 = u64 (Z.of_nat k).
Proof.
  induction k as [|k IH]; [done|].
  cbn [Nat.iter nat_rect]. fold (Nat.iter k (λ c, u64 (c + 1)) 0).
  rewrite IH. unfold u64. rewrite Z.add_mod_idemp_l by lia. f_equal. lia.
Qed.

(** X25.  Without a consumer, the match counter cannot pass the queue.
    On an engine started empty, after any stream of events during which
    nothing is popped from the execution queue, [total_matches_] is the
    number of reports waiting in the queue, hence at most 65535 however
    many trades took place; and the loop that then pops the queue until it
    is empty counts exactly [total_matches_] reports and leaves the queue
    empty. *)
Theorem X25_total_matches_is_what_the_queue_holds fuel cfg evs e :
  run fuel evs (init cfg) = Some e →
  total_matches_ e = Z.of_nat (length (contents (execution_queue_ e)))
  ∧ total_matches_ e <= 65535
  ∧ ∃ q', drain_reports (Z.to_nat 65535) (execution_queue_ e) 0
          = Some (total_matches_ e, q')
          ∧ SPSCQueue.empty q' = true.
Proof.
  intros Hrun.
  destruct (run_pending fuel evs (init cfg) e Hrun) as [Hwf Htm].
  { apply (init_wf QUEUE_LOG2 QUEUE_LOG2_range). }
  { done. }
  pose proof (contents_length QUEUE_LOG2 _ Hwf) as Hlen.
  assert (Hle : (length (contents (execution_queue_ e)) ≤ Z.to_nat 65535)%nat).
  { rewrite Hlen. destruct Hwf as (? & ? & ?).
    change (SPSCQueue.Capacity QUEUE_LOG2) with 65536 in *. case_decide; lia. }
  split; [done|]. split; [lia|].
  destruct (drain_reports_spec (execution_queue_ e) (Z.to_nat 65535) 0 Hwf Hle)
    as (q' & Hd & Hwf' & Hc).
  exists q'. rewrite Hd, count_iter, Htm. split.
  - unfold u64. rewrite Z.mod_small; [done|]. lia.
  - pose proof (contents_length QUEUE_LOG2 _ Hwf') as Hlen'.
    rewrite Hc in Hlen'. simpl in Hlen'. destruct Hwf' as (? & ? & ?).
    unfold SPSCQueue.empty. apply bool_decide_eq_true.
    change (SPSCQueue.Capacity QUEUE_LOG2) with 65536 in *. case_decide; lia.
Qed.

End NoConsumer.

Lemma X25_total_matches_is_what_the_queue_holds_witness :
  MatchingEngine.total_matches_ engine_two_trades
  = Z.of_nat (length (contents (MatchingEngine.execution_queue_ engine_two_trades)))
  ∧ MatchingEngine.total_matches_ engine_two_trades <= 65535
  ∧ ∃ q', drain_reports (Z.to_nat 65535)
            (MatchingEngine.execution_queue_ engine_two_trades) 0
          = Some (MatchingEngine.total_matches_ engine_two_trades, q')
          ∧ SPSCQueue.empty q' = true.
Proof.
  apply (X25_total_matches_is_what_the_queue_holds 16 (test_config 100)
           asks_then_buy_120 engine_two_trades).
  apply default_is_Some, (bool_decide_unpack _). vm_compute. exact I.
Defined.

Section Latency.

Lemma percentile_elem sorted p :
  sorted ≠ [] → percentile sorted p ∈ sorted.
Proof.
  intros Hne. unfold percentile.
  set (idx := double_to_size_t _).
  destruct (lookup_lt_is_Some_2 sorted
              (Z.to_nat (Z.min idx (Z.of_nat (length sorted) - 1)))) as [x Hx].
  { destruct sorted; [done|]. simpl length. lia. }
  rewrite Hx. simpl. by eapply list_elem_of_lookup_2.
Qed.

Lemma sorted_head_least (l : list Z) m x :
  StronglySorted Z.le l → head l = Some m → x ∈ l → m <= x.
Proof.
  intros Hs Hh Hx. destruct l as [|y l]; [done|]. injection Hh as ->.
  apply StronglySorted_inv in Hs as [_ Hall].
  apply elem_of_cons in Hx as [->|Hx]; [lia|].
  rewrite Forall_forall in Hall. by apply Hall.
Qed.

Lemma sorted_last_greatest (l : list Z) m x :
  StronglySorted Z.le l → last l = Some m → x ∈ l → x <= m.
Proof.
  intros Hs. revert m x. induction Hs as [|y l Hs IH Hall]; intros m x Hl Hx.
  { done. }
  destruct l as [|z l].
  - injection Hl as <-. apply list_elem_of_singleton in Hx. lia.
  - rewrite last_cons_cons in Hl.
    apply elem_of_cons in Hx as [->|Hx]; [|by apply IH].
    rewrite Forall_forall in Hall.
    apply Z.le_trans with z; [apply Hall; left|].
    apply IH; [done|left].
Qed.

Lemma accumulate_sum (l : list Z) acc :
  0 <= acc < 2 ^ 64 →
  foldl (λ acc x, u64 (acc + x)) acc l = u64 (acc + foldr Z.add 0 l).
Proof.
  revert acc. induction l as [|x l IH]; intros acc Hacc; cbn [foldl foldr].
  - unfold u64. rewrite Z.add_0_r. symmetry. by apply Z.mod_small.
  - rewrite IH by (apply Z.mod_pos_bound; lia).
    unfold u64. rewrite Z.add_mod_idemp_l by lia. f_equal. lia.
Qed.

Lemma sum_permutation (l l' : list Z) :
  l ≡ₚ l' → foldr Z.add 0 l = foldr Z.add 0 l'.
Proof. induction 1; simpl; lia. Qed.

Lemma sum_bounds (l : list Z) lo hi :
  (∀ x, x ∈ l → lo <= x <= hi) →
  lo * Z.of_nat (length l) <= foldr Z.add 0 l <= hi * Z.of_nat (length l).
Proof.
  induction l as [|x l IH]; intros H; [simpl; lia|].
  cbn [foldr length]. specialize (IH ltac:(intros y Hy; apply H; by right)).
  specialize (H x ltac:(left)). lia.
Qed.

(** X26.  [calculate_latency_stats] of an empty sample is all zeros.  Of
    a sample that is not empty: [count] is its size, [min_ns] and [max_ns]
    are its least and its greatest value, each of the four percentiles is a
    value of the sample (so lies between [min_ns] and [max_ns]), and, when
    the sum of the sample fits 64 bits, [mean_ns] is the sum divided by the
    size, rounded down, and lies between [min_ns] and [max_ns]. *)
Theorem X26_latency_stats_are_values_of_the_sample latencies :
  latencies ≠ [] →
  let stats := calculate_latency_stats latencies in
  calculate_latency_stats [] = LatencyStats.mk 0 0 0 0 0 0 0 0
  ∧ (LatencyStats.count stats = Z.of_nat (length latencies)
     ∧ LatencyStats.min_ns stats ∈ latencies
     ∧ LatencyStats.max_ns stats ∈ latencies
     ∧ (∀ x, x ∈ latencies →
             LatencyStats.min_ns stats <= x <= LatencyStats.max_ns stats)
     ∧ LatencyStats.p50_ns stats ∈ latencies
     ∧ LatencyStats.p95_ns stats ∈ latencies
     ∧ LatencyStats.p99_ns stats ∈ latencies
     ∧ LatencyStats.p999_ns stats ∈ latencies
     ∧ (0 <= foldr Z.add 0 latencies < 2 ^ 64 →
        LatencyStats.mean_ns stats
        = foldr Z.add 0 latencies `div` Z.of_nat (length latencies)
        ∧ LatencyStats.min_ns stats <= LatencyStats.mean_ns stats
          <= LatencyStats.max_ns stats)).
Proof.
  intros Hne stats. split; [done|].
  pose proof (merge_sort_Permutation Z.le latencies) as Hperm.
  pose proof (StronglySorted_merge_sort Z.le latencies) as Hsorted.
  assert (Hstats : stats =
    let sorted := merge_sort Z.le latencies in
    let size := Z.of_nat (length sorted) in
    LatencyStats.mk (default 0 (head sorted)) (default 0 (last sorted))
      (accumulate sorted `div` size)
      (percentile sorted 0x1p-1%float)
      (percentile sorted 0x1.e666666666666p-1%float)
      (percentile sorted 0x1.fae147ae147aep-1%float)
      (percentile sorted 0x1.ff7ced916872bp-1%float) size)
    by (unfold stats, calculate_latency_stats; by destruct latencies).
  clearbody stats. subst stats. cbv zeta.
  set (sorted := merge_sort Z.le latencies) in *.
  assert (Hsne : sorted ≠ []).
  { intros E. rewrite E in Hperm. by apply Permutation_nil_l in Hperm. }
  assert (Hin : ∀ x, x ∈ sorted ↔ x ∈ latencies) by (intros x; by rewrite Hperm).
  assert (Hlen : length sorted = length latencies) by (by rewrite Hperm).
  destruct (head sorted) as [mn|] eqn:Hmn; [|by destruct sorted].
  destruct (last sorted) as [mx|] eqn:Hmx;
    [|by apply last_None in Hmx].
  cbn [LatencyStats.count LatencyStats.min_ns LatencyStats.max_ns
       LatencyStats.p50_ns LatencyStats.p95_ns LatencyStats.p99_ns
       LatencyStats.p999_ns LatencyStats.mean_ns default id].
  assert (Hbounds : ∀ x, x ∈ latencies → mn <= x <= mx).
  { intros x Hx%Hin. split;
      [by eapply sorted_head_least|by eapply sorted_last_greatest]. }
  split; [by rewrite Hlen|].
  split; [apply Hin, head_Some_elem_of, Hmn|].
  split; [apply Hin; rewrite last_lookup in Hmx; by eapply list_elem_of_lookup_2|].
  split; [done|].
  do 4 (split; [by apply Hin, percentile_elem|]).
  intros Hsum.
  assert (Hfold : foldr Z.add 0 sorted = foldr Z.add 0 latencies).
  { by apply sum_permutation. }
  assert (Hacc : accumulate sorted = foldr Z.add 0 latencies).
  { unfold accumulate. rewrite accumulate_sum by lia.
    rewrite Hfold. unfold u64. apply Z.mod_small. lia. }
  rewrite Hacc, Hlen. split; [done|].
  pose proof (sum_bounds latencies mn mx Hbounds) as Hsb.
  assert (Hpos : 0 < Z.of_nat (length latencies)) by (destruct latencies; [done|simpl; lia]).
  split.
  - apply Z.div_le_lower_bound; [lia|]. rewrite Z.mul_comm. lia.
  - apply Z.div_le_upper_bound; [lia|]. rewrite Z.mul_comm. lia.
Qed.

End Latency.

Lemma X26_latency_stats_are_values_of_the_sample_witness :
  let stats := calculate_latency_stats [30; 10; 20] in
  calculate_latency_stats [] = LatencyStats.mk 0 0 0 0 0 0 0 0
  ∧ (LatencyStats.count stats = Z.of_nat (length [30; 10; 20])
  ∧ LatencyStats.min_ns stats ∈ [30; 10; 20]
  ∧ LatencyStats.max_ns stats ∈ [30; 10; 20]
  ∧ (∀ x, x ∈ [30; 10; 20] →
          LatencyStats.min_ns stats <= x <= LatencyStats.max_ns stats)
  ∧ LatencyStats.p50_ns stats ∈ [30; 10; 20]
  ∧ LatencyStats.p95_ns stats ∈ [30; 10; 20]
  ∧ LatencyStats.p99_ns stats ∈ [30; 10; 20]
  ∧ LatencyStats.p999_ns stats ∈ [30; 10; 20]
  ∧ (0 <= foldr Z.add 0 [30; 10; 20] < 2 ^ 64 →
     LatencyStats.mean_ns stats
     = foldr Z.add 0 [30; 10; 20] `div` Z.of_nat (length [30; 10; 20])
     ∧ LatencyStats.min_ns stats <= LatencyStats.mean_ns stats
       <= LatencyStats.max_ns stats)).
Proof.
  apply (X26_latency_stats_are_values_of_the_sample [30; 10; 20]).
  discriminate.
Defined.

Lemma rems_insert (h : heap) l i a o q :
  NoDup l → l !! i = Some a →
  rems (<[a := Order.set_remaining_quantity q o]> h) l = <[i := q]> (rems h l).
Proof.
  intros Hnd Hi. unfold rems. apply list_eq. intros j.
  destruct (decide (j = i)) as [->|Hne].
  - rewrite list_lookup_insert_eq
      by (rewrite length_fmap; by eapply lookup_lt_Some).
    rewrite list_lookup_fmap, Hi. simpl. by rewrite lookup_insert_eq.
  - rewrite list_lookup_insert_ne by done. rewrite !list_lookup_fmap.
    destruct (l !! j) as [x|] eqn:Hj; [|done]. simpl.
    rewrite lookup_insert_ne; [done|]. intros <-.
    apply Hne. by apply (NoDup_lookup l j i a).
Qed.

(** X27.  [modify_order] keeps the order where it is.  For an order that
    rests anywhere in the FIFO of its level (a well-formed doubly linked
    list) and a new quantity that is a [uint32_t] value: the call returns;
    only the remaining quantity of that order is written (its original
    [quantity] is not), no pointer changes, so the order keeps its place
    in the queue and the others theirs; the level is again well formed,
    its [total_volume] being the 32-bit sum of the remaining quantities
    with the new one in place of the old. *)
Theorem X27_modify_keeps_the_place_in_the_queue
  id a o level lv l i q (h : heap) b :
  OrderBook.orders_ b !! id = Some a →
  h !! a = Some o →
  Order.parent_level o = Some level →
  OrderBook.price_level_pool_ b !! level = Some lv →
  dll h level lv l → l !! i = Some a →
  0 <= q < 2 ^ 32 →
  ∃ lv',
    OrderBook.modify_order id q h b
    = Some (<[a := Order.set_remaining_quantity q o]> h,
            OrderBook.set_pool
              (<[level := lv']> (OrderBook.price_level_pool_ b)) b)
    ∧ dll (<[a := Order.set_remaining_quantity q o]> h) level lv' l
    ∧ rems (<[a := Order.set_remaining_quantity q o]> h) l
      = <[i := q]> (rems h l)
    ∧ PriceLevel.total_volume lv'
      = u32 (PriceLevel.total_volume lv - Order.remaining_quantity o + q)
    ∧ tree_fields lv' = tree_fields lv
    ∧ PriceLevel.parent lv' = PriceLevel.parent lv.
Proof.
  intros Hid Ho Hpl HL Hd Hi _.
  pose proof Hd as (Hnd & Hh & Ht & Hl & Hv & Hc & Hlen).
  unfold OrderBook.modify_order. rewrite Hid, Ho. simpl. rewrite Hpl. simpl.
  rewrite HL. simpl. eexists. split; [reflexivity|]. simpl.
  split; [|split; [by apply rems_insert|]].
  - unfold dll. simpl. do 3 (split; [done|]).
    split.
    { intros j x Hj. destruct (Hl _ _ Hj) as (ox & Hox & Hrest).
      destruct (decide (x = a)) as [->|Hne].
      - rewrite lookup_insert_eq. rewrite Ho in Hox. injection Hox as <-.
        eexists. split; [done|]. by simpl.
      - rewrite lookup_insert_ne by done. eauto. }
    split; [|done].
    rewrite u32_add_l, Hv.
    replace (u32 (fifo_volume h l) - Order.remaining_quantity o + q)
      with (u32 (fifo_volume h l) + (q - Order.remaining_quantity o)) by lia.
    rewrite u32_add_l. f_equal.
    rewrite (fifo_volume_delete h l i a o) by done.
    rewrite (fifo_volume_delete _ l i a (Order.set_remaining_quantity q o))
      by (done || apply lookup_insert_eq).
    simpl.
    match goal with
    | |- _ = fifo_volume ?h2 (delete i l) + _ =>
        rewrite (fifo_volume_ext h h2 (delete i l)); [lia|]
    end.
    intros x Hx. rewrite lookup_insert_ne; [done|].
    intros ->. apply list_elem_of_lookup in Hx as [j Hj].
    rewrite list_lookup_delete in Hj.
    pose proof (NoDup_lookup _ _ _ _ Hnd Hi Hj). case_decide; lia.
  - split; [|done]. by rewrite u32_add_l.
Qed.

Lemma X27_modify_keeps_the_place_in_the_queue_witness :
  ∃ lv',
    OrderBook.modify_order 3 75 after_second_bid.1 after_second_bid.2
    = Some (<[1%nat := Order.set_remaining_quantity 75 second_bid_resting]>
              after_second_bid.1,
            OrderBook.set_pool
              (<[0%nat := lv']> (OrderBook.price_level_pool_ after_second_bid.2))
              after_second_bid.2)
    ∧ dll (<[1%nat := Order.set_remaining_quantity 75 second_bid_resting]>
             after_second_bid.1) 0%nat lv' [0%nat; 1%nat]
    ∧ rems (<[1%nat := Order.set_remaining_quantity 75 second_bid_resting]>
              after_second_bid.1) [0%nat; 1%nat]
      = <[1%nat := 75]> (rems after_second_bid.1 [0%nat; 1%nat])
    ∧ PriceLevel.total_volume lv'
      = u32 (PriceLevel.total_volume level_two_bids
             - Order.remaining_quantity second_bid_resting + 75)
    ∧ tree_fields lv' = tree_fields level_two_bids
    ∧ PriceLevel.parent lv' = PriceLevel.parent level_two_bids.
Proof.
  apply (X27_modify_keeps_the_place_in_the_queue 3 1%nat second_bid_resting
           0%nat level_two_bids [0%nat; 1%nat] 1%nat 75
           after_second_bid.1 after_second_bid.2).
  - vm_compute. reflexivity.
  - apply default_is_Some, (bool_decide_unpack _). vm_compute. exact I.
  - vm_compute. reflexivity.
  - vm_compute. reflexivity.
  - exact two_bids_dll.
  - reflexivity.
  - lia.
Defined.

Lemma insert_below_pshape (L : PriceLevel.pool) p new t :
  ∀ fuel par c,
    pshape L par (Some c) t → new ∉ addrs t → NoDup (addrs t) →
    L !! new = Some (PriceLevel.make p) → (height t ≤ fuel)%nat →
    ∃ L' above,
      OrderBook.insert_below fuel L p new c = Some L'
      ∧ pshape L' par (Some c) (ins new p t)
      ∧ L' !! new = Some (PriceLevel.set_parent (Some above) (PriceLevel.make p))
      ∧ (∀ a, a ∉ addrs t → a ≠ new → L' !! a = L !! a)
      ∧ (∀ a, a ≠ new → fifo_fields <$> L' !! a = fifo_fields <$> L !! a).
Proof.
  induction t as [|tl IHl a q tr IHr]; intros fuel par c Hs Hnew Hnd Hl Hh;
    [done|].
  cbn [pshape] in Hs. destruct Hs as (E & lv & Ha & Hq & Hpa & Hsl & Hsr).
  assert (c = a) as -> by congruence. clear E.
  change (addrs (Node tl a q tr)) with (addrs tl ++ a :: addrs tr) in *.
  apply NoDup_app in Hnd as (Hndl & Hnd1 & Hnd2).
  apply NoDup_cons in Hnd2 as (Har & Hndr).
  assert (Hal : a ∉ addrs tl) by (intros Hin; apply (Hnd1 _ Hin); left).
  assert (Hne : a ≠ new).
  { intros ->. apply Hnew, elem_of_app. right. left. }
  assert (Hnl : new ∉ addrs tl) by (intros H; apply Hnew, elem_of_app; by left).
  assert (Hnr : new ∉ addrs tr)
    by (intros H; apply Hnew, elem_of_app; by right; right).
  assert (Hdisj : ∀ y, y ∈ addrs tl → y ∉ addrs tr)
    by (intros y H1 H2; apply (Hnd1 y H1); by right).
  destruct fuel as [|fuel]; [cbn [height] in Hh; lia|].
  cbn [OrderBook.insert_below ins]. rewrite Ha. cbn [mbind option_bind].
  rewrite Hq.
  destruct (decide (p < q)) as [Hpq|Hpq].
  - destruct (PriceLevel.left lv) as [l0|] eqn:El.
    + destruct (IHl fuel (Some a) l0 Hsl Hnl Hndl Hl
                  ltac:(cbn [height] in Hh; lia))
        as (L' & above & -> & Hs' & Hn' & Hfr & Hff).
      exists L', above. split; [done|]. split; [|split; [done|split; [|done]]].
      * split; [done|]. exists lv. rewrite Hfr by done.
        split; [done|]. split; [done|]. split; [done|]. rewrite El.
        split; [done|].
        eapply pshape_ext; [|exact Hsr]. intros x Hx.
        apply Hfr; [intros H; by apply (Hdisj x)|by intros ->].
      * intros x Hx Hxn. apply Hfr; [|done].
        intros H. apply Hx, elem_of_app. by left.
    + apply pshape_Leaf in Hsl as ->.
      rewrite lookup_insert_ne by done. rewrite Hl. cbn [mbind option_bind].
      eexists _, a. split; [done|]. split; [|split; [apply lookup_insert_eq|split]].
      * split; [done|]. eexists. rewrite lookup_insert_ne by done.
        rewrite lookup_insert_eq. split; [done|].
        split; [done|]. split; [done|]. split.
        -- split; [done|]. eexists. rewrite lookup_insert_eq. by simpl.
        -- eapply pshape_ext; [|exact Hsr]. intros x Hx.
           rewrite !lookup_insert_ne; [done|by intros ->|by intros ->].
      * intros x Hx Hxn. rewrite !lookup_insert_ne; [done| |done].
        intros ->. apply Hx, elem_of_app. right. left.
      * intros x Hxn. rewrite lookup_insert_ne by done.
        destruct (decide (x = a)) as [->|Hxa].
        -- by rewrite lookup_insert_eq, Ha.
        -- by rewrite lookup_insert_ne.
  - destruct (PriceLevel.right lv) as [r0|] eqn:Er.
    + destruct (IHr fuel (Some a) r0 Hsr Hnr Hndr Hl
                  ltac:(cbn [height] in Hh; lia))
        as (L' & above & -> & Hs' & Hn' & Hfr & Hff).
      exists L', above. split; [done|]. split; [|split; [done|split; [|done]]].
      * split; [done|]. exists lv. rewrite Hfr by done.
        split; [done|]. split; [done|]. split; [done|]. rewrite Er.
        split; [|done].
        eapply pshape_ext; [|exact Hsl]. intros x Hx.
        apply Hfr; [by apply Hdisj|by intros ->].
      * intros x Hx Hxn. apply Hfr; [|done].
        intros H. apply Hx, elem_of_app. by right; right.
    + apply pshape_Leaf in Hsr as ->.
      rewrite lookup_insert_ne by done. rewrite Hl. cbn [mbind option_bind].
      eexists _, a. split; [done|]. split; [|split; [apply lookup_insert_eq|split]].
      * split; [done|]. eexists. rewrite lookup_insert_ne by done.
        rewrite lookup_insert_eq. split; [done|].
        split; [done|]. split; [done|]. split.
        -- eapply pshape_ext; [|exact Hsl]. intros x Hx.
           rewrite !lookup_insert_ne; [done|by intros ->|by intros ->].
        -- split; [done|]. eexists. rewrite lookup_insert_eq. by simpl.
      * intros x Hx Hxn. rewrite !lookup_insert_ne; [done| |done].
        intros ->. apply Hx, elem_of_app. right. left.
      * intros x Hxn. rewrite lookup_insert_ne by done.
        destruct (decide (x = a)) as [->|Hxa].
        -- by rewrite lookup_insert_eq, Ha.
        -- by rewrite lookup_insert_ne.
Qed.

(** X28.  [insert_level] keeps the parent pointers of the index
    consistent.  On a side whose index is a tree of distinct handed-out
    slots with consistent parent pointers (as the empty index of a new book
    is), while a pool slot is left: the call returns the next slot, now an
    empty level of the price that hangs as a leaf where the descent by
    price ends, its [parent] being the node above it; the index is again
    such a tree, one deeper at most; the levels that were there keep their
    price and FIFO fields, and the other side and the best pointers are
    not touched. *)
Theorem X28_insert_level_keeps_the_parent_pointers fuel p s b t :
  linked_index fuel s b t →
  (OrderBook.pool_index_ b < OrderBook.POOL_SIZE)%nat →
  linked_index fuel s OrderBook.init Leaf
  ∧ ∃ b',
      OrderBook.insert_level fuel p s b = Some (OrderBook.pool_index_ b, b')
      ∧ linked_index (S fuel) s b' (ins (OrderBook.pool_index_ b) p t)
      ∧ level_data (OrderBook.price_level_pool_ b')
          (ins (OrderBook.pool_index_ b) p t)
        ≡ₚ Some (p, 0, 0, nullptr, nullptr)
           :: level_data (OrderBook.price_level_pool_ b) t
      ∧ OrderBook.root (OrderBook.contra_side s) b'
        = OrderBook.root (OrderBook.contra_side s) b
      ∧ (∀ s0, OrderBook.best s0 b' = OrderBook.best s0 b).
Proof.
  intros (Hs & Hnd & Hlt & Hh) Hsz. split.
  { split; [by destruct s|]. split; [apply NoDup_nil_2|].
    split; [constructor|simpl; lia]. }
  unfold OrderBook.insert_level. rewrite decide_True by done.
  set (new := OrderBook.pool_index_ b).
  assert (Hnew : new ∉ addrs t).
  { intros Hin. rewrite Forall_forall in Hlt. specialize (Hlt _ Hin).
    unfold new in Hlt. lia. }
  assert (Hwf : ∀ (b' : OrderBook.t),
            pshape (OrderBook.price_level_pool_ b') nullptr (OrderBook.root s b')
              (ins new p t) →
            OrderBook.pool_index_ b' = S new →
            linked_index (S fuel) s b' (ins new p t)).
  { intros b' Hs' Hpi. split; [done|].
    split; [rewrite addrs_ins; by apply NoDup_cons|].
    split.
    - rewrite addrs_ins, Hpi. constructor; [lia|].
      eapply Forall_impl; [exact Hlt|]. simpl. intros x Hx. unfold new. lia.
    - pose proof (height_ins new p t). lia. }
  assert (Hdata : ∀ L' : PriceLevel.pool,
            L' !! new = Some (PriceLevel.make p) ∨
            (∃ par, L' !! new
                    = Some (PriceLevel.set_parent par (PriceLevel.make p))) →
            (∀ a, a ≠ new → fifo_fields <$> L' !! a
                            = fifo_fields <$> OrderBook.price_level_pool_ b !! a) →
            level_data L' (ins new p t)
            ≡ₚ Some (p, 0, 0, nullptr, nullptr)
               :: level_data (OrderBook.price_level_pool_ b) t).
  { intros L' Hn Hff. unfold level_data. rewrite addrs_ins. cbn [fmap list_fmap].
    apply Permutation_cons.
    - destruct Hn as [->|[par ->]]; done.
    - erewrite list_fmap_ext; [reflexivity|].
      intros i a Ha. apply Hff. intros ->.
      apply Hnew, list_elem_of_lookup. eauto. }
  assert (Hroot : OrderBook.root s
                    (OrderBook.set_pool (<[new := PriceLevel.make p]>
                        (OrderBook.price_level_pool_
                           (OrderBook.set_pool_index_ (S new) b)))
                       (OrderBook.set_pool_index_ (S new) b))
                  = OrderBook.root s b) by (by destruct s).
  rewrite Hroot.
  destruct (OrderBook.root s b) as [r|] eqn:Er.
  - cbn [OrderBook.price_level_pool_ OrderBook.set_pool
         OrderBook.set_pool_index_].
    destruct (insert_below_pshape (<[new := PriceLevel.make p]>
                                     (OrderBook.price_level_pool_ b))
                p new t fuel nullptr r)
      as (L' & above & Hib & Hs' & Hn' & Hfr & Hff); try done.
    { eapply pshape_ext; [|exact Hs]. intros x Hx.
      rewrite lookup_insert_ne; [done|]. by intros <-. }
    { apply lookup_insert_eq. }
    simpl. rewrite Hib. simpl. eexists. split; [reflexivity|].
    split; [apply Hwf; [|done]|].
    { simpl. by destruct s; simpl in *; rewrite Er. }
    split; [|split; [by destruct s|by intros []]].
    simpl. apply Hdata.
    + right. by exists (Some above).
    + intros a Hne. rewrite Hff by done. by rewrite lookup_insert_ne.
  - apply pshape_Leaf in Hs as ->.
    eexists. split; [reflexivity|].
    split; [apply Hwf|].
    { destruct s; simpl; (split; [done|]); eexists;
        (split; [apply lookup_insert_eq|by simpl]). }
    { by destruct s. }
    split; [|split; [by destruct s|by intros []; destruct s]].
    apply Hdata.
    + left. destruct s; simpl; apply lookup_insert_eq.
    + intros a Hne. destruct s; simpl; by rewrite lookup_insert_ne.
Qed.

Lemma three_bids_linked : linked_index 16 BUY book_three_bids tree_three_bids.
Proof.
  split; [exact three_bids_pshape|].
  split; [apply (bool_decide_unpack _); vm_compute; exact I|].
  split; [|simpl; lia].
  unfold tree_three_bids. cbn [addrs app].
  repeat (apply Forall_cons; split;
            [apply Nat.ltb_lt; vm_compute; reflexivity|]).
  apply Forall_nil_2.
Qed.

Lemma X28_insert_level_keeps_the_parent_pointers_witness :
  linked_index 16 BUY OrderBook.init Leaf
  ∧ ∃ b',
      OrderBook.insert_level 16 95 BUY book_three_bids
      = Some (OrderBook.pool_index_ book_three_bids, b')
      ∧ linked_index 17 BUY b'
          (ins (OrderBook.pool_index_ book_three_bids) 95 tree_three_bids)
      ∧ level_data (OrderBook.price_level_pool_ b')
          (ins (OrderBook.pool_index_ book_three_bids) 95 tree_three_bids)
        ≡ₚ Some (95, 0, 0, nullptr, nullptr)
           :: level_data (OrderBook.price_level_pool_ book_three_bids)
                tree_three_bids
      ∧ OrderBook.root (OrderBook.contra_side BUY) b'
        = OrderBook.root (OrderBook.contra_side BUY) book_three_bids
      ∧ (∀ s0, OrderBook.best s0 b' = OrderBook.best s0 book_three_bids).
Proof.
  apply (X28_insert_level_keeps_the_parent_pointers 16 95 BUY book_three_bids
           tree_three_bids).
  - exact three_bids_linked.
  - apply Nat.ltb_lt. vm_compute. reflexivity.
Defined.

(** [pshape] looks at the price and the three tree pointers only. *)
Lemma pshape_fields (L L' : PriceLevel.pool) t :
  ∀ par rt,
    (∀ a lv, a ∈ addrs t → L !! a = Some lv →
             ∃ lv', L' !! a = Some lv'
                    ∧ tree_fields lv' = tree_fields lv
                    ∧ PriceLevel.parent lv' = PriceLevel.parent lv) →
    pshape L par rt t → pshape L' par rt t.
Proof.
  induction t as [|tl IHl a p tr IHr]; intros par rt Hext Hs; [done|].
  cbn [pshape] in *. destruct Hs as (-> & lv & Ha & Hp & Hpa & Hl & Hr).
  split; [done|].
  destruct (Hext a lv ltac:(cbn [addrs]; apply elem_of_app; right; left) Ha)
    as (lv' & Ha' & [= E1 E2 E3] & E4).
  exists lv'. split; [done|]. split; [congruence|]. split; [congruence|].
  rewrite E2, E3.
  split; [apply IHl|apply IHr]; try done; intros x lx Hx; apply Hext;
    cbn [addrs]; apply elem_of_app; [by left|by right; right].
Qed.

Lemma height_tree_remove a t : (height (tree_remove a t) ≤ height t)%nat.
Proof.
  revert a. induction t as [|tl IHl x p tr IHr]; intros a; [done|].
  cbn [tree_remove]. destruct (decide (x = a)).
  - destruct tl as [|tll l pl tlr], tr as [|trl r pr trr]; cbn [height]; try lia.
    destruct (tree_min _) as [[s ps]|]; [|simpl; lia].
    cbn [height]. specialize (IHr s). cbn [height] in IHr. lia.
  - cbn [height]. specialize (IHl a). specialize (IHr a). lia.
Qed.

(** The best pointer recomputed on a side whose index is the tree [t]. *)
Lemma update_best_side s fuel b t :
  pshape (OrderBook.price_level_pool_ b) nullptr (OrderBook.root s b) t →
  (height t ≤ fuel)%nat →
  ∃ bb,
    match s with
    | BUY => OrderBook.update_best_bid fuel b
    | SELL => OrderBook.update_best_ask fuel b
    end = Some (OrderBook.set_best s bb b)
    ∧ (bb ≫= λ a, PriceLevel.price <$> OrderBook.price_level_pool_ b !! a)
      = extreme s (keys t)
    ∧ (bb = nullptr ↔ t = Leaf).
Proof.
  intros Hs Hh. apply pshape_shape in Hs.
  unfold OrderBook.update_best_bid, OrderBook.update_best_ask.
  destruct s; cbn [OrderBook.root extreme] in *.
  - destruct (OrderBook.bid_tree_root_ b) as [r|] eqn:Er.
    + destruct (rightmost_spec _ t fuel r Hs ltac:(lia)) as (m & lvm & Hm & Hlm & Hlast).
      rewrite Hm. exists (Some m). split; [done|]. simpl. rewrite Hlm. simpl.
      split; [done|]. split; [done|]. intros ->. by destruct Hs.
    + exists nullptr. split; [done|].
      assert (t = Leaf) as -> by (by destruct t; [|destruct Hs]). done.
  - destruct (OrderBook.ask_tree_root_ b) as [r|] eqn:Er.
    + destruct (leftmost_tree _ t fuel r Hs ltac:(lia)) as (m & lvm & Hm & Hlm & Hhead).
      rewrite Hm. exists (Some m). split; [done|]. simpl. rewrite Hlm. simpl.
      split; [done|]. split; [done|]. intros ->. by destruct Hs.
    + exists nullptr. split; [done|].
      assert (t = Leaf) as -> by (by destruct t; [|destruct Hs]). done.
Qed.

(** X29.  [cancel_order] of the only order of a level.  The order rests
    alone in its level, and the index of its side is a tree of distinct
    slots with consistent parent pointers in which the level stands at
    position [i]: the call returns; the order record has its three
    pointers nulled; the id leaves the id map and [order_count_] drops by
    one; the level is removed from the index, which is again such a tree
    and holds, in order, the levels of before without that one; the other
    side is not touched.  If the level was the best of its side, the best
    pointer is recomputed and designates the best remaining price (null
    when none remains); otherwise the best pointer is left as it is. *)
Theorem X29_cancel_of_the_last_order_removes_the_level
  fuel id a o level lv t i (h : heap) b :
  OrderBook.orders_ b !! id = Some a →
  h !! a = Some o →
  Order.parent_level o = Some level →
  OrderBook.price_level_pool_ b !! level = Some lv →
  dll h level lv [a] →
  linked_index fuel (Order.side o) b t → bst t →
  addrs t !! i = Some level →
  ∃ h' b',
    OrderBook.cancel_order fuel id h b = Some (h', b')
    ∧ h' !! a = Some (Order.set_prev nullptr
                        (Order.set_next nullptr
                           (Order.set_parent_level nullptr o)))
    ∧ (∀ x, x ≠ a → h' !! x = h !! x)
    ∧ OrderBook.orders_ b' = delete id (OrderBook.orders_ b)
    ∧ OrderBook.order_count_ b' = u64 (OrderBook.order_count_ b - 1)
    ∧ linked_index fuel (Order.side o) b' (tree_remove level t)
    ∧ bst (tree_remove level t)
    ∧ level_data (OrderBook.price_level_pool_ b') (tree_remove level t)
      = delete i (level_data (OrderBook.price_level_pool_ b) t)
    ∧ OrderBook.root (OrderBook.contra_side (Order.side o)) b'
      = OrderBook.root (OrderBook.contra_side (Order.side o)) b
    ∧ OrderBook.best (OrderBook.contra_side (Order.side o)) b'
      = OrderBook.best (OrderBook.contra_side (Order.side o)) b
    ∧ (OrderBook.best (Order.side o) b = Some level →
       best_price (Order.side o) b'
       = extreme (Order.side o) (keys (tree_remove level t))
       ∧ (OrderBook.best (Order.side o) b' = nullptr
          ↔ tree_remove level t = Leaf))
    ∧ (OrderBook.best (Order.side o) b ≠ Some level →
       OrderBook.best (Order.side o) b' = OrderBook.best (Order.side o) b).
Proof.
  intros Hid Ho Hpl HL Hd (Hs & Hnd & Hlt & Hh) Hbst Hi.
  pose proof Hd as (_ & _ & _ & Hl & Hv & Hc & _).
  destruct (Hl 0%nat a eq_refl) as (o0 & Ho0 & Hnx & Hpv & _).
  rewrite Ho in Ho0. injection Ho0 as <-. simpl in Hnx, Hpv.
  destruct (PriceLevel_remove_order_spec level a h
              (OrderBook.price_level_pool_ b) lv o HL Ho)
    as (h1 & Hrm & Ha1 & Hfr1).
  { intros p E. by rewrite Hpv in E. }
  { intros n E. by rewrite Hnx in E. }
  rewrite Hpv, Hnx in Hrm. simpl in Hc.
  set (lv1 := PriceLevel.mk _ _ _ _ _ _ _ _) in Hrm.
  set (L1 := <[level := lv1]> (OrderBook.price_level_pool_ b)) in *.
  assert (Hcount : PriceLevel.order_count lv1 = 0) by (simpl; by rewrite Hc).
  assert (Hs1 : pshape L1 nullptr (OrderBook.root (Order.side o) b) t).
  { eapply pshape_fields; [|exact Hs]. intros x lx Hx Hlx. unfold L1.
    destruct (decide (x = level)) as [->|Hne].
    - rewrite lookup_insert_eq. rewrite HL in Hlx. injection Hlx as <-.
      by eexists.
    - rewrite lookup_insert_ne by done. by eexists. }
  destruct (remove_level_tree t fuel L1 nullptr (OrderBook.root (Order.side o) b)
              (OrderBook.root (Order.side o) b) level i Hs1 Hnd Hi Hh eq_refl)
    as (L2 & rt2 & c2 & Hrl & Hs2 & Hpost & Hfr2 & Hdata).
  simpl in Hpost. subst c2.
  destruct (tree_remove_lists t level i Hnd Hi) as [Hk Hsub].
  assert (Hbst2 : bst (tree_remove level t)).
  { unfold bst. rewrite Hk. eapply StronglySorted_sublist; [apply sublist_delete|done]. }
  assert (Hnd2 : NoDup (addrs (tree_remove level t))) by (by eapply sublist_NoDup).
  assert (Hh2 : (height (tree_remove level t) ≤ fuel)%nat).
  { pose proof (height_tree_remove level t). lia. }
  assert (Hdata2 : level_data L2 (tree_remove level t)
                   = delete i (level_data (OrderBook.price_level_pool_ b) t)).
  { rewrite Hdata. unfold level_data. apply list_eq. intros j.
    rewrite !list_lookup_delete. case_decide.
    - rewrite !list_lookup_fmap. destruct (addrs t !! j) as [x|] eqn:Hj; [|done].
      simpl. unfold L1. rewrite lookup_insert_ne; [done|]. intros <-.
      pose proof (NoDup_lookup _ _ _ _ Hnd Hi Hj). lia.
    - rewrite !list_lookup_fmap. destruct (addrs t !! S j) as [x|] eqn:Hj; [|done].
      simpl. unfold L1. rewrite lookup_insert_ne; [done|]. intros <-.
      pose proof (NoDup_lookup _ _ _ _ Hnd Hi Hj). lia. }
  assert (HL1 : L1 !! level = Some lv1) by apply lookup_insert_eq.
  assert (Hh1 : ∀ x, x ≠ a → h1 !! x = h !! x).
  { intros x Hx. rewrite (Hfr1 x Hx), Hpv, Hnx.
    destruct (h !! x); simpl; [|done]. repeat case_decide; done. }
  (* the call *)
  unfold OrderBook.cancel_order. rewrite Hid, Ho. cbn [mbind option_bind].
  rewrite Hpl. cbn [mbind option_bind]. rewrite Hrm. cbn [mbind option_bind].
  cbn [OrderBook.price_level_pool_ OrderBook.set_pool].
  rewrite HL1. cbn [mbind option_bind].
  rewrite decide_True by done. rewrite Ha1. cbn [mbind option_bind].
  cbn [Order.side Order.set_prev Order.set_next Order.set_parent_level].
  set (s := Order.side o) in *.
  replace (OrderBook.root s (OrderBook.set_pool L1 b))
    with (OrderBook.root s b) by (by destruct s).
  rewrite Hrl. cbn [mbind option_bind].
  set (b2 := OrderBook.set_root s rt2
               (OrderBook.set_pool L2 (OrderBook.set_pool L1 b))).
  assert (Hb2 : OrderBook.price_level_pool_ b2 = L2
                ∧ OrderBook.root s b2 = rt2
                ∧ OrderBook.best s b2 = OrderBook.best s b
                ∧ OrderBook.root (OrderBook.contra_side s) b2
                  = OrderBook.root (OrderBook.contra_side s) b
                ∧ OrderBook.best (OrderBook.contra_side s) b2
                  = OrderBook.best (OrderBook.contra_side s) b
                ∧ OrderBook.pool_index_ b2 = OrderBook.pool_index_ b
                ∧ OrderBook.orders_ b2 = OrderBook.orders_ b
                ∧ OrderBook.order_count_ b2 = OrderBook.order_count_ b)
    by (unfold b2; by destruct s).
  destruct Hb2 as (HbL & Hbr & Hbb & Hbcr & Hbcb & Hbpi & Hbo & Hboc).
  assert (Hkeep : ∀ bb,
            let b3 := OrderBook.set_best s bb b2 in
            OrderBook.price_level_pool_ b3 = L2
            ∧ OrderBook.root s b3 = rt2
            ∧ OrderBook.best s b3 = bb
            ∧ OrderBook.root (OrderBook.contra_side s) b3
              = OrderBook.root (OrderBook.contra_side s) b
            ∧ OrderBook.best (OrderBook.contra_side s) b3
              = OrderBook.best (OrderBook.contra_side s) b
            ∧ OrderBook.pool_index_ b3 = OrderBook.pool_index_ b
            ∧ OrderBook.orders_ b3 = OrderBook.orders_ b
            ∧ OrderBook.order_count_ b3 = OrderBook.order_count_ b).
  { intros bb. unfold b2. by destruct s. }
  assert (Hfinal : ∀ b3,
            OrderBook.price_level_pool_ b3 = L2 →
            OrderBook.root s b3 = rt2 →
            OrderBook.root (OrderBook.contra_side s) b3
              = OrderBook.root (OrderBook.contra_side s) b →
            OrderBook.best (OrderBook.contra_side s) b3
              = OrderBook.best (OrderBook.contra_side s) b →
            OrderBook.pool_index_ b3 = OrderBook.pool_index_ b →
            OrderBook.orders_ b3 = OrderBook.orders_ b →
            OrderBook.order_count_ b3 = OrderBook.order_count_ b →
            let b' := OrderBook.set_order_count_ (u64 (OrderBook.order_count_ b3 - 1))
                        (OrderBook.set_orders_ (delete id (OrderBook.orders_ b3)) b3) in
            OrderBook.orders_ b' = delete id (OrderBook.orders_ b)
            ∧ OrderBook.order_count_ b' = u64 (OrderBook.order_count_ b - 1)
            ∧ linked_index fuel s b' (tree_remove level t)
            ∧ bst (tree_remove level t)
            ∧ level_data (OrderBook.price_level_pool_ b') (tree_remove level t)
              = delete i (level_data (OrderBook.price_level_pool_ b) t)
            ∧ OrderBook.root (OrderBook.contra_side s) b'
              = OrderBook.root (OrderBook.contra_side s) b
            ∧ OrderBook.best (OrderBook.contra_side s) b'
              = OrderBook.best (OrderBook.contra_side s) b
            ∧ OrderBook.best s b' = OrderBook.best s b3
            ∧ best_price s b' = best_price s b3).
  { intros b3 E1 E2 E3 E4 E5 E6 E7 b'.
    assert (Hb' : OrderBook.price_level_pool_ b' = L2
                  ∧ OrderBook.root s b' = rt2
                  ∧ OrderBook.pool_index_ b' = OrderBook.pool_index_ b
                  ∧ OrderBook.root (OrderBook.contra_side s) b'
                    = OrderBook.root (OrderBook.contra_side s) b
                  ∧ OrderBook.best (OrderBook.contra_side s) b'
                    = OrderBook.best (OrderBook.contra_side s) b
                  ∧ OrderBook.best s b' = OrderBook.best s b3)
      by (unfold b'; by destruct s).
    destruct Hb' as (F1 & F2 & F3 & F4 & F5 & F6).
    split; [unfold b'; simpl; by rewrite E6|].
    split; [unfold b'; simpl; by rewrite E7|].
    split.
    { split; [by rewrite F1, F2|]. split; [done|].
      split; [|done]. rewrite F3. rewrite Forall_forall in Hlt |- *.
      intros x Hx. apply Hlt. by eapply elem_of_sublist. }
    split; [done|]. split; [by rewrite F1|]. split; [done|]. split; [done|].
    split; [done|]. unfold best_price. by rewrite F6, F1, E1. }
  destruct (decide (Some level = OrderBook.best s b2)) as [Ebest|Ebest].
  - (* the level was the best of its side *)
    destruct (update_best_side s fuel b2 (tree_remove level t))
      as (bb & Hup & Hbp & Hbn); [by rewrite HbL, Hbr|done|].
    assert (Hup' : match s with
                   | BUY => OrderBook.update_best_bid fuel b2
                   | SELL => OrderBook.update_best_ask fuel b2
                   end = Some (OrderBook.set_best s bb b2)) by exact Hup.
    rewrite Hup'. cbn [mbind option_bind].
    destruct (Hkeep bb) as (K1 & K2 & K3 & K4 & K5 & K6 & K7 & K8).
    destruct (Hfinal _ K1 K2 K4 K5 K6 K7 K8)
      as (G1 & G2 & G3 & G4 & G5 & G6 & G7 & G8 & G9).
    eexists _, _. split; [reflexivity|]. split; [done|]. split; [done|].
    do 7 (split; [done|]).
    split.
    + intros _. rewrite G9. unfold best_price. rewrite K3, K1.
      rewrite HbL in Hbp. split; [done|]. by rewrite G8, K3.
    + intros Hne. exfalso. apply Hne. by rewrite <- Hbb.
  - (* another level is the best *)
    destruct (Hfinal b2 HbL Hbr Hbcr Hbcb Hbpi Hbo Hboc)
      as (G1 & G2 & G3 & G4 & G5 & G6 & G7 & G8 & G9).
    eexists _, _. split; [reflexivity|]. split; [done|]. split; [done|].
    do 7 (split; [done|]).
    split.
    + intros E. exfalso. apply Ebest. by rewrite Hbb, E.
    + intros _. by rewrite G8.
Qed.

Lemma third_bid_dll : dll heap_three_bids 2%nat level_third_bid [2%nat].
Proof. dll_concrete. Qed.

Lemma three_bids_bst : bst tree_three_bids.
Proof. unfold bst. simpl. repeat constructor; lia. Qed.

Lemma three_bids_index : index_wf 16 BUY book_three_bids tree_three_bids.
Proof.
  destruct three_bids_linked as (Hp & Hnd & Hlt & Hh).
  split; [exact (pshape_shape _ _ _ _ Hp)|].
  split; [exact three_bids_bst|]. by split; [|split].
Qed.

Lemma X9_find_level_searches_the_index_witness :
  (∃ ls ps r,
     index_levels 16 (OrderBook.price_level_pool_ book_three_bids)
       (OrderBook.root BUY book_three_bids) = Some ls
     ∧ index_prices 16 BUY book_three_bids = Some ps
     ∧ OrderBook.find_level 16 (OrderBook.price_level_pool_ book_three_bids) 110
         (OrderBook.root BUY book_three_bids) = Some r
     ∧ match r with
       | Some a => a ∈ ls
                   ∧ 110 ∈ ps
                   ∧ ∃ lv, OrderBook.price_level_pool_ book_three_bids !! a
                           = Some lv
                           ∧ PriceLevel.price lv = 110
       | None => 110 ∉ ps
       end)
  ∧ OrderBook.find_level 16 (OrderBook.price_level_pool_ book_three_bids) 110
      (OrderBook.root BUY book_three_bids) = Some (Some 2%nat)
  ∧ OrderBook.find_level 16 (OrderBook.price_level_pool_ book_three_bids) 105
      (OrderBook.root BUY book_three_bids) = Some nullptr.
Proof.
  split; [|split; vm_compute; reflexivity].
  exact (X9_find_level_searches_the_index 16 BUY book_three_bids _ 110
           three_bids_index).
Defined.

Lemma X29_cancel_of_the_last_order_removes_the_level_witness :
  ∃ h' b',
    OrderBook.cancel_order 16 3 heap_three_bids book_three_bids = Some (h', b')
    ∧ h' !! 2%nat = Some (Order.set_prev nullptr
                            (Order.set_next nullptr
                               (Order.set_parent_level nullptr third_bid_resting)))
    ∧ (∀ x, x ≠ 2%nat → h' !! x = heap_three_bids !! x)
    ∧ OrderBook.orders_ b' = delete 3 (OrderBook.orders_ book_three_bids)
    ∧ OrderBook.order_count_ b'
      = u64 (OrderBook.order_count_ book_three_bids - 1)
    ∧ linked_index 16 (Order.side third_bid_resting) b'
        (tree_remove 2%nat tree_three_bids)
    ∧ bst (tree_remove 2%nat tree_three_bids)
    ∧ level_data (OrderBook.price_level_pool_ b')
        (tree_remove 2%nat tree_three_bids)
      = delete 2%nat
          (level_data (OrderBook.price_level_pool_ book_three_bids)
             tree_three_bids)
    ∧ OrderBook.root (OrderBook.contra_side (Order.side third_bid_resting)) b'
      = OrderBook.root (OrderBook.contra_side (Order.side third_bid_resting))
          book_three_bids
    ∧ OrderBook.best (OrderBook.contra_side (Order.side third_bid_resting)) b'
      = OrderBook.best (OrderBook.contra_side (Order.side third_bid_resting))
          book_three_bids
    ∧ (OrderBook.best (Order.side third_bid_resting) book_three_bids
       = Some 2%nat →
       best_price (Order.side third_bid_resting) b'
       = extreme (Order.side third_bid_resting)
           (keys (tree_remove 2%nat tree_three_bids))
       ∧ (OrderBook.best (Order.side third_bid_resting) b' = nullptr
          ↔ tree_remove 2%nat tree_three_bids = Leaf))
    ∧ (OrderBook.best (Order.side third_bid_resting) book_three_bids
       ≠ Some 2%nat →
       OrderBook.best (Order.side third_bid_resting) b'
       = OrderBook.best (Order.side third_bid_resting) book_three_bids).
Proof.
  apply (X29_cancel_of_the_last_order_removes_the_level 16 3 2%nat
           third_bid_resting 2%nat level_third_bid tree_three_bids 2%nat
           heap_three_bids book_three_bids).
  - vm_compute. reflexivity.
  - apply default_is_Some, (bool_decide_unpack _). vm_compute. exact I.
  - vm_compute. reflexivity.
  - apply default_is_Some, (bool_decide_unpack _). vm_compute. exact I.
  - exact third_bid_dll.
  - exact three_bids_linked.
  - exact three_bids_bst.
  - reflexivity.
Defined.

Section LoggerFacts.
Import RingLogger.
Variable k : Z.
Hypothesis Hk : 0 <= k < 64.

Lemma elem_of_take_1 {A} (x : A) n l : x ∈ take n l → x ∈ l.
Proof. intros H. eapply elem_of_sublist; [exact H|apply sublist_take]. Qed.

Lemma c_str_no_nul s : Byte.x00 ∉ FeedHandler.c_str s.
Proof.
  induction s as [|b s IH]; simpl; [apply not_elem_of_nil|].
  destruct (Byte.eqb b Byte.x00) eqn:E; [apply not_elem_of_nil|].
  apply not_elem_of_cons. split; [|done].
  intros E'. subst b. by apply Byte.eqb_false in E.
Qed.

Lemma c_str_app_nul s rest :
  Byte.x00 ∉ s → FeedHandler.c_str (s ++ Byte.x00 :: rest) = s.
Proof.
  induction s as [|b s IH]; intros Hn; simpl; [done|].
  apply not_elem_of_cons in Hn as [Hb Hn].
  destruct (Byte.eqb b Byte.x00) eqn:E.
  - apply Byte.byte_dec_bl in E. congruence.
  - by rewrite IH.
Qed.

Lemma c_str_id s : Byte.x00 ∉ s → FeedHandler.c_str s = s.
Proof.
  induction s as [|b s IH]; intros Hn; simpl; [done|].
  apply not_elem_of_cons in Hn as [Hb Hn].
  destruct (Byte.eqb b Byte.x00) eqn:E.
  - apply Byte.byte_dec_bl in E. congruence.
  - by rewrite IH.
Qed.

(** The message array after [strncpy] and the write of the final NUL. *)
Lemma message_written dest msg :
  length dest = 120%nat →
  let m := <[119%nat := Byte.x00]> (strncpy dest msg 119) in
  length m = 120%nat
  ∧ FeedHandler.c_str m = take 119 (FeedHandler.c_str msg).
Proof.
  intros Hd m. unfold m, strncpy.
  set (s := take 119 (FeedHandler.c_str msg)).
  assert (Hs : (length s ≤ 119)%nat) by (unfold s; rewrite length_take; lia).
  assert (Hn : Byte.x00 ∉ s).
  { intros H. apply (c_str_no_nul msg). unfold s in H.
    by eapply elem_of_take_1. }
  split.
  - rewrite length_insert, !length_app, length_replicate, length_drop. lia.
  - replace 119%nat with (length s + (119 - length s))%nat at 1 by lia.
    rewrite insert_app_r.
    destruct (119 - length s)%nat as [|j] eqn:Ej.
    + simpl. destruct (drop 119 dest) as [|d rest] eqn:Edr.
      { apply (f_equal length) in Edr. rewrite length_drop in Edr.
        simpl in Edr. lia. }
      simpl. by apply c_str_app_nul.
    + simpl. by apply c_str_app_nul.
Qed.

Lemma same_line_line e e' : same_line e e' → line e = line e'.
Proof. intros [E1 E2]. unfold line. by rewrite E1, E2. Qed.

Lemma dump_ext (l l' : list LogEntry) :
  line <$> l = line <$> l' →
  foldr (λ entry out, line entry +:+ out) "" l
  = foldr (λ entry out, line entry +:+ out) "" l'.
Proof.
  revert l'. induction l as [|e l IH]; intros [|e' l'] H; try done.
  injection H as E1 E2. simpl. by rewrite E1, (IH l').
Qed.

Lemma kept_step c n i :
  0 < c → 0 <= n → 0 <= i < c → i <= n →
  kept c (n + 1) i = if decide (i = n `mod` c) then n else kept c n i.
Proof.
  intros Hc Hn Hi Hin. unfold kept.
  pose proof (Z.div_mod n c ltac:(lia)) as Hdm.
  pose proof (Z.mod_pos_bound n c Hc) as Hr.
  set (q := n `div` c) in *. set (r := n `mod` c) in *.
  replace (n + 1 - 1 - i) with (n - i) by lia.
  destruct (decide (i = r)) as [->|Hne].
  - rewrite <- (Z.div_unique_pos (n - r) c q 0) by lia. lia.
  - destruct (decide (i < r)).
    + rewrite <- (Z.div_unique_pos (n - i) c q (r - i)) by lia.
      rewrite <- (Z.div_unique_pos (n - 1 - i) c q (r - 1 - i)) by lia. done.
    + rewrite <- (Z.div_unique_pos (n - i) c (q - 1) (c + r - i)) by lia.
      rewrite <- (Z.div_unique_pos (n - 1 - i) c (q - 1) (c + r - i - 1)) by lia.
      done.
Qed.

Lemma kept_range c n i :
  0 < c → 0 <= i < Z.min n c → 0 <= kept c n i < n.
Proof.
  intros Hc Hi. unfold kept.
  pose proof (Z.mul_div_le (n - 1 - i) c Hc).
  pose proof (Z.div_pos (n - 1 - i) c ltac:(lia) Hc). nia.
Qed.

Lemma kept_first c n i : 0 <= i < n → n <= c → kept c n i = i.
Proof.
  intros Hi Hn. unfold kept. rewrite Z.div_small by lia. lia.
Qed.

Lemma Capacity_pos : 0 < Capacity k.
Proof. unfold Capacity. apply Z.pow_pos_nonneg; lia. Qed.

Lemma log_holds es e l :
  holds k es l → Z.of_nat (length es) + 1 < 2 ^ 64 →
  ∃ l', log k e.1 e.2 l = Some l' ∧ holds k (es ++ [e]) l'.
Proof.
  intros (Hh & Hlen & H120 & Hb) Hn.
  pose proof Capacity_pos as Hc.
  set (n := Z.of_nat (length es)) in *.
  assert (Hidx : Z.land (head_ l) (Capacity k - 1) = n `mod` Capacity k).
  { rewrite Hh. unfold Capacity.
    replace (2 ^ k - 1) with (Z.ones k) by (rewrite Z.ones_equiv; lia).
    apply Z.land_ones. lia. }
  pose proof (Z.mod_pos_bound n (Capacity k) Hc) as Hr.
  unfold log. rewrite Hidx.
  destruct (lookup_lt_is_Some_2 (buffer_ l) (Z.to_nat (n `mod` Capacity k)))
    as [old Hold]; [lia|].
  rewrite Hold. cbn [mbind option_bind]. eexists. split; [reflexivity|].
  assert (Hold120 : length (message old) = 120%nat).
  { rewrite Forall_forall in H120. apply H120.
    by eapply list_elem_of_lookup_2. }
  destruct (message_written (message old) e.2 Hold120) as [Hm1 Hm2].
  change (message_size - 1)%nat with 119%nat.
  unfold holds. cbn [head_ buffer_].
  rewrite length_app. cbn [length].
  replace (Z.of_nat (length es + 1)) with (n + 1) by (unfold n; lia).
  split; [rewrite Hh; unfold u64; apply Z.mod_small; lia|].
  split; [by rewrite length_insert|].
  split.
  { apply Forall_insert; [done|]. done. }
  intros i Hi.
  rewrite (kept_step (Capacity k) n i) by lia.
  destruct (decide (i = n `mod` Capacity k)) as [->|Hne].
  - eexists. split; [apply list_lookup_insert_eq; lia|].
    rewrite lookup_app_r by (unfold n; lia).
    replace (Z.to_nat n - length es)%nat with 0%nat by (unfold n; lia).
    simpl. split; [done|]. simpl. rewrite Hm2.
    symmetry. apply c_str_id. intros H. apply (c_str_no_nul e.2).
    by eapply elem_of_take_1.
  - assert (Hi' : 0 <= i < Z.min n (Capacity k)).
    { destruct (decide (n < Capacity k)); [|lia].
      rewrite Z.mod_small in Hne by lia. lia. }
    destruct (Hb i Hi') as (x & Hx & Hsame).
    exists x. rewrite list_lookup_insert_ne by lia. split; [done|].
    pose proof (kept_range (Capacity k) n i Hc Hi') as Hkr.
    rewrite lookup_app_l by (subst n; lia). done.
Qed.

Lemma log_all_holds es : ∀ es0 l,
  holds k es0 l → Z.of_nat (length es0 + length es) < 2 ^ 64 →
  ∃ l', log_all k es l = Some l' ∧ holds k (es0 ++ es) l'.
Proof.
  induction es as [|e es IH]; intros es0 l Hl Hn.
  - exists l. by rewrite app_nil_r.
  - destruct (log_holds es0 e l Hl ltac:(simpl in Hn; lia)) as (l1 & Hlog & Hl1).
    destruct (IH (es0 ++ [e]) l1 Hl1) as (l' & Hall & Hl').
    { rewrite length_app. simpl in *. lia. }
    exists l'. cbn [log_all]. rewrite Hlog. cbn [mbind option_bind].
    split; [done|]. by rewrite <- app_assoc in Hl'.
Qed.

(** X30.  What a dump shows.  After any number (below [2 ^ 64]) of [log]
    calls on a new logger, [head_] is the number of calls and
    [dump_to_file] writes one line per used slot, in slot order, each line
    being the time of a call and the first 119 characters of its message.
    While no more messages than slots were logged these are all the
    messages, oldest first; after that, slot [i] shows the last message
    whose number is [i] modulo the capacity: the older ones are overwritten
    and the file is no longer in the order of time. *)
Theorem X30_dump_shows_the_last_message_of_each_slot buffer es :
  length buffer = Z.to_nat (Capacity k) →
  Forall (λ e, length (message e) = 120%nat) buffer →
  Z.of_nat (length es) < 2 ^ 64 →
  ∃ l,
    log_all k es (RingLogger.mk 0 buffer) = Some l
    ∧ head_ l = Z.of_nat (length es)
    ∧ dump_to_file k l
      = foldr (λ entry out, line entry +:+ out) ""
          (kept_entries (Capacity k) es)
    ∧ (Z.of_nat (length es) <= Capacity k →
       kept_entries (Capacity k) es = logged <$> es).
Proof.
  intros Hlen H120 Hn. pose proof Capacity_pos as Hc.
  destruct (log_all_holds es [] (RingLogger.mk 0 buffer)) as (l & Hall & Hl).
  { split; [done|]. split; [done|]. split; [done|]. simpl. lia. }
  { simpl. lia. }
  simpl in Hl. destruct Hl as (Hh & Hlb & _ & Hb).
  exists l. split; [done|]. split; [done|]. split.
  - unfold dump_to_file. rewrite Hh.
    set (n := Z.of_nat (length es)) in *.
    apply dump_ext. apply list_eq. intros j.
    unfold kept_entries. fold n. rewrite !list_lookup_fmap.
    destruct (decide (Z.of_nat j < Z.min n (Capacity k))) as [Hj|Hj].
    + rewrite lookup_take_lt by lia.
      destruct (Hb (Z.of_nat j) ltac:(lia)) as (x & Hx & Hsame).
      rewrite Nat2Z.id in Hx. rewrite Hx.
      rewrite (lookup_seqZ_lt 0 (Z.min n (Capacity k)) j) by lia.
      simpl. f_equal. rewrite Z.add_0_l. by apply same_line_line.
    + rewrite lookup_take_ge by lia.
      rewrite (lookup_seqZ_ge 0 (Z.min n (Capacity k)) j) by lia. done.
  - intros Hle. unfold kept_entries.
    set (n := Z.of_nat (length es)) in *.
    rewrite Z.min_l by lia. apply list_eq. intros j.
    rewrite !list_lookup_fmap.
    destruct (decide (Z.of_nat j < n)) as [Hj|Hj].
    + rewrite (lookup_seqZ_lt 0 n j) by lia. simpl.
      rewrite Z.add_0_l, kept_first by lia. rewrite Nat2Z.id.
      destruct (lookup_lt_is_Some_2 es j) as [e He]; [unfold n in Hj; lia|].
      by rewrite He.
    + rewrite (lookup_seqZ_ge 0 n j) by lia.
      rewrite lookup_ge_None_2; [done|]. unfold n in Hj. lia.
Qed.

End LoggerFacts.

Lemma X30_dump_shows_the_last_message_of_each_slot_witness :
  ∃ l,
    log_all 2 sample_log (RingLogger.mk 0 sample_buffer) = Some l
    ∧ RingLogger.head_ l = Z.of_nat (length sample_log)
    ∧ RingLogger.dump_to_file 2 l
      = foldr (λ entry out, RingLogger.line entry +:+ out) ""
          (kept_entries (RingLogger.Capacity 2) sample_log)
    ∧ (Z.of_nat (length sample_log) <= RingLogger.Capacity 2 →
       kept_entries (RingLogger.Capacity 2) sample_log = logged <$> sample_log).
Proof.
  apply (X30_dump_shows_the_last_message_of_each_slot 2 ltac:(lia)
           sample_buffer sample_log).
  - reflexivity.
  - repeat constructor.
  - simpl. lia.
Defined.

(** ** A second order under an id that is already resting: the calls return *)

Lemma pshape_lookup (L : PriceLevel.pool) t par rt a :
  pshape L par rt t → a ∈ addrs t → is_Some (L !! a).
Proof.
  intros Hs Ha. apply pshape_shape in Hs.
  destruct (shape_lookup _ _ _ _ Hs Ha) as (lv & -> & _). eauto.
Qed.

Lemma find_or_create_level_linked fuel p s b t :
  linked_index fuel s b t → bst t →
  p ∈ keys t ∨ (OrderBook.pool_index_ b < OrderBook.POOL_SIZE)%nat →
  ∃ level b0 t',
    OrderBook.find_or_create_level fuel p s b = Some (level, b0)
    ∧ linked_index (S fuel) s b0 t'
    ∧ level ∈ addrs t'.
Proof.
  intros (Hs & Hnd & Hlt & Hh) Hb Hor.
  destruct (find_level_spec _ p _ fuel _ (pshape_shape _ _ _ _ Hs) Hb Hh)
    as (r & Hr & Hr').
  unfold OrderBook.find_or_create_level. rewrite Hr. simpl.
  destruct r as [a|].
  { exists a, b, t. split; [done|]. split; [|by destruct Hr'].
    repeat split; try done. lia. }
  destruct Hor as [Hin|Hsz]; [done|].
  unfold OrderBook.insert_level. rewrite decide_True by done.
  set (new := OrderBook.pool_index_ b).
  assert (Hnew : new ∉ addrs t).
  { intros Hin. rewrite Forall_forall in Hlt. specialize (Hlt _ Hin).
    unfold new in Hlt. lia. }
  assert (Hwf : ∀ (b' : OrderBook.t),
            pshape (OrderBook.price_level_pool_ b') nullptr (OrderBook.root s b')
              (ins new p t) →
            OrderBook.pool_index_ b' = S new →
            linked_index (S fuel) s b' (ins new p t)).
  { intros b' Hs' Hpi. split; [done|].
    split; [rewrite addrs_ins; by apply NoDup_cons|].
    split.
    - rewrite addrs_ins, Hpi. constructor; [lia|].
      eapply Forall_impl; [exact Hlt|]. simpl. intros x Hx. unfold new. lia.
    - pose proof (height_ins new p t). lia. }
  assert (Hmem : new ∈ addrs (ins new p t)).
  { rewrite addrs_ins. apply list_elem_of_here. }
  assert (Hroot : OrderBook.root s
                    (OrderBook.set_pool (<[new := PriceLevel.make p]>
                        (OrderBook.price_level_pool_
                           (OrderBook.set_pool_index_ (S new) b)))
                       (OrderBook.set_pool_index_ (S new) b))
                  = OrderBook.root s b) by (by destruct s).
  rewrite Hroot.
  destruct (OrderBook.root s b) as [r|] eqn:Er.
  - cbn [OrderBook.price_level_pool_ OrderBook.set_pool
         OrderBook.set_pool_index_].
    destruct (insert_below_pshape (<[new := PriceLevel.make p]>
                                     (OrderBook.price_level_pool_ b))
                p new t fuel nullptr r)
      as (L' & above & Hib & Hs' & Hn' & Hfr & Hff); try done.
    { eapply pshape_ext; [|exact Hs]. intros x Hx.
      rewrite lookup_insert_ne; [done|]. by intros <-. }
    { apply lookup_insert_eq. }
    simpl. rewrite Hib. simpl. eexists _, _, _. split; [reflexivity|].
    split; [apply Hwf; [|done]|done].
    simpl. by destruct s; simpl in *; rewrite Er.
  - apply pshape_Leaf in Hs as ->.
    eexists _, _, _. split; [reflexivity|].
    split; [apply Hwf|done].
    { destruct s; simpl; (split; [done|]); eexists;
        (split; [apply lookup_insert_eq|by simpl]). }
    { by destruct s. }
Qed.

(** [add_order] returns on a book whose index is well formed, and leaves
    the index well formed, with the level of the order in it. *)
Lemma add_order_linked fuel order (h : heap) b o t :
  h !! order = Some o →
  linked_index fuel (Order.side o) b t → bst t →
  Order.price o ∈ keys t ∨ (OrderBook.pool_index_ b < OrderBook.POOL_SIZE)%nat →
  (∀ level lv tl, OrderBook.price_level_pool_ b !! level = Some lv →
                  PriceLevel.tail_order lv = Some tl →
                  tl ≠ order ∧ is_Some (h !! tl)) →
  best_valid b →
  OrderBook.price_level_pool_ b !! OrderBook.pool_index_ b = None →
  ∃ h1 b1 t' level o1,
    OrderBook.add_order fuel order h b = Some (h1, b1)
    ∧ linked_index (S fuel) (Order.side o) b1 t'
    ∧ h1 !! order = Some o1
    ∧ Order.parent_level o1 = Some level
    ∧ Order.side o1 = Order.side o
    ∧ level ∈ addrs t'.
Proof.
  intros Ho Hli Hb Hor Htl Hbv Hfresh.
  destruct (find_or_create_level_linked _ _ _ _ _ Hli Hb Hor)
    as (level & b0 & t' & Hf & Hli0 & Hin).
  destruct (find_or_create_level_spec _ _ _ _ _ _ Hf Hfresh)
    as (Hord & Hfr & Hcase).
  pose proof Hli0 as (Hs0 & Hnd0 & Hlt0 & Hh0).
  destruct (pshape_lookup _ _ _ _ _ Hs0 Hin) as [lv0 Hlv0].
  assert (Htl0 : ∀ tl, PriceLevel.tail_order lv0 = Some tl →
                       tl ≠ order ∧ is_Some (h !! tl)).
  { intros tl Ht. destruct Hcase as [[-> _]|(_ & lv & Hlv & E)].
    - by eapply Htl.
    - rewrite Hlv0 in Hlv. injection Hlv as <-.
      unfold fifo_fields in E. simpl in E. congruence. }
  pose proof (PriceLevel_add_order_spec level order h _ lv0 o Hlv0 Ho Htl0)
    as Hadd. cbv zeta in Hadd.
  set (h1 := match PriceLevel.tail_order lv0 with
             | Some t0 => _ | None => _ end) in Hadd.
  set (lv1 := PriceLevel.mk _ _ _ _ _ _ _ _) in Hadd.
  assert (Ho1 : ∃ o1, h1 !! order = Some o1
                      ∧ Order.parent_level o1 = Some level
                      ∧ Order.side o1 = Order.side o
                      ∧ Order.order_id o1 = Order.order_id o).
  { unfold h1. destruct (PriceLevel.tail_order lv0) as [t0|] eqn:Et.
    - destruct (Htl0 t0 eq_refl) as [Hne [to Hto]]. rewrite Hto.
      rewrite lookup_insert_ne by done. rewrite lookup_insert_eq.
      eexists. by repeat split.
    - rewrite lookup_insert_eq. eexists. by repeat split. }
  destruct Ho1 as (o1 & Ho1 & Hp1 & Hs1 & Hi1).
  assert (Hbest : ∀ s0, OrderBook.best s0 b0 = OrderBook.best s0 b).
  { destruct Hcase as [[-> _]|_]; [done|].
    unfold OrderBook.find_or_create_level in Hf.
    destruct (OrderBook.find_level _ _ _ _) as [[r|]|]; simpl in Hf;
      [by simplify_eq| |done].
    unfold OrderBook.insert_level in Hf. destruct (decide _); [|done].
    intros s0. destruct (Order.side o); simpl in Hf;
      repeat match type of Hf with
      | match ?r with _ => _ end = _ => destruct r; simpl in Hf
      | (?x ≫= _) = _ => destruct x; simpl in Hf
      end; simplify_eq; by destruct s0. }
  set (s := Order.side o) in *.
  assert (Hpool : ∀ (b' : OrderBook.t),
            OrderBook.price_level_pool_ b'
            = <[level := lv1]> (OrderBook.price_level_pool_ b0) →
            OrderBook.root s b' = OrderBook.root s b0 →
            OrderBook.pool_index_ b' = OrderBook.pool_index_ b0 →
            linked_index (S fuel) s b' t').
  { intros b' E1 E2 E3. split; [|by rewrite E3].
    rewrite E1, E2. eapply pshape_fields; [|exact Hs0].
    intros x lx Hx Hlx. destruct (decide (x = level)) as [->|Hne].
    - rewrite lookup_insert_eq. rewrite Hlv0 in Hlx. injection Hlx as <-.
      by eexists.
    - rewrite lookup_insert_ne by done. by eexists. }
  unfold OrderBook.add_order. rewrite Ho. cbn [mbind option_bind].
  fold s. rewrite Hf. cbn [mbind option_bind]. rewrite Hadd.
  cbn [mbind option_bind OrderBook.price_level_pool_ OrderBook.set_pool].
  rewrite Ho1. cbn [mbind option_bind].
  replace (OrderBook.price_level_pool_
             (OrderBook.set_orders_
                (<[Order.order_id o1 := order]>
                   (OrderBook.orders_ (OrderBook.set_pool
                      (<[level := lv1]> (OrderBook.price_level_pool_ b0)) b0)))
                (OrderBook.set_pool
                   (<[level := lv1]> (OrderBook.price_level_pool_ b0)) b0)))
    with (<[level := lv1]> (OrderBook.price_level_pool_ b0)) by done.
  rewrite lookup_insert_eq. cbn [mbind option_bind]. rewrite Hs1.
  set (b2 := OrderBook.set_orders_ _ _).
  assert (Hb2 : OrderBook.best s b2 = OrderBook.best s b) by (rewrite <- Hbest; done).
  rewrite Hb2.
  destruct (OrderBook.best s b) as [bst0|] eqn:Eb.
  - assert (Hbl : is_Some (<[level := lv1]> (OrderBook.price_level_pool_ b0) !! bst0)).
    { destruct (decide (bst0 = level)) as [->|Hne].
      - rewrite lookup_insert_eq. eauto.
      - rewrite lookup_insert_ne by done.
        destruct (Hbv s bst0 Eb) as [lb Hlb].
        destruct (Hfr _ _ Hlb) as (lb' & -> & _). eauto. }
    destruct Hbl as [bl Hbl]. rewrite Hbl. cbn [mbind option_bind].
    destruct (match s with BUY => _ | SELL => _ end);
      cbn [mbind option_bind]; eexists _, _, t', level, o1;
      (split; [reflexivity|]);
      (split; [apply Hpool; unfold b2; by destruct s|done]).
  - cbn [mbind option_bind]. eexists _, _, t', level, o1.
    split; [reflexivity|].
    split; [apply Hpool; unfold b2; by destruct s|done].
Qed.

(** [cancel_order] returns when the order is linked in a level of a well
    formed index. *)
Lemma cancel_order_returns fuel id a o level lv (h : heap) b t :
  OrderBook.orders_ b !! id = Some a →
  h !! a = Some o →
  Order.parent_level o = Some level →
  OrderBook.price_level_pool_ b !! level = Some lv →
  (∀ p, Order.prev o = Some p → p ≠ a ∧ is_Some (h !! p)) →
  (∀ n, Order.next o = Some n →
        n ≠ a ∧ Order.prev o ≠ Some n ∧ is_Some (h !! n)) →
  linked_index fuel (Order.side o) b t →
  level ∈ addrs t →
  is_Some (OrderBook.cancel_order fuel id h b).
Proof.
  intros Hid Ho Hpl HL Hp Hn (Hs & Hnd & Hlt & Hh) Hin.
  destruct (PriceLevel_remove_order_spec level a h
              (OrderBook.price_level_pool_ b) lv o HL Ho Hp Hn)
    as (h1 & Hrm & Ha1 & _).
  set (lv1 := PriceLevel.mk _ _ _ _ _ _ _ _) in Hrm.
  set (L1 := <[level := lv1]> (OrderBook.price_level_pool_ b)) in *.
  assert (HL1 : L1 !! level = Some lv1) by apply lookup_insert_eq.
  unfold OrderBook.cancel_order. rewrite Hid, Ho. cbn [mbind option_bind].
  rewrite Hpl. cbn [mbind option_bind]. rewrite Hrm. cbn [mbind option_bind].
  cbn [OrderBook.price_level_pool_ OrderBook.set_pool].
  rewrite HL1. cbn [mbind option_bind].
  destruct (decide (PriceLevel.order_count lv1 = 0)); [|eauto].
  rewrite Ha1. cbn [mbind option_bind].
  cbn [Order.side Order.set_prev Order.set_next Order.set_parent_level].
  set (s := Order.side o) in *.
  apply list_elem_of_lookup in Hin as [i Hi].
  assert (Hs1 : pshape L1 nullptr (OrderBook.root s b) t).
  { eapply pshape_fields; [|exact Hs]. intros x lx Hx Hlx. unfold L1.
    destruct (decide (x = level)) as [->|Hne].
    - rewrite lookup_insert_eq. rewrite HL in Hlx. injection Hlx as <-.
      by eexists.
    - rewrite lookup_insert_ne by done. by eexists. }
  destruct (remove_level_tree t fuel L1 nullptr (OrderBook.root s b)
              (OrderBook.root s b) level i Hs1 Hnd Hi Hh eq_refl)
    as (L2 & rt2 & c2 & Hrl & Hs2 & Hpost & _).
  simpl in Hpost. subst c2.
  replace (OrderBook.root s (OrderBook.set_pool L1 b))
    with (OrderBook.root s b) by (by destruct s).
  rewrite Hrl. cbn [mbind option_bind].
  set (b2 := OrderBook.set_root s rt2
               (OrderBook.set_pool L2 (OrderBook.set_pool L1 b))).
  destruct (decide (Some level = OrderBook.best s b2)); [|eauto].
  destruct (update_best_side s fuel b2 (tree_remove level t))
    as (bb & Hup & _).
  { unfold b2. by destruct s. }
  { pose proof (height_tree_remove level t). lia. }
  assert (Hup' : match s with
                 | BUY => OrderBook.update_best_bid fuel b2
                 | SELL => OrderBook.update_best_ask fuel b2
                 end = Some (OrderBook.set_best s bb b2)) by exact Hup.
  rewrite Hup'. cbn [mbind option_bind]. eauto.
Qed.

Section ShadowedOrder.
Import MatchingEngine.


End ShadowedOrder.

Lemma one_bid_linked :
  linked_index 16 BUY book_one_bid (Node Leaf 0%nat 100000 Leaf).
Proof.
  split.
  { cbn [pshape]. split; [vm_compute; reflexivity|]. eexists.
    split; [vm_compute; reflexivity|]. by simpl. }
  split; [apply NoDup_singleton|].
  split; [|simpl; lia].
  constructor; [|constructor]. apply Nat.ltb_lt. vm_compute. reflexivity.
Qed.

